(** * Vienna Game Job System: jobs, queues, completion protocol, coroutine promises

    A shallow embedding of [GameJobSystem/VEGameJobSystem2.h] (classes [Job],
    [JobQueue<FIFO>], [JobSystem], and [Job::on_finished] /
    [Job::child_finished]) and of the coroutine layer [VECoro.h]
    ([vgjs::schedule] for coroutines, [Coro_promise_base], [Coro_promise<T>],
    the awaiters and [Coro<T>]).

    Objects live in a memory [gmap ptr Job]; a C++ pointer is an
    [option ptr] with [None] for [nullptr].  Every operation is a function
    in the monad [M] of state and failure: dereferencing a pointer that is
    not allocated, or indexing a vector out of range, is undefined
    behaviour ([UB]); loops and the mutual recursion of the completion
    protocol take fuel.

    The model is sequential: one thread executes one operation at a time,
    so a compare-and-swap is a test-and-store on the shared state, and the
    thread-local variables of the executing thread are passed as a
    [Thread] record.

    [VECoro.h] is written against the job base class [Job_base] and the
    job system of [VEGameJobSystem.h], a header that is not among the
    sources.  The model puts [class Job] and [class JobSystem] of
    [VEGameJobSystem2.h] in their place: a promise is executed by
    [Job::operator()], finishes through [Job::on_finished] and
    [Job::child_finished], and is scheduled by
    [JobSystem::schedule(Job*, int32_t)].  What exists in the absent
    header only (the affinity member [m_thread_index], [thread_index()],
    [is_job()], the overload of [schedule] for vectors, the scheduler
    that reads the affinity of a job) is modelled from the specification
    and marked as such where it is defined. *)

From stdpp Require Import base option list gmap.
From Stdlib Require Import ZArith Lia.

Local Open Scope Z_scope.

(** ** Machine integers *)

Module Int32.

Definition min_signed : Z := - 2 ^ 31.
Definition max_signed : Z := 2 ^ 31 - 1.

(** Two's complement reduction to the range of [int] / [int32_t]; this
    is what an operation on [std::atomic<int>] stores, and what a cast
    from [uint32_t] yields. *)
Definition wrap (z : Z) : Z := (z + 2 ^ 31) mod 2 ^ 32 - 2 ^ 31.

Definition in_range (z : Z) : Prop := min_signed <= z <= max_signed.

End Int32.

(** ** Pointers, coroutine bodies and the job record *)

Definition ptr := nat.
Bind Scope nat_scope with ptr.

(** The code of a coroutine from a suspension point on.  The forms are
    the ones the promise type of [VECoro.h] gives a meaning to:
    [co_return] of a value (through [return_value] and [final_suspend]);
    [co_await] on a [Coro<T>] (through [awaitable_coro]); [co_await] on
    an [int] (through [awaitable_resume_on]); [co_await] on a
    [std::pmr::vector<Coro<T>>] (through [awaitable_coro], whose awaiter
    tests [is_pmr_vector]); [co_await] on a tuple of such vectors
    (through [awaitable_tuple]); and, as in the job bodies of the test
    program, a call of [schedule] on a coroutine, after which the body
    goes on without suspending. *)
Inductive coro_body : Type :=
| co_return (v : Z)
| co_await_coro (child : ptr) (rest : coro_body)
| co_await_thread (k : Z) (rest : coro_body)
| co_schedule (child : ptr) (rest : coro_body)
| co_await_coros (children : list ptr) (rest : coro_body)
| co_await_tuple (children : list (list ptr)) (rest : coro_body).

(** [class Job] of [VEGameJobSystem2.h] (the first four members) together
    with what [Coro_promise_base] and [Coro_promise<int>] add to it.
    [Coro_promise<T>] is the only concrete job class of the sources, so
    every object of the memory is one.  [m_thread_index] is written by
    [Coro<T>::operator()] and by the awaiter of [awaitable_resume_on],
    but it is declared in [Job_base], which is not among the sources:
    the member is modelled from the specification (the affinity of the
    job record, an optional worker index), and no function of
    [VEGameJobSystem2.h] reads it.  [m_coro] and [m_done] stand for the
    coroutine frame behind the [coroutine_handle] obtained by
    [from_promise]: the code that remains after the current suspension
    point, and whether the coroutine is suspended at its final
    suspension point ([done()]). *)
Record Job : Type := mkJob {
  m_next : option ptr;
  m_children : Z;
  m_parent : option ptr;
  m_continuation : option ptr;
  m_thread_index : Z;
  m_coro_parent : option ptr;
  m_value : Z;
  m_coro : coro_body;
  m_done : bool
}.

Definition set_next (x : option ptr) (j : Job) : Job :=
  mkJob x (m_children j) (m_parent j) (m_continuation j) (m_thread_index j)
        (m_coro_parent j) (m_value j) (m_coro j) (m_done j).
Definition set_children (x : Z) (j : Job) : Job :=
  mkJob (m_next j) x (m_parent j) (m_continuation j) (m_thread_index j)
        (m_coro_parent j) (m_value j) (m_coro j) (m_done j).
Definition set_parent (x : option ptr) (j : Job) : Job :=
  mkJob (m_next j) (m_children j) x (m_continuation j) (m_thread_index j)
        (m_coro_parent j) (m_value j) (m_coro j) (m_done j).
Definition set_continuation (x : option ptr) (j : Job) : Job :=
  mkJob (m_next j) (m_children j) (m_parent j) x (m_thread_index j)
        (m_coro_parent j) (m_value j) (m_coro j) (m_done j).
Definition set_thread_index (x : Z) (j : Job) : Job :=
  mkJob (m_next j) (m_children j) (m_parent j) (m_continuation j) x
        (m_coro_parent j) (m_value j) (m_coro j) (m_done j).
Definition set_coro_parent (x : option ptr) (j : Job) : Job :=
  mkJob (m_next j) (m_children j) (m_parent j) (m_continuation j) (m_thread_index j)
        x (m_value j) (m_coro j) (m_done j).
Definition set_value (x : Z) (j : Job) : Job :=
  mkJob (m_next j) (m_children j) (m_parent j) (m_continuation j) (m_thread_index j)
        (m_coro_parent j) x (m_coro j) (m_done j).
Definition set_frame (c : coro_body) (d : bool) (j : Job) : Job :=
  mkJob (m_next j) (m_children j) (m_parent j) (m_continuation j) (m_thread_index j)
        (m_coro_parent j) (m_value j) c d.

(** ** The state: memory, the queues of the job system, the call log *)

(** A queue of the job system: the central one, or the local one of a
    worker ([m_local_queues[i]]). *)
Inductive queue_ref : Type :=
| Central
| Local (i : nat).

(** Entries of the call log (ghost state): which of the three protocol
    functions was entered, on which job. *)
Inductive call : Type :=
| call_schedule (job : ptr) (thd : Z)
| call_on_finished (job : ptr)
| call_child_finished (job : ptr).

(** [m_thread_count], [m_local_queues] and [m_central_queue] are the
    members of [class JobSystem]; a [JobQueue] is its [m_head]. *)
Record State : Type := mkState {
  mem : gmap ptr Job;
  m_thread_count : Z;
  m_local_queues : list (option ptr);
  m_central_queue : option ptr;
  calls : list call
}.

Definition set_mem (m : gmap ptr Job) (s : State) : State :=
  mkState m (m_thread_count s) (m_local_queues s) (m_central_queue s) (calls s).
Definition set_local_queues (l : list (option ptr)) (s : State) : State :=
  mkState (mem s) (m_thread_count s) l (m_central_queue s) (calls s).
Definition set_central_queue (q : option ptr) (s : State) : State :=
  mkState (mem s) (m_thread_count s) (m_local_queues s) q (calls s).
Definition add_call (c : call) (s : State) : State :=
  mkState (mem s) (m_thread_count s) (m_local_queues s) (m_central_queue s) (calls s ++ [c]).

(** The thread-local variables of [class JobSystem] for the executing
    thread: [m_thread_index] and [m_current_job]. *)
Record Thread : Type := mkThread {
  thread_index : Z;
  current_job : option ptr
}.

(** ** The monad *)

Inductive result (A : Type) : Type :=
| Ok (a : A)
| UB
| OutOfFuel.
Arguments Ok {A} a.
Arguments UB {A}.
Arguments OutOfFuel {A}.

Definition M (A : Type) : Type := State → result (A * State).

#[global] Instance M_ret : MRet M := λ A a s, Ok (a, s).
#[global] Instance M_bind : MBind M := λ A B f m s,
  match m s with
  | Ok (a, s') => f a s'
  | UB => UB
  | OutOfFuel => OutOfFuel
  end.

Definition out_of_fuel {A} : M A := λ _, OutOfFuel.
Definition gets {A} (f : State → A) : M A := λ s, Ok (f s, s).
Definition modify (f : State → State) : M unit := λ s, Ok (tt, f s).
Definition log (c : call) : M unit := modify (add_call c).

(** [*p] for reading: the object at [p]. *)
Definition deref (p : ptr) : M Job := λ s,
  match mem s !! p with
  | Some j => Ok (j, s)
  | None => UB
  end.

(** [p->field = x], given as the update [f] of the object. *)
Definition update (p : ptr) (f : Job → Job) : M unit := λ s,
  match mem s !! p with
  | Some j => Ok (tt, set_mem (<[p := f j]> (mem s)) s)
  | None => UB
  end.

(** [m_children++] on the atomic counter. *)
Definition fetch_add (p : ptr) (n : Z) : M Z :=
  j ← deref p;
  update p (set_children (Int32.wrap (m_children j + n)));;
  mret (m_children j).

(** [m_children.fetch_sub(n)]: stores the difference, returns the value
    held before. *)
Definition fetch_sub (p : ptr) (n : Z) : M Z :=
  j ← deref p;
  update p (set_children (Int32.wrap (m_children j - n)));;
  mret (m_children j).

(** ** [JobQueue<FIFO>] *)

Definition load_head (q : queue_ref) : M (option ptr) := λ s,
  match q with
  | Central => Ok (m_central_queue s, s)
  | Local i =>
      match m_local_queues s !! i with
      | Some h => Ok (h, s)
      | None => UB
      end
  end.

Definition store_head (q : queue_ref) (h : option ptr) : M unit := λ s,
  match q with
  | Central => Ok (tt, set_central_queue h s)
  | Local i =>
      match m_local_queues s !! i with
      | Some _ => Ok (tt, set_local_queues (<[i := h]> (m_local_queues s)) s)
      | None => UB
      end
  end.

(** [JobQueue::push].  Nothing writes [m_head] between the load and the
    compare-and-swap, so the first exchange finds [m_head] equal to
    [pJob->m_next] and stores [pJob]. *)
Definition push (q : queue_ref) (pJob : ptr) : M unit :=
  head ← load_head q;
  update pJob (set_next head);;
  store_head q (Some pJob).

(** The [while (head->m_next)] loop of the FIFO variant of [pop].
    [inl j]: the loop returned [j], the last job of the list, after
    detaching it; [inr head]: the loop ended without returning. *)
Fixpoint fifo_walk (fuel : nat) (head : ptr) : M (ptr + ptr) :=
  match fuel with
  | O => out_of_fuel
  | S fuel' =>
      j ← deref head;
      match m_next j with
      | None => mret (inr head)
      | Some nxt =>
          let last := head in
          jn ← deref nxt;
          match m_next jn with
          | None => update last (set_next None);; mret (inl nxt)
          | Some _ => fifo_walk fuel' nxt
          end
      end
  end.

(** The closing loop of [pop]:
    [while (head != nullptr && !compare_exchange(&m_head, &head, head->m_next)) {}].
    A failed exchange loads the current [m_head] into [head]. *)
Fixpoint cas_pop (fuel : nat) (q : queue_ref) (head : option ptr) : M (option ptr) :=
  match head with
  | None => mret None
  | Some h =>
      match fuel with
      | O => out_of_fuel
      | S fuel' =>
          j ← deref h;
          cur ← load_head q;
          if decide (cur = Some h)
          then store_head q (m_next j);; mret (Some h)
          else cas_pop fuel' q cur
      end
  end.

(** [JobQueue<FIFO>::pop]. *)
Definition pop (FIFO : bool) (fuel : nat) (q : queue_ref) : M (option ptr) :=
  head ← load_head q;
  match head with
  | None => mret None
  | Some head =>
      r ← (if FIFO then fifo_walk fuel head else mret (inr head));
      match r with
      | inl j => mret (Some j)
      | inr head => cas_pop fuel q (Some head)
      end
  end.

(** ** [JobSystem::schedule] *)

(** [JobSystem::schedule(job, thd)], run by the thread [th].  The
    comparison casts [m_thread_count] to [int]; the local queue is taken
    at the thread-local [m_thread_index], as in the source. *)
Definition schedule (th : Thread) (job : ptr) (thd : Z) : M unit :=
  log (call_schedule job thd);;
  n ← gets m_thread_count;
  if bool_decide (0 <= thd) && bool_decide (thd < Int32.wrap n)
  then push (Local (Z.to_nat (thread_index th))) job
  else push Central job.

(** ** The completion protocol: [Job::on_finished] and [Job::child_finished] *)

(** The two functions call each other up the chain of parents; [fuel]
    bounds the depth of that recursion.  Both record their entry in the
    call log. *)
Fixpoint on_finished (fuel : nat) (th : Thread) (self : ptr) {struct fuel} : M unit :=
  match fuel with
  | O => out_of_fuel
  | S fuel' =>
      log (call_on_finished self);;
      j ← deref self;
      match m_continuation j with
      | Some c =>
          match m_parent j with
          | Some p =>
              fetch_add p 1;;
              update c (set_parent (Some p))
          | None => mret tt
          end;;
          schedule th c (-1)
      | None => mret tt
      end;;
      j' ← deref self;
      match m_parent j' with
      | Some p => child_finished fuel' th p
      | None => mret tt
      end
  end
with child_finished (fuel : nat) (th : Thread) (self : ptr) {struct fuel} : M unit :=
  match fuel with
  | O => out_of_fuel
  | S fuel' =>
      log (call_child_finished self);;
      old ← fetch_sub self 1;
      if bool_decide (old = 1) then on_finished fuel' th self else mret tt
  end.

(** ** [VECoro.h] *)

(** [vgjs::schedule(T& coro)] for a coroutine; [coro] is the promise
    behind the future, [coro.promise()]. *)
Definition schedule_coro (th : Thread) (coro : ptr) : M unit :=
  let parent := current_job th in
  match parent with
  | Some p => fetch_add p 1;; mret tt
  | None => mret tt
  end;;
  update coro (set_coro_parent parent);;
  schedule th coro (-1).

(** Modelled from the spec: the default of the affinity member of the job
    base class, whose declaration is not part of the sources; the
    specification gives [-1], any worker. *)
Definition default_thread_index : Z := -1.

(** The promise at address [p] after its construction: the member
    initialisers of [Job], then [Coro_promise_base()] with
    [m_continuation = this], then [m_value{}]; the coroutine is suspended
    at [initial_suspend], before the first statement of [body]. *)
Definition new_promise (p : ptr) (body : coro_body) : Job :=
  mkJob None 1 None (Some p) default_thread_index None 0 body false.

(** Calling a coroutine function: the frame with the promise is allocated
    at [p], an address that is free (the allocator returns no address in
    use, so the other case is not a behaviour of the program). *)
Definition Coro_promise_new (p : ptr) (body : coro_body) : M unit := λ s,
  match mem s !! p with
  | Some _ => UB
  | None => Ok (tt, set_mem (<[p := new_promise p body]> (mem s)) s)
  end.

(** Calling a coroutine function on the thread [th]: [operator new] and
    the constructor of the promise, [get_return_object], and the
    suspension at [initial_suspend].  None of them reads
    [m_current_job], so the thread does not enter. *)
Definition Coro_create (th : Thread) (p : ptr) (body : coro_body) : M unit :=
  Coro_promise_new p body.

(** [Coro<T>::operator()(thread_index, type, id)], as far as the affinity
    is concerned. *)
Definition Coro_call (coro : ptr) (thread_index : Z) : M unit :=
  update coro (set_thread_index thread_index).

(** [Coro_promise<T>::return_value]. *)
Definition return_value (self : ptr) (t : Z) : M unit :=
  update self (set_value t).

(** [Coro_promise<T>::get] and [Coro<T>::get], which forwards to it. *)
Definition Coro_promise_get (self : ptr) : M Z :=
  j ← deref self; mret (m_value j).
Definition Coro_get (coro : ptr) : M Z := Coro_promise_get coro.

(** [awaiter_base::await_ready], inherited by [final_awaiter]; it is also
    what [awaitable_coro<Coro<T>>::awaiter::await_ready] returns, where
    the [is_pmr_vector] branch is not taken. *)
Definition awaiter_base_await_ready : bool := false.

(** [awaitable_coro<std::pmr::vector<Coro<T>>>::awaiter::await_ready]:
    [m_child.empty()]. *)
Definition awaitable_coro_vector_await_ready (m_child : list ptr) : bool :=
  bool_decide (m_child = []).

(** [awaitable_tuple<Ts...>::awaiter::await_ready]: [sizes] are the
    sizes of the vectors of the tuple, added up in a [std::size_t] from
    first to last; the awaiter is ready when the sum is zero. *)
Definition awaitable_tuple_await_ready (sizes : list Z) : bool :=
  let num := fold_left (λ num size, (num + size) mod 2 ^ 64) sizes 0 in
  bool_decide (num = 0).

(** Modelled from the spec: the overload of [schedule] for a vector of
    coroutines, which the awaiters call and which is declared in the
    absent [VEGameJobSystem.h].  The specification: for each child,
    attach the parent, increment the counter of the awaiting job, submit
    to the scheduler; that is [schedule] for each element, first to
    last. *)
Fixpoint schedule_coros (th : Thread) (coros : list ptr) : M unit :=
  match coros with
  | [] => mret tt
  | c :: coros' => schedule_coro th c;; schedule_coros th coros'
  end.

(** [awaitable_coro<std::pmr::vector<Coro<T>>>::awaiter::await_suspend]. *)
Definition awaitable_coro_vector_await_suspend (th : Thread) (m_child : list ptr) : M unit :=
  schedule_coros th m_child.

(** [awaitable_tuple<Ts...>::awaiter::await_suspend]: [schedule] on
    every vector of the tuple, in the order of the tuple. *)
Fixpoint awaitable_tuple_await_suspend (th : Thread) (m_tuple : list (list ptr)) : M unit :=
  match m_tuple with
  | [] => mret tt
  | v :: m_tuple' => schedule_coros th v;; awaitable_tuple_await_suspend th m_tuple'
  end.

(** [awaitable_resume_on::awaiter].  Modelled from the spec:
    [JobSystem::thread_index()], declared in the absent header, is the
    thread-local worker index; [thread_index th] is what it returns on
    the thread [th]. *)
Definition awaitable_resume_on_await_ready (th : Thread) (m_thread_index : Z) : bool :=
  bool_decide (m_thread_index = thread_index th).
Definition awaitable_resume_on_await_suspend (m_promise : ptr) (m_thread_index : Z) : M unit :=
  update m_promise (set_thread_index m_thread_index).

(** [awaitable_coro<Coro<T>>::awaiter::await_suspend]. *)
Definition awaitable_coro_await_suspend (th : Thread) (m_child : ptr) : M unit :=
  schedule_coro th m_child.

(** [final_awaiter::await_suspend]; it returns [void], so the coroutine
    stays suspended. *)
Definition final_awaiter_await_suspend (promise : ptr) : M unit :=
  j ← deref promise;
  update promise (set_parent (m_coro_parent j));;
  update promise (set_continuation None).

(** The coroutine leaves the running state at a suspension point: the
    frame keeps the code after it; [final] is set at the final suspension
    point. *)
Definition suspend (self : ptr) (rest : coro_body) (final : bool) : M unit :=
  update self (set_frame rest final).

(** [coroutine_handle::resume()]: the body runs from the current
    suspension point to the next one.  An [await] whose awaiter is ready
    does not suspend; otherwise the coroutine is suspended and then
    [await_suspend] runs.  [co_return v] calls [return_value] and awaits
    [final_suspend()].  A call of [schedule] in the body is a call of
    [vgjs::schedule] by the executing thread. *)
Fixpoint coro_resume (th : Thread) (self : ptr) (body : coro_body) : M unit :=
  match body with
  | co_return v =>
      return_value self v;;
      if awaiter_base_await_ready then mret tt
      else suspend self (co_return v) true;;
           final_awaiter_await_suspend self
  | co_await_coro child rest =>
      if awaiter_base_await_ready then coro_resume th self rest
      else suspend self rest false;;
           awaitable_coro_await_suspend th child
  | co_await_thread k rest =>
      if awaitable_resume_on_await_ready th k then coro_resume th self rest
      else suspend self rest false;;
           awaitable_resume_on_await_suspend self k
  | co_schedule child rest =>
      schedule_coro th child;;
      coro_resume th self rest
  | co_await_coros children rest =>
      if awaitable_coro_vector_await_ready children then coro_resume th self rest
      else suspend self rest false;;
           awaitable_coro_vector_await_suspend th children
  | co_await_tuple children rest =>
      if awaitable_tuple_await_ready ((λ v, Z.of_nat (length v)) <$> children)
      then coro_resume th self rest
      else suspend self rest false;;
           awaitable_tuple_await_suspend th children
  end.

(** [Coro_promise<T>::resume]. *)
Definition Coro_promise_resume (th : Thread) (self : ptr) : M bool :=
  j ← deref self;
  (if m_done j then mret tt
   else update self (set_children 1);;
        coro_resume th self (m_coro j));;
  mret true.

(** ** Destruction of a coroutine frame *)

(** [coroutine_handle::destroy()]: the frame, and the promise in it, is
    freed.  Destroying a frame that does not exist is undefined. *)
Definition coro_destroy (p : ptr) : M unit := λ s,
  match mem s !! p with
  | Some _ => Ok (tt, set_mem (delete p (mem s)) s)
  | None => UB
  end.

(** [Coro_promise<T>::deallocate]; the handle obtained by [from_promise]
    is never empty. *)
Definition Coro_promise_deallocate (self : ptr) : M bool :=
  coro_destroy self;;
  mret false.

(** Modelled from the spec: [is_job()], declared in the absent header,
    tells a plain callable from a coroutine promise (the discriminant of
    the job record).  Every job of the model is a promise. *)
Definition is_job (j : Job) : bool := false.

(** [Coro<T>::~Coro]; [m_coro] is the handle held by the future, empty
    after the future was moved from.  With a current job that is a
    promise the frame is destroyed.  The branch for a current job that
    is a plain callable works on the member [m_count], which is declared
    in the absent header; it is not taken in the model, where
    [is_job()] is false, and is left without effect. *)
Definition Coro_destructor (th : Thread) (m_coro : option ptr) : M unit :=
  match m_coro with
  | Some p =>
      match current_job th with
      | Some cj =>
          j ← deref cj;
          if negb (is_job j) then coro_destroy p else mret tt
      | None => mret tt
      end
  | None => mret tt
  end.

(** ** Running jobs *)

(** [Job::operator()]; the virtual [resume] is the one of the promise. *)
Definition Job_call (fuel : nat) (th : Thread) (self : ptr) : M unit :=
  update self (set_children 1);;
  Coro_promise_resume th self;;
  old ← fetch_sub self 1;
  if bool_decide (old = 1) then on_finished fuel th self else mret tt.

(** ** The scheduler that reads the affinity *)

(** Modelled from the spec: [schedule(job, affinity)] of the job system
    that [VECoro.h] is written against ([JobSystem::schedule] of
    [VEGameJobSystem.h], which takes a [Job_base]; the header is not
    among the sources).  The specification: if the affinity is the index
    of a worker, push to the local queue of that worker; else push to a
    global queue.  The model has the one global queue of
    [VEGameJobSystem2.h]. *)
Definition spec_schedule (job : ptr) (affinity : Z) : M unit :=
  log (call_schedule job affinity);;
  n ← gets m_thread_count;
  if bool_decide (0 <= affinity) && bool_decide (affinity < n)
  then push (Local (Z.to_nat affinity)) job
  else push Central job.

(** Modelled from the spec: on-finished and child-finished of that job
    system.  The steps are those of [Job::on_finished] and
    [Job::child_finished] above, except for the one the specification
    words differently: the continuation is scheduled with the affinity
    from the continuation's own field. *)
Fixpoint spec_on_finished (fuel : nat) (self : ptr) {struct fuel} : M unit :=
  match fuel with
  | O => out_of_fuel
  | S fuel' =>
      log (call_on_finished self);;
      j ← deref self;
      match m_continuation j with
      | Some c =>
          match m_parent j with
          | Some p =>
              fetch_add p 1;;
              update c (set_parent (Some p))
          | None => mret tt
          end;;
          jc ← deref c;
          spec_schedule c (m_thread_index jc)
      | None => mret tt
      end;;
      j' ← deref self;
      match m_parent j' with
      | Some p => spec_child_finished fuel' p
      | None => mret tt
      end
  end
with spec_child_finished (fuel : nat) (self : ptr) {struct fuel} : M unit :=
  match fuel with
  | O => out_of_fuel
  | S fuel' =>
      log (call_child_finished self);;
      old ← fetch_sub self 1;
      if bool_decide (old = 1) then spec_on_finished fuel' self else mret tt
  end.

(** Modelled from the spec: the execution of a job by that job system:
    reset the counter to 1, invoke the body (for a promise, [resume]),
    decrement the counter, and invoke on-finished if it reached zero. *)
Definition spec_Job_call (fuel : nat) (th : Thread) (self : ptr) : M unit :=
  update self (set_children 1);;
  Coro_promise_resume th self;;
  old ← fetch_sub self 1;
  if bool_decide (old = 1) then spec_on_finished fuel self else mret tt.

(** One turn of the loop of [JobSystem::thread_task] for the worker with
    index [idx]: take a job from the local queue (a [JobQueue<true>]),
    else from the central one (a [JobQueue<false>]), and execute it with
    [m_current_job] pointing to it.  The result is the job that was
    executed, if any. *)
Definition thread_task_turn (fuel : nat) (idx : Z) : M (option ptr) :=
  local ← pop true fuel (Local (Z.to_nat idx));
  job ← match local with
        | Some j => mret (Some j)
        | None => pop false fuel Central
        end;
  match job with
  | Some j => Job_call fuel (mkThread idx (Some j)) j;; mret (Some j)
  | None => mret None
  end.

(** The constructor of [JobSystem] ([start_idx] only decides which
    threads are spawned): [threadCount = 0] asks for
    [std::thread::hardware_concurrency()] workers; one empty local queue
    per worker, an empty central queue, and no job allocated yet. *)
Definition JobSystem_new (threadCount hardware_concurrency : nat) : State :=
  let n := match threadCount with O => hardware_concurrency | _ => threadCount end in
  mkState ∅ (Z.of_nat n) (replicate n None) None [].

(** The main thread, outside any job: [m_current_job] is [nullptr] and the
    thread-local index has its zero initialisation. *)
Definition main_thread : Thread := mkThread 0 None.

(** The head of a queue that exists in the state. *)
Definition head_of (s : State) (q : queue_ref) : option (option ptr) :=
  match q with
  | Central => Some (m_central_queue s)
  | Local i => m_local_queues s !! i
  end.

(** ** The contents of a queue *)

(** [is_list m head l]: in the memory [m], the chain of [m_next] pointers
    that starts at [head] visits exactly the jobs [l] and ends in
    [nullptr]. *)
Fixpoint is_list (m : gmap ptr Job) (head : option ptr) (l : list ptr) : Prop :=
  match l with
  | [] => head = None
  | j :: l' => head = Some j ∧ ∃ job, m !! j = Some job ∧ is_list m (m_next job) l'
  end.

(** The queue [q] holds the jobs [l], listed from [m_head] on: the job
    pushed last comes first. *)
Definition queue_holds (s : State) (q : queue_ref) (l : list ptr) : Prop :=
  ∃ h, head_of s q = Some h ∧ is_list (mem s) h l.

(** Pushing the jobs [js] one after the other, first to last. *)
Fixpoint push_all (q : queue_ref) (js : list ptr) : M unit :=
  match js with
  | [] => mret tt
  | j :: js' => push q j;; push_all q js'
  end.

(** [n] calls of [pop] in a row, with their results in order. *)
Fixpoint pop_n (FIFO : bool) (fuel : nat) (q : queue_ref) (n : nat) : M (list (option ptr)) :=
  match n with
  | O => mret []
  | S n' =>
      r ← pop FIFO fuel q;
      rs ← pop_n FIFO fuel q n';
      mret (r :: rs)
  end.

(** ** States for the examples *)

(** The state an operation ends in (the state it started from, should it
    fail). *)
Definition exec {A} (m : M A) (s : State) : State :=
  match m s with
  | Ok (_, s') => s'
  | _ => s
  end.

(** Two workers, and three coroutines created but not yet scheduled. *)
Definition three_jobs : State :=
  exec (Coro_promise_new 1 (co_return 10);;
        Coro_promise_new 2 (co_return 20);;
        Coro_promise_new 3 (co_return 30))
       (JobSystem_new 2 2).

(** ** Coroutine bodies that reach [co_return] *)

(** The value a body returns when, resumed on the thread [th], it runs
    to its [co_return] without suspending and without submitting a
    coroutine before: every statement on the way is a hop to the thread
    it already runs on. *)
Fixpoint runs_to_return (th : Thread) (body : coro_body) : option Z :=
  match body with
  | co_return v => Some v
  | co_await_coro _ _ => None
  | co_await_thread k rest =>
      if awaitable_resume_on_await_ready th k then runs_to_return th rest else None
  | co_schedule _ _ => None
  | co_await_coros _ _ => None
  | co_await_tuple _ _ => None
  end.

(** The promise [j] after [co_return v] and the final suspension that
    follows it. *)
Definition finalized (v : Z) (j : Job) : Job :=
  set_continuation None
    (set_parent (m_coro_parent j) (set_frame (co_return v) true (set_value v j))).

(** Job 2 is a child of job 1, which still runs (its counter is 2: job 1
    itself and its child), and job 3 is the continuation of job 2. *)
Definition family : State :=
  exec (update 1 (set_children 2);;
        update 2 (set_parent (Some 1%nat));;
        update 2 (set_continuation (Some 3%nat)))
       three_jobs.

(** ** The states the job system can reach *)

(** One step: an operation of the job system or of the coroutine layer
    that runs to its end, called by any thread on any object, the
    destruction of a frame included.  ([Job::reset] is called nowhere in
    the sources and is not a step.) *)
Inductive step : State → State → Prop :=
| step_create p body s s' :
    Coro_promise_new p body s = Ok (tt, s') → step s s'
| step_affinity coro k s s' :
    Coro_call coro k s = Ok (tt, s') → step s s'
| step_schedule_coro th coro s s' :
    schedule_coro th coro s = Ok (tt, s') → step s s'
| step_schedule th job thd s s' :
    schedule th job thd s = Ok (tt, s') → step s s'
| step_resume th self b s s' :
    Coro_promise_resume th self s = Ok (b, s') → step s s'
| step_job_call fuel th self s s' :
    Job_call fuel th self s = Ok (tt, s') → step s s'
| step_on_finished fuel th self s s' :
    on_finished fuel th self s = Ok (tt, s') → step s s'
| step_child_finished fuel th self s s' :
    child_finished fuel th self s = Ok (tt, s') → step s s'
| step_push q job s s' :
    push q job s = Ok (tt, s') → step s s'
| step_pop FIFO fuel q r s s' :
    pop FIFO fuel q s = Ok (r, s') → step s s'
| step_thread_task fuel idx r s s' :
    thread_task_turn fuel idx s = Ok (r, s') → step s s'
| step_deallocate self b s s' :
    Coro_promise_deallocate self s = Ok (b, s') → step s s'
| step_destructor th m_coro s s' :
    Coro_destructor th m_coro s = Ok (tt, s') → step s s'.

Definition reachable (s : State) : Prop :=
  ∃ threadCount hardware_concurrency,
    rtc step (JobSystem_new threadCount hardware_concurrency) s.

(** What holds of a promise [j] at address [p] in every reachable state:
    before the final suspension point its continuation is the promise
    itself, it has no parent, and its result slot holds the initial
    value; from the final suspension point on it has no continuation. *)
Definition promise_ok (p : ptr) (j : Job) : Prop :=
  if m_done j then m_continuation j = None
  else m_continuation j = Some p ∧ m_parent j = None ∧ m_value j = 0.

Definition promises_ok (s : State) : Prop :=
  ∀ p j, mem s !! p = Some j → promise_ok p j.

(** ** The parent of a coroutine *)

(** Follows the specification: when [current_job] is [nullptr] the
    submitted child is an orphan and no parent is notified: the execution
    of the child that follows the submission calls [child_finished] on
    no job. *)
Definition orphan_notifies_nobody : Prop :=
  ∀ s th coro s' fuel th' s'' q,
    reachable s → current_job th = None →
    schedule_coro th coro s = Ok (tt, s') →
    Job_call fuel th' coro s' = Ok (tt, s'') →
    call_child_finished q ∉ drop (length (calls s')) (calls s'').

(** Follows the specification: [coro_parent] is the job that was current
    when the promise was created, and it is the parent that the promise
    has from its final suspension point on. *)
Definition parent_is_creator : Prop :=
  ∀ th0 th1 th2 p body s0 s1 s2 s3 b j,
    reachable s0 →
    Coro_create th0 p body s0 = Ok (tt, s1) →
    schedule_coro th1 p s1 = Ok (tt, s2) →
    Coro_promise_resume th2 p s2 = Ok (b, s3) →
    mem s3 !! p = Some j → m_done j = true →
    m_parent j = current_job th0.

(** ** The result of a coroutine *)

(** [get] returns a defined value: the call yields a value of the result
    type. *)
Definition get_defined (coro : ptr) (s : State) : Prop :=
  ∃ v, Coro_get coro s = Ok (v, s).

(** Follows the specification: for a coroutine future, [get] returns a
    defined value if and only if the promise has reached its [co_return]
    point.  In the model [co_return] is followed at once by the final
    suspension, so the promise has reached it exactly when [m_done] is
    set. *)
Definition get_defined_iff_co_returned : Prop :=
  ∀ s coro j, reachable s → mem s !! coro = Some j →
    (get_defined coro s ↔ m_done j = true).

(** One worker and one coroutine, created and not yet run, whose body is
    [co_return 10]. *)
Definition one_created : State :=
  exec (Coro_promise_new 1 (co_return 10)) (JobSystem_new 1 1).

(** Two workers; the coroutine 1 hops to worker 1 and then returns 10. *)
Definition hopper : State :=
  exec (Coro_promise_new 1 (co_await_thread 1 (co_return 10))) (JobSystem_new 2 2).

(** Coroutine 1 awaits coroutine 2 and then returns 10; coroutine 2
    returns 20.  The main thread has submitted coroutine 1. *)
Definition parent_and_child : State :=
  exec (Coro_promise_new 2 (co_return 20);;
        Coro_promise_new 1 (co_await_coro 2 (co_return 10));;
        schedule_coro main_thread 1)
       (JobSystem_new 1 1).

(** ** Executions driven by the scheduler *)

(** The steps of an execution in which jobs are only run by the workers:
    a coroutine is created, the main thread submits a coroutine, or a
    worker takes a turn of its loop. *)
Inductive run_step : State → State → Prop :=
| run_create p body s s' :
    Coro_promise_new p body s = Ok (tt, s') → run_step s s'
| run_submit coro s s' :
    schedule_coro main_thread coro s = Ok (tt, s') → run_step s s'
| run_turn fuel idx r s s' :
    thread_task_turn fuel idx s = Ok (r, s') → run_step s s'.

(** Follows the specification: the counter of every job is at least 0 at
    all times. *)
Definition children_never_negative : Prop :=
  ∀ threadCount hardware_concurrency s,
    rtc run_step (JobSystem_new threadCount hardware_concurrency) s →
    ∀ p j, mem s !! p = Some j → 0 <= m_children j.

(** ** Awaiting one coroutine at a time *)

(** How a body resumed on the thread [th] leaves the running state: at
    its [co_return], at the [co_await] of a coroutine, or at a hop to
    another thread.  Hops to the thread it runs on are passed without
    suspending.  [susp_fork]: the body comes to a statement that submits
    coroutines in another way first (a call of [schedule], or the
    [co_await] of a collection); what it does from there is not
    described by this function. *)
Inductive suspension : Type :=
| susp_return (v : Z)
| susp_await (child : ptr) (rest : coro_body)
| susp_hop (k : Z) (rest : coro_body)
| susp_fork (body : coro_body).

Fixpoint first_suspension (th : Thread) (body : coro_body) : suspension :=
  match body with
  | co_return v => susp_return v
  | co_await_coro child rest => susp_await child rest
  | co_await_thread k rest =>
      if awaitable_resume_on_await_ready th k then first_suspension th rest
      else susp_hop k rest
  | co_schedule _ _ | co_await_coros _ _ | co_await_tuple _ _ => susp_fork body
  end.

(** The coroutines a body submits, by [co_await] or by [schedule], in
    order. *)
Fixpoint await_targets (body : coro_body) : list ptr :=
  match body with
  | co_return _ => []
  | co_await_coro child rest => child :: await_targets rest
  | co_await_thread _ rest => await_targets rest
  | co_schedule child rest => child :: await_targets rest
  | co_await_coros children rest => children ++ await_targets rest
  | co_await_tuple children rest => concat children ++ await_targets rest
  end.

(** A body that submits one coroutine at a time and waits for it: its
    statements are [co_await] on a coroutine, [co_await] on a thread
    index, and [co_return]. *)
Fixpoint plain (body : coro_body) : Prop :=
  match body with
  | co_return _ => True
  | co_await_coro _ rest => plain rest
  | co_await_thread _ rest => plain rest
  | co_schedule _ _ | co_await_coros _ _ | co_await_tuple _ _ => False
  end.

(** The job [p] has been scheduled at some point: the call log has an
    entry for it. *)
Definition scheduled (s : State) (p : ptr) : Prop :=
  ∃ thd, call_schedule p thd ∈ calls s.

(** The coroutine [c] is awaited by the code that remains in the frame of
    [q]. *)
Definition awaited_by (s : State) (c q : ptr) : Prop :=
  ∃ j, mem s !! q = Some j ∧ c ∈ await_targets (m_coro j).

(** The executions of a program that creates coroutines, submits them
    from its main thread and leaves everything else to the workers, with
    every coroutine submitted at most once and awaited one at a time.
    The steps: a coroutine is created with a [plain] body that awaits
    coroutines which exist, have not been scheduled and are awaited
    nowhere else, each of them once; the main thread submits a coroutine
    that has not been scheduled and that no body awaits; a worker takes a
    turn of its loop, with fuel for the three nested calls of the
    completion protocol that such a turn can make.  Nothing else happens
    in these executions: no coroutine is resumed through
    [Coro<T>::resume], none is given an affinity through
    [Coro<T>::operator()], none is submitted by a running job other than
    by [co_await], and no frame is destroyed. *)
Inductive once_step : State → State → Prop :=
| once_create p body s s' :
    plain body →
    NoDup (await_targets body) →
    (∀ c, c ∈ await_targets body →
       is_Some (mem s !! c) ∧ ¬ scheduled s c ∧ ∀ q, ¬ awaited_by s c q) →
    Coro_promise_new p body s = Ok (tt, s') → once_step s s'
| once_submit coro s s' :
    ¬ scheduled s coro → (∀ q, ¬ awaited_by s coro q) →
    schedule_coro main_thread coro s = Ok (tt, s') → once_step s s'
| once_turn fuel idx r s s' :
    (3 ≤ fuel)%nat →
    thread_task_turn fuel idx s = Ok (r, s') → once_step s s'.

(** A coroutine that has been scheduled and has not reached its final
    suspension point: its completion is still to come. *)
Definition live (s : State) (c : ptr) (jc : Job) : Prop :=
  mem s !! c = Some jc ∧ scheduled s c ∧ m_done jc = false.

(** The invariant of these executions.  The central queue holds a chain
    of live coroutines and the local queues are empty; every counter is 0
    or 1; a coroutine that was never scheduled has not run; the parent
    recorded by a live coroutine is itself live, outside the queue, with
    its counter at 1 and with no other live child; the coroutines
    that the frames still await exist, were never scheduled, and are each
    awaited once; and every body is [plain]. *)
Record balanced (s : State) : Prop := mkBalanced {
  bal_queue : ∃ l, is_list (mem s) (m_central_queue s) l ∧
                   ∀ p, p ∈ l → ∃ j, live s p j;
  bal_local : ∀ i h, m_local_queues s !! i = Some h → h = None;
  bal_promises : promises_ok s;
  bal_scheduled : ∀ p, scheduled s p → is_Some (mem s !! p);
  bal_children : ∀ p j, mem s !! p = Some j → m_children j = 0 ∨ m_children j = 1;
  bal_fresh : ∀ p j, mem s !! p = Some j → ¬ scheduled s p → m_done j = false;
  bal_parent : ∀ c jc q, live s c jc → m_coro_parent jc = Some q →
      (∃ jq, live s q jq ∧ m_children jq = 1) ∧
      (∀ l, is_list (mem s) (m_central_queue s) l → q ∉ l) ∧
      (∀ c' jc', live s c' jc' → m_coro_parent jc' = Some q → c' = c);
  bal_targets : ∀ q jq c, mem s !! q = Some jq → c ∈ await_targets (m_coro jq) →
      is_Some (mem s !! c) ∧ ¬ scheduled s c ∧
      NoDup (await_targets (m_coro jq)) ∧
      (∀ q', awaited_by s c q' → q' = q);
  bal_plain : ∀ p j, mem s !! p = Some j → plain (m_coro j)
}.

(** ** The rest of [class Job] and of [JobSystem::thread_task] *)

(** [Job::reset]: the four members of [Job] get the values of their
    member initialisers, in the order of the source. *)
Definition Job_reset (self : ptr) : M unit :=
  update self (set_next None);;
  update self (set_children 1);;
  update self (set_parent None);;
  update self (set_continuation None).

Module UInt32.

(** Reduction to the range of [uint32_t]. *)
Definition wrap (z : Z) : Z := z mod 2 ^ 32.

End UInt32.

(** [constexpr uint32_t NOOP = 20] of [thread_task]. *)
Definition NOOP : Z := 20.

(** One pass through the body of the loop [while (!m_terminate)] of
    [JobSystem::thread_task], for the worker with index [idx] whose
    thread-local counter [noop] has the value given: the turn of
    [thread_task_turn], and when no job was found the counter is
    decremented ([--noop], on [uint32_t]) and, if it is zero and the
    index is positive, reset to [NOOP] before the thread sleeps.  The
    result is the counter after the pass and whether the thread slept. *)
Definition thread_task_pass (fuel : nat) (idx : Z) (noop : Z) : M (Z * bool) :=
  job ← thread_task_turn fuel idx;
  match job with
  | Some _ => mret (noop, false)
  | None =>
      let noop := UInt32.wrap (noop - 1) in
      if bool_decide (noop = 0) && bool_decide (0 < idx)
      then mret (NOOP, true)
      else mret (noop, false)
  end.

(** [n] passes of the loop in a row ([m_terminate] stays false); the
    result is the counter at the end and how many times the thread
    slept. *)
Fixpoint thread_task_passes (fuel : nat) (idx : Z) (noop : Z) (n : nat) : M (Z * nat) :=
  match n with
  | O => mret (noop, 0%nat)
  | S n' =>
      '(noop1, slept) ← thread_task_pass fuel idx noop;
      '(noop2, sleeps) ← thread_task_passes fuel idx noop1 n';
      mret (noop2, ((if slept : bool then 1 else 0) + sleeps)%nat)
  end.

(** Turns of the workers [idxs], one after the other, in this order; the
    result lists the job each turn executed. *)
Fixpoint thread_task_turns (fuel : nat) (idxs : list Z) : M (list (option ptr)) :=
  match idxs with
  | [] => mret []
  | idx :: idxs' =>
      r ← thread_task_turn fuel idx;
      rs ← thread_task_turns fuel idxs';
      mret (r :: rs)
  end.

(** ** Chains that do not end *)

(** The jobs [c] form a closed part of the memory: the [m_next] of each
    leads to another of them. *)
Definition closed_chain (m : gmap ptr Job) (c : list ptr) : Prop :=
  ∀ x, x ∈ c → ∃ jx y, m !! x = Some jx ∧ m_next jx = Some y ∧ y ∈ c.

(** ** The rest of [VECoro.h] *)

(** [Coro<T>::resume]: the future resumes its coroutine on the calling
    thread, outside [Job::operator()]; [m_coro] is the handle held by the
    future, empty after the future was moved from. *)
Definition Coro_resume (th : Thread) (m_coro : option ptr) : M bool :=
  match m_coro with
  | Some p =>
      j ← deref p;
      (if m_done j then mret tt
       else Coro_promise_resume th p;; mret tt);;
      mret true
  | None => mret true
  end.

(** *** Allocation of the coroutine frame *)

Module Alloc.

(** Reduction to the range of [std::size_t]. *)
Definition wrap (z : Z) : Z := z mod 2 ^ 64.

(** [(sz + alignof(T) - 1) & ~(alignof(T) - 1)] for
    [T = std::pmr::memory_resource*], computed in [std::size_t]. *)
Definition allocatorOffset (alignof sz : Z) : Z :=
  Z.land (wrap (sz + alignof - 1)) (wrap (Z.lnot (wrap (alignof - 1)))).

(** Calls of the memory resources: [mr->allocate(bytes)] with the
    address it returned, and [mr->deallocate(p, bytes)].  A memory
    resource is known by a number. *)
Inductive event : Type :=
| ev_allocate (mr : nat) (bytes : Z) (p : Z)
| ev_deallocate (mr : nat) (p : Z) (bytes : Z).

(** The raw memory as far as the operators use it: the
    [memory_resource*] values stored, by address, and the calls made so
    far. *)
Record Raw : Type := mkRaw {
  stored : gmap Z nat;
  events : list event
}.

Inductive outcome (A : Type) : Type :=
| Returned (a : A) (m : Raw)
| Terminated
| Undefined.
Arguments Returned {A} a m.
Arguments Terminated {A}.
Arguments Undefined {A}.

(** [std::pmr::new_delete_resource()]. *)
Definition new_delete_resource : nat := 0.

Section operators.
(** [alignof(std::pmr::memory_resource* )] and
    [sizeof(std::pmr::memory_resource* )], and what the memory resources
    answer: the address for a request, or [nullptr]. *)
Variables (alignof sizeof : Z).
Variable do_allocate : list event → nat → Z → option Z.

(** [operator new(sz, std::allocator_arg, mr, args...)]. *)
Definition operator_new (sz : Z) (mr : nat) (m : Raw) : outcome Z :=
  let allocatorOffset := allocatorOffset alignof sz in
  let bytes := wrap (allocatorOffset + sizeof) in
  match do_allocate (events m) mr bytes with
  | None => Terminated
  | Some ptr =>
      Returned ptr (mkRaw (<[ptr + allocatorOffset := mr]> (stored m))
                          (events m ++ [ev_allocate mr bytes ptr]))
  end.

(** [operator new(sz, args...)] and [operator new(sz, Class, args...)]:
    the system allocator. *)
Definition operator_new_default (sz : Z) (m : Raw) : outcome Z :=
  operator_new sz new_delete_resource m.

(** [operator delete(ptr, sz)].  Reading a pointer from an address where
    none was stored is undefined. *)
Definition operator_delete (ptr : Z) (sz : Z) (m : Raw) : outcome unit :=
  let allocatorOffset := allocatorOffset alignof sz in
  match stored m !! (ptr + allocatorOffset) with
  | None => Undefined
  | Some allocator =>
      Returned tt (mkRaw (stored m)
                         (events m ++ [ev_deallocate allocator ptr
                                         (wrap (allocatorOffset + sizeof))]))
  end.

End operators.

End Alloc.

(** ** Relations between the state before and after an operation *)

(** The job system keeps its number of workers and of local queues. *)
Definition same_shape (s s' : State) : Prop :=
  m_thread_count s' = m_thread_count s ∧
  length (m_local_queues s') = length (m_local_queues s).

(** Every object stays allocated, and a coroutine that is suspended at
    its final suspension point stays there with its result: what the
    operations other than the destruction of a frame keep. *)
Definition results_kept (s s' : State) : Prop :=
  ∀ p j, mem s !! p = Some j →
    ∃ j', mem s' !! p = Some j' ∧
          (m_done j = true → m_done j' = true ∧ m_value j' = m_value j).

(** The frame at [p] has been destroyed, and nothing else has changed. *)
Definition freed (p : ptr) (s s' : State) : Prop :=
  is_Some (mem s !! p) ∧ s' = set_mem (delete p (mem s)) s.

(** A step that leaves the frame at [p] in place. *)
Definition step_sparing (p : ptr) (s s' : State) : Prop :=
  step s s' ∧ (is_Some (mem s !! p) → is_Some (mem s' !! p)).

(** The state after a turn that finds the coroutine [P] at the head of
    the central queue, by the way [P] leaves the running state.  (A body
    that comes to a [susp_fork] is not described: the predicate is false
    for it.) *)
Definition turn_outcome (idx : Z) (s : State) (P : ptr) (jP : Job) (s' : State) : Prop :=
  match first_suspension (mkThread idx (Some P)) (m_coro jP) with
  | susp_return v =>
      match m_coro_parent jP with
      | Some Q =>
          ∃ jQ, mem s !! Q = Some jQ ∧ Q ≠ P ∧ m_done jQ = false ∧
                mem s' = <[Q := set_next (m_next jP) (set_children 0 jQ)]>
                           (<[P := mkJob (m_next jP) 0 (Some Q) None (m_thread_index jP)
                                         (Some Q) v (co_return v) true]> (mem s)) ∧
                m_central_queue s' = Some Q ∧
                calls s' = calls s ++ [call_on_finished P; call_child_finished Q;
                                       call_on_finished Q; call_schedule Q (-1)]
      | None =>
          mem s' = <[P := mkJob (m_next jP) 0 None None (m_thread_index jP) None v
                                (co_return v) true]> (mem s) ∧
          m_central_queue s' = m_next jP ∧
          calls s' = calls s ++ [call_on_finished P]
      end
  | susp_await C rest =>
      ∃ jC, mem s !! C = Some jC ∧ C ≠ P ∧ m_done jC = false ∧ ¬ scheduled s C ∧
            mem s' = <[P := mkJob (m_next jP) 1 (m_parent jP) (m_continuation jP)
                                  (m_thread_index jP) (m_coro_parent jP) (m_value jP)
                                  rest false]>
                       (<[C := set_next (m_next jP) (set_coro_parent (Some P) jC)]> (mem s)) ∧
            m_central_queue s' = Some C ∧
            calls s' = calls s ++ [call_schedule C (-1)]
  | susp_hop k rest =>
      mem s' = <[P := mkJob (m_next jP) 0 None (Some P) k (m_coro_parent jP) (m_value jP)
                            rest false]> (mem s) ∧
      m_central_queue s' = Some P ∧
      calls s' = calls s ++ [call_on_finished P; call_schedule P (-1)]
  | susp_fork _ => False
  end.

(** ** Work left, and coroutines that wait *)

(** The number of statements of a body. *)
Fixpoint body_size (b : coro_body) : nat :=
  match b with
  | co_return _ => 1
  | co_await_coro _ rest => S (body_size rest)
  | co_await_thread _ rest => S (body_size rest)
  | co_schedule _ rest => S (body_size rest)
  | co_await_coros _ rest => S (body_size rest)
  | co_await_tuple _ rest => S (body_size rest)
  end.

(** The statements a coroutine has still to execute: those of its frame,
    none once it is suspended at its final suspension point. *)
Definition job_work (j : Job) : nat :=
  if m_done j then 0%nat else body_size (m_coro j).

(** The statements that all coroutines of a state have still to
    execute. *)
Definition work_of (m : gmap ptr Job) : nat :=
  map_fold (λ _ j n, (job_work j + n)%nat) 0%nat m.
Definition work (s : State) : nat := work_of (mem s).

(** The coroutine [c] is in the central queue. *)
Definition in_queue (s : State) (c : ptr) : Prop :=
  ∃ l, is_list (mem s) (m_central_queue s) l ∧ c ∈ l.

(** Every scheduled, unfinished coroutine is in the central queue or is
    the recorded parent of another scheduled, unfinished coroutine. *)
Definition waits (s : State) : Prop :=
  ∀ c jc, live s c jc →
    in_queue s c ∨ ∃ c' jc', live s c' jc' ∧ m_coro_parent jc' = Some c.

(** The recorded parents of the scheduled, unfinished coroutines form no
    cycle: a rank grows from parent to child. *)
Definition ranked (s : State) : Prop :=
  ∃ rank : ptr → nat,
    ∀ c jc q, live s c jc → m_coro_parent jc = Some q → (rank q < rank c)%nat.

(** The invariant of the executions of [once_step], with the
    two facts about waiting coroutines. *)
Definition settled (s : State) : Prop := balanced s ∧ waits s ∧ ranked s.

(** ** Chains of parents *)

(** The jobs [l] form a chain of parents about to finish: each job is
    the parent of the one before it and waits for nothing else (its
    counter is 1), none has a continuation, and the parent of the last
    one is [top]. *)
Fixpoint finishing_chain (m : gmap ptr Job) (l : list ptr) (top : option ptr) : Prop :=
  match l with
  | [] => True
  | p :: l' =>
      ∃ j, m !! p = Some j ∧ m_continuation j = None ∧ m_children j = 1 ∧
           m_parent j = match l' with [] => top | q :: _ => Some q end ∧
           finishing_chain m l' top
  end.

(** Jobs 1, 2 and 3 of [three_jobs] as a chain of parents without
    continuations: 2 is the parent of 1 and 3 the parent of 2.  In
    [chain_busy] job 3 still waits for another child; in [chain_free]
    it waits for job 2 only. *)
Definition chain_busy : State :=
  exec (update 1 (set_continuation None);; update 1 (set_parent (Some 2%nat));;
        update 2 (set_continuation None);; update 2 (set_parent (Some 3%nat));;
        update 3 (set_continuation None);; update 3 (set_children 2))
       three_jobs.
Definition chain_free : State :=
  exec (update 3 (set_children 1)) chain_busy.

(** Coroutine 1 awaits coroutine 2 and then returns 10; coroutine 2
    returns 20.  Both are created, none is submitted. *)
Definition created_pair : State :=
  exec (Coro_promise_new 2 (co_return 20);;
        Coro_promise_new 1 (co_await_coro 2 (co_return 10)))
       (JobSystem_new 1 1).

(** ** Executions with single submission, in general *)

(** The coroutines that the next run of a body on the thread [th]
    submits, in order: those of its statements up to the point where the
    coroutine suspends or returns. *)
Fixpoint segment_children (th : Thread) (body : coro_body) : list ptr :=
  match body with
  | co_return _ => []
  | co_await_coro child _ => [child]
  | co_await_thread k rest =>
      if awaitable_resume_on_await_ready th k then segment_children th rest else []
  | co_schedule child rest => child :: segment_children th rest
  | co_await_coros children rest =>
      if awaitable_coro_vector_await_ready children then segment_children th rest
      else children
  | co_await_tuple children rest =>
      if awaitable_tuple_await_ready ((λ v, Z.of_nat (length v)) <$> children)
      then segment_children th rest
      else concat children
  end.

(** The coroutines in [cs] exist, have never been scheduled, and are
    pairwise different. *)
Definition fresh_children (s : State) (cs : list ptr) : Prop :=
  NoDup cs ∧ ∀ c, c ∈ cs → is_Some (mem s !! c) ∧ ¬ scheduled s c.

(** Executions in which every coroutine is submitted at most once and
    coroutines are run by the workers only.  The steps: a coroutine is
    created (fewer than [2 ^ 31 - 2] frames exist, so that a counter
    cannot overflow); a future is given an affinity
    ([Coro<T>::operator()]); a thread that runs no job submits a
    coroutine that has never been scheduled; a worker takes a turn of
    its loop in which the job it executes submits only coroutines that
    exist and have never been scheduled, each of them once (the fuel is
    enough for a completion that climbs through all jobs).  These
    executions have no resumption through [Coro<T>::resume], no
    [Job::reset] and no destruction of a frame. *)
Inductive single_step : State → State → Prop :=
| single_create p body s s' :
    Z.of_nat (size (mem s)) < 2 ^ 31 - 2 →
    Coro_promise_new p body s = Ok (tt, s') → single_step s s'
| single_affinity coro k s s' :
    Coro_call coro k s = Ok (tt, s') → single_step s s'
| single_submit th coro s s' :
    current_job th = None → ¬ scheduled s coro →
    schedule_coro th coro s = Ok (tt, s') → single_step s s'
| single_turn fuel idx r s s' :
    (2 * size (mem s) + 2 ≤ fuel)%nat →
    (∀ P jP, m_central_queue s = Some P → mem s !! P = Some jP →
       fresh_children s (segment_children (mkThread idx (Some P)) (m_coro jP))) →
    thread_task_turn fuel idx s = Ok (r, s') → single_step s s'.

(** *** The code under watch *)

(** A run that is stopped by the watch ends as an undefined one. *)
Definition stopped {A} : M A := λ _, UB.

(** [m_children++] under watch: the run stops when the value stored is
    below 0. *)
Definition watched_fetch_add (p : ptr) : M Z :=
  old ← fetch_add p 1;
  if bool_decide (Int32.wrap (old + 1) < 0) then stopped else mret old.

(** [m_children.fetch_sub(1)] under watch: the run stops when the
    counter is below 1 before the decrement, that is when the decrement
    takes it below 0. *)
Definition watched_fetch_sub (p : ptr) : M Z :=
  old ← fetch_sub p 1;
  if bool_decide (old < 1) then stopped else mret old.

(** The functions that a turn of a worker runs, as above, with every
    increment and every decrement of a counter under watch: the text of
    [schedule_coro], [schedule_coros], [awaitable_tuple_await_suspend],
    [coro_resume], [Coro_promise_resume], [on_finished],
    [child_finished], [Job_call] and [thread_task_turn] with
    [watched_fetch_add] for [fetch_add] and [watched_fetch_sub] for
    [fetch_sub].  (The other writes of a counter store the constant 1.) *)
Definition watched_schedule_coro (th : Thread) (coro : ptr) : M unit :=
  let parent := current_job th in
  match parent with
  | Some p => watched_fetch_add p;; mret tt
  | None => mret tt
  end;;
  update coro (set_coro_parent parent);;
  schedule th coro (-1).

Fixpoint watched_schedule_coros (th : Thread) (coros : list ptr) : M unit :=
  match coros with
  | [] => mret tt
  | c :: coros' => watched_schedule_coro th c;; watched_schedule_coros th coros'
  end.

Fixpoint watched_tuple_await_suspend (th : Thread) (m_tuple : list (list ptr)) : M unit :=
  match m_tuple with
  | [] => mret tt
  | v :: m_tuple' => watched_schedule_coros th v;; watched_tuple_await_suspend th m_tuple'
  end.

Fixpoint watched_coro_resume (th : Thread) (self : ptr) (body : coro_body) : M unit :=
  match body with
  | co_return v =>
      return_value self v;;
      if awaiter_base_await_ready then mret tt
      else suspend self (co_return v) true;;
           final_awaiter_await_suspend self
  | co_await_coro child rest =>
      if awaiter_base_await_ready then watched_coro_resume th self rest
      else suspend self rest false;;
           watched_schedule_coro th child
  | co_await_thread k rest =>
      if awaitable_resume_on_await_ready th k then watched_coro_resume th self rest
      else suspend self rest false;;
           awaitable_resume_on_await_suspend self k
  | co_schedule child rest =>
      watched_schedule_coro th child;;
      watched_coro_resume th self rest
  | co_await_coros children rest =>
      if awaitable_coro_vector_await_ready children then watched_coro_resume th self rest
      else suspend self rest false;;
           watched_schedule_coros th children
  | co_await_tuple children rest =>
      if awaitable_tuple_await_ready ((λ v, Z.of_nat (length v)) <$> children)
      then watched_coro_resume th self rest
      else suspend self rest false;;
           watched_tuple_await_suspend th children
  end.

Definition watched_Coro_promise_resume (th : Thread) (self : ptr) : M bool :=
  j ← deref self;
  (if m_done j then mret tt
   else update self (set_children 1);;
        watched_coro_resume th self (m_coro j));;
  mret true.

Fixpoint watched_on_finished (fuel : nat) (th : Thread) (self : ptr) {struct fuel} : M unit :=
  match fuel with
  | O => out_of_fuel
  | S fuel' =>
      log (call_on_finished self);;
      j ← deref self;
      match m_continuation j with
      | Some c =>
          match m_parent j with
          | Some p =>
              watched_fetch_add p;;
              update c (set_parent (Some p))
          | None => mret tt
          end;;
          schedule th c (-1)
      | None => mret tt
      end;;
      j' ← deref self;
      match m_parent j' with
      | Some p => watched_child_finished fuel' th p
      | None => mret tt
      end
  end
with watched_child_finished (fuel : nat) (th : Thread) (self : ptr) {struct fuel} : M unit :=
  match fuel with
  | O => out_of_fuel
  | S fuel' =>
      log (call_child_finished self);;
      old ← watched_fetch_sub self;
      if bool_decide (old = 1) then watched_on_finished fuel' th self else mret tt
  end.

Definition watched_Job_call (fuel : nat) (th : Thread) (self : ptr) : M unit :=
  update self (set_children 1);;
  watched_Coro_promise_resume th self;;
  old ← watched_fetch_sub self;
  if bool_decide (old = 1) then watched_on_finished fuel th self else mret tt.

Definition watched_thread_task_turn (fuel : nat) (idx : Z) : M (option ptr) :=
  local ← pop true fuel (Local (Z.to_nat idx));
  job ← match local with
        | Some j => mret (Some j)
        | None => pop false fuel Central
        end;
  match job with
  | Some j => watched_Job_call fuel (mkThread idx (Some j)) j;; mret (Some j)
  | None => mret None
  end.

(** The state after [JobSystem::schedule(c, -1)], where [jc] is the
    object at [c]: the call is recorded and [c] is the new head of the
    central queue. *)
Definition enqueued (c : ptr) (jc : Job) (s : State) : State :=
  mkState (<[c := set_next (m_central_queue s) jc]> (mem s)) (m_thread_count s)
          (m_local_queues s) (Some c) (calls s ++ [call_schedule c (-1)]).

(** What the submission of the coroutines [cs] leaves as it is: the
    frames that exist and whether each has finished; the coroutines that
    have been scheduled are those of before and [cs]. *)
Definition submitted (cs : list ptr) (s s' : State) : Prop :=
  size (mem s') = size (mem s) ∧
  (∀ x, scheduled s' x ↔ scheduled s x ∨ x ∈ cs) ∧
  (∀ x jx, mem s !! x = Some jx → ∃ jx', mem s' !! x = Some jx' ∧ m_done jx' = m_done jx).

(** *** The invariant *)

(** The job that the coroutine at [x] will notify when it finishes. *)
Definition target (s : State) (x : ptr) : option ptr :=
  mem s !! x ≫= m_coro_parent.

(** The coroutines of the set [L] that will notify [q]. *)
Definition kids (s : State) (L : gset ptr) (q : ptr) : gset ptr :=
  filter (λ x, target s x = Some q) L.

(** Where an execution stands: between two operations, or inside the
    execution of the job [p], whose counter still holds the 1 that
    stands for the job itself: either [p] runs, or it is about to receive
    the [child_finished] of a child that has finished. *)
Inductive phase : Type :=
| idle
| running (p : ptr).

#[global] Instance phase_eq_dec : EqDecision phase.
Proof. solve_decision. Defined.

(** The invariant of these executions.  [L] is the set of the
    coroutines that have been submitted and whose completion is still to
    come (to the job that submitted them, if any); [l] lists the central
    queue.  The queue holds coroutines of [L] that have not finished and
    that nobody will notify; the local queues are empty.  A coroutine of
    [L] outside the queue has as its counter the number of coroutines of
    [L] that will notify it, plus 1 while it is the job [running].  A
    coroutine that was never scheduled is as it was created; one that
    was scheduled and has left [L] has its counter at 0. *)
Record counted (L : gset ptr) (l : list ptr) (ph : phase) (s : State) : Prop := mkCounted {
  cnt_queue : is_list (mem s) (m_central_queue s) l;
  cnt_local : ∀ i h, m_local_queues s !! i = Some h → h = None;
  cnt_promises : promises_ok s;
  cnt_bound : Z.of_nat (size (mem s)) < 2 ^ 31 - 1;
  cnt_live : ∀ p, p ∈ L → scheduled s p;
  cnt_scheduled : ∀ p, scheduled s p → is_Some (mem s !! p);
  cnt_phase : ∀ p, ph = running p → p ∈ L ∧ p ∉ l;
  cnt_target : ∀ x q, x ∈ L → target s x = Some q → q ∈ L ∧ q ≠ x;
  cnt_fresh : ∀ p j, mem s !! p = Some j → ¬ scheduled s p →
      m_done j = false ∧ m_children j = 1;
  cnt_complete : ∀ p j, mem s !! p = Some j → scheduled s p → p ∉ L → m_children j = 0;
  cnt_queued : ∀ p j, mem s !! p = Some j → p ∈ l →
      p ∈ L ∧ m_done j = false ∧ (m_children j = 0 ∨ m_children j = 1) ∧ kids s L p = ∅;
  cnt_waiting : ∀ p j, mem s !! p = Some j → p ∈ L → p ∉ l →
      m_children j = Z.of_nat (size (kids s L p)) + (if decide (ph = running p) then 1 else 0);
  cnt_done : ∀ p j, mem s !! p = Some j → p ∈ L → m_done j = true →
      m_parent j = m_coro_parent j
}.

(** Coroutine 1 awaits the vector of the coroutines 2 and 3 and then
    returns 10; the coroutines 2 and 3 return 20 and 30.  The main
    thread has submitted coroutine 1. *)
Definition parent_of_two : State :=
  exec (Coro_promise_new 3 (co_return 30);;
        Coro_promise_new 2 (co_return 20);;
        Coro_promise_new 1 (co_await_coros [2; 3]%nat (co_return 10));;
        schedule_coro main_thread 1)
       (JobSystem_new 1 1).

(** A run from [parent_of_two] in which coroutine 1 is resumed by hand:
    the worker executes coroutine 1, which submits the coroutines 2 and
    3 and waits for them; the main thread then resumes coroutine 1
    through [Coro<T>::resume]; the worker takes two more turns. *)
Definition resumed_by_hand : M (option ptr) :=
  thread_task_turn 8 0;;
  Coro_resume main_thread (Some 1%nat);;
  thread_task_turn 8 0;;
  thread_task_turn 8 0.

(** A run from [parent_of_two] in which the frame of coroutine 1 is
    destroyed while its children are pending: the worker executes
    coroutine 1, which submits the coroutines 2 and 3 and waits for
    them; the frame of coroutine 1 is destroyed, and a new coroutine is
    created at the address that became free; the worker takes three
    more turns. *)
Definition destroyed_and_reused : M (option ptr) :=
  thread_task_turn 8 0;;
  Coro_promise_deallocate 1;;
  Coro_promise_new 1 (co_return 5);;
  thread_task_turn 8 0;;
  thread_task_turn 8 0;;
  thread_task_turn 8 0.
(** * Properties *)

(** ** Machine integers *)

Lemma wrap_in_range z : Int32.in_range (Int32.wrap z).
Proof.
  unfold Int32.in_range, Int32.wrap, Int32.min_signed, Int32.max_signed.
  pose proof (Z.mod_pos_bound (z + 2 ^ 31) (2 ^ 32) ltac:(lia)). lia.
Qed.

Lemma wrap_small z : Int32.in_range z → Int32.wrap z = z.
Proof.
  unfold Int32.in_range, Int32.wrap, Int32.min_signed, Int32.max_signed. intros Hz.
  rewrite Z.mod_small by lia. lia.
Qed.

Lemma wrap_succ z : Int32.in_range z → z < Int32.max_signed → Int32.wrap (z + 1) = z + 1.
Proof. unfold Int32.in_range. intros Hz Hlt. apply wrap_small. unfold Int32.in_range. lia. Qed.

Lemma wrap_pred z : Int32.in_range z → Int32.min_signed < z → Int32.wrap (z - 1) = z - 1.
Proof. unfold Int32.in_range. intros Hz Hlt. apply wrap_small. unfold Int32.in_range. lia. Qed.

(** ** Running the monad *)

Lemma bind_Ok {A B} (m : M A) (f : A → M B) s a s' :
  m s = Ok (a, s') → (m ≫= f) s = f a s'.
Proof. intros H. unfold mbind, M_bind. by rewrite H. Qed.

Lemma bind_inv_Ok {A B} (m : M A) (f : A → M B) s b s2 :
  (m ≫= f) s = Ok (b, s2) → ∃ a s1, m s = Ok (a, s1) ∧ f a s1 = Ok (b, s2).
Proof.
  unfold mbind, M_bind. destruct (m s) as [[a s1]| |]; [|done..].
  intros H. by exists a, s1.
Qed.

Lemma deref_Ok p s j : mem s !! p = Some j → deref p s = Ok (j, s).
Proof. intros H. unfold deref. by rewrite H. Qed.

Lemma update_Ok p f s j :
  mem s !! p = Some j → update p f s = Ok (tt, set_mem (<[p := f j]> (mem s)) s).
Proof. intros H. unfold update. by rewrite H. Qed.

Lemma fetch_add_Ok p n s j :
  mem s !! p = Some j →
  fetch_add p n s =
    Ok (m_children j,
        set_mem (<[p := set_children (Int32.wrap (m_children j + n)) j]> (mem s)) s).
Proof.
  intros H. unfold fetch_add.
  rewrite (bind_Ok _ _ _ _ _ (deref_Ok _ _ _ H)).
  by rewrite (bind_Ok _ _ _ _ _ (update_Ok _ _ _ _ H)).
Qed.

Lemma fetch_sub_Ok p n s j :
  mem s !! p = Some j →
  fetch_sub p n s =
    Ok (m_children j,
        set_mem (<[p := set_children (Int32.wrap (m_children j - n)) j]> (mem s)) s).
Proof.
  intros H. unfold fetch_sub.
  rewrite (bind_Ok _ _ _ _ _ (deref_Ok _ _ _ H)).
  by rewrite (bind_Ok _ _ _ _ _ (update_Ok _ _ _ _ H)).
Qed.

Lemma load_head_Ok q s h : head_of s q = Some h → load_head q s = Ok (h, s).
Proof. destruct q; simpl; intros H; [by inversion H|]. by rewrite H. Qed.

Lemma store_head_Ok q s h0 h :
  head_of s q = Some h0 →
  ∃ s', store_head q h s = Ok (tt, s') ∧ head_of s' q = Some h ∧
        mem s' = mem s ∧ calls s' = calls s ∧ m_thread_count s' = m_thread_count s ∧
        ∀ q', q' ≠ q → head_of s' q' = head_of s q'.
Proof.
  destruct q as [|i]; simpl; intros H.
  - eexists; split; [done|]. repeat split; try done.
    intros [|i'] Hne; [done|done].
  - rewrite H. eexists; split; [done|]. simpl.
    apply lookup_lt_Some in H.
    repeat split; try done.
    + by rewrite list_lookup_insert_eq.
    + intros [|i'] Hne; [done|]. simpl.
      rewrite list_lookup_insert_ne; [done|congruence].
Qed.

(** ** Chains of [m_next] pointers *)

Section is_list.
Implicit Types (m : gmap ptr Job) (l : list ptr) (h : option ptr).

Lemma is_list_frame m h l p x :
  p ∉ l → is_list m h l → is_list (<[p := x]> m) h l.
Proof.
  revert h. induction l as [|j l IH]; intros h Hp; simpl; [done|].
  intros (-> & job & Hj & Hl). split; [done|].
  apply not_elem_of_cons in Hp as [Hne Hp].
  exists job. split; [by rewrite lookup_insert_ne|]. by apply IH.
Qed.

Lemma is_list_inj m h l1 l2 : is_list m h l1 → is_list m h l2 → l1 = l2.
Proof.
  revert h l2. induction l1 as [|j l1 IH]; intros h [|j2 l2]; simpl.
  - done.
  - intros -> [? _]. done.
  - intros [-> _] ?. done.
  - intros (-> & job & Hj & Hl) (Heq & job2 & Hj2 & Hl2).
    inversion Heq; subst j2. rewrite Hj in Hj2. inversion Hj2; subst job2.
    f_equal. by eapply IH.
Qed.

Lemma is_list_suffix m h l1 l2 j :
  is_list m h (l1 ++ j :: l2) → is_list m (Some j) (j :: l2).
Proof.
  revert h. induction l1 as [|x l1 IH]; intros h; simpl.
  - intros (-> & job & Hj & Hl). split; [done|]. by exists job.
  - intros (-> & job & Hj & Hl). by eapply IH.
Qed.

Lemma is_list_not_in m j l : is_list m (Some j) (j :: l) → j ∉ l.
Proof.
  intros Hl Hin. apply list_elem_of_split in Hin as (l1 & l2 & ->).
  pose proof (is_list_suffix m (Some j) (j :: l1) l2 j Hl) as Hs.
  pose proof (is_list_inj _ _ _ _ Hl Hs) as Heq.
  apply (f_equal length) in Heq. simpl in Heq. rewrite length_app in Heq.
  simpl in Heq. lia.
Qed.

Lemma is_list_NoDup m h l : is_list m h l → NoDup l.
Proof.
  revert h. induction l as [|j l IH]; intros h Hl; [constructor|].
  pose proof Hl as (-> & job & Hj & Hl').
  constructor; [by eapply is_list_not_in|by eapply IH].
Qed.

Lemma is_list_allocated m h l j : is_list m h l → j ∈ l → is_Some (m !! j).
Proof.
  revert h. induction l as [|x l IH]; intros h Hl Hin; [by apply elem_of_nil in Hin|].
  destruct Hl as (-> & job & Hj & Hl).
  apply elem_of_cons in Hin as [->|Hin]; [by exists job|by eapply IH].
Qed.

(** Cutting the chain in front of its last job. *)
Lemma is_list_detach m h l pred jp x :
  is_list m h (l ++ [pred; x]) →
  m !! pred = Some jp →
  is_list (<[pred := set_next None jp]> m) h (l ++ [pred]).
Proof.
  intros Hl Hp.
  pose proof (is_list_NoDup _ _ _ Hl) as Hnd.
  revert h Hl Hnd. induction l as [|y l IH]; intros h; simpl.
  - intros (-> & job & Hj & _) _. split; [done|].
    exists (set_next None jp). by rewrite lookup_insert_eq.
  - intros (-> & job & Hj & Hl) Hnd. split; [done|].
    apply NoDup_cons in Hnd as [Hy Hnd].
    exists job. split.
    + rewrite lookup_insert_ne; [done|]. intros ->. apply Hy. set_solver.
    + by apply IH.
Qed.
End is_list.

(** ** [JobQueue::push] and [JobQueue::pop] *)

Section queue.
Implicit Types (s : State) (q : queue_ref) (l : list ptr).

Lemma push_spec s q l p jp :
  queue_holds s q l → mem s !! p = Some jp → p ∉ l →
  ∃ s' h, push q p s = Ok (tt, s') ∧ head_of s q = Some h ∧
          mem s' = <[p := set_next h jp]> (mem s) ∧
          head_of s' q = Some (Some p) ∧
          (∀ q', q' ≠ q → head_of s' q' = head_of s q') ∧
          calls s' = calls s ∧ m_thread_count s' = m_thread_count s ∧
          queue_holds s' q (p :: l).
Proof.
  intros (h & Hh & Hl) Hp Hnin. unfold push.
  rewrite (bind_Ok _ _ _ _ _ (load_head_Ok _ _ _ Hh)).
  rewrite (bind_Ok _ _ _ _ _ (update_Ok _ _ _ _ Hp)).
  destruct (store_head_Ok q (set_mem (<[p:=set_next h jp]> (mem s)) s) h (Some p))
    as (s' & Hst & Hh' & Hmem & Hcalls & Hcnt & Hoth).
  { by destruct q. }
  exists s', h. split; [done|]. split; [done|]. split; [by rewrite Hmem|].
  split; [done|]. split; [|split; [done|split; [done|]]].
  - intros q' Hne. rewrite Hoth; [|done]. by destruct q'.
  - exists (Some p). split; [done|]. simpl. split; [done|].
    exists (set_next h jp). rewrite Hmem. simpl. rewrite lookup_insert_eq.
    split; [done|]. simpl. by apply is_list_frame.
Qed.

Lemma fifo_walk_single fuel head s j :
  mem s !! head = Some j → m_next j = None →
  fifo_walk (S fuel) head s = Ok (inr head, s).
Proof.
  intros Hj Hn. simpl.
  rewrite (bind_Ok _ _ _ _ _ (deref_Ok _ _ _ Hj)). by rewrite Hn.
Qed.

Lemma fifo_walk_detaches pre : ∀ fuel head s pred x jp,
  is_list (mem s) (Some head) (pre ++ [pred; x]) →
  mem s !! pred = Some jp →
  (length pre < fuel)%nat →
  fifo_walk fuel head s =
    Ok (inl x, set_mem (<[pred := set_next None jp]> (mem s)) s).
Proof.
  induction pre as [|y pre IH]; intros fuel head s pred x jp Hl Hp Hfuel;
    (destruct fuel as [|fuel]; [simpl in Hfuel; lia|]); simpl in Hl |- *.
  - destruct Hl as (Hh & job & Hj & Hx & jx & Hjx & Hnil).
    inversion Hh; subst head. rewrite Hp in Hj. inversion Hj; subst job.
    rewrite (bind_Ok _ _ _ _ _ (deref_Ok _ _ _ Hp)). rewrite Hx.
    rewrite (bind_Ok _ _ _ _ _ (deref_Ok _ _ _ Hjx)). rewrite Hnil.
    by rewrite (bind_Ok _ _ _ _ _ (update_Ok _ _ _ _ Hp)).
  - destruct Hl as (Hh & job & Hj & Hrest).
    inversion Hh; subst head.
    rewrite (bind_Ok _ _ _ _ _ (deref_Ok _ _ _ Hj)).
    assert (∃ z jz w, m_next job = Some z ∧ mem s !! z = Some jz ∧
                      m_next jz = Some w) as (z & jz & w & Hz & Hjz & Hw).
    { destruct pre as [|z pre]; simpl in Hrest.
      - destruct Hrest as (Hz & jz & Hjz & Hw & _). by exists pred, jz, x.
      - destruct Hrest as (Hz & jz & Hjz & Hw).
        destruct pre; simpl in Hw; destruct Hw as (Hw & _); by eexists z, jz, _. }
    rewrite Hz. rewrite (bind_Ok _ _ _ _ _ (deref_Ok _ _ _ Hjz)). rewrite Hw.
    apply IH; [by rewrite <- Hz|done|simpl in Hfuel; lia].
Qed.

Lemma cas_pop_head fuel q s h j :
  head_of s q = Some (Some h) → mem s !! h = Some j →
  ∃ s', cas_pop (S fuel) q (Some h) s = Ok (Some h, s') ∧
        head_of s' q = Some (m_next j) ∧ mem s' = mem s ∧
        calls s' = calls s ∧ m_thread_count s' = m_thread_count s ∧
        ∀ q', q' ≠ q → head_of s' q' = head_of s q'.
Proof.
  intros Hh Hj. simpl.
  rewrite (bind_Ok _ _ _ _ _ (deref_Ok _ _ _ Hj)).
  rewrite (bind_Ok _ _ _ _ _ (load_head_Ok _ _ _ Hh)).
  rewrite decide_True by done.
  destruct (store_head_Ok q s (Some h) (m_next j) Hh)
    as (s' & Hst & Hh' & Hmem & Hcalls & Hcnt & Hoth).
  exists s'. by rewrite (bind_Ok _ _ _ _ _ Hst).
Qed.

(** [pop] on an empty queue. *)
Lemma pop_empty FIFO fuel q s :
  queue_holds s q [] → pop FIFO fuel q s = Ok (None, s).
Proof.
  intros (h & Hh & Hl). simpl in Hl. subst h. unfold pop.
  by rewrite (bind_Ok _ _ _ _ _ (load_head_Ok _ _ _ Hh)).
Qed.

(** FIFO [pop] on a queue of one job: the walk does not run, the job is
    taken from the head by the compare-and-swap, the queue is empty. *)
Lemma pop_fifo_single fuel q s x :
  queue_holds s q [x] →
  ∃ s', pop true (S fuel) q s = Ok (Some x, s') ∧
        head_of s' q = Some None ∧ mem s' = mem s ∧
        (∀ q', q' ≠ q → head_of s' q' = head_of s q') ∧
        queue_holds s' q [].
Proof.
  intros (h & Hh & Hl). simpl in Hl. destruct Hl as (-> & j & Hj & Hn).
  unfold pop. rewrite (bind_Ok _ _ _ _ _ (load_head_Ok _ _ _ Hh)).
  rewrite (bind_Ok _ _ _ _ _ (fifo_walk_single fuel x s j Hj Hn)).
  destruct (cas_pop_head fuel q s x j Hh Hj)
    as (s' & Hcas & Hh' & Hmem & _ & _ & Hoth).
  exists s'. rewrite Hn in Hh'. repeat split; try done.
  by exists None.
Qed.

(** FIFO [pop] on a queue of two or more jobs: the walk reaches the last
    job [x], sets the [m_next] of its predecessor [pred] to [nullptr] and
    returns [x]; [m_head] is not written. *)
Lemma pop_fifo_many fuel q s pre pred x :
  queue_holds s q (pre ++ [pred; x]) →
  (length pre < fuel)%nat →
  ∃ jp, mem s !! pred = Some jp ∧ m_next jp = Some x ∧
        pop true fuel q s =
          Ok (Some x, set_mem (<[pred := set_next None jp]> (mem s)) s) ∧
        queue_holds (set_mem (<[pred := set_next None jp]> (mem s)) s) q
                    (pre ++ [pred]).
Proof.
  intros (h & Hh & Hl) Hfuel.
  pose proof (is_list_suffix _ _ _ _ _ Hl) as (_ & jp & Hp & Hx & _).
  exists jp. split; [done|]. split; [done|].
  assert (∃ head, h = Some head) as (head & ->).
  { destruct pre; simpl in Hl; destruct Hl as (-> & _); by eexists. }
  split.
  - unfold pop. rewrite (bind_Ok _ _ _ _ _ (load_head_Ok _ _ _ Hh)).
    by rewrite (bind_Ok _ _ _ _ _ (fifo_walk_detaches pre fuel head s pred x jp Hl Hp Hfuel)).
  - exists (Some head). split; [by destruct q|]. simpl.
    by eapply is_list_detach.
Qed.

(** Both cases together: FIFO [pop] returns the job at the end of the
    chain and leaves the others in place. *)
Lemma pop_fifo_last fuel q s l x :
  queue_holds s q (l ++ [x]) →
  (length l < fuel)%nat →
  ∃ s', pop true fuel q s = Ok (Some x, s') ∧ queue_holds s' q l.
Proof.
  intros Hq Hfuel.
  destruct (decide (l = [])) as [->|Hne].
  - destruct fuel as [|fuel]; [lia|].
    destruct (pop_fifo_single fuel q s x Hq) as (s' & Hpop & _ & _ & _ & Hq').
    by exists s'.
  - destruct (exists_last Hne) as (pre & pred & ->).
    rewrite <- app_assoc in Hq. simpl in Hq.
    destruct (pop_fifo_many fuel q s pre pred x Hq) as (jp & _ & _ & Hpop & Hq').
    { rewrite length_app in Hfuel. simpl in Hfuel. lia. }
    by eexists.
Qed.
End queue.

(** ** Sequences of pushes and pops *)

Section fifo.
Implicit Types (s : State) (q : queue_ref) (l js : list ptr).

Lemma push_all_spec q js : ∀ s l,
  queue_holds s q l → NoDup js →
  (∀ j, j ∈ js → is_Some (mem s !! j)) →
  (∀ j, j ∈ js → j ∉ l) →
  ∃ s', push_all q js s = Ok (tt, s') ∧ queue_holds s' q (rev js ++ l).
Proof.
  induction js as [|j js IH]; intros s l Hq Hnd Hall Hnin; simpl.
  - by exists s.
  - apply NoDup_cons in Hnd as [Hj Hnd].
    destruct (Hall j) as [jp Hjp]; [set_solver|].
    destruct (push_spec s q l j jp Hq Hjp) as (s1 & h & Hpush & _ & Hmem & _ & _ & _ & _ & Hq1).
    { apply Hnin. set_solver. }
    rewrite (bind_Ok _ _ _ _ _ Hpush).
    destruct (IH s1 (j :: l) Hq1 Hnd) as (s' & Hrun & Hq').
    + intros k Hk. rewrite Hmem.
      destruct (decide (j = k)) as [->|Hne];
        [rewrite lookup_insert_eq; eauto|rewrite lookup_insert_ne; [|done]].
      apply Hall. set_solver.
    + intros k Hk. apply not_elem_of_cons. split; [set_solver|].
      apply Hnin. set_solver.
    + exists s'. split; [done|]. by rewrite <- app_assoc.
Qed.

Lemma pop_n_fifo q fuel l : ∀ s,
  queue_holds s q l → (length l ≤ fuel)%nat →
  ∃ s', pop_n true fuel q (length l) s = Ok (Some <$> rev l, s') ∧
        queue_holds s' q [].
Proof.
  induction l as [|x l IH] using rev_ind; intros s Hq Hfuel.
  - by exists s.
  - rewrite length_app in Hfuel |- *. simpl in Hfuel |- *.
    replace (length l + 1)%nat with (S (length l)) by lia.
    destruct (pop_fifo_last fuel q s l x Hq) as (s1 & Hpop & Hq1); [lia|].
    destruct (IH s1 Hq1) as (s' & Hrun & Hq'); [lia|].
    exists s'. split; [|done]. simpl.
    rewrite (bind_Ok _ _ _ _ _ Hpop). rewrite (bind_Ok _ _ _ _ _ Hrun).
    by rewrite rev_unit.
Qed.

Lemma push_all_pop_n q fuel js s :
  queue_holds s q [] → NoDup js →
  (∀ j, j ∈ js → is_Some (mem s !! j)) →
  (length js ≤ fuel)%nat →
  ∃ s', (push_all q js;; pop_n true fuel q (length js)) s = Ok (Some <$> js, s') ∧
        queue_holds s' q [].
Proof.
  intros Hq Hnd Hall Hfuel.
  destruct (push_all_spec q js s [] Hq Hnd Hall) as (s1 & Hpush & Hq1).
  { intros j _. apply not_elem_of_nil. }
  rewrite app_nil_r in Hq1.
  destruct (pop_n_fifo q fuel (rev js) s1 Hq1) as (s' & Hpop & Hq').
  { by rewrite length_rev. }
  rewrite length_rev, rev_involutive in Hpop.
  exists s'. split; [|done]. by rewrite (bind_Ok _ _ _ _ _ Hpush).
Qed.
End fifo.

(** C7.  The FIFO variant of [JobQueue], used by one thread at a time.
    (1) When the queue holds two or more jobs, [pop] walks to the last
    job of the chain, sets the [m_next] of its predecessor to [nullptr],
    leaves [m_head] alone and returns that last job.  (2) When it holds one
    job, [pop] takes it from the head by the compare-and-swap and the
    queue is empty afterwards.  (3) The last job of the chain is the one
    pushed first: jobs pushed onto an empty queue are popped in the order
    in which they were pushed. *)
Theorem JobQueue_fifo_pop (q : queue_ref) (s : State) (fuel : nat) :
  (∀ pre pred x,
      queue_holds s q (pre ++ [pred; x]) → (length pre < fuel)%nat →
      ∃ jp, mem s !! pred = Some jp ∧ m_next jp = Some x ∧
            pop true fuel q s =
              Ok (Some x, set_mem (<[pred := set_next None jp]> (mem s)) s) ∧
            queue_holds (set_mem (<[pred := set_next None jp]> (mem s)) s) q
                        (pre ++ [pred])) ∧
  (∀ x,
      queue_holds s q [x] → (0 < fuel)%nat →
      ∃ s', pop true fuel q s = Ok (Some x, s') ∧
            head_of s' q = Some None ∧ mem s' = mem s ∧ queue_holds s' q []) ∧
  (∀ js,
      queue_holds s q [] → NoDup js →
      (∀ j, j ∈ js → is_Some (mem s !! j)) →
      (length js ≤ fuel)%nat →
      ∃ s', (push_all q js;; pop_n true fuel q (length js)) s = Ok (Some <$> js, s') ∧
            queue_holds s' q []).
Proof.
  split; [|split].
  - intros pre pred x Hq Hfuel. by apply pop_fifo_many.
  - intros x Hq Hfuel. destruct fuel as [|fuel]; [lia|].
    destruct (pop_fifo_single fuel q s x Hq) as (s' & Hpop & Hh & Hmem & _ & Hq').
    by exists s'.
  - intros js Hq Hnd Hall Hfuel. by apply push_all_pop_n.
Qed.

Ltac solve_is_list :=
  repeat first
    [ reflexivity
    | split
    | eexists ].

Lemma JobQueue_fifo_pop_witness :
  (∃ s', pop true 2 (Local 0) (exec (push_all (Local 0) [1; 2; 3]%nat) three_jobs)
           = Ok (Some 1%nat, s') ∧
         queue_holds s' (Local 0) [3; 2]%nat) ∧
  (∃ s', pop true 1 (Local 0) (exec (push (Local 0) 1%nat) three_jobs)
           = Ok (Some 1%nat, s') ∧
         head_of s' (Local 0) = Some None) ∧
  (∃ s', (push_all (Local 0) [1; 2; 3]%nat;; pop_n true 3 (Local 0) 3) three_jobs
           = Ok ([Some 1; Some 2; Some 3]%nat, s') ∧
         queue_holds s' (Local 0) []).
Proof.
  split; [|split].
  - destruct (JobQueue_fifo_pop (Local 0)
                (exec (push_all (Local 0) [1; 2; 3]%nat) three_jobs) 2)
      as (Hmany & _ & _).
    destruct (Hmany [3%nat] 2%nat 1%nat) as (jp & _ & _ & Hpop & Hq).
    + exists (Some 3%nat). vm_compute. solve_is_list.
    + simpl. lia.
    + eexists. split; [exact Hpop|exact Hq].
  - destruct (JobQueue_fifo_pop (Local 0)
                (exec (push (Local 0) 1%nat) three_jobs) 1)
      as (_ & Hone & _).
    destruct (Hone 1%nat) as (s' & Hpop & Hh & _ & _).
    + exists (Some 1%nat). vm_compute. solve_is_list.
    + lia.
    + by exists s'.
  - destruct (JobQueue_fifo_pop (Local 0) three_jobs 3) as (_ & _ & Hseq).
    apply (Hseq [1; 2; 3]%nat).
    + by exists None.
    + compute_done.
    + intros j Hj. repeat (apply elem_of_cons in Hj as [->|Hj]); [by vm_compute; eauto..|].
      by apply elem_of_nil in Hj.
    + simpl. lia.
Defined.

(** ** [JobSystem::schedule] *)

Lemma push_Ok q p s h jp :
  head_of s q = Some h → mem s !! p = Some jp →
  ∃ s', push q p s = Ok (tt, s') ∧
        mem s' = <[p := set_next h jp]> (mem s) ∧
        head_of s' q = Some (Some p) ∧
        (∀ q', q' ≠ q → head_of s' q' = head_of s q') ∧
        calls s' = calls s ∧ m_thread_count s' = m_thread_count s.
Proof.
  intros Hh Hp. unfold push.
  rewrite (bind_Ok _ _ _ _ _ (load_head_Ok _ _ _ Hh)).
  rewrite (bind_Ok _ _ _ _ _ (update_Ok _ _ _ _ Hp)).
  destruct (store_head_Ok q (set_mem (<[p:=set_next h jp]> (mem s)) s) h (Some p))
    as (s' & Hst & Hh' & Hmem & Hcalls & Hcnt & Hoth).
  { by destruct q. }
  exists s'. repeat split; try done.
Qed.

(** An affinity outside [[0, m_thread_count)], the default [-1] included:
    the job goes to the central queue, and no local queue changes. *)
Lemma schedule_central th job thd s jp :
  ¬ (0 <= thd < Int32.wrap (m_thread_count s)) →
  mem s !! job = Some jp →
  ∃ s', schedule th job thd s = Ok (tt, s') ∧
        mem s' = <[job := set_next (m_central_queue s) jp]> (mem s) ∧
        m_central_queue s' = Some job ∧
        m_local_queues s' = m_local_queues s ∧
        calls s' = calls s ++ [call_schedule job thd] ∧
        m_thread_count s' = m_thread_count s.
Proof.
  intros Hthd Hp. unfold schedule, log, modify, gets.
  unfold mbind at 1, M_bind. unfold mbind at 1, M_bind.
  change (m_thread_count (add_call (call_schedule job thd) s)) with (m_thread_count s).
  replace (bool_decide (0 <= thd) && bool_decide (thd < Int32.wrap (m_thread_count s)))
    with false.
  2:{ symmetry. apply andb_false_iff.
      destruct (decide (0 <= thd)); [right|left]; apply bool_decide_eq_false; lia. }
  destruct (push_Ok Central job (add_call (call_schedule job thd) s)
              (m_central_queue s) jp eq_refl Hp)
    as (s' & Hpush & Hmem & Hh & Hoth & Hcalls & Hcnt).
  exists s'. split; [done|]. split; [done|].
  split; [by inversion Hh|]. split; [|done].
  apply list_eq. intros i. apply (Hoth (Local i)). done.
Qed.

(** An affinity inside [[0, m_thread_count)]: the job goes to the local
    queue of the executing thread, [m_local_queues[m_thread_index]],
    whatever the value of [thd]; every other queue is unchanged. *)
Lemma schedule_local th job thd s jp h :
  0 <= thd < Int32.wrap (m_thread_count s) →
  head_of s (Local (Z.to_nat (thread_index th))) = Some h →
  mem s !! job = Some jp →
  ∃ s', schedule th job thd s = Ok (tt, s') ∧
        mem s' = <[job := set_next h jp]> (mem s) ∧
        head_of s' (Local (Z.to_nat (thread_index th))) = Some (Some job) ∧
        (∀ q', q' ≠ Local (Z.to_nat (thread_index th)) → head_of s' q' = head_of s q') ∧
        calls s' = calls s ++ [call_schedule job thd].
Proof.
  intros Hthd Hh Hp. unfold schedule, log, modify, gets.
  unfold mbind at 1, M_bind. unfold mbind at 1, M_bind.
  change (m_thread_count (add_call (call_schedule job thd) s)) with (m_thread_count s).
  replace (bool_decide (0 <= thd) && bool_decide (thd < Int32.wrap (m_thread_count s)))
    with true.
  2:{ symmetry. apply andb_true_iff. split; apply bool_decide_eq_true; lia. }
  destruct (push_Ok (Local (Z.to_nat (thread_index th))) job
              (add_call (call_schedule job thd) s) h jp Hh Hp)
    as (s' & Hpush & Hmem & Hh' & Hoth & Hcalls & Hcnt).
  exists s'. repeat split; try done.
Qed.

(** C1.  Two workers, the executing thread is worker 0, job 1 is
    scheduled.  With [thd = 1], an affinity in range, the job is pushed
    onto the local queue of worker 0, the executing thread, and the local
    queue of worker 1 stays empty.  With an affinity out of range ([-1],
    [2], [7]) the job is pushed onto the central queue in each case. *)
Theorem schedule_affinity_ignored :
  (∃ s', schedule (mkThread 0 None) 1 1 three_jobs = Ok (tt, s') ∧
         m_local_queues s' = [Some 1%nat; None] ∧ m_central_queue s' = None) ∧
  (∀ thd, thd ∈ [-1; 2; 7] →
     ∃ s', schedule (mkThread 0 None) 1 thd three_jobs = Ok (tt, s') ∧
           m_local_queues s' = [None; None] ∧ m_central_queue s' = Some 1%nat).
Proof.
  split.
  - eexists. split; [vm_compute; reflexivity|]. by split.
  - intros thd Hthd.
    repeat (apply elem_of_cons in Hthd as [->|Hthd]);
      [eexists; (split; [vm_compute; reflexivity|]); by split..|].
    by apply elem_of_nil in Hthd.
Qed.

(** ** Resuming a coroutine *)

Lemma update_twice p f g s j :
  mem s !! p = Some j →
  (update p f;; update p g) s = Ok (tt, set_mem (<[p := g (f j)]> (mem s)) s).
Proof.
  intros H. rewrite (bind_Ok _ _ _ _ _ (update_Ok _ _ _ _ H)).
  unfold update. simpl. rewrite lookup_insert_eq. by rewrite insert_insert_eq.
Qed.

Lemma final_awaiter_await_suspend_Ok p s j :
  mem s !! p = Some j →
  final_awaiter_await_suspend p s =
    Ok (tt, set_mem (<[p := set_continuation None (set_parent (m_coro_parent j) j)]> (mem s)) s).
Proof.
  intros H. unfold final_awaiter_await_suspend.
  rewrite (bind_Ok _ _ _ _ _ (deref_Ok _ _ _ H)).
  by apply update_twice.
Qed.

(** A body that reaches [co_return v] without suspending: the value is
    stored, the coroutine is suspended at its final suspension point, the
    parent link is taken from [m_coro_parent] and the continuation is
    cleared.  Nothing else changes. *)
Lemma coro_resume_returns th self body v : ∀ s j,
  runs_to_return th body = Some v →
  mem s !! self = Some j →
  coro_resume th self body s = Ok (tt, set_mem (<[self := finalized v j]> (mem s)) s).
Proof.
  induction body as [w|child rest IH|k rest IH|? ? _|? ? _|? ? _];
    intros s j Hret Hj; simpl in *; [| | |done..].
  - inversion Hret; subst w. unfold return_value, suspend.
    rewrite (bind_Ok _ _ _ _ _ (update_Ok _ _ _ _ Hj)).
    set (s1 := set_mem _ s).
    assert (mem s1 !! self = Some (set_value v j)) as H1
      by (subst s1; simpl; by rewrite lookup_insert_eq).
    rewrite (bind_Ok _ _ _ _ _ (update_Ok _ _ _ _ H1)).
    set (s2 := set_mem _ s1).
    assert (mem s2 !! self = Some (set_frame (co_return v) true (set_value v j))) as H2
      by (subst s2; simpl; by rewrite lookup_insert_eq).
    rewrite (final_awaiter_await_suspend_Ok _ _ _ H2).
    subst s2 s1. simpl. unfold set_mem. simpl. by rewrite !insert_insert_eq.
  - done.
  - destruct (awaitable_resume_on_await_ready th k); [by apply IH|done].
Qed.

Lemma Coro_promise_resume_returns th self s j v :
  mem s !! self = Some j → m_done j = false →
  runs_to_return th (m_coro j) = Some v →
  Coro_promise_resume th self s =
    Ok (true, set_mem (<[self := finalized v (set_children 1 j)]> (mem s)) s).
Proof.
  intros Hj Hd Hret. unfold Coro_promise_resume.
  rewrite (bind_Ok _ _ _ _ _ (deref_Ok _ _ _ Hj)). rewrite Hd.
  unfold mbind at 1, M_bind. unfold mbind at 1, M_bind.
  rewrite (update_Ok _ _ _ _ Hj).
  erewrite coro_resume_returns; [|done|by simpl; rewrite lookup_insert_eq].
  simpl. unfold set_mem. simpl. by rewrite insert_insert_eq.
Qed.

(** A promise already suspended at its final suspension point is not
    resumed again. *)
Lemma Coro_promise_resume_done th self s j :
  mem s !! self = Some j → m_done j = true →
  Coro_promise_resume th self s = Ok (true, s).
Proof.
  intros Hj Hd. unfold Coro_promise_resume.
  rewrite (bind_Ok _ _ _ _ _ (deref_Ok _ _ _ Hj)). by rewrite Hd.
Qed.

(** [on_finished] on a job without continuation and without parent only
    records its call. *)
Lemma on_finished_leaf fuel th self s j :
  mem s !! self = Some j → m_continuation j = None → m_parent j = None →
  on_finished (S fuel) th self s = Ok (tt, add_call (call_on_finished self) s).
Proof.
  intros Hj Hc Hp. simpl. unfold log, modify.
  unfold mbind at 1, M_bind.
  assert (mem (add_call (call_on_finished self) s) !! self = Some j) as Hj' by done.
  rewrite (bind_Ok _ _ _ _ _ (deref_Ok _ _ _ Hj')). rewrite Hc.
  unfold mbind at 1, M_bind. simpl.
  rewrite (bind_Ok _ _ _ _ _ (deref_Ok _ _ _ Hj')). by rewrite Hp.
Qed.

(** A promise whose [m_coro_parent] is [nullptr] and whose body reaches
    [co_return]: [Job::operator()] finishes it, and the only protocol
    call is [on_finished] on the promise itself. *)
Lemma Job_call_orphan fuel th self s j v :
  mem s !! self = Some j → m_done j = false → m_coro_parent j = None →
  runs_to_return th (m_coro j) = Some v →
  ∃ s', Job_call (S fuel) th self s = Ok (tt, s') ∧
        calls s' = calls s ++ [call_on_finished self] ∧
        ∃ j', mem s' !! self = Some j' ∧ m_parent j' = None ∧
              m_value j' = v ∧ m_children j' = 0.
Proof.
  intros Hj Hd Hcp Hret. unfold Job_call.
  rewrite (bind_Ok _ _ _ _ _ (update_Ok _ _ _ _ Hj)).
  set (s1 := set_mem _ s).
  assert (mem s1 !! self = Some (set_children 1 j)) as H1
    by (subst s1; simpl; by rewrite lookup_insert_eq).
  rewrite (bind_Ok _ _ _ _ _ (Coro_promise_resume_returns th self s1 _ v H1 Hd Hret)).
  set (s2 := set_mem _ s1).
  assert (mem s2 !! self = Some (finalized v (set_children 1 (set_children 1 j)))) as H2
    by (subst s2; simpl; by rewrite lookup_insert_eq).
  rewrite (bind_Ok _ _ _ _ _ (fetch_sub_Ok _ 1 _ _ H2)).
  simpl. set (s3 := set_mem _ s2).
  eexists. split.
  - apply on_finished_leaf with (j := set_children 0 (finalized v (set_children 1 j))).
    + subst s3. simpl. by rewrite lookup_insert_eq.
    + done.
    + simpl. done.
  - simpl. split; [done|]. eexists. rewrite lookup_insert_eq. split; [done|]. done.
Qed.

(** ** [vgjs::schedule] for coroutines *)

(** The memory after [schedule_coro]: the counter of the current job, if
    there is one, is incremented; the coroutine records the current job
    in [m_coro_parent] and is linked into the central queue; no other
    object changes. *)
Lemma schedule_coro_Ok th coro s jc :
  mem s !! coro = Some jc →
  (∀ p, current_job th = Some p → is_Some (mem s !! p)) →
  ∃ s', schedule_coro th coro s = Ok (tt, s') ∧
        m_central_queue s' = Some coro ∧
        m_local_queues s' = m_local_queues s ∧
        calls s' = calls s ++ [call_schedule coro (-1)] ∧
        (∀ x jx, mem s !! x = Some jx →
           ∃ jx', mem s' !! x = Some jx' ∧
                  m_children jx' =
                    (if decide (current_job th = Some x)
                     then Int32.wrap (m_children jx + 1) else m_children jx) ∧
                  m_coro_parent jx' =
                    (if decide (x = coro) then current_job th else m_coro_parent jx) ∧
                  m_next jx' =
                    (if decide (x = coro) then m_central_queue s else m_next jx) ∧
                  m_parent jx' = m_parent jx ∧
                  m_continuation jx' = m_continuation jx ∧
                  m_thread_index jx' = m_thread_index jx ∧
                  m_value jx' = m_value jx ∧
                  m_coro jx' = m_coro jx ∧ m_done jx' = m_done jx) ∧
        (∀ x, mem s !! x = None → mem s' !! x = None).
Proof.
  intros Hc Hcur. unfold schedule_coro.
  destruct (current_job th) as [p|] eqn:Hp.
  - destruct (Hcur p eq_refl) as [jp Hjp].
    unfold mbind at 1, M_bind. unfold mbind at 1, M_bind.
    rewrite (fetch_add_Ok _ 1 _ _ Hjp). simpl.
    set (s1 := set_mem _ s).
    assert (∃ jc1, mem s1 !! coro = Some jc1 ∧
                   jc1 = if decide (p = coro)
                         then set_children (Int32.wrap (m_children jp + 1)) jp else jc)
      as (jc1 & Hc1 & Hjc1).
    { subst s1. simpl. rewrite lookup_insert. case_decide; eauto. }
    rewrite (bind_Ok _ _ _ _ _ (update_Ok _ _ _ _ Hc1)).
    set (s2 := set_mem _ s1).
    destruct (schedule_central th coro (-1) s2 (set_coro_parent (Some p) jc1))
      as (s' & Hs & Hmem & Hcq & Hlq & Hcalls & _).
    { lia. }
    { subst s2. simpl. by rewrite lookup_insert_eq. }
    exists s'. split; [done|]. split; [done|]. split; [done|]. split; [done|].
    split.
    + intros x jx Hx. rewrite Hmem. subst s2 s1. simpl.
      rewrite insert_insert_eq. rewrite !lookup_insert.
      destruct (decide (coro = x)) as [->|Hne];
        [|destruct (decide (p = x)) as [->|Hpx]];
        (eexists; split; [done|]); subst jc1;
        repeat case_decide; simplify_eq/=; done.
    + intros x Hx. rewrite Hmem. subst s2 s1. simpl.
      rewrite !lookup_insert_ne; [done|congruence..].
  - unfold mbind at 1, M_bind. unfold mbind at 1, M_bind. simpl.
    rewrite (update_Ok _ _ _ _ Hc).
    set (s2 := set_mem _ s).
    destruct (schedule_central th coro (-1) s2 (set_coro_parent None jc))
      as (s' & Hs & Hmem & Hcq & Hlq & Hcalls & _).
    { lia. }
    { subst s2. simpl. by rewrite lookup_insert_eq. }
    exists s'. split; [done|]. split; [done|]. split; [done|]. split; [done|].
    split.
    + intros x jx Hx. rewrite Hmem. subst s2. simpl.
      rewrite insert_insert_eq. rewrite lookup_insert.
      destruct (decide (coro = x)) as [->|Hne];
        (eexists; split; [done|]);
        repeat case_decide; simplify_eq/=; done.
    + intros x Hx. rewrite Hmem. subst s2. simpl.
      rewrite !lookup_insert_ne; [done|congruence..].
Qed.

(** ** [Job::on_finished] and [Job::child_finished] *)

Section completion.
Implicit Types (s : State) (th : Thread) (j : Job).

(** Continuation and parent: the parent's counter is incremented, the
    continuation gets the parent, then the continuation is scheduled,
    then [child_finished] is called on the parent. *)
Lemma on_finished_handoff fuel th self s j c p jp jc :
  mem s !! self = Some j →
  m_continuation j = Some c → m_parent j = Some p →
  mem s !! p = Some jp → mem s !! c = Some jc →
  ∃ s1 s2,
    calls s1 = calls s ++ [call_on_finished self] ∧
    m_central_queue s1 = m_central_queue s ∧
    m_local_queues s1 = m_local_queues s ∧
    (∃ jp1, mem s1 !! p = Some jp1 ∧
            m_children jp1 = Int32.wrap (m_children jp + 1)) ∧
    (∃ jc1, mem s1 !! c = Some jc1 ∧ m_parent jc1 = Some p) ∧
    (∀ x, x ≠ p → x ≠ c → mem s1 !! x = mem s !! x) ∧
    schedule th c (-1) s1 = Ok (tt, s2) ∧
    m_central_queue s2 = Some c ∧
    calls s2 = calls s1 ++ [call_schedule c (-1)] ∧
    on_finished (S fuel) th self s = child_finished fuel th p s2.
Proof.
  intros Hj Hc Hp Hjp Hjc.
  set (s0 := add_call (call_on_finished self) s).
  set (jp1 := set_children (Int32.wrap (m_children jp + 1)) jp).
  set (sa := set_mem (<[p := jp1]> (mem s0)) s0).
  set (jc' := if decide (p = c) then jp1 else jc).
  assert (mem sa !! c = Some jc') as Hc'.
  { subst sa jc'. simpl. rewrite lookup_insert. by case_decide; simplify_eq. }
  set (s1 := set_mem (<[c := set_parent (Some p) jc']> (mem sa)) sa).
  destruct (schedule_central th c (-1) s1 (set_parent (Some p) jc'))
    as (s2 & Hs & Hmem & Hcq & Hlq & Hcalls & _).
  { lia. }
  { subst s1. simpl. by rewrite lookup_insert_eq. }
  exists s1, s2. split; [done|]. split; [done|]. split; [done|].
  split.
  { subst s1 sa jc'. simpl. rewrite lookup_insert.
    repeat case_decide; simplify_eq/=; rewrite ?lookup_insert_eq; by eexists. }
  split.
  { subst s1. simpl. rewrite lookup_insert_eq. by eexists. }
  split.
  { intros x Hxp Hxc. subst s1 sa. simpl. by rewrite !lookup_insert_ne. }
  split; [done|]. split; [done|]. split; [done|].
  simpl. unfold log, modify. unfold mbind at 1, M_bind. fold s0.
  assert (mem s0 !! self = Some j) as Hj0 by done.
  rewrite (bind_Ok _ _ _ _ _ (deref_Ok _ _ _ Hj0)). rewrite Hc, Hp.
  unfold mbind at 1, M_bind. unfold mbind at 1, M_bind. unfold mbind at 1, M_bind.
  assert (mem s0 !! p = Some jp) as Hjp0 by done.
  rewrite (fetch_add_Ok _ 1 _ _ Hjp0). fold jp1. fold sa.
  rewrite (update_Ok _ _ _ _ Hc'). fold s1. rewrite Hs.
  assert (∃ j2, mem s2 !! self = Some j2 ∧ m_parent j2 = Some p) as (j2 & Hj2 & Hp2).
  { rewrite Hmem. subst s1 sa jc' jp1. simpl.
    rewrite insert_insert_eq. rewrite !lookup_insert.
    repeat case_decide; simplify_eq/=; eauto. }
  rewrite (bind_Ok _ _ _ _ _ (deref_Ok _ _ _ Hj2)). by rewrite Hp2.
Qed.

(** A continuation and no parent: the continuation is scheduled, and no
    parent is notified. *)
Lemma on_finished_continuation_only fuel th self s j c jc :
  mem s !! self = Some j →
  m_continuation j = Some c → m_parent j = None →
  mem s !! c = Some jc →
  ∃ s', on_finished (S fuel) th self s = Ok (tt, s') ∧
        mem s' = <[c := set_next (m_central_queue s) jc]> (mem s) ∧
        m_central_queue s' = Some c ∧
        m_local_queues s' = m_local_queues s ∧
        calls s' = calls s ++ [call_on_finished self; call_schedule c (-1)].
Proof.
  intros Hj Hc Hp Hjc.
  set (s0 := add_call (call_on_finished self) s).
  destruct (schedule_central th c (-1) s0 jc)
    as (s2 & Hs & Hmem & Hcq & Hlq & Hcalls & _); [lia|done|].
  exists s2. split; [|split; [done|split; [done|split; [done|]]]].
  - simpl. unfold log, modify. unfold mbind at 1, M_bind. fold s0.
    assert (mem s0 !! self = Some j) as Hj0 by done.
    rewrite (bind_Ok _ _ _ _ _ (deref_Ok _ _ _ Hj0)). rewrite Hc, Hp.
    unfold mbind at 1, M_bind. unfold mbind at 1, M_bind. simpl. rewrite Hs.
    assert (∃ j2, mem s2 !! self = Some j2 ∧ m_parent j2 = None) as (j2 & Hj2 & Hp2).
    { rewrite Hmem. simpl. rewrite lookup_insert.
      case_decide; simplify_eq/=; eauto. }
    rewrite (bind_Ok _ _ _ _ _ (deref_Ok _ _ _ Hj2)). by rewrite Hp2.
  - rewrite Hcalls. subst s0. simpl. by rewrite <- app_assoc.
Qed.

(** A parent and no continuation: [child_finished] is called on the
    parent, in a state where only the call log has changed. *)
Lemma on_finished_notify fuel th self s j p :
  mem s !! self = Some j →
  m_continuation j = None → m_parent j = Some p →
  on_finished (S fuel) th self s =
    child_finished fuel th p (add_call (call_on_finished self) s).
Proof.
  intros Hj Hc Hp. simpl. unfold log, modify. unfold mbind at 1, M_bind.
  assert (mem (add_call (call_on_finished self) s) !! self = Some j) as Hj0 by done.
  rewrite (bind_Ok _ _ _ _ _ (deref_Ok _ _ _ Hj0)). rewrite Hc.
  unfold mbind at 1, M_bind. simpl.
  rewrite (bind_Ok _ _ _ _ _ (deref_Ok _ _ _ Hj0)). by rewrite Hp.
Qed.

(** [child_finished]: the counter is decremented, and [on_finished] is
    called exactly when the value before was [1]. *)
Lemma child_finished_step fuel th p s jp :
  mem s !! p = Some jp →
  child_finished (S fuel) th p s =
    let s' := set_mem (<[p := set_children (Int32.wrap (m_children jp - 1)) jp]> (mem s))
                      (add_call (call_child_finished p) s) in
    if bool_decide (m_children jp = 1) then on_finished fuel th p s' else Ok (tt, s').
Proof.
  intros Hjp. simpl. unfold log, modify. unfold mbind at 1, M_bind.
  assert (mem (add_call (call_child_finished p) s) !! p = Some jp) as Hj0 by done.
  rewrite (bind_Ok _ _ _ _ _ (fetch_sub_Ok _ 1 _ _ Hj0)).
  by destruct (bool_decide (m_children jp = 1)).
Qed.
End completion.

(** ** The call log *)

Section call_log.
Implicit Types (s : State) (th : Thread).

Lemma deref_inv p s j s' : deref p s = Ok (j, s') → s' = s ∧ mem s !! p = Some j.
Proof. unfold deref. destruct (mem s !! p); [|done]. intros H. by inversion H. Qed.

Lemma update_inv p f s u s' :
  update p f s = Ok (u, s') →
  ∃ j, mem s !! p = Some j ∧ s' = set_mem (<[p := f j]> (mem s)) s.
Proof. unfold update. destruct (mem s !! p) as [j|]; [|done]. intros H. inversion H. eauto. Qed.

Lemma update_calls p f s u s' : update p f s = Ok (u, s') → calls s' = calls s.
Proof. intros (j & _ & ->)%update_inv. done. Qed.

Lemma fetch_add_calls p n s old s' : fetch_add p n s = Ok (old, s') → calls s' = calls s.
Proof.
  unfold fetch_add. intros (j & s1 & (-> & Hj)%deref_inv & H)%bind_inv_Ok.
  apply bind_inv_Ok in H as (u & s2 & Hu%update_calls & H). by inversion H; subst.
Qed.

Lemma fetch_sub_inv p n s old s' :
  fetch_sub p n s = Ok (old, s') →
  ∃ j, mem s !! p = Some j ∧ old = m_children j ∧
       s' = set_mem (<[p := set_children (Int32.wrap (m_children j - n)) j]> (mem s)) s.
Proof.
  unfold fetch_sub. intros (j & s1 & (-> & Hj)%deref_inv & H)%bind_inv_Ok.
  apply bind_inv_Ok in H as (u & s2 & (j' & Hj' & ->)%update_inv & H).
  rewrite Hj in Hj'. inversion Hj'; subst j'. inversion H; subst. eauto.
Qed.

Lemma store_head_calls q h s u s' : store_head q h s = Ok (u, s') → calls s' = calls s.
Proof.
  destruct q as [|i]; simpl; [intros H; by inversion H|].
  destruct (m_local_queues s !! i); [|done]. intros H. by inversion H.
Qed.

Lemma load_head_inv q s h s' : load_head q s = Ok (h, s') → s' = s.
Proof.
  destruct q as [|i]; simpl; [intros H; by inversion H|].
  destruct (m_local_queues s !! i); [|done]. intros H. by inversion H.
Qed.

Lemma push_calls q p s u s' : push q p s = Ok (u, s') → calls s' = calls s.
Proof.
  unfold push. intros (h & s1 & ->%load_head_inv & H)%bind_inv_Ok.
  apply bind_inv_Ok in H as (u1 & s2 & Hu%update_calls & H%store_head_calls).
  congruence.
Qed.

Lemma schedule_calls th job thd s u s' :
  schedule th job thd s = Ok (u, s') → calls s' = calls s ++ [call_schedule job thd].
Proof.
  unfold schedule, log, modify, gets.
  unfold mbind at 1, M_bind. unfold mbind at 1, M_bind.
  destruct (_ && _); intros H%push_calls; by rewrite H.
Qed.

(** A completed call of [on_finished] or [child_finished] extends the
    log, and the first entry it adds is the call itself. *)
Lemma protocol_calls fuel :
  (∀ th self s s', on_finished fuel th self s = Ok (tt, s') →
     ∃ l, calls s' = calls s ++ call_on_finished self :: l) ∧
  (∀ th p s s', child_finished fuel th p s = Ok (tt, s') →
     ∃ l, calls s' = calls s ++ call_child_finished p :: l).
Proof.
  induction fuel as [|fuel [IHo IHc]]; [by split|]. split.
  - intros th self s s'. simpl. unfold log, modify.
    unfold mbind at 1, M_bind.
    set (s0 := add_call (call_on_finished self) s).
    intros (j & s1 & (-> & Hj)%deref_inv & H)%bind_inv_Ok.
    apply bind_inv_Ok in H as (u & s2 & Hmid & H).
    assert (∃ l, calls s2 = calls s0 ++ l) as (l2 & Hl2).
    { destruct (m_continuation j) as [c|];
        [|inversion Hmid; subst; exists []; by rewrite app_nil_r].
      apply bind_inv_Ok in Hmid as (u1 & s3 & Hpar & Hsch%schedule_calls).
      exists [call_schedule c (-1)]. rewrite Hsch. f_equal.
      destruct (m_parent j) as [p|]; [|by inversion Hpar].
      apply bind_inv_Ok in Hpar as (o & s4 & Hadd%fetch_add_calls & Hupd%update_calls).
      congruence. }
    apply bind_inv_Ok in H as (j' & s2' & (-> & Hj')%deref_inv & H).
    destruct (m_parent j') as [p|].
    + apply IHc in H as (l & Hl). exists (l2 ++ call_child_finished p :: l).
      rewrite Hl, Hl2. subst s0. simpl. by rewrite <- !app_assoc.
    + inversion H; subst. exists l2. rewrite Hl2. subst s0. simpl.
      by rewrite <- app_assoc.
  - intros th p s s'. simpl. unfold log, modify.
    unfold mbind at 1, M_bind.
    set (s0 := add_call (call_child_finished p) s).
    intros (old & s1 & (j & Hj & -> & ->)%fetch_sub_inv & H)%bind_inv_Ok.
    case_bool_decide.
    + apply IHo in H as (l & Hl). exists (call_on_finished p :: l).
      rewrite Hl. simpl. by rewrite <- app_assoc.
    + inversion H; subst. exists []. done.
Qed.
End call_log.

(** C3.  [on_finished] on a job [self].  (1) With a continuation [c] and
    a parent [p]: there is a state [s1], reached before the continuation
    is scheduled, in which the counter of [p] is incremented by one (by
    the increment of [std::atomic<int>], which is [+ 1] below [INT_MAX])
    and the parent of [c] is [p]; the continuation is then scheduled from
    [s1], giving [s2]; and from [s2] the function goes on as
    [child_finished] on [p].  In a completed call the log shows the three
    calls in this order.  (2) Whenever the parent is not [nullptr],
    [on_finished] ends in a call of [child_finished] on the parent. *)
Theorem on_finished_protocol (fuel : nat) (th : Thread) (self : ptr) (s : State) (j : Job) :
  mem s !! self = Some j →
  (∀ c p jp jc,
     m_continuation j = Some c → m_parent j = Some p →
     mem s !! p = Some jp → mem s !! c = Some jc →
     ∃ s1 s2,
       (∃ jp1, mem s1 !! p = Some jp1 ∧
               m_children jp1 = Int32.wrap (m_children jp + 1) ∧
               (Int32.in_range (m_children jp) → m_children jp < Int32.max_signed →
                m_children jp1 = m_children jp + 1)) ∧
       (∃ jc1, mem s1 !! c = Some jc1 ∧ m_parent jc1 = Some p) ∧
       (∀ x, x ≠ p → x ≠ c → mem s1 !! x = mem s !! x) ∧
       m_central_queue s1 = m_central_queue s ∧
       schedule th c (-1) s1 = Ok (tt, s2) ∧
       m_central_queue s2 = Some c ∧
       on_finished (S fuel) th self s = child_finished fuel th p s2 ∧
       (∀ s', on_finished (S fuel) th self s = Ok (tt, s') →
          ∃ l, calls s' = calls s ++ [call_on_finished self; call_schedule c (-1);
                                       call_child_finished p] ++ l)) ∧
  (∀ p,
     m_parent j = Some p → is_Some (mem s !! p) →
     (∀ c, m_continuation j = Some c → is_Some (mem s !! c)) →
     ∃ s2, on_finished (S fuel) th self s = child_finished fuel th p s2).
Proof.
  intros Hj. split.
  - intros c p jp jc Hc Hp Hjp Hjc.
    destruct (on_finished_handoff fuel th self s j c p jp jc Hj Hc Hp Hjp Hjc)
      as (s1 & s2 & Hcalls1 & Hcq1 & _ & (jp1 & Hjp1 & Hch) & Hpar & Hoth & Hs & Hcq2
          & Hcalls2 & Heq).
    exists s1, s2. split.
    { exists jp1. split; [done|]. split; [done|]. intros Hr Hlt. rewrite Hch. by apply wrap_succ. }
    do 6 (split; [done|]).
    intros s' Hrun. rewrite Heq in Hrun.
    destruct (protocol_calls fuel) as [_ Hlog].
    apply Hlog in Hrun as (l & Hl). exists l.
    rewrite Hl, Hcalls2, Hcalls1. by rewrite <- !app_assoc.
  - intros p Hp [jp Hjp] Hcont.
    destruct (m_continuation j) as [c|] eqn:Hc.
    + destruct (Hcont c eq_refl) as [jc Hjc].
      destruct (on_finished_handoff fuel th self s j c p jp jc Hj Hc Hp Hjp Hjc)
        as (s1 & s2 & _ & _ & _ & _ & _ & _ & _ & _ & _ & Heq).
      by exists s2.
    + eexists. by apply on_finished_notify with (j := j).
Qed.

(** C5.  [child_finished] on a job [p] decrements the counter [m_children]
    of [p] by one (by [fetch_sub(1)] of [std::atomic<int>], which is
    [- 1] above [INT_MIN]) and then calls [on_finished] on [p] if the value
    before the decrement was [1], and returns otherwise.  In a completed
    call, the log has [on_finished p] right after [child_finished p] if
    and only if that value was [1]. *)
Theorem child_finished_protocol (fuel : nat) (th : Thread) (p : ptr) (s : State) (jp : Job) :
  mem s !! p = Some jp →
  ∃ s1,
    calls s1 = calls s ++ [call_child_finished p] ∧
    mem s1 = <[p := set_children (Int32.wrap (m_children jp - 1)) jp]> (mem s) ∧
    (Int32.in_range (m_children jp) → Int32.min_signed < m_children jp →
     mem s1 = <[p := set_children (m_children jp - 1) jp]> (mem s)) ∧
    child_finished (S fuel) th p s =
      (if bool_decide (m_children jp = 1) then on_finished fuel th p s1 else Ok (tt, s1)) ∧
    (∀ s', child_finished (S fuel) th p s = Ok (tt, s') →
       (m_children jp = 1 ↔
        ∃ l, calls s' = calls s ++ call_child_finished p :: call_on_finished p :: l)).
Proof.
  intros Hjp. pose proof (child_finished_step fuel th p s jp Hjp) as Hstep.
  cbv zeta in Hstep. eexists. split; [|split; [|split; [|split; [exact Hstep|]]]].
  - done.
  - done.
  - intros Hr Hlt. simpl. by rewrite wrap_pred.
  - intros s' Hrun. rewrite Hstep in Hrun. case_bool_decide as Hone.
    + split; [intros _|done].
      destruct (protocol_calls fuel) as [Hlog _].
      apply Hlog in Hrun as (l & Hl). exists l. rewrite Hl. simpl.
      by rewrite <- app_assoc.
    + split; [done|]. intros (l & Hl). inversion Hrun; subst s'. simpl in Hl.
      apply app_inv_head in Hl. done.
Qed.

Lemma on_finished_protocol_witness :
  ∃ s1 s2,
    (∃ jp1, mem s1 !! 1%nat = Some jp1 ∧ m_children jp1 = 3) ∧
    (∃ jc1, mem s1 !! 3%nat = Some jc1 ∧ m_parent jc1 = Some 1%nat) ∧
    schedule (mkThread 0 (Some 2%nat)) 3 (-1) s1 = Ok (tt, s2) ∧
    on_finished 2 (mkThread 0 (Some 2%nat)) 2 family
      = child_finished 1 (mkThread 0 (Some 2%nat)) 1 s2.
Proof.
  assert (mem family !! 2%nat =
          Some (set_continuation (Some 3%nat)
                  (set_parent (Some 1%nat) (new_promise 2 (co_return 20))))) as H2
    by (vm_compute; reflexivity).
  assert (mem family !! 1%nat = Some (set_children 2 (new_promise 1 (co_return 10)))) as H1
    by (vm_compute; reflexivity).
  assert (mem family !! 3%nat = Some (new_promise 3 (co_return 30))) as H3
    by (vm_compute; reflexivity).
  destruct (on_finished_protocol 1 (mkThread 0 (Some 2%nat)) 2 family _ H2) as [Hhand _].
  destruct (Hhand 3%nat 1%nat _ _ eq_refl eq_refl H1 H3)
    as (s1 & s2 & (jp1 & Hjp1 & _ & Hplus) & Hpar & _ & _ & Hs & _ & Heq & _).
  exists s1, s2. split; [|done].
  exists jp1. split; [done|]. rewrite Hplus; [done|by vm_compute|by vm_compute].
Defined.

Lemma child_finished_protocol_witness :
  (∃ s1, child_finished 3 (mkThread 0 None) 2 family
           = on_finished 2 (mkThread 0 None) 2 s1 ∧
         mem s1 = <[2%nat := set_children 0
                       (set_continuation (Some 3%nat)
                          (set_parent (Some 1%nat) (new_promise 2 (co_return 20))))]>
                    (mem family)) ∧
  (∃ s1, child_finished 3 (mkThread 0 None) 1 family = Ok (tt, s1) ∧
         mem s1 = <[1%nat := set_children 1 (set_children 2 (new_promise 1 (co_return 10)))]>
                    (mem family)).
Proof.
  split.
  - destruct (child_finished_protocol 2 (mkThread 0 None) 2 family
                (set_continuation (Some 3%nat)
                   (set_parent (Some 1%nat) (new_promise 2 (co_return 20)))))
      as (s1 & _ & _ & Hmem & Hstep & _).
    { vm_compute; reflexivity. }
    exists s1. split; [exact Hstep|].
    apply Hmem; by vm_compute.
  - destruct (child_finished_protocol 2 (mkThread 0 None) 1 family
                (set_children 2 (new_promise 1 (co_return 10))))
      as (s1 & _ & _ & Hmem & Hstep & _).
    { vm_compute; reflexivity. }
    exists s1. split; [exact Hstep|].
    apply Hmem; by vm_compute.
Defined.

(** The run of [child_finished] on job 2 of [family] to its end: job 2
    finishes, its continuation 3 is scheduled as a new child of job 1,
    and job 1 is notified and keeps running. *)
Example child_finished_family :
  ∃ s', child_finished 3 (mkThread 0 None) 2 family = Ok (tt, s') ∧
        calls s' = [call_child_finished 2; call_on_finished 2;
                    call_schedule 3 (-1); call_child_finished 1] ∧
        m_children <$> (mem s' !! 1%nat) = Some 2 ∧
        m_parent <$> (mem s' !! 3%nat) = Some (Some 1%nat) ∧
        m_central_queue s' = Some 3%nat.
Proof. eexists. split; [vm_compute; reflexivity|]. by vm_compute. Qed.

(** ** An invariant of the coroutine layer *)

Section invariant.
Implicit Types (s : State) (th : Thread) (j : Job).

Lemma promises_ok_insert s p j' :
  promises_ok s → promise_ok p j' →
  promises_ok (set_mem (<[p := j']> (mem s)) s).
Proof.
  intros Hok Hj' x jx. simpl. rewrite lookup_insert.
  case_decide; [intros [= <-]; by subst|apply Hok].
Qed.

Lemma update_ok p f s u s' :
  update p f s = Ok (u, s') →
  (∀ j, mem s !! p = Some j → promise_ok p j → promise_ok p (f j)) →
  promises_ok s → promises_ok s'.
Proof.
  intros (j & Hj & ->)%update_inv Hf Hok.
  apply promises_ok_insert; [done|]. apply Hf; [done|]. by apply Hok.
Qed.

Lemma store_head_mem q h s u s' : store_head q h s = Ok (u, s') → mem s' = mem s.
Proof.
  destruct q as [|i]; simpl; [intros H; by inversion H|].
  destruct (m_local_queues s !! i); [|done]. intros H. by inversion H.
Qed.

Lemma store_head_ok q h s u s' :
  store_head q h s = Ok (u, s') → promises_ok s → promises_ok s'.
Proof. intros Hm%store_head_mem Hok p j. rewrite Hm. apply Hok. Qed.

Lemma push_ok q job s u s' : push q job s = Ok (u, s') → promises_ok s → promises_ok s'.
Proof.
  unfold push. intros (h & s1 & ->%load_head_inv & H)%bind_inv_Ok Hok.
  apply bind_inv_Ok in H as (u1 & s2 & Hu & Hst).
  eapply store_head_ok; [done|]. eapply update_ok; [done| |done]. by intros [].
Qed.

Lemma schedule_ok th job thd s u s' :
  schedule th job thd s = Ok (u, s') → promises_ok s → promises_ok s'.
Proof.
  unfold schedule, log, modify, gets.
  unfold mbind at 1, M_bind. unfold mbind at 1, M_bind.
  destruct (_ && _); intros H Hok; (eapply push_ok; [exact H|done]).
Qed.

Lemma fetch_add_ok p n s old s' :
  fetch_add p n s = Ok (old, s') → promises_ok s → promises_ok s'.
Proof.
  unfold fetch_add. intros (j & s1 & (-> & Hj)%deref_inv & H)%bind_inv_Ok Hok.
  apply bind_inv_Ok in H as (u & s2 & Hu & H). inversion H; subst.
  eapply update_ok; [done| |done]. by intros [].
Qed.

Lemma fetch_sub_ok p n s old s' :
  fetch_sub p n s = Ok (old, s') → promises_ok s → promises_ok s'.
Proof.
  intros (j & Hj & _ & ->)%fetch_sub_inv Hok.
  apply promises_ok_insert; [done|]. specialize (Hok p j Hj). by destruct j.
Qed.

Lemma schedule_coro_ok th coro s u s' :
  schedule_coro th coro s = Ok (u, s') → promises_ok s → promises_ok s'.
Proof.
  unfold schedule_coro. intros (u1 & s1 & H1 & H)%bind_inv_Ok Hok.
  apply bind_inv_Ok in H as (u2 & s2 & H2 & H3).
  eapply schedule_ok; [done|]. eapply update_ok; [done|by intros []|].
  destruct (current_job th) as [p|]; [|by inversion H1; subst].
  apply bind_inv_Ok in H1 as (o & s3 & Hadd & H1). inversion H1; subst.
  by eapply fetch_add_ok.
Qed.

Lemma schedule_coros_ok th cs : ∀ s u s',
  schedule_coros th cs s = Ok (u, s') → promises_ok s → promises_ok s'.
Proof.
  induction cs as [|c cs IH]; intros s u s' Hrun Hok; simpl in Hrun.
  - by inversion Hrun; subst.
  - apply bind_inv_Ok in Hrun as (u1 & s1 & H1 & Hrun).
    eapply IH; [done|]. by eapply schedule_coro_ok.
Qed.

Lemma awaitable_tuple_await_suspend_ok th css : ∀ s u s',
  awaitable_tuple_await_suspend th css s = Ok (u, s') → promises_ok s → promises_ok s'.
Proof.
  induction css as [|cs css IH]; intros s u s' Hrun Hok; simpl in Hrun.
  - by inversion Hrun; subst.
  - apply bind_inv_Ok in Hrun as (u1 & s1 & H1 & Hrun).
    eapply IH; [done|]. by eapply schedule_coros_ok.
Qed.

(** A submission that completes found its objects allocated. *)
Lemma schedule_coro_allocated th c s u s' :
  schedule_coro th c s = Ok (u, s') →
  is_Some (mem s !! c) ∧ ∀ p, current_job th = Some p → is_Some (mem s !! p).
Proof.
  unfold schedule_coro. intros ([] & s1 & H1 & H)%bind_inv_Ok.
  apply bind_inv_Ok in H as ([] & s2 & (jc & Hjc & ->)%update_inv & _).
  destruct (current_job th) as [p|] eqn:Hcur.
  - apply bind_inv_Ok in H1 as (old & s0 & Hadd & Hret). inversion Hret; subst s0.
    unfold fetch_add in Hadd.
    apply bind_inv_Ok in Hadd as (jp & s3 & (-> & Hjp)%deref_inv & Hadd).
    apply bind_inv_Ok in Hadd as ([] & s4 & (jp' & _ & ->)%update_inv & Hret').
    inversion Hret'; subst s1. simpl in Hjc. split.
    + rewrite lookup_insert in Hjc. case_decide; [subst; by eexists|by eexists].
    + intros p' [= <-]. by eexists.
  - inversion H1; subst s1. split; [by eexists|done].
Qed.

(** A submission leaves every coroutine as far as it has run. *)
Lemma schedule_coro_frame th c s u s' x j :
  schedule_coro th c s = Ok (u, s') → mem s !! x = Some j →
  ∃ j', mem s' !! x = Some j' ∧ m_done j' = m_done j ∧ m_coro j' = m_coro j.
Proof.
  intros Hrun Hx. destruct (schedule_coro_allocated _ _ _ _ _ Hrun) as [[jc Hjc] Hcur].
  destruct (schedule_coro_Ok th c s jc Hjc Hcur) as (s1 & Hs1 & _ & _ & _ & Hmem & _).
  rewrite Hs1 in Hrun. inversion Hrun; subst s1.
  destruct (Hmem x j Hx) as (j' & Hj' & _ & _ & _ & _ & _ & _ & _ & Hco & Hdn).
  by exists j'.
Qed.

Lemma coro_resume_ok th self body : ∀ s s' j,
  coro_resume th self body s = Ok (tt, s') →
  mem s !! self = Some j → m_done j = false →
  promises_ok s → promises_ok s'.
Proof.
  assert (∀ s s' j rest u,
            suspend self rest false s = Ok (u, s') → mem s !! self = Some j →
            m_done j = false → promises_ok s → promises_ok s') as Hsusp.
  { intros s s' j rest u Hu Hj Hd Hok. unfold suspend in Hu.
    eapply update_ok; [done| |done].
    intros j0 Hj0 Hok0. rewrite Hj in Hj0. inversion Hj0; subst j0.
    unfold promise_ok in *. simpl. by rewrite Hd in Hok0. }
  induction body as [v|child rest IH|k rest IH|child rest IH|children rest IH|children rest IH];
    intros s s' j Hrun Hj Hd Hok;
    [| | |simpl in Hrun; apply bind_inv_Ok in Hrun as (u & s1 & Hu & Hs);
          destruct (schedule_coro_frame _ _ _ _ _ self j Hu Hj) as (j1 & Hj1 & Hd1 & _);
          eapply (IH s1 s' j1); [done|done|congruence|by eapply schedule_coro_ok]
     |simpl in Hrun; destruct (awaitable_coro_vector_await_ready children);
          [by eapply IH|];
          apply bind_inv_Ok in Hrun as (u & s1 & Hu & Hs);
          eapply schedule_coros_ok; [done|by eapply Hsusp]
     |simpl in Hrun; destruct (awaitable_tuple_await_ready _);
          [by eapply IH|];
          apply bind_inv_Ok in Hrun as (u & s1 & Hu & Hs);
          eapply awaitable_tuple_await_suspend_ok; [done|by eapply Hsusp]].
  - rewrite (coro_resume_returns th self (co_return v) v s j eq_refl Hj) in Hrun.
    inversion Hrun; subst s'. by apply promises_ok_insert.
  - simpl in Hrun. unfold suspend, awaitable_coro_await_suspend in Hrun.
    apply bind_inv_Ok in Hrun as (u & s1 & Hu & Hs).
    eapply schedule_coro_ok; [done|]. eapply update_ok; [done| |done].
    intros j0 Hj0 Hok0. rewrite Hj in Hj0. inversion Hj0; subst j0.
    unfold promise_ok in *. simpl. by rewrite Hd in Hok0.
  - simpl in Hrun. destruct (awaitable_resume_on_await_ready th k); [by eapply IH|].
    unfold suspend, awaitable_resume_on_await_suspend in Hrun.
    apply bind_inv_Ok in Hrun as (u & s1 & Hu & Hs).
    eapply update_ok; [done|by intros []|]. eapply update_ok; [done| |done].
    intros j0 Hj0 Hok0. rewrite Hj in Hj0. inversion Hj0; subst j0.
    unfold promise_ok in *. simpl. by rewrite Hd in Hok0.
Qed.

Lemma Coro_promise_resume_ok th self s b s' :
  Coro_promise_resume th self s = Ok (b, s') → promises_ok s → promises_ok s'.
Proof.
  unfold Coro_promise_resume.
  intros (j & s1 & (-> & Hj)%deref_inv & H)%bind_inv_Ok Hok.
  apply bind_inv_Ok in H as ([] & s2 & H & Hret). inversion Hret; subst s2.
  destruct (m_done j) eqn:Hd; [by inversion H; subst|].
  apply bind_inv_Ok in H as (u & s3 & Hu & H).
  pose proof Hu as (j0 & Hj0 & ->)%update_inv.
  rewrite Hj in Hj0. inversion Hj0; subst j0.
  eapply (coro_resume_ok _ _ _ _ _ (set_children 1 j)); [done| |done|].
  - simpl. by rewrite lookup_insert_eq.
  - eapply update_ok; [done|by intros []|done].
Qed.

Lemma protocol_ok fuel :
  (∀ th self s s', on_finished fuel th self s = Ok (tt, s') →
     promises_ok s → promises_ok s') ∧
  (∀ th self s s', child_finished fuel th self s = Ok (tt, s') →
     promises_ok s → promises_ok s').
Proof.
  induction fuel as [|fuel [IHo IHc]]; [by split|]. split.
  - intros th self s s'. simpl. unfold log, modify.
    unfold mbind at 1, M_bind.
    set (s0 := add_call (call_on_finished self) s).
    intros (j & s1 & (-> & Hj)%deref_inv & H)%bind_inv_Ok Hok.
    assert (promises_ok s0) as Hok0 by done.
    apply bind_inv_Ok in H as (u & s2 & Hmid & H).
    assert (promises_ok s2) as Hok2.
    { destruct (m_continuation j) as [c|] eqn:Hc; [|by inversion Hmid; subst].
      apply bind_inv_Ok in Hmid as (u1 & s3 & Hpar & Hsch).
      eapply schedule_ok; [done|].
      destruct (m_parent j) as [p|] eqn:Hp; [|by inversion Hpar; subst].
      specialize (Hok0 self j Hj). unfold promise_ok in Hok0.
      destruct (m_done j); [congruence|]. destruct Hok0 as (_ & ? & _). congruence. }
    apply bind_inv_Ok in H as (j' & s2' & (-> & Hj')%deref_inv & H).
    destruct (m_parent j') as [p|]; [by eapply IHc|by inversion H; subst].
  - intros th p s s'. simpl. unfold log, modify.
    unfold mbind at 1, M_bind.
    intros (old & s1 & Hsub & H)%bind_inv_Ok Hok.
    assert (promises_ok s1) as Hok1 by (eapply fetch_sub_ok; done).
    case_bool_decide; [by eapply IHo|by inversion H; subst].
Qed.

Lemma Job_call_ok fuel th self s s' :
  Job_call fuel th self s = Ok (tt, s') → promises_ok s → promises_ok s'.
Proof.
  unfold Job_call. intros (u & s1 & Hu & H)%bind_inv_Ok Hok.
  apply bind_inv_Ok in H as (b & s2 & Hres & H).
  apply bind_inv_Ok in H as (old & s3 & Hsub & H).
  assert (promises_ok s3) as Hok3.
  { eapply fetch_sub_ok; [done|]. eapply Coro_promise_resume_ok; [done|].
    eapply update_ok; [done|by intros []|done]. }
  case_bool_decide; [|by inversion H; subst].
  destruct (protocol_ok fuel) as [Ho _]. by eapply Ho.
Qed.

Lemma fifo_walk_ok fuel : ∀ head s r s',
  fifo_walk fuel head s = Ok (r, s') → promises_ok s → promises_ok s'.
Proof.
  induction fuel as [|fuel IH]; intros head s r s'; [done|]. simpl.
  intros (j & s1 & (-> & Hj)%deref_inv & H)%bind_inv_Ok Hok.
  destruct (m_next j) as [nxt|]; [|by inversion H; subst].
  apply bind_inv_Ok in H as (jn & s2 & (-> & Hjn)%deref_inv & H).
  destruct (m_next jn); [by eapply IH|].
  apply bind_inv_Ok in H as (u & s3 & Hu & H). inversion H; subst.
  eapply update_ok; [done|by intros []|done].
Qed.

Lemma cas_pop_ok fuel q : ∀ head s r s',
  cas_pop fuel q head s = Ok (r, s') → promises_ok s → promises_ok s'.
Proof.
  induction fuel as [|fuel IH]; intros [h|] s r s'; simpl;
    try done; try (intros H; by inversion H; subst).
  intros (j & s1 & (-> & Hj)%deref_inv & H)%bind_inv_Ok Hok.
  apply bind_inv_Ok in H as (cur & s2 & ->%load_head_inv & H).
  case_decide; [|by eapply IH].
  apply bind_inv_Ok in H as (u & s3 & Hst & H). inversion H; subst.
  by eapply store_head_ok.
Qed.

Lemma pop_ok FIFO fuel q s r s' :
  pop FIFO fuel q s = Ok (r, s') → promises_ok s → promises_ok s'.
Proof.
  unfold pop. intros (h & s1 & ->%load_head_inv & H)%bind_inv_Ok Hok.
  destruct h as [head|]; [|by inversion H; subst].
  apply bind_inv_Ok in H as (w & s2 & Hw & H).
  assert (promises_ok s2) as Hok2.
  { destruct FIFO; [by eapply fifo_walk_ok|by inversion Hw; subst]. }
  destruct w; [by inversion H; subst|by eapply cas_pop_ok].
Qed.

Lemma thread_task_turn_ok fuel idx s r s' :
  thread_task_turn fuel idx s = Ok (r, s') → promises_ok s → promises_ok s'.
Proof.
  unfold thread_task_turn. intros (l & s1 & Hl & H)%bind_inv_Ok Hok.
  apply bind_inv_Ok in H as (job & s2 & Hjob & H).
  assert (promises_ok s2) as Hok2.
  { destruct l; [inversion Hjob; subst|]; eapply pop_ok; eauto using pop_ok. }
  destruct job as [j|]; [|by inversion H; subst].
  apply bind_inv_Ok in H as ([] & s3 & Hcall & H). inversion H; subst.
  by eapply Job_call_ok.
Qed.

(** The destruction of a frame removes one object and changes nothing
    else. *)
Lemma coro_destroy_inv p s u s' :
  coro_destroy p s = Ok (u, s') →
  is_Some (mem s !! p) ∧ s' = set_mem (delete p (mem s)) s.
Proof.
  unfold coro_destroy. destruct (mem s !! p) eqn:Hp; [|done].
  intros H. inversion H; subst. split; [by eexists|done].
Qed.

Lemma Coro_promise_deallocate_inv self s b s' :
  Coro_promise_deallocate self s = Ok (b, s') →
  is_Some (mem s !! self) ∧ s' = set_mem (delete self (mem s)) s.
Proof.
  unfold Coro_promise_deallocate. intros ([] & s1 & Hd & H)%bind_inv_Ok.
  inversion H; subst. by apply coro_destroy_inv in Hd.
Qed.

Lemma Coro_destructor_inv th h s u s' :
  Coro_destructor th h s = Ok (u, s') →
  s' = s ∨ ∃ p, h = Some p ∧ is_Some (mem s !! p) ∧ s' = set_mem (delete p (mem s)) s.
Proof.
  unfold Coro_destructor. destruct h as [p|]; [|intros H; inversion H; by left].
  destruct (current_job th) as [cj|]; [|intros H; inversion H; by left].
  intros (j & s1 & (-> & Hj)%deref_inv & H)%bind_inv_Ok.
  destruct (negb (is_job j)); [|inversion H; by left].
  apply coro_destroy_inv in H as [Hp ->]. right. by exists p.
Qed.

Lemma promises_ok_delete s p :
  promises_ok s → promises_ok (set_mem (delete p (mem s)) s).
Proof.
  intros Hok x j Hx. simpl in Hx. apply lookup_delete_Some in Hx as [_ Hx]. by apply Hok.
Qed.

Lemma step_ok s s' : step s s' → promises_ok s → promises_ok s'.
Proof.
  intros Hstep Hok. destruct Hstep as
    [p body s s' H|coro k s s' H|th coro s s' H|th job thd s s' H|th self b s s' H
    |fuel th self s s' H|fuel th self s s' H|fuel th self s s' H|q job s s' H
    |FIFO fuel q r s s' H|fuel idx r s s' H|self b s s' H|th h s s' H];
    [..|apply Coro_promise_deallocate_inv in H as [_ ->]; by apply promises_ok_delete
     |apply Coro_destructor_inv in H as [->|(p & _ & _ & ->)];
        [done|by apply promises_ok_delete]].
  - unfold Coro_promise_new in H. destruct (mem s !! p) eqn:Hp; [done|].
    inversion H; subst. apply promises_ok_insert; [done|]. by unfold promise_ok.
  - eapply update_ok; [exact H|by intros []|done].
  - by eapply schedule_coro_ok.
  - by eapply schedule_ok.
  - by eapply Coro_promise_resume_ok.
  - by eapply Job_call_ok.
  - destruct (protocol_ok fuel) as [Ho _]. by eapply Ho.
  - destruct (protocol_ok fuel) as [_ Hc]. by eapply Hc.
  - by eapply push_ok.
  - by eapply pop_ok.
  - by eapply thread_task_turn_ok.
Qed.

Lemma reachable_ok s : reachable s → promises_ok s.
Proof.
  intros (n & hw & Hrtc).
  eapply (rtc_ind_r (λ s, promises_ok s)); [| |exact Hrtc].
  - intros p j Hj. unfold JobSystem_new in Hj. simpl in Hj.
    by rewrite lookup_empty in Hj.
  - intros s1 s2 _ Hstep IH. by eapply step_ok.
Qed.
End invariant.

(** ** Reachable example states *)

Lemma reachable_step s s' : reachable s → step s s' → reachable s'.
Proof. intros (n & hw & Hrtc) Hstep. exists n, hw. by eapply rtc_r. Qed.

Lemma reachable_new n hw : reachable (JobSystem_new n hw).
Proof. by exists n, hw. Qed.

Lemma reachable_one_created : reachable one_created.
Proof.
  eapply reachable_step; [apply (reachable_new 1 1)|].
  by apply (step_create 1 (co_return 10)).
Qed.

Lemma reachable_three_jobs : reachable three_jobs.
Proof.
  eapply reachable_step; [eapply reachable_step; [eapply reachable_step|]|].
  - apply (reachable_new 2 2).
  - by apply (step_create 1 (co_return 10)).
  - by apply (step_create 2 (co_return 20)).
  - by apply (step_create 3 (co_return 30)).
Qed.

Lemma reachable_hopper : reachable hopper.
Proof.
  eapply reachable_step; [apply (reachable_new 2 2)|].
  by apply (step_create 1 (co_await_thread 1 (co_return 10))).
Qed.

(** ** [Coro<T>::get] *)

Lemma Coro_get_Ok coro s j : mem s !! coro = Some j → Coro_get coro s = Ok (m_value j, s).
Proof.
  intros Hj. unfold Coro_get, Coro_promise_get.
  by rewrite (bind_Ok _ _ _ _ _ (deref_Ok _ _ _ Hj)).
Qed.

(** C6, as the specification words it, does not hold: the coroutine of
    [one_created] has not been resumed, let alone reached its [co_return],
    and [get] returns a value for it. *)
Lemma get_defined_before_co_return : ¬ get_defined_iff_co_returned.
Proof.
  intros Hspec.
  destruct (Hspec one_created 1%nat (new_promise 1 (co_return 10))
              reachable_one_created eq_refl) as [Hdef _].
  assert (m_done (new_promise 1 (co_return 10)) = true) as Hd; [|done].
  apply Hdef. exists 0. reflexivity.
Qed.

(** [get] gives the same answer before and after a coroutine returns the
    initial value of its result type. *)
Example Coro_get_same_before_and_after :
  let s0 := exec (Coro_promise_new 1 (co_return 0)) (JobSystem_new 1 1) in
  let s1 := exec (Job_call 1 (mkThread 0 (Some 1%nat)) 1) s0 in
  m_done <$> (mem s0 !! 1%nat) = Some false ∧ Coro_get 1 s0 = Ok (0, s0) ∧
  m_done <$> (mem s1 !! 1%nat) = Some true ∧ Coro_get 1 s1 = Ok (0, s1).
Proof. by vm_compute. Qed.

(** C6, amended.  In every reachable state [get] on an allocated promise
    returns the stored [m_value]; that is the initial value [T{}] (0)
    as long as the coroutine has not reached its [co_return]; and a
    resumption that reaches [co_return v] leaves the promise suspended at
    its final suspension point with [get] returning [v]. *)
Theorem Coro_get_stored_value (s : State) (coro : ptr) (j : Job) :
  reachable s → mem s !! coro = Some j →
  Coro_get coro s = Ok (m_value j, s) ∧
  (m_done j = false → Coro_get coro s = Ok (0, s)) ∧
  (∀ th v, m_done j = false → runs_to_return th (m_coro j) = Some v →
     ∃ s' j', Coro_promise_resume th coro s = Ok (true, s') ∧
              mem s' !! coro = Some j' ∧ m_done j' = true ∧
              Coro_get coro s' = Ok (v, s')).
Proof.
  intros Hreach Hj. split; [by apply Coro_get_Ok|]. split.
  - intros Hd. rewrite (Coro_get_Ok _ _ _ Hj).
    pose proof (reachable_ok s Hreach coro j Hj) as Hok.
    unfold promise_ok in Hok. rewrite Hd in Hok. destruct Hok as (_ & _ & ->). done.
  - intros th v Hd Hret.
    eexists _, _. split; [by apply Coro_promise_resume_returns|].
    split; [by simpl; rewrite lookup_insert_eq|]. split; [done|].
    erewrite Coro_get_Ok; [|by simpl; rewrite lookup_insert_eq]. done.
Qed.

Lemma Coro_get_stored_value_witness :
  Coro_get 1 one_created = Ok (0, one_created) ∧
  ∃ s', Coro_promise_resume (mkThread 0 (Some 1%nat)) 1 one_created = Ok (true, s') ∧
        Coro_get 1 s' = Ok (10, s').
Proof.
  destruct (Coro_get_stored_value one_created 1%nat (new_promise 1 (co_return 10))
              reachable_one_created eq_refl) as (_ & Hzero & Hret).
  split; [by apply Hzero|].
  destruct (Hret (mkThread 0 (Some 1%nat)) 10 eq_refl eq_refl)
    as (s' & j' & Hres & _ & _ & Hget).
  by exists s'.
Defined.

(** ** The final suspension point *)

Lemma schedule_coros_frame th cs : ∀ s s' x j,
  schedule_coros th cs s = Ok (tt, s') → mem s !! x = Some j →
  ∃ j', mem s' !! x = Some j' ∧ m_done j' = m_done j ∧ m_coro j' = m_coro j.
Proof.
  induction cs as [|c cs IH]; intros s s' x j Hrun Hx; simpl in Hrun.
  { inversion Hrun; subst. by exists j. }
  apply bind_inv_Ok in Hrun as ([] & s1 & H1 & Hrun).
  destruct (schedule_coro_frame th c s _ s1 x j H1 Hx) as (j1 & Hj1 & Hd1 & Hc1).
  destruct (IH s1 s' x j1 Hrun Hj1) as (j' & Hj' & Hd' & Hc').
  exists j'. split; [done|]. split; congruence.
Qed.

Lemma awaitable_tuple_await_suspend_frame th css : ∀ s s' x j,
  awaitable_tuple_await_suspend th css s = Ok (tt, s') → mem s !! x = Some j →
  ∃ j', mem s' !! x = Some j' ∧ m_done j' = m_done j ∧ m_coro j' = m_coro j.
Proof.
  induction css as [|cs css IH]; intros s s' x j Hrun Hx; simpl in Hrun.
  { inversion Hrun; subst. by exists j. }
  apply bind_inv_Ok in Hrun as ([] & s1 & H1 & Hrun).
  destruct (schedule_coros_frame th cs s s1 x j H1 Hx) as (j1 & Hj1 & Hd1 & Hc1).
  destruct (IH s1 s' x j1 Hrun Hj1) as (j' & Hj' & Hd' & Hc').
  exists j'. split; [done|]. split; congruence.
Qed.

(** Whatever the body does before: a run that ends at the final
    suspension point leaves the promise allocated, with its
    [m_coro_parent] as its parent, without continuation, and with the
    returned value stored. *)
Lemma coro_resume_final th self body : ∀ s s' j,
  coro_resume th self body s = Ok (tt, s') → mem s !! self = Some j →
  m_done j = false →
  ∃ j', mem s' !! self = Some j' ∧
        (m_done j' = true →
         m_parent j' = m_coro_parent j' ∧ m_continuation j' = None ∧
         m_coro j' = co_return (m_value j')).
Proof.
  induction body as [v|c rest IH|k rest IH|c rest IH|cs rest IH|css rest IH];
    intros s s' j Hrun Hj Hd.
  - rewrite (coro_resume_returns th self (co_return v) v s j eq_refl Hj) in Hrun.
    inversion Hrun; subst. eexists. split; [simpl; by rewrite lookup_insert_eq|]. done.
  - simpl in Hrun. unfold suspend in Hrun.
    rewrite (bind_Ok _ _ _ _ _ (update_Ok _ _ _ _ Hj)) in Hrun.
    edestruct (schedule_coro_frame th c) as (j' & Hj' & Hd' & _);
      [exact Hrun|simpl; by rewrite lookup_insert_eq|].
    exists j'. split; [done|]. simpl in Hd'. congruence.
  - simpl in Hrun. destruct (awaitable_resume_on_await_ready th k).
    { by apply (IH s s' j). }
    unfold suspend, awaitable_resume_on_await_suspend in Hrun.
    rewrite (update_twice _ _ _ _ _ Hj) in Hrun. inversion Hrun; subst.
    eexists. split; [simpl; by rewrite lookup_insert_eq|]. done.
  - simpl in Hrun. apply bind_inv_Ok in Hrun as ([] & s1 & H1 & Hrun).
    destruct (schedule_coro_frame th c s _ s1 self j H1 Hj) as (j1 & Hj1 & Hd1 & _).
    apply (IH s1 s' j1 Hrun Hj1). congruence.
  - simpl in Hrun. destruct (awaitable_coro_vector_await_ready cs).
    { by apply (IH s s' j). }
    unfold suspend, awaitable_coro_vector_await_suspend in Hrun.
    rewrite (bind_Ok _ _ _ _ _ (update_Ok _ _ _ _ Hj)) in Hrun.
    edestruct (schedule_coros_frame th cs) as (j' & Hj' & Hd' & _);
      [exact Hrun|simpl; by rewrite lookup_insert_eq|].
    exists j'. split; [done|]. simpl in Hd'. congruence.
  - simpl in Hrun. destruct (awaitable_tuple_await_ready _).
    { by apply (IH s s' j). }
    unfold suspend in Hrun.
    rewrite (bind_Ok _ _ _ _ _ (update_Ok _ _ _ _ Hj)) in Hrun.
    edestruct (awaitable_tuple_await_suspend_frame th css) as (j' & Hj' & Hd' & _);
      [exact Hrun|simpl; by rewrite lookup_insert_eq|].
    exists j'. split; [done|]. simpl in Hd'. congruence.
Qed.

(** C8, as the specification words it, does not hold: the parent is not
    the job that was current at creation.  Three coroutines exist; a
    fourth is created by a thread that runs coroutine 1 and is submitted
    by a thread that runs coroutine 2.  At its final suspension point
    its parent is coroutine 2. *)
Lemma parent_is_submitter_not_creator : ¬ parent_is_creator.
Proof.
  intros Hspec.
  assert (∃ s1 s2 s3 j,
            Coro_create (mkThread 0 (Some 1%nat)) 4 (co_return 40) three_jobs = Ok (tt, s1) ∧
            schedule_coro (mkThread 0 (Some 2%nat)) 4 s1 = Ok (tt, s2) ∧
            Coro_promise_resume (mkThread 1 (Some 4%nat)) 4 s2 = Ok (true, s3) ∧
            mem s3 !! 4%nat = Some j ∧ m_done j = true ∧ m_parent j = Some 2%nat)
    as (s1 & s2 & s3 & j & Hnew & Hsub & Hrun & Hj & Hd & Hpar).
  { eexists _, _, _, _. split; [vm_compute; reflexivity|].
    split; [vm_compute; reflexivity|]. split; [vm_compute; reflexivity|].
    split; [vm_compute; reflexivity|]. done. }
  pose proof (Hspec (mkThread 0 (Some 1%nat)) (mkThread 0 (Some 2%nat))
                (mkThread 1 (Some 4%nat)) 4%nat (co_return 40) three_jobs s1 s2 s3 true j
                reachable_three_jobs Hnew Hsub Hrun Hj Hd) as H.
  rewrite Hpar in H. done.
Qed.

(** C8, amended.  A resumption of the promise [self] that reaches
    [co_return v], and with it the final suspension point: the parent
    field becomes the [m_coro_parent] of the promise, the continuation
    becomes [nullptr], and the coroutine is suspended, not destroyed: the
    promise is still allocated, [done()] holds, and [get] returns [v].
    No other object changes.  From there [on_finished] on the promise
    ends in [child_finished] on that parent if there is one, and
    notifies nobody otherwise.  The [m_coro_parent] is [nullptr] after
    the creation of the coroutine, whatever job the creating thread
    runs, and is set by [schedule]: it is the job that was current when
    the coroutine was submitted.  The same holds at the final suspension
    point of every body, whatever it submits on the way: after a
    resumption that ends there the promise is allocated, its parent is
    its [m_coro_parent], it has no continuation, and the returned value
    is stored. *)
Theorem final_suspension (th : Thread) (self : ptr) (s : State) (j : Job) (v : Z) :
  mem s !! self = Some j → m_done j = false →
  runs_to_return th (m_coro j) = Some v →
  ∃ s' j',
    Coro_promise_resume th self s = Ok (true, s') ∧
    mem s' !! self = Some j' ∧
    m_parent j' = m_coro_parent j ∧
    m_continuation j' = None ∧
    m_done j' = true ∧
    Coro_get self s' = Ok (v, s') ∧
    (∀ x, x ≠ self → mem s' !! x = mem s !! x) ∧
    (∀ fuel p, m_coro_parent j = Some p →
       on_finished (S fuel) th self s' =
         child_finished fuel th p (add_call (call_on_finished self) s')) ∧
    (∀ fuel, m_coro_parent j = None →
       on_finished (S fuel) th self s' = Ok (tt, add_call (call_on_finished self) s')) ∧
    (∀ th0 s0 j0,
       mem s0 !! self = Some j0 →
       (∀ p, current_job th0 = Some p → is_Some (mem s0 !! p)) →
       ∃ s1 j1, schedule_coro th0 self s0 = Ok (tt, s1) ∧
                mem s1 !! self = Some j1 ∧ m_coro_parent j1 = current_job th0) ∧
    (∀ th0 p body s0 s1,
       Coro_create th0 p body s0 = Ok (tt, s1) →
       ∃ j1, mem s1 !! p = Some j1 ∧ m_coro_parent j1 = None ∧ m_parent j1 = None) ∧
    (∀ th0 body s0 s1 j0,
       coro_resume th0 self body s0 = Ok (tt, s1) →
       mem s0 !! self = Some j0 → m_done j0 = false →
       ∃ j1, mem s1 !! self = Some j1 ∧
             (m_done j1 = true →
              m_parent j1 = m_coro_parent j1 ∧ m_continuation j1 = None ∧
              m_coro j1 = co_return (m_value j1) ∧
              Coro_get self s1 = Ok (m_value j1, s1))).
Proof.
  intros Hj Hd Hret.
  set (j' := finalized v (set_children 1 j)).
  set (s' := set_mem (<[self := j']> (mem s)) s).
  assert (mem s' !! self = Some j') as Hj' by (subst s'; simpl; by rewrite lookup_insert_eq).
  exists s', j'. split; [by apply Coro_promise_resume_returns|].
  split; [done|]. split; [done|]. split; [done|]. split; [done|].
  split; [by rewrite (Coro_get_Ok _ _ _ Hj')|].
  split; [intros x Hx; subst s'; simpl; by rewrite lookup_insert_ne|].
  split; [|split; [|split; [|split]]].
  - intros fuel p Hp. by apply on_finished_notify with (j := j').
  - intros fuel Hp. by apply on_finished_leaf with (j := j').
  - intros th0 s0 j0 Hj0 Hcur.
    destruct (schedule_coro_Ok th0 self s0 j0 Hj0 Hcur) as (s1 & Hs & _ & _ & _ & Hmem & _).
    destruct (Hmem self j0 Hj0) as (j1 & Hj1 & _ & Hcp & _).
    rewrite decide_True in Hcp by done. by exists s1, j1.
  - intros th0 p body s0 s1 Hnew. unfold Coro_create, Coro_promise_new in Hnew.
    destruct (mem s0 !! p); [done|]. inversion Hnew; subst s1.
    exists (new_promise p body). simpl. by rewrite lookup_insert_eq.
  - intros th0 body s0 s1 j0 Hrun Hj0 Hd0.
    destruct (coro_resume_final th0 self body s0 s1 j0 Hrun Hj0 Hd0) as (j1 & Hj1 & Hfin).
    exists j1. split; [done|]. intros Hd1.
    destruct (Hfin Hd1) as (Hpa & Hco & Hbody).
    split; [done|]. split; [done|]. split; [done|]. by apply Coro_get_Ok.
Qed.

Lemma final_suspension_witness :
  ∃ s1 s2 j2,
    schedule_coro (mkThread 0 (Some 1%nat)) 2 three_jobs = Ok (tt, s1) ∧
    Coro_promise_resume (mkThread 1 (Some 2%nat)) 2 s1 = Ok (true, s2) ∧
    mem s2 !! 2%nat = Some j2 ∧
    m_parent j2 = Some 1%nat ∧ m_continuation j2 = None ∧ m_done j2 = true ∧
    Coro_get 2 s2 = Ok (20, s2).
Proof.
  destruct (schedule_coro_Ok (mkThread 0 (Some 1%nat)) 2 three_jobs
              (new_promise 2 (co_return 20)) eq_refl)
    as (s1 & Hs & _ & _ & _ & Hmem & _).
  { intros p [= <-]. by eexists. }
  destruct (Hmem 2%nat _ eq_refl) as (j1 & Hj1 & _ & Hcp & _ & _ & _ & _ & _ & Hco & Hdn).
  destruct (final_suspension (mkThread 1 (Some 2%nat)) 2 s1 j1 20 Hj1)
    as (s2 & j2 & Hres & Hj2 & Hpar & Hcont & Hdone & Hget & _); [done|by rewrite Hco|].
  exists s1, s2, j2. rewrite Hpar, Hcp. done.
Defined.

(** ** The thread hop *)

Lemma coro_resume_hop_ready th self k rest s :
  k = thread_index th →
  coro_resume th self (co_await_thread k rest) s = coro_resume th self rest s.
Proof.
  intros ->. simpl. unfold awaitable_resume_on_await_ready.
  by rewrite bool_decide_eq_true_2.
Qed.

Lemma coro_resume_hop_suspends th self k rest s j :
  k ≠ thread_index th → mem s !! self = Some j →
  coro_resume th self (co_await_thread k rest) s =
    Ok (tt, set_mem (<[self := set_thread_index k (set_frame rest false j)]> (mem s)) s).
Proof.
  intros Hk Hj. simpl. unfold awaitable_resume_on_await_ready.
  rewrite bool_decide_eq_false_2 by done.
  unfold suspend, awaitable_resume_on_await_suspend. by apply update_twice.
Qed.

(** The scheduler of the specification puts a job whose affinity is the
    index of a worker into the local queue of that worker. *)
Lemma spec_schedule_local job k s jp l :
  0 <= k < m_thread_count s →
  queue_holds s (Local (Z.to_nat k)) l → mem s !! job = Some jp → job ∉ l →
  ∃ s' h, spec_schedule job k s = Ok (tt, s') ∧
          mem s' = <[job := set_next h jp]> (mem s) ∧
          queue_holds s' (Local (Z.to_nat k)) (job :: l) ∧
          (∀ q', q' ≠ Local (Z.to_nat k) → head_of s' q' = head_of s q') ∧
          calls s' = calls s ++ [call_schedule job k].
Proof.
  intros Hk Hq Hp Hnin. unfold spec_schedule, log, modify, gets.
  unfold mbind at 1, M_bind. unfold mbind at 1, M_bind.
  change (m_thread_count (add_call (call_schedule job k) s)) with (m_thread_count s).
  replace (bool_decide (0 <= k) && bool_decide (k < m_thread_count s)) with true.
  2:{ symmetry. apply andb_true_iff. split; apply bool_decide_eq_true; lia. }
  destruct (push_spec (add_call (call_schedule job k) s) (Local (Z.to_nat k)) l job jp)
    as (s' & h & Hpush & Hh & Hmem & Hh' & Hoth & Hcalls & Hcnt & Hq'); [done..|].
  exists s', h. repeat split; try done.
Qed.

(** On-finished of the specification on an unfinished promise, whose
    continuation is the promise itself. *)
Lemma spec_on_finished_self fuel self s j l :
  mem s !! self = Some j →
  m_continuation j = Some self → m_parent j = None →
  0 <= m_thread_index j < m_thread_count s →
  queue_holds s (Local (Z.to_nat (m_thread_index j))) l → self ∉ l →
  ∃ s' h, spec_on_finished (S fuel) self s = Ok (tt, s') ∧
          mem s' = <[self := set_next h j]> (mem s) ∧
          queue_holds s' (Local (Z.to_nat (m_thread_index j))) (self :: l) ∧
          (∀ q', q' ≠ Local (Z.to_nat (m_thread_index j)) → head_of s' q' = head_of s q') ∧
          calls s' = calls s ++ [call_on_finished self; call_schedule self (m_thread_index j)].
Proof.
  intros Hj Hc Hp Hk Hq Hnin.
  set (s0 := add_call (call_on_finished self) s).
  destruct (spec_schedule_local self (m_thread_index j) s0 j l)
    as (s2 & h & Hs & Hmem & Hq2 & Hoth & Hcalls); [done..|].
  exists s2, h. split; [|split; [done|split; [done|split; [done|]]]].
  - simpl. unfold log, modify. unfold mbind at 1, M_bind. fold s0.
    assert (mem s0 !! self = Some j) as Hj0 by done.
    rewrite (bind_Ok _ _ _ _ _ (deref_Ok _ _ _ Hj0)). rewrite Hc, Hp.
    unfold mbind at 1, M_bind. unfold mbind at 1, M_bind. simpl.
    rewrite (bind_Ok _ _ _ _ _ (deref_Ok _ _ _ Hj0)). rewrite Hs.
    assert (mem s2 !! self = Some (set_next h j)) as Hj2
      by (rewrite Hmem; simpl; by rewrite lookup_insert_eq).
    rewrite (bind_Ok _ _ _ _ _ (deref_Ok _ _ _ Hj2)). simpl. by rewrite Hp.
  - rewrite Hcalls. subst s0. simpl. by rewrite <- app_assoc.
Qed.



(** ** The promise as its own continuation *)

(** C10.  (1) The constructor of a promise sets its continuation to the
    promise itself.  (2) In every reachable state a promise that has not
    reached its final suspension point has itself as continuation, and a
    promise that has reached it has none; the resumption that reaches the
    final suspension point is the one that clears it.  (3) In a reachable
    state, [on_finished] on a promise that has not reached its final
    suspension point schedules the promise itself: the call completes
    with the promise at the head of the central queue, and notifies no
    parent. *)
Theorem continuation_is_self :
  (∀ p body s s',
     Coro_promise_new p body s = Ok (tt, s') →
     ∃ j, mem s' !! p = Some j ∧ m_continuation j = Some p ∧ m_done j = false) ∧
  (∀ s p j,
     reachable s → mem s !! p = Some j →
     (m_done j = false → m_continuation j = Some p) ∧
     (m_done j = true → m_continuation j = None) ∧
     (∀ th v, m_done j = false → runs_to_return th (m_coro j) = Some v →
        ∃ s' j', Coro_promise_resume th p s = Ok (true, s') ∧
                 mem s' !! p = Some j' ∧ m_done j' = true ∧ m_continuation j' = None)) ∧
  (∀ s p j fuel th,
     reachable s → mem s !! p = Some j → m_done j = false →
     ∃ s', on_finished (S fuel) th p s = Ok (tt, s') ∧
           m_central_queue s' = Some p ∧
           mem s' = <[p := set_next (m_central_queue s) j]> (mem s) ∧
           calls s' = calls s ++ [call_on_finished p; call_schedule p (-1)]).
Proof.
  split; [|split].
  - intros p body s s' H. unfold Coro_promise_new in H.
    destruct (mem s !! p); [done|]. inversion H; subst. simpl.
    rewrite lookup_insert_eq. by eexists.
  - intros s p j Hreach Hj.
    pose proof (reachable_ok s Hreach p j Hj) as Hok. unfold promise_ok in Hok.
    split; [|split].
    + intros Hd. rewrite Hd in Hok. by destruct Hok.
    + intros Hd. by rewrite Hd in Hok.
    + intros th v Hd Hret. eexists _, _.
      split; [by apply Coro_promise_resume_returns|].
      split; [by simpl; rewrite lookup_insert_eq|]. done.
  - intros s p j fuel th Hreach Hj Hd.
    pose proof (reachable_ok s Hreach p j Hj) as Hok. unfold promise_ok in Hok.
    rewrite Hd in Hok. destruct Hok as (Hcont & Hpar & _).
    destruct (on_finished_continuation_only fuel th p s j p j Hj Hcont Hpar Hj)
      as (s' & Hrun & Hmem & Hcq & _ & Hcalls).
    by exists s'.
Qed.

Lemma continuation_is_self_witness :
  (∃ j, mem one_created !! 1%nat = Some j ∧ m_continuation j = Some 1%nat) ∧
  (∃ s', on_finished 1 (mkThread 0 None) 1 one_created = Ok (tt, s') ∧
         m_central_queue s' = Some 1%nat).
Proof.
  destruct continuation_is_self as (Hnew & Hinv & Hresched).
  split.
  - destruct (Hnew 1%nat (co_return 10) (JobSystem_new 1 1) one_created eq_refl)
      as (j & Hj & Hc & _).
    by exists j.
  - destruct (Hresched one_created 1%nat (new_promise 1 (co_return 10)) 0%nat
                (mkThread 0 None) reachable_one_created eq_refl eq_refl)
      as (s' & Hrun & Hcq & _).
    by exists s'.
Defined.

(** The mechanism at work on [parent_and_child].  First turn of the
    worker: coroutine 1 runs up to its [co_await] and suspends with one
    child outstanding.  Second turn: coroutine 2 returns and finishes;
    its [on_finished] notifies coroutine 1, whose counter reaches zero,
    and the [on_finished] of coroutine 1 puts coroutine 1 back into the
    central queue.  Third turn: coroutine 1 is resumed after the
    [co_await] and returns. *)
Example parent_resumed_after_child :
  let s1 := exec (thread_task_turn 3 0) parent_and_child in
  let s2 := exec (thread_task_turn 3 0) s1 in
  let s3 := exec (thread_task_turn 3 0) s2 in
  m_central_queue s1 = Some 2%nat ∧
  m_children <$> (mem s1 !! 1%nat) = Some 1 ∧
  m_central_queue s2 = Some 1%nat ∧
  calls s2 = calls s1 ++ [call_on_finished 2; call_child_finished 1;
                          call_on_finished 1; call_schedule 1 (-1)] ∧
  m_done <$> (mem s2 !! 1%nat) = Some false ∧
  m_done <$> (mem s3 !! 1%nat) = Some true ∧
  m_value <$> (mem s3 !! 1%nat) = Some 10 ∧
  m_central_queue s3 = None.
Proof. by vm_compute. Qed.

(** ** The counter of children *)


(** ** One execution of a coroutine, case by case *)

Ltac unfold_setters :=
  unfold finalized, set_next, set_children, set_parent, set_continuation,
    set_thread_index, set_coro_parent, set_value, set_frame; simpl.

Section job_call.
Implicit Types (s : State) (th : Thread) (j : Job).

Lemma first_suspension_return th body v :
  first_suspension th body = susp_return v → runs_to_return th body = Some v.
Proof.
  induction body as [w|c rest IH|k rest IH|? ? _|? ? _|? ? _]; simpl;
    [by intros [= ->]|done| |done..].
  by destruct (awaitable_resume_on_await_ready th k).
Qed.

Lemma first_suspension_targets th body :
  match first_suspension th body with
  | susp_return _ => await_targets body = []
  | susp_await c rest => await_targets body = c :: await_targets rest
  | susp_hop k rest => await_targets body = await_targets rest
  | susp_fork _ => True
  end.
Proof.
  induction body as [w|c rest IH|k rest IH|? ? _|? ? _|? ? _]; simpl; [done| | |done..];
    [done|].
  by destruct (awaitable_resume_on_await_ready th k).
Qed.

(** A [plain] body comes to no [susp_fork]. *)
Lemma plain_first_suspension th body b :
  plain body → first_suspension th body ≠ susp_fork b.
Proof.
  induction body as [w|c rest IH|k rest IH|? ? _|? ? _|? ? _]; simpl; try done.
  intros Hp. destruct (awaitable_resume_on_await_ready th k); [by apply IH|done].
Qed.

(** What remains of a [plain] body after its first suspension is
    [plain]. *)
Lemma plain_rest th body :
  plain body →
  match first_suspension th body with
  | susp_return _ => True
  | susp_await _ rest => plain rest
  | susp_hop _ rest => plain rest
  | susp_fork _ => False
  end.
Proof.
  induction body as [w|c rest IH|k rest IH|? ? _|? ? _|? ? _]; simpl; try done.
  intros Hp. destruct (awaitable_resume_on_await_ready th k); [by apply IH|done].
Qed.

Lemma coro_resume_hop th self body k rest : ∀ s j,
  first_suspension th body = susp_hop k rest →
  mem s !! self = Some j →
  coro_resume th self body s =
    Ok (tt, set_mem (<[self := set_thread_index k (set_frame rest false j)]> (mem s)) s).
Proof.
  induction body as [w|c rest' IH|k' rest' IH|? ? _|? ? _|? ? _];
    intros s j Hfs Hj; simpl in *; [done|done| |done..].
  destruct (awaitable_resume_on_await_ready th k'); [by apply IH|].
  inversion Hfs; subst k' rest'.
  unfold suspend, awaitable_resume_on_await_suspend. by apply update_twice.
Qed.

Lemma coro_resume_await th self body c rest : ∀ s,
  first_suspension th body = susp_await c rest →
  coro_resume th self body s = (suspend self rest false;; schedule_coro th c) s.
Proof.
  induction body as [w|c' rest' IH|k' rest' IH|? ? _|? ? _|? ? _];
    intros s Hfs; simpl in *; [done| | |done..].
  - by inversion Hfs; subst.
  - destruct (awaitable_resume_on_await_ready th k'); [by apply IH|done].
Qed.

(** The coroutine returns and has no parent to notify. *)
Lemma Job_call_return_orphan fuel th self s j v :
  mem s !! self = Some j → m_done j = false →
  first_suspension th (m_coro j) = susp_return v →
  m_coro_parent j = None →
  Job_call (S fuel) th self s =
    Ok (tt, add_call (call_on_finished self)
              (set_mem (<[self := mkJob (m_next j) 0 None None (m_thread_index j)
                                        None v (co_return v) true]> (mem s)) s)).
Proof.
  intros Hj Hd Hfs%first_suspension_return Hcp. unfold Job_call.
  rewrite (bind_Ok _ _ _ _ _ (update_Ok _ _ _ _ Hj)).
  set (s1 := set_mem _ s).
  assert (mem s1 !! self = Some (set_children 1 j)) as H1
    by (subst s1; simpl; by rewrite lookup_insert_eq).
  rewrite (bind_Ok _ _ _ _ _ (Coro_promise_resume_returns th self s1 _ v H1 Hd Hfs)).
  set (s2 := set_mem _ s1).
  assert (mem s2 !! self = Some (finalized v (set_children 1 (set_children 1 j)))) as H2
    by (subst s2; simpl; by rewrite lookup_insert_eq).
  rewrite (bind_Ok _ _ _ _ _ (fetch_sub_Ok _ 1 _ _ H2)).
  change (m_children (finalized v (set_children 1 (set_children 1 j)))) with 1.
  rewrite bool_decide_eq_true_2 by done.
  set (jf := set_children (Int32.wrap (1 - 1)) _). set (s3 := set_mem _ s2).
  assert (mem s3 !! self = Some jf) as H3
    by (subst s3; simpl; by rewrite lookup_insert_eq).
  rewrite (on_finished_leaf _ th self s3 jf H3 eq_refl Hcp).
  subst s3 s2 s1 jf. unfold set_mem, add_call, finalized. simpl.
  rewrite !insert_insert_eq. unfold_setters. rewrite Hcp. reflexivity.
Qed.

(** The coroutine returns and notifies its parent [q], whose counter
    goes from 1 to 0; the parent, which has not returned yet, schedules
    itself. *)
Lemma Job_call_return_child fuel th self s j v q jq :
  mem s !! self = Some j → m_done j = false →
  first_suspension th (m_coro j) = susp_return v →
  m_coro_parent j = Some q → q ≠ self →
  mem s !! q = Some jq → m_children jq = 1 →
  m_continuation jq = Some q → m_parent jq = None →
  ∃ s', Job_call (S (S (S fuel))) th self s = Ok (tt, s') ∧
        mem s' = <[q := set_next (m_central_queue s) (set_children 0 jq)]>
                   (<[self := mkJob (m_next j) 0 (Some q) None (m_thread_index j)
                                    (Some q) v (co_return v) true]> (mem s)) ∧
        m_central_queue s' = Some q ∧
        m_local_queues s' = m_local_queues s ∧
        calls s' = calls s ++ [call_on_finished self; call_child_finished q;
                               call_on_finished q; call_schedule q (-1)].
Proof.
  intros Hj Hd Hfs%first_suspension_return Hcp Hne Hq Hone Hcont Hpar. unfold Job_call.
  rewrite (bind_Ok _ _ _ _ _ (update_Ok _ _ _ _ Hj)).
  set (s1 := set_mem _ s).
  assert (mem s1 !! self = Some (set_children 1 j)) as H1
    by (subst s1; simpl; by rewrite lookup_insert_eq).
  rewrite (bind_Ok _ _ _ _ _ (Coro_promise_resume_returns th self s1 _ v H1 Hd Hfs)).
  set (s2 := set_mem _ s1).
  assert (mem s2 !! self = Some (finalized v (set_children 1 (set_children 1 j)))) as H2
    by (subst s2; simpl; by rewrite lookup_insert_eq).
  rewrite (bind_Ok _ _ _ _ _ (fetch_sub_Ok _ 1 _ _ H2)).
  change (m_children (finalized v (set_children 1 (set_children 1 j)))) with 1.
  rewrite bool_decide_eq_true_2 by done.
  set (jf := set_children (Int32.wrap (1 - 1)) _). set (s3 := set_mem _ s2).
  assert (mem s3 !! self = Some jf) as H3
    by (subst s3; simpl; by rewrite lookup_insert_eq).
  rewrite (on_finished_notify _ th self s3 jf q H3 eq_refl Hcp).
  set (s4 := add_call _ s3).
  assert (mem s4 !! q = Some jq) as H4.
  { subst s4 s3 s2 s1. simpl. by rewrite !lookup_insert_ne. }
  rewrite (child_finished_step _ th q s4 jq H4). cbv zeta.
  rewrite Hone. rewrite bool_decide_eq_true_2 by done.
  set (jq1 := set_children _ jq). set (s5 := set_mem _ _).
  assert (mem s5 !! q = Some jq1) as H5
    by (subst s5; simpl; by rewrite lookup_insert_eq).
  destruct (on_finished_continuation_only fuel th q s5 jq1 q jq1 H5 Hcont Hpar H5)
    as (s' & Hrun & Hmem & Hcq & Hlq & Hcalls).
  exists s'. split; [done|]. split; [|split; [done|split; [done|]]].
  - rewrite Hmem. subst s5 s4 s3 s2 s1 jq1 jf. unfold finalized. simpl.
    rewrite !insert_insert_eq. unfold_setters. rewrite Hcp. reflexivity.
  - rewrite Hcalls. subst s5 s4 s3 s2 s1. simpl. by rewrite <- !app_assoc.
Qed.

(** The coroutine hops to another thread: it suspends, its counter
    reaches 0, and it schedules itself. *)
Lemma Job_call_hop fuel th self s j k rest :
  mem s !! self = Some j → m_done j = false →
  first_suspension th (m_coro j) = susp_hop k rest →
  m_continuation j = Some self → m_parent j = None →
  ∃ s', Job_call (S fuel) th self s = Ok (tt, s') ∧
        mem s' = <[self := mkJob (m_central_queue s) 0 None (Some self) k
                                 (m_coro_parent j) (m_value j) rest false]> (mem s) ∧
        m_central_queue s' = Some self ∧
        m_local_queues s' = m_local_queues s ∧
        calls s' = calls s ++ [call_on_finished self; call_schedule self (-1)].
Proof.
  intros Hj Hd Hfs Hcont Hpar. unfold Job_call.
  rewrite (bind_Ok _ _ _ _ _ (update_Ok _ _ _ _ Hj)).
  set (s1 := set_mem _ s).
  assert (mem s1 !! self = Some (set_children 1 j)) as H1
    by (subst s1; simpl; by rewrite lookup_insert_eq).
  set (j2 := set_thread_index k (set_frame rest false (set_children 1 (set_children 1 j)))).
  assert (Coro_promise_resume th self s1 =
          Ok (true, set_mem (<[self := j2]> (mem s1)) s1)) as Hres.
  { unfold Coro_promise_resume.
    rewrite (bind_Ok _ _ _ _ _ (deref_Ok _ _ _ H1)). simpl. rewrite Hd.
    unfold mbind at 1, M_bind. unfold mbind at 1, M_bind.
    rewrite (update_Ok _ _ _ _ H1).
    erewrite coro_resume_hop; [|exact Hfs|by simpl; rewrite lookup_insert_eq].
    simpl. unfold set_mem. simpl. by rewrite insert_insert_eq. }
  rewrite (bind_Ok _ _ _ _ _ Hres).
  set (s2 := set_mem _ s1).
  assert (mem s2 !! self = Some j2) as H2
    by (subst s2; simpl; by rewrite lookup_insert_eq).
  rewrite (bind_Ok _ _ _ _ _ (fetch_sub_Ok _ 1 _ _ H2)). simpl.
  set (s3 := set_mem _ s2).
  set (j3 := set_children (Int32.wrap (1 - 1)) j2).
  assert (mem s3 !! self = Some j3) as H3
    by (subst s3; simpl; by rewrite lookup_insert_eq).
  destruct (on_finished_continuation_only fuel th self s3 j3 self j3 H3 Hcont Hpar H3)
    as (s' & Hrun & Hmem & Hcq & Hlq & Hcalls).
  exists s'. split; [done|]. split; [|by repeat split].
  rewrite Hmem. subst s3 s2 s1 j3 j2. simpl.
  rewrite !insert_insert_eq. unfold_setters. rewrite Hcont, Hpar. reflexivity.
Qed.

(** The coroutine awaits the coroutine [c]: its counter goes to 2, [c]
    records it as [m_coro_parent] and enters the central queue, and the
    end of [Job::operator()] takes the counter back to 1. *)
Lemma Job_call_await fuel idx self s j c rest jc :
  mem s !! self = Some j → m_done j = false →
  first_suspension (mkThread idx (Some self)) (m_coro j) = susp_await c rest →
  c ≠ self → mem s !! c = Some jc →
  ∃ s', Job_call fuel (mkThread idx (Some self)) self s = Ok (tt, s') ∧
        mem s' = <[self := mkJob (m_next j) 1 (m_parent j) (m_continuation j)
                                 (m_thread_index j) (m_coro_parent j) (m_value j)
                                 rest false]>
                   (<[c := set_next (m_central_queue s)
                             (set_coro_parent (Some self) jc)]> (mem s)) ∧
        m_central_queue s' = Some c ∧
        m_local_queues s' = m_local_queues s ∧
        calls s' = calls s ++ [call_schedule c (-1)].
Proof.
  intros Hj Hd Hfs Hne Hc. unfold Job_call.
  rewrite (bind_Ok _ _ _ _ _ (update_Ok _ _ _ _ Hj)).
  set (s1 := set_mem _ s).
  assert (mem s1 !! self = Some (set_children 1 j)) as H1
    by (subst s1; simpl; by rewrite lookup_insert_eq).
  set (j2 := set_frame rest false (set_children 1 (set_children 1 j))).
  set (s2 := set_mem (<[self := j2]> (mem s)) s).
  assert (mem s2 !! self = Some j2) as H2
    by (subst s2; simpl; by rewrite lookup_insert_eq).
  assert (mem s2 !! c = Some jc) as H2c
    by (subst s2; simpl; by rewrite lookup_insert_ne).
  destruct (schedule_coro_Ok (mkThread idx (Some self)) c s2 jc H2c)
    as (s3 & Hs & Hcq & Hlq & Hcalls & Hmem & Hnone).
  { intros p [= <-]. by eexists. }
  assert (Coro_promise_resume (mkThread idx (Some self)) self s1 = Ok (true, s3)) as Hres.
  { unfold Coro_promise_resume.
    rewrite (bind_Ok _ _ _ _ _ (deref_Ok _ _ _ H1)). simpl. rewrite Hd.
    unfold mbind at 1, M_bind. unfold mbind at 1, M_bind.
    rewrite (update_Ok _ _ _ _ H1).
    erewrite coro_resume_await; [|exact Hfs]. unfold suspend.
    erewrite bind_Ok; [|apply update_Ok; by simpl; rewrite lookup_insert_eq].
    subst s1. simpl. unfold set_mem. simpl. rewrite !insert_insert_eq.
    fold j2. change (mkState _ _ _ _ _) with s2. by rewrite Hs. }
  rewrite (bind_Ok _ _ _ _ _ Hres).
  destruct (Hmem self j2 H2) as (j3 & H3 & Hch & Hcp & Hnx & Hpa & Hco & Hti & Hva & Hbo & Hdn).
  rewrite decide_True in Hch by done.
  rewrite decide_False in Hcp by done. rewrite decide_False in Hnx by done.
  destruct (Hmem c jc H2c) as (jc3 & Hc3 & Hcch & Hccp & Hcnx & Hcpa & Hcco & Hcti & Hcva & Hcbo & Hcdn).
  simpl in Hcch. rewrite decide_False in Hcch by congruence.
  rewrite decide_True in Hccp by done. rewrite decide_True in Hcnx by done.
  rewrite (bind_Ok _ _ _ _ _ (fetch_sub_Ok _ 1 _ _ H3)).
  rewrite Hch. simpl bool_decide. cbv iota.
  eexists. split; [done|]. simpl. split; [|done].
  apply map_eq. intros x. rewrite !lookup_insert.
  destruct (decide (self = x)) as [<-|Hx].
  - f_equal. destruct j3; simpl in *. subst. done.
  - destruct (decide (c = x)) as [<-|Hcx].
    + rewrite Hc3. f_equal. destruct jc3, jc; simpl in *. subst. done.
    + destruct (mem s !! x) as [jx|] eqn:Hjx.
      * assert (mem s2 !! x = Some jx) as Hx2 by (subst s2; simpl; by rewrite lookup_insert_ne).
        destruct (Hmem x jx Hx2) as (jx' & Hx' & Hxch & Hxcp & Hxnx & ? & ? & ? & ? & ? & ?).
        simpl in Hxch. rewrite decide_False in Hxch by congruence.
        rewrite decide_False in Hxcp by done. rewrite decide_False in Hxnx by done.
        rewrite Hx'. f_equal. destruct jx', jx; simpl in *. by subst.
      * apply Hnone. subst s2. simpl. by rewrite lookup_insert_ne.
Qed.
End job_call.

(** ** Executions that await one coroutine at a time *)

Section balanced.
Implicit Types (s : State) (j : Job) (l : list ptr).

Lemma scheduled_mono s s' cl p :
  calls s' = calls s ++ cl → scheduled s p → scheduled s' p.
Proof. intros Hc [thd H]. exists thd. rewrite Hc. apply elem_of_app. by left. Qed.

Lemma scheduled_inv s s' cl p :
  calls s' = calls s ++ cl → scheduled s' p →
  scheduled s p ∨ ∃ thd, call_schedule p thd ∈ cl.
Proof.
  intros Hc [thd H]. rewrite Hc in H. apply elem_of_app in H as [H|H].
  - left. by exists thd.
  - right. by exists thd.
Qed.

Lemma scheduled_same s s' p : calls s' = calls s → scheduled s' p ↔ scheduled s p.
Proof. intros Hc. unfold scheduled. by rewrite Hc. Qed.

(** The central queue after [JobQueue<false>::pop]: the head is taken. *)
Lemma pop_lifo_head fuel s p l j :
  is_list (mem s) (m_central_queue s) (p :: l) → mem s !! p = Some j →
  pop false (S fuel) Central s = Ok (Some p, set_central_queue (m_next j) s).
Proof.
  intros (Hh & j' & Hj' & Hl) Hj. rewrite Hj in Hj'. inversion Hj'; subst j'.
  unfold pop. unfold load_head at 1. unfold mbind at 1, M_bind. rewrite Hh.
  unfold mbind at 1, M_bind. unfold mret at 1, M_ret.
  simpl cas_pop. rewrite (bind_Ok _ _ _ _ _ (deref_Ok _ _ _ Hj)).
  unfold load_head. unfold mbind at 1, M_bind. rewrite Hh.
  rewrite decide_True by done. reflexivity.
Qed.

Lemma pop_lifo_empty fuel s :
  m_central_queue s = None → pop false fuel Central s = Ok (None, s).
Proof.
  intros Hh. unfold pop. unfold load_head at 1. unfold mbind at 1, M_bind.
  by rewrite Hh.
Qed.

Lemma pop_local_empty fuel i s r s' :
  (∀ i h, m_local_queues s !! i = Some h → h = None) →
  pop true fuel (Local i) s = Ok (r, s') → r = None ∧ s' = s.
Proof.
  intros Hloc. unfold pop. unfold load_head at 1. unfold mbind at 1, M_bind.
  destruct (m_local_queues s !! i) as [h|] eqn:Hi; [|done].
  rewrite (Hloc i h Hi). intros H. by inversion H.
Qed.

Lemma balanced_new n hw : balanced (JobSystem_new n hw).
Proof.
  assert (mem (JobSystem_new n hw) = ∅) as Hmem by done.
  split.
  - exists []. split; [done|]. by intros p Hp%elem_of_nil.
  - intros i h Hi. unfold JobSystem_new in Hi. simpl in Hi.
    apply lookup_replicate in Hi as [-> _]. done.
  - intros p j Hj. by rewrite Hmem, lookup_empty in Hj.
  - intros p [thd Hp]. unfold JobSystem_new in Hp. simpl in Hp.
    by apply elem_of_nil in Hp.
  - intros p j Hj. by rewrite Hmem, lookup_empty in Hj.
  - intros p j Hj. by rewrite Hmem, lookup_empty in Hj.
  - intros c jc q (Hc & _) _. by rewrite Hmem, lookup_empty in Hc.
  - intros q jq c Hq. by rewrite Hmem, lookup_empty in Hq.
  - intros p j Hj. by rewrite Hmem, lookup_empty in Hj.
Qed.

(** A change of the state that leaves the object at [c] and the
    scheduled jobs as they are keeps [c] live, or not. *)
Lemma live_other s s' c jc :
  mem s' !! c = mem s !! c → (scheduled s' c ↔ scheduled s c) →
  live s' c jc ↔ live s c jc.
Proof. intros Hm Hs. unfold live. rewrite Hm, Hs. done. Qed.

Lemma balanced_create p body s s' :
  balanced s →
  plain body →
  NoDup (await_targets body) →
  (∀ c, c ∈ await_targets body →
     is_Some (mem s !! c) ∧ ¬ scheduled s c ∧ ∀ q, ¬ awaited_by s c q) →
  Coro_promise_new p body s = Ok (tt, s') → balanced s'.
Proof.
  intros [HQ HL HP HS HC HF HPar HT HPl] Hplain Hnd Htg Hnew.
  pose proof (step_ok s s' (step_create p body s s' Hnew) HP) as HP'.
  unfold Coro_promise_new in Hnew. destruct (mem s !! p) eqn:Hp; [done|].
  inversion Hnew; subst s'. clear Hnew.
  assert (∀ x, scheduled (set_mem (<[p:=new_promise p body]> (mem s)) s) x ↔ scheduled s x)
    as Hsch by done.
  assert (¬ scheduled s p) as Hnp.
  { intros Hp'%HS. rewrite Hp in Hp'. by destruct Hp'. }
  assert (∀ x jx, live (set_mem (<[p:=new_promise p body]> (mem s)) s) x jx ↔ live s x jx)
    as Hlive.
  { intros x jx. unfold live. simpl. rewrite Hsch. rewrite lookup_insert.
    case_decide as Hx; [subst x|done]. split; [intros (_ & ? & _); done|].
    intros (? & _); congruence. }
  destruct HQ as (l & Hl & Hlive_l).
  assert (p ∉ l) as Hpl.
  { intros Hin. destruct (is_list_allocated _ _ _ _ Hl Hin) as [? ?]. congruence. }
  split; simpl.
  - exists l. split; [by apply is_list_frame|].
    intros x Hx. destruct (Hlive_l x Hx) as [jx Hjx]. exists jx. by apply Hlive.
  - done.
  - done.
  - intros x Hx%Hsch%HS. rewrite lookup_insert. by case_decide.
  - intros x jx. rewrite lookup_insert. case_decide; [intros [= <-]; by right|apply HC].
  - intros x jx. rewrite lookup_insert.
    case_decide; [by intros [= <-]|]. intros Hx Hns. eapply HF; [done|]. by rewrite <- Hsch.
  - intros c jc q Hc%Hlive Hq.
    destruct (HPar c jc q Hc Hq) as ((jq & Hjq & Hone) & Hnotin & Huniq).
    split; [|split].
    + exists jq. split; [by apply Hlive|done].
    + intros l' Hl'. pose proof (is_list_frame _ _ _ p (new_promise p body) Hpl Hl) as Hl2.
      rewrite (is_list_inj _ _ _ _ Hl' Hl2). by apply Hnotin.
    + intros c' jc' Hc'%Hlive Hq'. by eapply Huniq.
  - intros q jq c. rewrite lookup_insert. case_decide as Hq.
    + subst q. intros [= <-]. simpl. intros Hc.
      destruct (Htg c Hc) as (Halloc & Hns & Hnoaw).
      split; [|split; [|split; [done|]]].
      * rewrite lookup_insert. by case_decide.
      * by rewrite Hsch.
      * intros q' (jq' & Hjq' & Hin). simpl in Hjq'. rewrite lookup_insert in Hjq'.
        case_decide; [done|]. exfalso. apply (Hnoaw q'). by exists jq'.
    + intros Hjq Hc. destruct (HT q jq c Hjq Hc) as (Halloc & Hns & Hnd' & Huniq).
      split; [|split; [|split; [done|]]].
      * rewrite lookup_insert. by case_decide.
      * by rewrite Hsch.
      * intros q' (jq' & Hjq' & Hin). simpl in Hjq'. rewrite lookup_insert in Hjq'.
        case_decide as Hq'.
        -- subst q'. inversion Hjq'; subst jq'. simpl in Hin.
           destruct (Htg c Hin) as (_ & _ & Hnoaw). exfalso. apply (Hnoaw q). by exists jq.
        -- apply Huniq. by exists jq'.
  - intros x jx. rewrite lookup_insert. case_decide; [by intros [= <-]|apply HPl].
Qed.
End balanced.

Section submit.
Implicit Types (s : State) (j : Job) (l : list ptr).

Lemma schedule_coro_main_inv x s s' :
  schedule_coro main_thread x s = Ok (tt, s') →
  ∃ jx, mem s !! x = Some jx ∧
        mem s' = <[x := set_next (m_central_queue s) (set_coro_parent None jx)]> (mem s) ∧
        m_central_queue s' = Some x ∧
        m_local_queues s' = m_local_queues s ∧
        calls s' = calls s ++ [call_schedule x (-1)].
Proof.
  unfold schedule_coro. simpl current_job. cbv iota beta.
  intros (u & s1 & Hu & H)%bind_inv_Ok. inversion Hu; subst s1. clear Hu.
  apply bind_inv_Ok in H as (u2 & s2 & (jx & Hjx & ->)%update_inv & Hs).
  exists jx. split; [done|].
  destruct (schedule_central main_thread x (-1)
              (set_mem (<[x:=set_coro_parent None jx]> (mem s)) s) (set_coro_parent None jx))
    as (s'' & Hs'' & Hmem & Hcq & Hlq & Hcalls & _); [lia|by simpl; rewrite lookup_insert_eq|].
  rewrite Hs'' in Hs. inversion Hs; subst s''.
  split; [|done]. rewrite Hmem. simpl. by rewrite insert_insert_eq.
Qed.

Lemma balanced_submit x s s' :
  balanced s →
  ¬ scheduled s x → (∀ q, ¬ awaited_by s x q) →
  schedule_coro main_thread x s = Ok (tt, s') → balanced s'.
Proof.
  intros [HQ HL HP HS HC HF HPar HT HPl] Hns Hnoaw Hrun.
  pose proof (schedule_coro_ok _ _ _ _ _ Hrun HP) as HP'.
  apply schedule_coro_main_inv in Hrun as (jx & Hjx & Hmem & Hcq & Hlq & Hcalls).
  destruct HQ as (l & Hl & Hlive_l).
  assert (x ∉ l) as Hxl.
  { intros Hin. destruct (Hlive_l x Hin) as (j & _ & Hsx & _). done. }
  assert (∀ p, scheduled s' p ↔ scheduled s p ∨ p = x) as Hsch.
  { intros p. split.
    - intros [H|(thd & H)]%(scheduled_inv s s' _ p Hcalls); [by left|right].
      apply list_elem_of_singleton in H. by inversion H.
    - intros [H| ->]; [by eapply scheduled_mono|].
      exists (-1). rewrite Hcalls. apply elem_of_app. right.
      by apply list_elem_of_singleton. }
  assert (∀ c jc, c ≠ x → live s' c jc ↔ live s c jc) as Hlive.
  { intros c jc Hc. unfold live. rewrite Hmem, lookup_insert_ne by done.
    rewrite Hsch. split; intros (H1 & H2 & H3); (split; [done|split; [|done]]).
    - by destruct H2.
    - by left. }
  set (jx' := set_next (m_central_queue s) (set_coro_parent None jx)).
  assert (is_list (mem s') (m_central_queue s') (x :: l)) as Hl'.
  { rewrite Hcq, Hmem. split; [done|]. exists jx'. rewrite lookup_insert_eq.
    split; [done|]. simpl. by apply is_list_frame. }
  split.
  - exists (x :: l). split; [done|].
    intros p [->|Hp]%elem_of_cons.
    + exists jx'. split; [by rewrite Hmem, lookup_insert_eq|]. split.
      * apply Hsch. by right.
      * simpl. by eapply HF.
    + destruct (Hlive_l p Hp) as [j Hj]. exists j. apply Hlive; [|done].
      intros ->. done.
  - by rewrite Hlq.
  - done.
  - intros p [Hp| ->]%Hsch; rewrite Hmem, lookup_insert; case_decide; eauto.
  - intros p j. rewrite Hmem, lookup_insert.
    case_decide; [intros [= <-]; simpl; by eapply HC|apply HC].
  - intros p j. rewrite Hmem, lookup_insert. case_decide as Hpx.
    + intros _ Hnp. exfalso. apply Hnp, Hsch. by right.
    + intros Hp Hnp. eapply HF; [done|]. intros Hsp. apply Hnp, Hsch. by left.
  - intros c jc q Hc Hq.
    assert (c ≠ x) as Hcx.
    { intros ->. destruct Hc as (Hc & _). rewrite Hmem, lookup_insert_eq in Hc.
      inversion Hc; subst jc. done. }
    apply Hlive in Hc; [|done].
    destruct (HPar c jc q Hc Hq) as ((jq & Hjq & Hone) & Hnotin & Huniq).
    assert (q ≠ x) as Hqx by (intros ->; by destruct Hjq as (_ & ? & _)).
    split; [|split].
    + exists jq. split; [by apply Hlive|done].
    + intros l2 Hl2. rewrite (is_list_inj _ _ _ _ Hl2 Hl').
      apply not_elem_of_cons. split; [done|by apply Hnotin].
    + intros c' jc' Hc' Hq'.
      assert (c' ≠ x) as Hcx'.
      { intros ->. destruct Hc' as (Hc' & _). rewrite Hmem, lookup_insert_eq in Hc'.
        inversion Hc'; subst jc'. done. }
      apply Hlive in Hc'; [|done]. by eapply Huniq.
  - intros q jq c Hq Hc.
    assert (awaited_by s c q) as Haw.
    { rewrite Hmem, lookup_insert in Hq. case_decide as Hqx.
      - subst q. inversion Hq; subst jq. by exists jx.
      - by exists jq. }
    destruct Haw as (jq0 & Hjq0 & Hc0).
    destruct (HT q jq0 c Hjq0 Hc0) as (Halloc & Hnsc & Hnd & Huniq).
    assert (m_coro jq = m_coro jq0) as Hco.
    { rewrite Hmem, lookup_insert in Hq. case_decide as Hqx.
      - subst q. inversion Hq. rewrite Hjx in Hjq0. by inversion Hjq0.
      - rewrite Hq in Hjq0. by inversion Hjq0. }
    split; [|split; [|split]].
    + rewrite Hmem, lookup_insert. by case_decide.
    + intros [Hsc| ->]%Hsch; [done|]. apply (Hnoaw q). by exists jq0.
    + by rewrite Hco.
    + intros q' (jq' & Hjq' & Hin). apply Huniq.
      rewrite Hmem, lookup_insert in Hjq'. case_decide as Hqx.
      * subst q'. inversion Hjq'; subst jq'. by exists jx.
      * by exists jq'.
  - intros p j. rewrite Hmem, lookup_insert.
    case_decide; [intros [= <-]; simpl; by eapply HPl|apply HPl].
Qed.
End submit.

(** A turn of a worker.  The coroutine [P] is at the head of the central
    queue of the balanced state [s], in front of the jobs [L']; [s0] is
    the state after [pop]. *)
Section turn.
Variables (s : State) (P : ptr) (jP : Job) (L' : list ptr).
Hypothesis Hbal : balanced s.
Hypothesis HL : is_list (mem s) (m_central_queue s) (P :: L').
Hypothesis HjP : mem s !! P = Some jP.

Lemma turn_tail : is_list (mem s) (m_next jP) L'.
Proof using HL HjP.
  destruct HL as (_ & j & Hj & Hl). rewrite HjP in Hj. by inversion Hj; subst.
Qed.

Lemma turn_head_not_in_tail : P ∉ L'.
Proof using HL. eapply is_list_not_in. destruct HL as (-> & ?). by split. Qed.

Lemma turn_queue_live p : p ∈ P :: L' → ∃ j, live s p j.
Proof using Hbal HL.
  destruct (bal_queue s Hbal) as (l & Hl & Hlive).
  rewrite (is_list_inj _ _ _ _ HL Hl). apply Hlive.
Qed.

Lemma turn_head_live : live s P jP.
Proof using Hbal HL HjP.
  destruct (turn_queue_live P) as (j & Hj & Hs & Hd); [by left|].
  rewrite HjP in Hj. inversion Hj; subst j. done.
Qed.

Lemma turn_no_child c jc : live s c jc → m_coro_parent jc ≠ Some P.
Proof using Hbal HL.
  intros Hc Hp. destruct (bal_parent s Hbal c jc P Hc Hp) as (_ & Hnotin & _).
  apply (Hnotin _ HL). by left.
Qed.

Lemma turn_not_in_queue c jc q : live s c jc → m_coro_parent jc = Some q → q ∉ P :: L'.
Proof using Hbal HL.
  intros Hc Hq. destruct (bal_parent s Hbal c jc q Hc Hq) as (_ & Hnotin & _).
  by apply Hnotin.
Qed.

Lemma turn_head_self : m_continuation jP = Some P ∧ m_parent jP = None.
Proof using Hbal HL HjP.
  pose proof (bal_promises s Hbal P jP HjP) as Hok. unfold promise_ok in Hok.
  destruct turn_head_live as (_ & _ & Hd). rewrite Hd in Hok. by destruct Hok as (? & ? & _).
Qed.

(** The coroutine returns and has no parent. *)
Lemma balanced_return_orphan s' v cl :
  mem s' = <[P := mkJob (m_next jP) 0 None None (m_thread_index jP) None v
                        (co_return v) true]> (mem s) →
  m_central_queue s' = m_next jP →
  m_local_queues s' = m_local_queues s →
  calls s' = calls s ++ cl →
  (∀ p thd, call_schedule p thd ∉ cl) →
  promises_ok s' →
  balanced s'.
Proof using Hbal HL HjP.
  intros Hmem Hcq Hlq Hcalls Hcl HP'.
  pose proof turn_tail as Htail. pose proof turn_head_not_in_tail as HPL.
  assert (∀ p, scheduled s' p ↔ scheduled s p) as Hsch.
  { intros p. split; [|by eapply scheduled_mono].
    intros [H|(thd & H)]%(scheduled_inv s s' _ p Hcalls); [done|]. by apply Hcl in H. }
  assert (∀ c jc, c ≠ P → live s' c jc ↔ live s c jc) as Hlive.
  { intros c jc Hc. apply live_other; [by rewrite Hmem, lookup_insert_ne|apply Hsch]. }
  assert (∀ c jc, live s' c jc → c ≠ P) as HnP.
  { intros c jc (Hc & _ & Hd) ->. rewrite Hmem, lookup_insert_eq in Hc.
    inversion Hc; subst jc. done. }
  assert (is_list (mem s') (m_central_queue s') L') as Hl'.
  { rewrite Hcq, Hmem. by apply is_list_frame. }
  split.
  - exists L'. split; [done|]. intros p Hp.
    destruct (turn_queue_live p) as [j Hj]; [by right|]. exists j.
    apply Hlive; [|done]. intros ->. done.
  - rewrite Hlq. apply (bal_local s Hbal).
  - done.
  - intros p Hp%Hsch. apply (bal_scheduled s Hbal) in Hp.
    rewrite Hmem, lookup_insert. by case_decide.
  - intros p j. rewrite Hmem, lookup_insert.
    case_decide; [intros [= <-]; by left|apply (bal_children s Hbal)].
  - intros p j. rewrite Hmem, lookup_insert. case_decide as Hp.
    + subst p. intros _ Hns. exfalso. apply Hns, Hsch. by destruct turn_head_live as (_ & ? & _).
    + intros Hj Hns. eapply (bal_fresh s Hbal); [done|]. by rewrite <- Hsch.
  - intros c jc q Hc Hq. pose proof (HnP c jc Hc) as Hcp.
    apply Hlive in Hc; [|done].
    destruct (bal_parent s Hbal c jc q Hc Hq) as ((jq & Hjq & Hone) & Hnotin & Huniq).
    assert (q ≠ P) as HqP by (intros ->; exact (turn_no_child c jc Hc Hq)).
    split; [|split].
    + exists jq. split; [by apply Hlive|done].
    + intros l2 Hl2. rewrite (is_list_inj _ _ _ _ Hl2 Hl').
      intros Hin. apply (Hnotin _ HL). by right.
    + intros c' jc' Hc' Hq'. pose proof (HnP c' jc' Hc').
      apply Hlive in Hc'; [|done]. by eapply Huniq.
  - intros q jq c. rewrite Hmem, lookup_insert. case_decide as Hq.
    + subst q. intros [= <-]. simpl. by intros ?%elem_of_nil.
    + intros Hjq Hc.
      destruct (bal_targets s Hbal q jq c Hjq Hc) as (Halloc & Hns & Hnd & Huniq).
      split; [|split; [|split; [done|]]].
      * rewrite ?Hmem, lookup_insert. by case_decide.
      * by rewrite Hsch.
      * intros q' (jq' & Hjq' & Hin). rewrite Hmem, lookup_insert in Hjq'.
        case_decide as Hq'.
        -- subst q'. inversion Hjq'; subst jq'. simpl in Hin. by apply elem_of_nil in Hin.
        -- apply Huniq. by exists jq'.
  - intros p j. rewrite Hmem, lookup_insert.
    case_decide; [by intros [= <-]|apply (bal_plain s Hbal)].
Qed.
(** The coroutine hops to another thread and schedules itself. *)
Lemma balanced_hop s' k rest cl :
  plain rest →
  await_targets rest = await_targets (m_coro jP) →
  mem s' = <[P := mkJob (m_next jP) 0 None (Some P) k (m_coro_parent jP) (m_value jP)
                        rest false]> (mem s) →
  m_central_queue s' = Some P →
  m_local_queues s' = m_local_queues s →
  calls s' = calls s ++ cl →
  (∀ p thd, call_schedule p thd ∈ cl → p = P) →
  promises_ok s' →
  balanced s'.
Proof using Hbal HL HjP.
  intros Hplain Htg Hmem Hcq Hlq Hcalls Hcl HP'.
  pose proof turn_tail as Htail. pose proof turn_head_not_in_tail as HPL.
  pose proof turn_head_live as HliveP.
  set (jP' := mkJob (m_next jP) 0 None (Some P) k (m_coro_parent jP) (m_value jP) rest false)
    in *.
  assert (∀ p, scheduled s' p ↔ scheduled s p) as Hsch.
  { intros p. split; [|by eapply scheduled_mono].
    intros [H|(thd & H)]%(scheduled_inv s s' _ p Hcalls); [done|].
    apply Hcl in H. subst p. by destruct HliveP as (_ & ? & _). }
  assert (∀ c jc, c ≠ P → live s' c jc ↔ live s c jc) as Hlive.
  { intros c jc Hc. apply live_other; [by rewrite Hmem, lookup_insert_ne|apply Hsch]. }
  assert (live s' P jP') as HliveP'.
  { split; [by rewrite Hmem, lookup_insert_eq|]. split; [|done].
    apply Hsch. by destruct HliveP as (_ & ? & _). }
  assert (∀ c jc, live s' c jc →
            ∃ jc0, live s c jc0 ∧ m_coro_parent jc0 = m_coro_parent jc) as Hback.
  { intros c jc Hc. destruct (decide (c = P)) as [->|Hne].
    - exists jP. split; [done|]. destruct Hc as (Hc & _).
      rewrite Hmem, lookup_insert_eq in Hc. by inversion Hc.
    - exists jc. split; [by apply Hlive|done]. }
  assert (is_list (mem s') (m_central_queue s') (P :: L')) as Hl'.
  { rewrite Hcq, Hmem. split; [done|]. exists jP'. rewrite lookup_insert_eq.
    split; [done|]. simpl. by apply is_list_frame. }
  split.
  - exists (P :: L'). split; [done|]. intros p [->|Hp]%elem_of_cons; [by exists jP'|].
    destruct (turn_queue_live p) as [j Hj]; [by right|]. exists j.
    apply Hlive; [|done]. intros ->. done.
  - rewrite Hlq. apply (bal_local s Hbal).
  - done.
  - intros p Hp%Hsch. apply (bal_scheduled s Hbal) in Hp.
    rewrite Hmem, lookup_insert. by case_decide.
  - intros p j. rewrite Hmem, lookup_insert.
    case_decide; [intros [= <-]; by left|apply (bal_children s Hbal)].
  - intros p j. rewrite Hmem, lookup_insert. case_decide as Hp.
    + by intros [= <-].
    + intros Hj Hns. eapply (bal_fresh s Hbal); [done|]. by rewrite <- Hsch.
  - intros c jc q Hc Hq.
    destruct (Hback c jc Hc) as (jc0 & Hc0 & Hcp0). rewrite <- Hcp0 in Hq.
    destruct (bal_parent s Hbal c jc0 q Hc0 Hq) as ((jq & Hjq & Hone) & Hnotin & Huniq).
    assert (q ≠ P) as HqP by (intros ->; exact (turn_no_child c jc0 Hc0 Hq)).
    split; [|split].
    + exists jq. split; [by apply Hlive|done].
    + intros l2 Hl2. rewrite (is_list_inj _ _ _ _ Hl2 Hl'). by apply Hnotin.
    + intros c' jc' Hc' Hq'.
      destruct (Hback c' jc' Hc') as (jc0' & Hc0' & Hcp0'). rewrite <- Hcp0' in Hq'.
      by eapply Huniq.
  - assert (∀ q jq, mem s' !! q = Some jq →
              ∃ jq0, mem s !! q = Some jq0 ∧
                     await_targets (m_coro jq) = await_targets (m_coro jq0)) as Hbt.
    { intros q jq. rewrite Hmem, lookup_insert. case_decide as Hq.
      - subst q. intros [= <-]. by exists jP.
      - intros Hjq. by exists jq. }
    intros q jq c Hjq Hc. destruct (Hbt q jq Hjq) as (jq0 & Hjq0 & Heq).
    rewrite Heq in Hc |- *.
    destruct (bal_targets s Hbal q jq0 c Hjq0 Hc) as (Halloc & Hns & Hnd & Huniq).
    split; [|split; [|split; [done|]]].
    + rewrite Hmem, lookup_insert. by case_decide.
    + by rewrite Hsch.
    + intros q' (jq' & Hjq' & Hin). destruct (Hbt q' jq' Hjq') as (jq0' & Hjq0' & Heq').
      rewrite Heq' in Hin. apply Huniq. by exists jq0'.
  - intros p j. rewrite Hmem, lookup_insert.
    case_decide; [by intros [= <-]|apply (bal_plain s Hbal)].
Qed.

(** The coroutine returns and notifies its parent [Q], which schedules
    itself. *)
Lemma balanced_return_child s' v Q jQ cl :
  m_coro_parent jP = Some Q → mem s !! Q = Some jQ →
  mem s' = <[Q := set_next (m_next jP) (set_children 0 jQ)]>
             (<[P := mkJob (m_next jP) 0 (Some Q) None (m_thread_index jP) (Some Q) v
                           (co_return v) true]> (mem s)) →
  m_central_queue s' = Some Q →
  m_local_queues s' = m_local_queues s →
  calls s' = calls s ++ cl →
  (∀ p thd, call_schedule p thd ∈ cl → p = Q) →
  promises_ok s' →
  balanced s'.
Proof using Hbal HL HjP.
  intros HPQ HjQ Hmem Hcq Hlq Hcalls Hcl HP'.
  pose proof turn_tail as Htail. pose proof turn_head_not_in_tail as HPL.
  pose proof turn_head_live as HliveP.
  destruct (bal_parent s Hbal P jP Q HliveP HPQ) as ((jQ0 & HliveQ & HoneQ) & HnotinQ & HuniqQ).
  assert (jQ0 = jQ) as -> by (destruct HliveQ as (H & _); congruence).
  assert (Q ≠ P) as HQP by (intros ->; apply (HnotinQ _ HL); by left).
  assert (Q ∉ L') as HQL by (intros Hin; apply (HnotinQ _ HL); by right).
  set (jP' := mkJob (m_next jP) 0 (Some Q) None (m_thread_index jP) (Some Q) v
                    (co_return v) true) in *.
  set (jQ' := set_next (m_next jP) (set_children 0 jQ)) in *.
  assert (∀ p, scheduled s' p ↔ scheduled s p) as Hsch.
  { intros p. split; [|by eapply scheduled_mono].
    intros [H|(thd & H)]%(scheduled_inv s s' _ p Hcalls); [done|].
    apply Hcl in H. subst p. by destruct HliveQ as (_ & ? & _). }
  assert (∀ c jc, c ≠ P → c ≠ Q → live s' c jc ↔ live s c jc) as Hlive.
  { intros c jc Hc1 Hc2. apply live_other; [by rewrite Hmem, !lookup_insert_ne|apply Hsch]. }
  assert (live s' Q jQ') as HliveQ'.
  { split; [by rewrite Hmem, lookup_insert_eq|]. split.
    - apply Hsch. by destruct HliveQ as (_ & ? & _).
    - simpl. by destruct HliveQ as (_ & _ & ?). }
  assert (∀ c jc, live s' c jc →
            c ≠ P ∧ ∃ jc0, live s c jc0 ∧ m_coro_parent jc0 = m_coro_parent jc) as Hback.
  { intros c jc Hc. destruct (decide (c = P)) as [->|HcP].
    { destruct Hc as (Hc & _ & Hd). rewrite Hmem, lookup_insert_ne, lookup_insert_eq in Hc by done.
      inversion Hc; subst jc. done. }
    split; [done|]. destruct (decide (c = Q)) as [->|HcQ].
    - exists jQ. split; [done|]. destruct Hc as (Hc & _).
      rewrite Hmem, lookup_insert_eq in Hc. by inversion Hc.
    - exists jc. split; [by apply Hlive|done]. }
  assert (is_list (mem s') (m_central_queue s') (Q :: L')) as Hl'.
  { rewrite Hcq, Hmem. split; [done|]. exists jQ'. rewrite lookup_insert_eq.
    split; [done|]. simpl. by repeat (apply is_list_frame; [done|]). }
  split.
  - exists (Q :: L'). split; [done|]. intros p [->|Hp]%elem_of_cons; [by exists jQ'|].
    destruct (turn_queue_live p) as [j Hj]; [by right|]. exists j.
    apply Hlive; [by intros ->|by intros ->|done].
  - rewrite Hlq. apply (bal_local s Hbal).
  - done.
  - intros p Hp%Hsch. apply (bal_scheduled s Hbal) in Hp.
    rewrite Hmem, !lookup_insert. by repeat case_decide.
  - intros p j. rewrite Hmem, !lookup_insert.
    case_decide; [intros [= <-]; by left|].
    case_decide; [intros [= <-]; by left|]. apply (bal_children s Hbal).
  - intros p j. rewrite Hmem, !lookup_insert. case_decide as Hp1.
    { intros [= <-] _. simpl. by destruct HliveQ as (_ & _ & ?). }
    case_decide as Hp2.
    + subst p. intros _ Hns. exfalso. apply Hns, Hsch. by destruct HliveP as (_ & ? & _).
    + intros Hj Hns. eapply (bal_fresh s Hbal); [done|]. by rewrite <- Hsch.
  - intros c jc q Hc Hq.
    destruct (Hback c jc Hc) as (HcP & jc0 & Hc0 & Hcp0). rewrite <- Hcp0 in Hq.
    destruct (bal_parent s Hbal c jc0 q Hc0 Hq) as ((jq & Hjq & Hone) & Hnotin & Huniq).
    assert (q ≠ P) as HqP by (intros ->; exact (turn_no_child c jc0 Hc0 Hq)).
    assert (q ≠ Q) as HqQ by (intros ->; apply HcP; by eapply HuniqQ).
    split; [|split].
    + exists jq. split; [by apply Hlive|done].
    + intros l2 Hl2. rewrite (is_list_inj _ _ _ _ Hl2 Hl').
      apply not_elem_of_cons. split; [done|].
      intros Hin. apply (Hnotin _ HL). by right.
    + intros c' jc' Hc' Hq'.
      destruct (Hback c' jc' Hc') as (_ & jc0' & Hc0' & Hcp0'). rewrite <- Hcp0' in Hq'.
      by eapply Huniq.
  - assert (∀ q jq c, mem s' !! q = Some jq → c ∈ await_targets (m_coro jq) →
              ∃ jq0, mem s !! q = Some jq0 ∧
                     await_targets (m_coro jq) = await_targets (m_coro jq0)) as Hbt.
    { intros q jq c. rewrite Hmem, !lookup_insert. case_decide as Hq1.
      - subst q. intros [= <-] _. by exists jQ.
      - case_decide as Hq2.
        + intros [= <-]. simpl. by intros ?%elem_of_nil.
        + intros Hjq _. by exists jq. }
    intros q jq c Hjq Hc. destruct (Hbt q jq c Hjq Hc) as (jq0 & Hjq0 & Heq).
    rewrite Heq in Hc |- *.
    destruct (bal_targets s Hbal q jq0 c Hjq0 Hc) as (Halloc & Hns & Hnd & Huniq).
    split; [|split; [|split; [done|]]].
    + rewrite Hmem, !lookup_insert. by repeat case_decide.
    + by rewrite Hsch.
    + intros q' (jq' & Hjq' & Hin).
      destruct (Hbt q' jq' c Hjq' Hin) as (jq0' & Hjq0' & Heq').
      rewrite Heq' in Hin. apply Huniq. by exists jq0'.
  - intros p j. rewrite Hmem, !lookup_insert. repeat case_decide.
    + intros [= <-]. simpl. by apply (bal_plain s Hbal Q).
    + by intros [= <-].
    + apply (bal_plain s Hbal).
Qed.

(** The coroutine awaits the coroutine [C]. *)
Lemma balanced_await s' C jC rest :
  plain rest →
  await_targets (m_coro jP) = C :: await_targets rest →
  mem s !! C = Some jC →
  mem s' = <[P := mkJob (m_next jP) 1 (m_parent jP) (m_continuation jP) (m_thread_index jP)
                        (m_coro_parent jP) (m_value jP) rest false]>
             (<[C := set_next (m_next jP) (set_coro_parent (Some P) jC)]> (mem s)) →
  m_central_queue s' = Some C →
  m_local_queues s' = m_local_queues s →
  calls s' = calls s ++ [call_schedule C (-1)] →
  promises_ok s' →
  balanced s'.
Proof using Hbal HL HjP.
  intros Hplain Htg HjC Hmem Hcq Hlq Hcalls HP'.
  pose proof turn_tail as Htail. pose proof turn_head_not_in_tail as HPL.
  pose proof turn_head_live as HliveP.
  assert (C ∈ await_targets (m_coro jP)) as HCin by (rewrite Htg; by left).
  destruct (bal_targets s Hbal P jP C HjP HCin) as (_ & HnsC & HndP & HuniqC).
  assert (C ≠ P) as HCP by (intros ->; by destruct HliveP as (_ & ? & _)).
  assert (C ∉ L') as HCL.
  { intros Hin. destruct (turn_queue_live C) as (j & _ & ? & _); [by right|done]. }
  assert (m_done jC = false) as HdC by (by eapply (bal_fresh s Hbal)).
  set (jP' := mkJob (m_next jP) 1 (m_parent jP) (m_continuation jP) (m_thread_index jP)
                    (m_coro_parent jP) (m_value jP) rest false) in *.
  set (jC' := set_next (m_next jP) (set_coro_parent (Some P) jC)) in *.
  assert (∀ p, scheduled s' p ↔ scheduled s p ∨ p = C) as Hsch.
  { intros p. split.
    - intros [H|(thd & H)]%(scheduled_inv s s' _ p Hcalls); [by left|right].
      apply list_elem_of_singleton in H. by inversion H.
    - intros [H| ->]; [by eapply scheduled_mono|].
      exists (-1). rewrite Hcalls. apply elem_of_app. right.
      by apply list_elem_of_singleton. }
  assert (∀ c jc, c ≠ P → c ≠ C → live s' c jc ↔ live s c jc) as Hlive.
  { intros c jc Hc1 Hc2. unfold live. rewrite Hmem, !lookup_insert_ne by done.
    rewrite Hsch. split; intros (H1 & H2 & H3); (split; [done|split; [|done]]).
    - by destruct H2.
    - by left. }
  assert (live s' P jP') as HliveP'.
  { split; [by rewrite Hmem, lookup_insert_eq|]. split; [|done].
    apply Hsch. left. by destruct HliveP as (_ & ? & _). }
  assert (live s' C jC') as HliveC'.
  { split; [by rewrite Hmem, lookup_insert_ne, lookup_insert_eq|]. split; [|done].
    apply Hsch. by right. }
  assert (∀ c jc, live s' c jc → c ≠ C →
            ∃ jc0, live s c jc0 ∧ m_coro_parent jc0 = m_coro_parent jc) as Hback.
  { intros c jc Hc HcC. destruct (decide (c = P)) as [->|HcP].
    - exists jP. split; [done|]. destruct Hc as (Hc & _).
      rewrite Hmem, lookup_insert_eq in Hc. by inversion Hc.
    - exists jc. split; [by apply Hlive|done]. }
  assert (is_list (mem s') (m_central_queue s') (C :: L')) as Hl'.
  { rewrite Hcq, Hmem. split; [done|]. exists jC'.
    rewrite lookup_insert_ne, lookup_insert_eq by done.
    split; [done|]. simpl. by repeat (apply is_list_frame; [done|]). }
  assert (∀ c jc, live s' c jc → m_coro_parent jc = Some P → c = C) as HchildP.
  { intros c jc Hc Hq. destruct (decide (c = C)) as [|HcC]; [done|].
    destruct (Hback c jc Hc HcC) as (jc0 & Hc0 & Hcp0). rewrite <- Hcp0 in Hq.
    destruct (turn_no_child c jc0 Hc0 Hq). }
  split.
  - exists (C :: L'). split; [done|]. intros p [->|Hp]%elem_of_cons; [by exists jC'|].
    destruct (turn_queue_live p) as [j Hj]; [by right|]. exists j.
    apply Hlive; [by intros ->|by intros ->|done].
  - rewrite Hlq. apply (bal_local s Hbal).
  - done.
  - intros p [Hp| ->]%Hsch; rewrite Hmem, !lookup_insert; repeat case_decide; try done.
    by apply (bal_scheduled s Hbal).
  - intros p j. rewrite Hmem, !lookup_insert.
    case_decide; [intros [= <-]; by right|].
    case_decide; [intros [= <-]; simpl; by eapply (bal_children s Hbal)|].
    apply (bal_children s Hbal).
  - intros p j. rewrite Hmem, !lookup_insert. case_decide as Hp1; [by intros [= <-]|].
    case_decide as Hp2; [by intros [= <-]|].
    intros Hj Hns. eapply (bal_fresh s Hbal); [done|].
    intros Hsp. apply Hns, Hsch. by left.
  - intros c jc q Hc Hq. destruct (decide (c = C)) as [->|HcC].
    + assert (jc = jC') as -> by (destruct Hc as (Hc & _), HliveC' as (Hc' & _); congruence).
      simpl in Hq. inversion Hq; subst q.
      split; [|split].
      * by exists jP'.
      * intros l2 Hl2. rewrite (is_list_inj _ _ _ _ Hl2 Hl').
        apply not_elem_of_cons. split; [done|done].
      * intros c' jc' Hc' Hq'. by eapply HchildP.
    + destruct (Hback c jc Hc HcC) as (jc0 & Hc0 & Hcp0). rewrite <- Hcp0 in Hq.
      destruct (bal_parent s Hbal c jc0 q Hc0 Hq) as ((jq & Hjq & Hone) & Hnotin & Huniq).
      assert (q ≠ P) as HqP by (intros ->; exact (turn_no_child c jc0 Hc0 Hq)).
      assert (q ≠ C) as HqC by (intros ->; by destruct Hjq as (_ & ? & _)).
      split; [|split].
      * exists jq. split; [by apply Hlive|done].
      * intros l2 Hl2. rewrite (is_list_inj _ _ _ _ Hl2 Hl').
        apply not_elem_of_cons. split; [done|].
        intros Hin. apply (Hnotin _ HL). by right.
      * intros c' jc' Hc' Hq'. destruct (decide (c' = C)) as [->|HcC'].
        { assert (jc' = jC') as ->
            by (destruct Hc' as (Hc' & _), HliveC' as (Hc'' & _); congruence).
          simpl in Hq'. congruence. }
        destruct (Hback c' jc' Hc' HcC') as (jc0' & Hc0' & Hcp0'). rewrite <- Hcp0' in Hq'.
        by eapply Huniq.
  - assert (∀ q jq c, mem s' !! q = Some jq → c ∈ await_targets (m_coro jq) →
              ∃ jq0, mem s !! q = Some jq0 ∧ c ∈ await_targets (m_coro jq0) ∧
                     (await_targets (m_coro jq) = await_targets (m_coro jq0) ∨
                      q = P ∧ await_targets (m_coro jq0) = C :: await_targets (m_coro jq)))
      as Hbt.
    { intros q jq c. rewrite Hmem, !lookup_insert. case_decide as Hq1.
      - subst q. intros [= <-]. simpl. intros Hc. exists jP.
        split; [done|]. split; [rewrite Htg; by right|]. by right.
      - case_decide as Hq2.
        + subst q. intros [= <-]. simpl. intros Hc. exists jC. by repeat split; [..|left].
        + intros Hjq Hc. exists jq. by repeat split; [..|left]. }
    intros q jq c Hjq Hc. destruct (Hbt q jq c Hjq Hc) as (jq0 & Hjq0 & Hc0 & Heq).
    destruct (bal_targets s Hbal q jq0 c Hjq0 Hc0) as (Halloc & Hns & Hnd & Huniq).
    split; [|split; [|split]].
    + rewrite Hmem, !lookup_insert. by repeat case_decide.
    + intros [Hsc| ->]%Hsch; [done|].
      assert (q = P) as -> by (apply HuniqC; by exists jq0).
      rewrite HjP in Hjq0. inversion Hjq0; subst jq0.
      destruct Heq as [Heq|[_ Heq]].
      * rewrite Hmem, lookup_insert_eq in Hjq. inversion Hjq; subst jq. simpl in Heq.
        rewrite Htg in Heq. apply (f_equal length) in Heq. simpl in Heq. lia.
      * rewrite Heq in HndP. apply NoDup_cons in HndP as [Hnin _]. done.
    + destruct Heq as [->|[_ Heq]]; [done|].
      rewrite Heq in Hnd. by apply NoDup_cons in Hnd as [_ ?].
    + intros q' (jq' & Hjq' & Hin).
      destruct (Hbt q' jq' c Hjq' Hin) as (jq0' & Hjq0' & Hc0' & _).
      apply Huniq. by exists jq0'.
  - intros p j. rewrite Hmem, !lookup_insert. repeat case_decide.
    + by intros [= <-].
    + intros [= <-]. simpl. by apply (bal_plain s Hbal C).
    + apply (bal_plain s Hbal).
Qed.

End turn.

Lemma balanced_turn fuel idx r s s' :
  balanced s → (3 ≤ fuel)%nat →
  thread_task_turn fuel idx s = Ok (r, s') → balanced s'.
Proof.
  intros Hbal Hfuel Hturn.
  pose proof (thread_task_turn_ok _ _ _ _ _ Hturn (bal_promises s Hbal)) as HP'.
  unfold thread_task_turn in Hturn.
  apply bind_inv_Ok in Hturn as (loc & s1 & Hloc & Hturn).
  apply (pop_local_empty _ _ _ _ _ (bal_local s Hbal)) in Hloc as [-> ->].
  apply bind_inv_Ok in Hturn as (job & s0 & Hpop & Hturn).
  destruct (bal_queue s Hbal) as (l & Hl & Hlive).
  destruct l as [|P L'].
  { simpl in Hl. rewrite (pop_lifo_empty fuel s Hl) in Hpop.
    inversion Hpop; subst job s0. by inversion Hturn; subst. }
  destruct (Hlive P) as (jP & HjP & HsP & HdP); [by left|].
  destruct fuel as [|[|[|fuel]]]; [lia..|].
  rewrite (pop_lifo_head _ s P L' jP Hl HjP) in Hpop.
  inversion Hpop; subst job s0. clear Hpop.
  apply bind_inv_Ok in Hturn as ([] & s3 & Hcall & Hret). inversion Hret; subst s3 r.
  clear Hret. set (s0 := set_central_queue (m_next jP) s) in *.
  set (th := mkThread idx (Some P)) in *.
  assert (mem s0 !! P = Some jP) as HjP0 by done.
  destruct (turn_head_self s P jP L' Hbal Hl HjP) as (HcontP & HparP).
  pose proof (first_suspension_targets th (m_coro jP)) as Htg.
  pose proof (plain_rest th (m_coro jP) (bal_plain s Hbal P jP HjP)) as Hplain.
  destruct (first_suspension th (m_coro jP)) as [v|C rest|k rest|b] eqn:Hfs; [| | |done].
  - destruct (m_coro_parent jP) as [Q|] eqn:HPQ.
    + destruct (bal_parent s Hbal P jP Q (conj HjP (conj HsP HdP)) HPQ)
        as ((jQ & (HjQ & HsQ & HdQ) & HoneQ) & HnotinQ & _).
      assert (Q ≠ P) as HQP by (intros ->; apply (HnotinQ _ Hl); by left).
      pose proof (bal_promises s Hbal Q jQ HjQ) as HokQ. unfold promise_ok in HokQ.
      rewrite HdQ in HokQ. destruct HokQ as (HcontQ & HparQ & _).
      destruct (Job_call_return_child fuel th P s0 jP v Q jQ HjP0 HdP Hfs HPQ HQP HjQ HoneQ
                  HcontQ HparQ) as (s'' & Hrun & Hmem & Hcq & Hlq & Hcalls).
      rewrite Hrun in Hcall. inversion Hcall; subst s''.
      eapply (balanced_return_child s P jP L' Hbal Hl HjP s' v Q jQ); try done.
      intros p thd Hin. repeat (apply elem_of_cons in Hin as [Hin|Hin]; [by inversion Hin|]).
      by apply elem_of_nil in Hin.
    + rewrite (Job_call_return_orphan _ th P s0 jP v HjP0 HdP Hfs HPQ) in Hcall.
      inversion Hcall; subst s'.
      eapply (balanced_return_orphan s P jP L' Hbal Hl HjP _ v [call_on_finished P]);
        try done.
      intros p thd Hin%list_elem_of_singleton. done.
  - assert (C ∈ await_targets (m_coro jP)) as HCin by (rewrite Htg; by left).
    destruct (bal_targets s Hbal P jP C HjP HCin) as ([jC HjC] & HnsC & _).
    assert (C ≠ P) as HCP by (by intros ->).
    destruct (Job_call_await (S (S (S fuel))) idx P s0 jP C rest jC HjP0 HdP Hfs HCP HjC)
      as (s'' & Hrun & Hmem & Hcq & Hlq & Hcalls).
    fold th in Hrun. rewrite Hrun in Hcall. inversion Hcall; subst s''.
    by eapply (balanced_await s P jP L' Hbal Hl HjP s' C jC rest).
  - destruct (Job_call_hop (S (S fuel)) th P s0 jP k rest HjP0 HdP Hfs HcontP HparP)
      as (s'' & Hrun & Hmem & Hcq & Hlq & Hcalls).
    rewrite Hrun in Hcall. inversion Hcall; subst s''.
    eapply (balanced_hop s P jP L' Hbal Hl HjP s' k rest); try done.
    intros p thd Hin. repeat (apply elem_of_cons in Hin as [Hin|Hin]; [by inversion Hin|]).
    by apply elem_of_nil in Hin.
Qed.

Lemma once_step_balanced s s' : once_step s s' → balanced s → balanced s'.
Proof.
  intros [p body s1 s2 Hpl Hnd Htg Hnew|x s1 s2 Hns Hnoaw Hrun|fuel idx r s1 s2 Hfuel Hturn]
    Hbal.
  - by eapply balanced_create.
  - by eapply balanced_submit.
  - by eapply balanced_turn.
Qed.

Lemma once_reachable_balanced n hw s :
  rtc once_step (JobSystem_new n hw) s → balanced s.
Proof.
  intros Hrtc. eapply (rtc_ind_r (λ s, balanced s)); [| |exact Hrtc].
  - apply balanced_new.
  - intros s1 s2 _ Hstep IH. by eapply once_step_balanced.
Qed.

(** ** The coroutine submitted by a thread that runs no job *)

Section orphan.
Implicit Types (s : State) (th : Thread) (j : Job).

(** A submission and the objects other than the submitted coroutine:
    their parent links and continuations stay, and the log gets the
    call of [schedule]. *)
Lemma schedule_coro_quiet th c s s' x jx :
  schedule_coro th c s = Ok (tt, s') → mem s !! x = Some jx → x ≠ c →
  calls s' = calls s ++ [call_schedule c (-1)] ∧
  ∃ jx', mem s' !! x = Some jx' ∧ m_coro_parent jx' = m_coro_parent jx ∧
         m_parent jx' = m_parent jx ∧ m_continuation jx' = m_continuation jx.
Proof.
  intros Hrun Hx Hne.
  destruct (schedule_coro_allocated _ _ _ _ _ Hrun) as [[jc Hjc] Hcur].
  destruct (schedule_coro_Ok th c s jc Hjc Hcur) as (s1 & Hs1 & _ & _ & Hcalls & Hmem & _).
  rewrite Hs1 in Hrun. inversion Hrun; subst s1. split; [done|].
  destruct (Hmem x jx Hx) as (jx' & Hjx' & _ & Hcp & _ & Hpa & Hco & _).
  rewrite decide_False in Hcp by done. by exists jx'.
Qed.

Lemma schedule_coros_quiet th cs : ∀ s s' x jx,
  schedule_coros th cs s = Ok (tt, s') → mem s !! x = Some jx → x ∉ cs →
  (∃ cl, calls s' = calls s ++ cl ∧ ∀ q, call_child_finished q ∉ cl) ∧
  ∃ jx', mem s' !! x = Some jx' ∧ m_coro_parent jx' = m_coro_parent jx ∧
         m_parent jx' = m_parent jx ∧ m_continuation jx' = m_continuation jx.
Proof.
  induction cs as [|c cs IH]; intros s s' x jx Hrun Hx Hnin; simpl in Hrun.
  { inversion Hrun; subst. split; [|by eauto].
    exists []. split; [by rewrite app_nil_r|]. by intros q ?%elem_of_nil. }
  apply not_elem_of_cons in Hnin as [Hne Hnin].
  apply bind_inv_Ok in Hrun as ([] & s1 & H1 & Hrun).
  destruct (schedule_coro_quiet th c s s1 x jx H1 Hx Hne)
    as (Hcalls1 & jx1 & Hx1 & Hcp1 & Hpa1 & Hco1).
  destruct (IH s1 s' x jx1 Hrun Hx1 Hnin) as ((cl & Hcalls & Hcl) & jx' & Hx' & Hcp & Hpa & Hco).
  split.
  - exists (call_schedule c (-1) :: cl). split.
    + rewrite Hcalls, Hcalls1. by rewrite <- app_assoc.
    + intros q [?|?]%elem_of_cons; [done|]. by apply (Hcl q).
  - exists jx'. split; [done|]. split; [congruence|]. split; congruence.
Qed.

Lemma awaitable_tuple_await_suspend_quiet th css : ∀ s s' x jx,
  awaitable_tuple_await_suspend th css s = Ok (tt, s') → mem s !! x = Some jx →
  x ∉ concat css →
  (∃ cl, calls s' = calls s ++ cl ∧ ∀ q, call_child_finished q ∉ cl) ∧
  ∃ jx', mem s' !! x = Some jx' ∧ m_coro_parent jx' = m_coro_parent jx ∧
         m_parent jx' = m_parent jx ∧ m_continuation jx' = m_continuation jx.
Proof.
  induction css as [|cs css IH]; intros s s' x jx Hrun Hx Hnin; simpl in Hrun.
  { inversion Hrun; subst. split; [|by eauto].
    exists []. split; [by rewrite app_nil_r|]. by intros q ?%elem_of_nil. }
  simpl in Hnin. apply not_elem_of_app in Hnin as [Hnin1 Hnin2].
  apply bind_inv_Ok in Hrun as ([] & s1 & H1 & Hrun).
  destruct (schedule_coros_quiet th cs s s1 x jx H1 Hx Hnin1)
    as ((cl1 & Hcalls1 & Hcl1) & jx1 & Hx1 & Hcp1 & Hpa1 & Hco1).
  destruct (IH s1 s' x jx1 Hrun Hx1 Hnin2) as ((cl & Hcalls & Hcl) & jx' & Hx' & Hcp & Hpa & Hco).
  split.
  - exists (cl1 ++ cl). split.
    + rewrite Hcalls, Hcalls1. by rewrite <- app_assoc.
    + intros q [?|?]%elem_of_app; [by apply (Hcl1 q)|by apply (Hcl q)].
  - exists jx'. split; [done|]. split; [congruence|]. split; congruence.
Qed.

(** A run of the body of a coroutine that records no job to notify and
    does not submit itself: [child_finished] is not called, and after
    the run the coroutine has no parent; its continuation is as before,
    or cleared by the final suspension. *)
Lemma coro_resume_orphan th self body : ∀ s s' j,
  coro_resume th self body s = Ok (tt, s') → mem s !! self = Some j →
  self ∉ segment_children th body →
  m_coro_parent j = None → m_parent j = None →
  (∃ cl, calls s' = calls s ++ cl ∧ ∀ q, call_child_finished q ∉ cl) ∧
  ∃ j', mem s' !! self = Some j' ∧ m_parent j' = None ∧
        (m_continuation j' = m_continuation j ∨ m_continuation j' = None).
Proof.
  assert (∀ s, (∃ cl, calls s = calls s ++ cl ∧ ∀ q, call_child_finished q ∉ cl)) as Hnil.
  { intros s. exists []. split; [by rewrite app_nil_r|]. by intros q ?%elem_of_nil. }
  induction body as [v|c rest IH|k rest IH|c rest IH|cs rest IH|css rest IH];
    intros s s' j Hrun Hj Hself Hcp Hpa.
  - rewrite (coro_resume_returns th self (co_return v) v s j eq_refl Hj) in Hrun.
    inversion Hrun; subst. split; [apply (Hnil s)|].
    eexists. split; [simpl; by rewrite lookup_insert_eq|]. split; [done|by right].
  - simpl in Hrun, Hself. unfold suspend in Hrun.
    rewrite (bind_Ok _ _ _ _ _ (update_Ok _ _ _ _ Hj)) in Hrun.
    apply not_elem_of_cons in Hself as [Hne _].
    edestruct (schedule_coro_quiet th c) as (Hcalls & j' & Hj' & Hcp' & Hpa' & Hco');
      [exact Hrun|simpl; by rewrite lookup_insert_eq|done|].
    split.
    + exists [call_schedule c (-1)]. split; [done|].
      intros q ?%list_elem_of_singleton. done.
    + exists j'. split; [done|]. split; [by rewrite Hpa'|left; by rewrite Hco'].
  - simpl in Hrun, Hself. destruct (awaitable_resume_on_await_ready th k).
    { by apply (IH s s' j). }
    unfold suspend, awaitable_resume_on_await_suspend in Hrun.
    rewrite (update_twice _ _ _ _ _ Hj) in Hrun. inversion Hrun; subst.
    split; [apply (Hnil s)|].
    eexists. split; [simpl; by rewrite lookup_insert_eq|]. split; [done|by left].
  - simpl in Hrun, Hself. apply not_elem_of_cons in Hself as [Hne Hself].
    apply bind_inv_Ok in Hrun as ([] & s1 & H1 & Hrun).
    destruct (schedule_coro_quiet th c s s1 self j H1 Hj Hne)
      as (Hcalls1 & j1 & Hj1 & Hcp1 & Hpa1 & Hco1).
    destruct (IH s1 s' j1 Hrun Hj1 Hself) as ((cl & Hcalls & Hcl) & j' & Hj' & Hpa' & Hco');
      [congruence..|].
    split.
    + exists (call_schedule c (-1) :: cl). split.
      * rewrite Hcalls, Hcalls1. by rewrite <- app_assoc.
      * intros q [?|?]%elem_of_cons; [done|]. by apply (Hcl q).
    + exists j'. split; [done|]. split; [done|]. rewrite <- Hco1. done.
  - simpl in Hrun, Hself. destruct (awaitable_coro_vector_await_ready cs).
    { by apply (IH s s' j). }
    unfold suspend, awaitable_coro_vector_await_suspend in Hrun.
    rewrite (bind_Ok _ _ _ _ _ (update_Ok _ _ _ _ Hj)) in Hrun.
    edestruct (schedule_coros_quiet th cs) as (Hcl & j' & Hj' & Hcp' & Hpa' & Hco');
      [exact Hrun|simpl; by rewrite lookup_insert_eq|done|].
    split; [done|].
    exists j'. split; [done|]. split; [by rewrite Hpa'|left; by rewrite Hco'].
  - simpl in Hrun, Hself. destruct (awaitable_tuple_await_ready _).
    { by apply (IH s s' j). }
    unfold suspend in Hrun.
    rewrite (bind_Ok _ _ _ _ _ (update_Ok _ _ _ _ Hj)) in Hrun.
    edestruct (awaitable_tuple_await_suspend_quiet th css)
      as (Hcl & j' & Hj' & Hcp' & Hpa' & Hco');
      [exact Hrun|simpl; by rewrite lookup_insert_eq|done|].
    split; [done|].
    exists j'. split; [done|]. split; [by rewrite Hpa'|left; by rewrite Hco'].
Qed.

(** [Job::operator()] on a coroutine that has not finished, records no
    job to notify and does not submit itself: no [child_finished] is
    called. *)
Lemma Job_call_orphan_quiet fuel th self s s' j :
  Job_call fuel th self s = Ok (tt, s') → mem s !! self = Some j →
  m_done j = false → promise_ok self j → m_coro_parent j = None →
  self ∉ segment_children th (m_coro j) →
  ∃ cl, calls s' = calls s ++ cl ∧ ∀ q, call_child_finished q ∉ cl.
Proof.
  intros Hrun Hj Hd Hok Hcp Hself.
  unfold promise_ok in Hok. rewrite Hd in Hok. destruct Hok as (Hcont & Hpar & _).
  unfold Job_call in Hrun.
  rewrite (bind_Ok _ _ _ _ _ (update_Ok _ _ _ _ Hj)) in Hrun.
  set (s1 := set_mem _ s) in Hrun.
  assert (mem s1 !! self = Some (set_children 1 j)) as Hj1
    by (subst s1; simpl; by rewrite lookup_insert_eq).
  apply bind_inv_Ok in Hrun as (b & s2 & Hres & Hrun).
  unfold Coro_promise_resume in Hres.
  rewrite (bind_Ok _ _ _ _ _ (deref_Ok _ _ _ Hj1)) in Hres. simpl m_done in Hres.
  rewrite Hd in Hres.
  apply bind_inv_Ok in Hres as ([] & s2' & Hres & Hret). inversion Hret; subst b s2'.
  rewrite (bind_Ok _ _ _ _ _ (update_Ok _ _ _ _ Hj1)) in Hres.
  destruct (coro_resume_orphan th self (m_coro j) _ s2 (set_children 1 (set_children 1 j)) Hres)
    as ((cl & Hcalls2 & Hcl) & j2 & Hj2 & Hpa2 & Hco2);
    [simpl; by rewrite lookup_insert_eq|done..|].
  simpl in Hco2. rewrite Hcont in Hco2. simpl in Hcalls2.
  apply bind_inv_Ok in Hrun as (old & s3 & (j2' & Hj2' & -> & ->)%fetch_sub_inv & Hrun).
  rewrite Hj2 in Hj2'. inversion Hj2'; subst j2'. clear Hj2'.
  set (s3 := set_mem _ s2) in Hrun.
  assert (calls s3 = calls s ++ cl) as Hcalls3 by done.
  case_bool_decide as Hone;
    [|inversion Hrun; subst s'; exists cl; by split].
  set (j3 := set_children (Int32.wrap (m_children j2 - 1)) j2) in *.
  assert (mem s3 !! self = Some j3) as Hj3 by (subst s3; simpl; by rewrite lookup_insert_eq).
  destruct fuel as [|fuel]; [done|].
  destruct Hco2 as [Hco2|Hco2].
  - destruct (on_finished_continuation_only fuel th self s3 j3 self j3 Hj3 Hco2 Hpa2 Hj3)
      as (s4 & Hrun4 & _ & _ & _ & Hcalls4).
    rewrite Hrun4 in Hrun. inversion Hrun; subst s4.
    exists (cl ++ [call_on_finished self; call_schedule self (-1)]). split.
    + rewrite Hcalls4, Hcalls3. by rewrite <- app_assoc.
    + intros q [?|Hin]%elem_of_app; [by apply (Hcl q)|].
      apply elem_of_cons in Hin as [?|Hin]; [done|].
      by apply list_elem_of_singleton in Hin.
  - rewrite (on_finished_leaf fuel th self s3 j3 Hj3 Hco2 Hpa2) in Hrun.
    inversion Hrun; subst.
    exists (cl ++ [call_on_finished self]). split.
    + simpl. rewrite Hcalls2. by rewrite <- app_assoc.
    + intros q [?|Hin]%elem_of_app; [by apply (Hcl q)|].
      by apply list_elem_of_singleton in Hin.
Qed.
End orphan.

(** C2, amended.  Submitting the coroutine [coro] through [schedule].
    If the submitting thread runs a job [p] ([current_job = p]), the
    counter [m_children] of [p] is incremented by one: by the increment
    of [std::atomic<int>], which is [+ 1] below [INT_MAX].  The counter
    of every job that is not the current job is unchanged; so when
    [current_job] is [nullptr] no counter changes.  The coroutine records
    the current job as its [m_coro_parent], and the submission changes
    the parent and the continuation of no job.  So with [current_job =
    nullptr] a coroutine that has not reached its final suspension point
    gets no parent and is an orphan: its execution, by any worker,
    calls [child_finished] on no job, whatever its body does (short of
    submitting the coroutine itself), and so does every later execution
    of it for as long as it records no job to notify and has not
    finished; and when its body runs to its [co_return] it finishes with
    [on_finished] on itself as the only protocol call. *)
Theorem schedule_coro_children (th : Thread) (coro : ptr) (s : State) (jc : Job) :
  mem s !! coro = Some jc →
  (∀ p, current_job th = Some p → is_Some (mem s !! p)) →
  ∃ s', schedule_coro th coro s = Ok (tt, s') ∧
    (∀ p jp, current_job th = Some p → mem s !! p = Some jp →
       ∃ jp', mem s' !! p = Some jp' ∧
              m_children jp' = Int32.wrap (m_children jp + 1) ∧
              (Int32.in_range (m_children jp) → m_children jp < Int32.max_signed →
               m_children jp' = m_children jp + 1)) ∧
    (∀ x jx, current_job th ≠ Some x → mem s !! x = Some jx →
       ∃ jx', mem s' !! x = Some jx' ∧ m_children jx' = m_children jx) ∧
    (∃ jc', mem s' !! coro = Some jc' ∧ m_coro_parent jc' = current_job th) ∧
    (∀ x jx, mem s !! x = Some jx →
       ∃ jx', mem s' !! x = Some jx' ∧ m_parent jx' = m_parent jx ∧
              m_continuation jx' = m_continuation jx) ∧
    (current_job th = None → m_done jc = false → promise_ok coro jc →
     ∀ fuel th' s'' q,
       coro ∉ segment_children th' (m_coro jc) →
       Job_call fuel th' coro s' = Ok (tt, s'') →
       call_child_finished q ∉ drop (length (calls s')) (calls s'')) ∧
    (∀ s0 j0 fuel th' s'' q,
       mem s0 !! coro = Some j0 → m_coro_parent j0 = None → m_done j0 = false →
       promise_ok coro j0 → coro ∉ segment_children th' (m_coro j0) →
       Job_call fuel th' coro s0 = Ok (tt, s'') →
       call_child_finished q ∉ drop (length (calls s0)) (calls s'')) ∧
    (current_job th = None →
     ∀ fuel th' v, m_done jc = false → runs_to_return th' (m_coro jc) = Some v →
       ∃ s'', Job_call (S fuel) th' coro s' = Ok (tt, s'') ∧
              calls s'' = calls s' ++ [call_on_finished coro]).
Proof.
  intros Hc Hcur.
  destruct (schedule_coro_Ok th coro s jc Hc Hcur)
    as (s' & Hs & _ & _ & _ & Hmem & _).
  exists s'. split; [done|]. split; [|split; [|split; [|split; [|split; [|split]]]]].
  - intros p jp Hp Hjp. destruct (Hmem p jp Hjp) as (jp' & Hjp' & Hch & _).
    rewrite decide_True in Hch by done.
    exists jp'. split; [done|]. split; [done|].
    intros Hr Hlt. rewrite Hch. by apply wrap_succ.
  - intros x jx Hx Hjx. destruct (Hmem x jx Hjx) as (jx' & Hjx' & Hch & _).
    rewrite decide_False in Hch by done. by exists jx'.
  - destruct (Hmem coro jc Hc) as (jc' & Hjc' & _ & Hcp & _).
    rewrite decide_True in Hcp by done. by exists jc'.
  - intros x jx Hjx.
    destruct (Hmem x jx Hjx) as (jx' & Hjx' & _ & _ & _ & Hpa & Hco & _).
    by exists jx'.
  - intros Hnone Hd Hok fuel th' s'' q Hself Hrun.
    destruct (Hmem coro jc Hc)
      as (jc' & Hjc' & _ & Hcp & _ & Hpa & Hcont & _ & Hv & Hco & Hdn).
    rewrite decide_True in Hcp by done. rewrite Hnone in Hcp.
    destruct (Job_call_orphan_quiet fuel th' coro s' s'' jc' Hrun Hjc') as (cl & Hcalls & Hcl).
    + congruence.
    + unfold promise_ok in *. by rewrite Hdn, Hcont, Hpa, Hv.
    + done.
    + by rewrite Hco.
    + rewrite Hcalls, drop_app_length. apply Hcl.
  - intros s0 j0 fuel th' s'' q Hj0 Hcp0 Hd0 Hok0 Hself Hrun.
    destruct (Job_call_orphan_quiet fuel th' coro s0 s'' j0 Hrun Hj0 Hd0 Hok0 Hcp0 Hself)
      as (cl & Hcalls & Hcl).
    rewrite Hcalls, drop_app_length. apply Hcl.
  - intros Hnone fuel th' v Hd Hret.
    destruct (Hmem coro jc Hc)
      as (jc' & Hjc' & _ & Hcp & _ & _ & _ & _ & _ & Hco & Hdn).
    rewrite decide_True in Hcp by done. rewrite Hnone in Hcp.
    destruct (Job_call_orphan fuel th' coro s' jc' v) as (s'' & Hrun & Hcalls & _);
      [done|congruence|done|congruence|].
    by exists s''.
Qed.

Lemma schedule_coro_children_witness :
  (∃ s' jp', schedule_coro (mkThread 0 (Some 1%nat)) 2 three_jobs = Ok (tt, s') ∧
             mem s' !! 1%nat = Some jp' ∧ m_children jp' = 2) ∧
  (∃ s' s'', schedule_coro main_thread 2 three_jobs = Ok (tt, s') ∧
             Job_call 1 (mkThread 1 (Some 2%nat)) 2 s' = Ok (tt, s'') ∧
             calls s'' = calls s' ++ [call_on_finished 2]).
Proof.
  assert (mem three_jobs !! 1%nat = Some (new_promise 1 (co_return 10))) as H1
    by (vm_compute; reflexivity).
  assert (mem three_jobs !! 2%nat = Some (new_promise 2 (co_return 20))) as H2
    by (vm_compute; reflexivity).
  split.
  - destruct (schedule_coro_children (mkThread 0 (Some 1%nat)) 2 three_jobs _ H2)
      as (s' & Hs & Hinc & _).
    { intros p Hp. inversion Hp; subst p. by eexists. }
    destruct (Hinc 1%nat _ eq_refl H1) as (jp' & Hjp' & _ & Hplus).
    exists s', jp'. split; [done|]. split; [done|].
    rewrite Hplus; [done|by vm_compute|by vm_compute].
  - destruct (schedule_coro_children main_thread 2 three_jobs _ H2)
      as (s' & Hs & _ & _ & _ & _ & _ & _ & Horphan).
    { intros p Hp. inversion Hp. }
    destruct (Horphan eq_refl 0%nat (mkThread 1 (Some 2%nat)) 20 eq_refl eq_refl)
      as (s'' & Hrun & Hcalls).
    by exists s', s''.
Defined.

(** C2, as the specification words it, does not hold for a coroutine
    that has finished.  Coroutine 1 awaits coroutine 2 and both run to
    their end, which leaves coroutine 1 as the parent of coroutine 2.
    The main thread, which runs no job, then submits coroutine 2 again:
    the execution that follows does not resume the coroutine but calls
    its [on_finished], which calls [child_finished] on coroutine 1. *)
Lemma resubmitted_orphan_notifies_parent : ¬ orphan_notifies_nobody.
Proof.
  intros Hspec.
  assert (∃ s s' s'',
            reachable s ∧ schedule_coro main_thread 2 s = Ok (tt, s') ∧
            Job_call 3 (mkThread 0 (Some 2%nat)) 2 s' = Ok (tt, s'') ∧
            drop (length (calls s')) (calls s'') =
              [call_on_finished 2; call_child_finished 1])
    as (s & s' & s'' & Hreach & Hsub & Hrun & Hcalls).
  { eexists _, _, _. split; [|split; [|split]].
    - exists 1%nat, 1%nat.
      eapply rtc_l; [by apply (step_create 2 (co_return 20)); vm_compute|].
      eapply rtc_l; [by apply (step_create 1 (co_await_coro 2 (co_return 10))); vm_compute|].
      eapply rtc_l; [by apply (step_schedule_coro main_thread 1); vm_compute|].
      eapply rtc_l; [by eapply (step_thread_task 3 0); vm_compute|].
      eapply rtc_l; [by eapply (step_thread_task 3 0); vm_compute|].
      eapply rtc_l; [by eapply (step_thread_task 3 0); vm_compute|].
      apply rtc_refl.
    - vm_compute. reflexivity.
    - vm_compute. reflexivity.
    - vm_compute. reflexivity. }
  apply (Hspec s main_thread 2%nat s' 3%nat (mkThread 0 (Some 2%nat)) s'' 1%nat
           Hreach eq_refl Hsub Hrun).
  rewrite Hcalls. apply elem_of_cons. right. apply elem_of_cons. by left.
Qed.

(** * Further properties of the code *)

(** ** The LIFO variant of [JobQueue] *)

Section lifo.
Implicit Types (s : State) (q : queue_ref) (l js : list ptr).

Lemma pop_lifo_first fuel q s p l :
  queue_holds s q (p :: l) →
  ∃ s', pop false (S fuel) q s = Ok (Some p, s') ∧
        mem s' = mem s ∧ calls s' = calls s ∧
        m_thread_count s' = m_thread_count s ∧
        (∀ q', q' ≠ q → head_of s' q' = head_of s q') ∧
        queue_holds s' q l.
Proof.
  intros (h & Hh & Hl). simpl in Hl. destruct Hl as (-> & j & Hj & Hl).
  destruct (cas_pop_head fuel q s p j Hh Hj)
    as (s' & Hcas & Hh' & Hmem & Hcalls & Hcnt & Hoth).
  exists s'. split.
  - unfold pop. rewrite (bind_Ok _ _ _ _ _ (load_head_Ok _ _ _ Hh)).
    unfold mbind at 1, M_bind. unfold mret at 1, M_ret. exact Hcas.
  - repeat split; try done. exists (m_next j). split; [done|]. by rewrite Hmem.
Qed.

Lemma pop_n_empty FIFO fuel q s k :
  queue_holds s q [] → pop_n FIFO fuel q k s = Ok (replicate k None, s).
Proof.
  intros Hq. induction k as [|k IH]; [done|]. simpl.
  rewrite (bind_Ok _ _ _ _ _ (pop_empty FIFO fuel q s Hq)).
  by rewrite (bind_Ok _ _ _ _ _ IH).
Qed.

Lemma pop_n_lifo q fuel l : ∀ s k,
  queue_holds s q l →
  ∃ s', pop_n false (S fuel) q (length l + k) s
          = Ok ((Some <$> l) ++ replicate k None, s') ∧
        mem s' = mem s ∧ queue_holds s' q [].
Proof.
  induction l as [|x l IH]; intros s k Hq.
  - exists s. split; [|done]. by apply pop_n_empty.
  - destruct (pop_lifo_first fuel q s x l Hq) as (s1 & Hpop & Hmem & _ & _ & _ & Hq1).
    destruct (IH s1 k Hq1) as (s' & Hrun & Hmem' & Hq').
    exists s'. split; [|split; [congruence|done]]. simpl.
    rewrite (bind_Ok _ _ _ _ _ Hpop). by rewrite (bind_Ok _ _ _ _ _ Hrun).
Qed.
End lifo.

Lemma JobQueue_lifo_pop_helper fuel s p l :
  queue_holds s Central (p :: l) → (0 < fuel)%nat →
  ∃ s', pop false fuel Central s = Ok (Some p, s') ∧ mem s' = mem s ∧
        queue_holds s' Central l.
Proof.
  intros Hq Hfuel. destruct fuel as [|fuel]; [lia|].
  destruct (pop_lifo_first fuel Central s p l Hq) as (s' & Hpop & Hmem & _ & _ & _ & Hq').
  by exists s'.
Qed.

(** X1.  The LIFO variant of [JobQueue], used by one thread at a time:
    [pop] takes the job at [m_head], the one pushed last, by the
    compare-and-swap; the jobs behind it stay in the queue in their
    order, and no object and no other queue changes (the FIFO variant
    writes the [m_next] of a job instead). *)
Theorem JobQueue_lifo_pop (q : queue_ref) (s : State) (fuel : nat) (p : ptr) (l : list ptr) :
  queue_holds s q (p :: l) → (0 < fuel)%nat →
  ∃ s', pop false fuel q s = Ok (Some p, s') ∧
        mem s' = mem s ∧
        queue_holds s' q l ∧
        (∀ q', q' ≠ q → head_of s' q' = head_of s q').
Proof.
  intros Hq Hfuel. destruct fuel as [|fuel]; [lia|].
  destruct (pop_lifo_first fuel q s p l Hq) as (s' & Hpop & Hmem & _ & _ & Hoth & Hq').
  by exists s'.
Qed.

Lemma JobQueue_lifo_pop_witness :
  ∃ s', pop false 1 Central (exec (push_all Central [1; 2; 3]%nat) three_jobs)
          = Ok (Some 3%nat, s') ∧
        queue_holds s' Central [2; 1]%nat.
Proof.
  destruct (JobQueue_lifo_pop Central
              (exec (push_all Central [1; 2; 3]%nat) three_jobs) 1 3%nat [2; 1]%nat)
    as (s' & Hpop & _ & Hq & _).
  - exists (Some 3%nat). vm_compute. solve_is_list.
  - lia.
  - by exists s'.
Defined.

(** X2.  Jobs pushed onto an empty queue come out of the LIFO variant in
    the reverse of the order in which they were pushed, and every [pop]
    after that returns [nullptr]. *)
Theorem JobQueue_lifo_order (q : queue_ref) (s : State) (fuel : nat)
    (js : list ptr) (k : nat) :
  queue_holds s q [] → NoDup js →
  (∀ j, j ∈ js → is_Some (mem s !! j)) →
  (0 < fuel)%nat →
  ∃ s', (push_all q js;; pop_n false fuel q (length js + k)) s
          = Ok ((Some <$> rev js) ++ replicate k None, s') ∧
        queue_holds s' q [].
Proof.
  intros Hq Hnd Hall Hfuel. destruct fuel as [|fuel]; [lia|].
  destruct (push_all_spec q js s [] Hq Hnd Hall) as (s1 & Hpush & Hq1).
  { intros j _. apply not_elem_of_nil. }
  rewrite app_nil_r in Hq1.
  destruct (pop_n_lifo q fuel (rev js) s1 k Hq1) as (s' & Hpop & _ & Hq').
  rewrite length_rev in Hpop.
  exists s'. split; [|done]. by rewrite (bind_Ok _ _ _ _ _ Hpush).
Qed.

Lemma JobQueue_lifo_order_witness :
  ∃ s', (push_all Central [1; 2; 3]%nat;; pop_n false 1 Central 4) three_jobs
          = Ok ([Some 3; Some 2; Some 1; None]%nat, s') ∧
        queue_holds s' Central [].
Proof.
  apply (JobQueue_lifo_order Central three_jobs 1 [1; 2; 3]%nat 1).
  - by exists None.
  - compute_done.
  - intros j Hj. repeat (apply elem_of_cons in Hj as [->|Hj]); [by vm_compute; eauto..|].
    by apply elem_of_nil in Hj.
  - lia.
Defined.

(** ** Pushing a job that is in the queue already *)

Section cycle.
Implicit Types (s : State) (q : queue_ref) (l : list ptr).

Lemma fifo_walk_closed fuel : ∀ s c head,
  closed_chain (mem s) c → head ∈ c → fifo_walk fuel head s = OutOfFuel.
Proof.
  induction fuel as [|fuel IH]; intros s c head Hc Hin; [done|]. simpl.
  destruct (Hc head Hin) as (j & y & Hj & Hy & Hyin).
  rewrite (bind_Ok _ _ _ _ _ (deref_Ok _ _ _ Hj)). rewrite Hy.
  destruct (Hc y Hyin) as (jy & z & Hjy & Hz & _).
  rewrite (bind_Ok _ _ _ _ _ (deref_Ok _ _ _ Hjy)). rewrite Hz.
  by apply (IH s c).
Qed.

(** The chain in front of [p], after the [m_next] of [p] was set to the
    head of the chain. *)
Lemma closed_chain_push m h l1 l2 p jp :
  is_list m h (l1 ++ p :: l2) → m !! p = Some jp →
  closed_chain (<[p := set_next h jp]> m) (l1 ++ [p]) ∧
  ∃ y, h = Some y ∧ y ∈ l1 ++ [p].
Proof.
  intros Hl Hp.
  pose proof (is_list_NoDup _ _ _ Hl) as Hnd.
  assert (∃ y, h = Some y ∧ y ∈ l1 ++ [p]) as Hhead.
  { destruct l1 as [|y l1]; simpl in Hl; destruct Hl as (-> & _);
      eexists; (split; [done|]); simpl; by left. }
  split; [|done].
  assert (∀ h' pre post, l1 = pre ++ post → is_list m h' (post ++ p :: l2) →
            ∀ x, x ∈ post → ∃ jx y, <[p := set_next h jp]> m !! x = Some jx ∧
                                    m_next jx = Some y ∧ y ∈ l1 ++ [p]) as Hpost.
  { intros h' pre post. revert h' pre.
    induction post as [|z post IH]; intros h' pre Hl1 Hl' x Hx; [by apply elem_of_nil in Hx|].
    simpl in Hl'. destruct Hl' as (-> & jz & Hjz & Hrest).
    apply elem_of_cons in Hx as [->|Hx].
    - assert (z ≠ p) as Hzp.
      { intros ->. rewrite Hl1 in Hnd. rewrite <- app_assoc in Hnd.
        apply NoDup_app in Hnd as (_ & _ & Hnd). simpl in Hnd.
        apply NoDup_cons in Hnd as [Hnin _]. apply Hnin.
        apply elem_of_app. right. by left. }
      exists jz. rewrite lookup_insert_ne by done.
      destruct post as [|w post]; simpl in Hrest; destruct Hrest as (Hw & _).
      + exists p. split; [done|]. split; [done|].
        apply elem_of_app. right. by left.
      + exists w. split; [done|]. split; [done|]. rewrite Hl1.
        rewrite !elem_of_app, !elem_of_cons. tauto.
    - apply (IH (m_next jz) (pre ++ [z])); [by rewrite <- app_assoc|done|done]. }
  intros x [Hx|Hx%list_elem_of_singleton]%elem_of_app.
  - by apply (Hpost h [] l1).
  - subst x. destruct Hhead as (y & -> & Hy).
    exists (set_next (Some y) jp), y. by rewrite lookup_insert_eq.
Qed.
End cycle.

(** X3.  A job must not be pushed onto a queue that holds it already:
    after the second [push] the chain of [m_next] pointers leads from
    [m_head] back to the job, and the walk of the FIFO variant of [pop]
    never reaches a job whose [m_next] is [nullptr]; it does not return,
    whatever the number of steps it is given. *)
Theorem push_again_never_pops (q : queue_ref) (s : State) (l1 l2 : list ptr) (p : ptr) :
  queue_holds s q (l1 ++ p :: l2) →
  ∃ s', push q p s = Ok (tt, s') ∧
        head_of s' q = Some (Some p) ∧
        closed_chain (mem s') (l1 ++ [p]) ∧
        ∀ fuel, pop true fuel q s' = OutOfFuel.
Proof.
  intros (h & Hh & Hl).
  destruct (is_list_allocated _ _ _ p Hl) as [jp Hp];
    [apply elem_of_app; right; by left|].
  destruct (push_Ok q p s h jp Hh Hp) as (s' & Hpush & Hmem & Hh' & _).
  destruct (closed_chain_push _ _ _ _ _ _ Hl Hp) as (Hclosed & y & -> & Hy).
  exists s'. split; [done|]. split; [done|]. rewrite Hmem. split; [done|].
  intros fuel. unfold pop. rewrite (bind_Ok _ _ _ _ _ (load_head_Ok _ _ _ Hh')).
  unfold mbind, M_bind.
  rewrite (fifo_walk_closed fuel s' (l1 ++ [p]) p);
    [done|by rewrite Hmem|apply elem_of_app; right; by left].
Qed.

Lemma push_again_never_pops_witness :
  ∃ s', push (Local 0) 1%nat (exec (push_all (Local 0) [1; 2]%nat) three_jobs) = Ok (tt, s') ∧
        pop true 1000 (Local 0) s' = OutOfFuel.
Proof.
  destruct (push_again_never_pops (Local 0)
              (exec (push_all (Local 0) [1; 2]%nat) three_jobs) [2%nat] [] 1%nat)
    as (s' & Hpush & _ & _ & Hloop).
  - exists (Some 2%nat). vm_compute. solve_is_list.
  - exists s'. split; [exact Hpush|apply Hloop].
Defined.

(** X4.  [push] changes the [m_next] of the job it is given and the
    head of its queue, and nothing else: every other object, and every
    other member of the job, is as before, and another queue that does
    not hold the job holds the same jobs as before. *)
Theorem push_frame (q : queue_ref) (s : State) (p : ptr) (jp : Job) (h : option ptr) :
  head_of s q = Some h → mem s !! p = Some jp →
  ∃ s', push q p s = Ok (tt, s') ∧
        mem s' !! p = Some (set_next h jp) ∧
        (∀ x, x ≠ p → mem s' !! x = mem s !! x) ∧
        (∀ q' l', q' ≠ q → queue_holds s q' l' → p ∉ l' → queue_holds s' q' l').
Proof.
  intros Hh Hp.
  destruct (push_Ok q p s h jp Hh Hp) as (s' & Hpush & Hmem & _ & Hoth & _).
  exists s'. split; [done|]. rewrite Hmem. split; [by rewrite lookup_insert_eq|].
  split; [intros x Hx; by rewrite lookup_insert_ne|].
  intros q' l' Hq' (h' & Hh' & Hl') Hnin. exists h'.
  split; [by rewrite Hoth|]. rewrite Hmem. by apply is_list_frame.
Qed.

Lemma push_frame_witness :
  ∃ s', push Central 3%nat (exec (push_all (Local 0) [1; 2]%nat) three_jobs) = Ok (tt, s') ∧
        queue_holds s' (Local 0) [2; 1]%nat.
Proof.
  destruct (push_frame Central (exec (push_all (Local 0) [1; 2]%nat) three_jobs) 3%nat
              (new_promise 3 (co_return 30)) None eq_refl)
    as (s' & Hpush & _ & _ & Hframe).
  - vm_compute. reflexivity.
  - exists s'. split; [exact Hpush|]. apply Hframe; [done| |].
    + exists (Some 2%nat). vm_compute. solve_is_list.
    + compute_done.
Defined.

(** ** What every operation keeps *)

(** A relation [R] between states that holds across a write to the call
    log, across a write to the head of an allowed queue, and across a
    write to an object that leaves a finished coroutine finished and its
    result in place, holds across every operation. *)
Section preserved.
Variable R : State → State → Prop.
Variable allowed : queue_ref → Prop.
Hypothesis R_refl : ∀ s, R s s.
Hypothesis R_trans : ∀ s1 s2 s3, R s1 s2 → R s2 s3 → R s1 s3.
Hypothesis R_log : ∀ c s, R s (add_call c s).
Hypothesis R_store : ∀ q h s u s', allowed q → store_head q h s = Ok (u, s') → R s s'.
Hypothesis R_update : ∀ p f s j,
  mem s !! p = Some j →
  (m_done j = true → m_done (f j) = true ∧ m_value (f j) = m_value j) →
  R s (set_mem (<[p := f j]> (mem s)) s).

Lemma update_kept p f s u s' :
  update p f s = Ok (u, s') →
  (∀ j, mem s !! p = Some j → m_done j = true →
        m_done (f j) = true ∧ m_value (f j) = m_value j) →
  R s s'.
Proof using R_update.
  intros (j & Hj & ->)%update_inv Hf. apply R_update; [done|]. by apply Hf.
Qed.

Lemma fetch_add_kept p n s old s' : fetch_add p n s = Ok (old, s') → R s s'.
Proof using R_update.
  unfold fetch_add. intros (j & s1 & (-> & Hj)%deref_inv & H)%bind_inv_Ok.
  apply bind_inv_Ok in H as (u & s2 & Hu & H). inversion H; subst.
  eapply update_kept; [done|]. by intros j0 _ Hd.
Qed.

Lemma fetch_sub_kept p n s old s' : fetch_sub p n s = Ok (old, s') → R s s'.
Proof using R_update.
  intros (j & Hj & _ & ->)%fetch_sub_inv. apply R_update; [done|]. by intros Hd.
Qed.

Lemma push_kept q job s u s' : allowed q → push q job s = Ok (u, s') → R s s'.
Proof using R_trans R_store R_update.
  intros Hq. unfold push. intros (h & s1 & ->%load_head_inv & H)%bind_inv_Ok.
  apply bind_inv_Ok in H as (u1 & s2 & Hu & Hst).
  eapply R_trans; [|by eapply R_store]. eapply update_kept; [done|]. by intros j0 _ Hd.
Qed.

Lemma fifo_walk_kept fuel : ∀ head s r s', fifo_walk fuel head s = Ok (r, s') → R s s'.
Proof using R_refl R_update.
  induction fuel as [|fuel IH]; intros head s r s'; [done|]. simpl.
  intros (j & s1 & (-> & Hj)%deref_inv & H)%bind_inv_Ok.
  destruct (m_next j) as [nxt|]; [|by inversion H; subst].
  apply bind_inv_Ok in H as (jn & s2 & (-> & Hjn)%deref_inv & H).
  destruct (m_next jn); [by eapply IH|].
  apply bind_inv_Ok in H as (u & s3 & Hu & H). inversion H; subst.
  eapply update_kept; [done|]. by intros j0 _ Hd.
Qed.

Lemma cas_pop_kept fuel q : ∀ head s r s',
  allowed q → cas_pop fuel q head s = Ok (r, s') → R s s'.
Proof using R_refl R_store.
  induction fuel as [|fuel IH]; intros [h|] s r s' Hq; simpl;
    try done; try (intros H; by inversion H; subst).
  intros (j & s1 & (-> & Hj)%deref_inv & H)%bind_inv_Ok.
  apply bind_inv_Ok in H as (cur & s2 & ->%load_head_inv & H).
  case_decide; [|by eapply IH].
  apply bind_inv_Ok in H as (u & s3 & Hst & H). inversion H; subst.
  by eapply R_store.
Qed.

Lemma pop_kept FIFO fuel q s r s' :
  allowed q → pop FIFO fuel q s = Ok (r, s') → R s s'.
Proof using R_refl R_trans R_store R_update.
  intros Hq. unfold pop. intros (h & s1 & ->%load_head_inv & H)%bind_inv_Ok.
  destruct h as [head|]; [|by inversion H; subst].
  apply bind_inv_Ok in H as (w & s2 & Hw & H).
  assert (R s s2) as H2.
  { destruct FIFO; [by eapply fifo_walk_kept|by inversion Hw; subst]. }
  destruct w; [by inversion H; subst|].
  eapply R_trans; [done|]. by eapply cas_pop_kept.
Qed.

Lemma schedule_kept th job thd s u s' :
  allowed Central → allowed (Local (Z.to_nat (thread_index th))) →
  schedule th job thd s = Ok (u, s') → R s s'.
Proof using R_trans R_log R_store R_update.
  intros Hc Hl. unfold schedule, log, modify, gets.
  unfold mbind at 1, M_bind. unfold mbind at 1, M_bind.
  destruct (_ && _); intros H; (eapply R_trans; [apply R_log|]);
    (eapply push_kept; [|exact H]); done.
Qed.

Lemma schedule_default_kept th job s u s' :
  allowed Central → schedule th job (-1) s = Ok (u, s') → R s s'.
Proof using R_trans R_log R_store R_update.
  intros Hc. unfold schedule, log, modify, gets.
  unfold mbind at 1, M_bind. unfold mbind at 1, M_bind.
  rewrite bool_decide_eq_false_2 by lia. cbn [andb].
  intros H. eapply R_trans; [apply R_log|]. eapply push_kept; [|exact H]. done.
Qed.

Lemma schedule_coro_kept th coro s u s' :
  allowed Central → schedule_coro th coro s = Ok (u, s') → R s s'.
Proof using R_refl R_trans R_log R_store R_update.
  intros Hc. unfold schedule_coro. intros (u1 & s1 & H1 & H)%bind_inv_Ok.
  apply bind_inv_Ok in H as (u2 & s2 & H2 & H3).
  assert (R s s1) as Hs1.
  { destruct (current_job th) as [p|]; [|by inversion H1; subst].
    apply bind_inv_Ok in H1 as (o & s3 & Hadd & H1). inversion H1; subst.
    by eapply fetch_add_kept. }
  eapply R_trans; [done|]. eapply R_trans; [|by eapply schedule_default_kept].
  eapply update_kept; [done|]. by intros j0 _ Hd.
Qed.

Lemma schedule_coros_kept th cs : ∀ s u s',
  allowed Central → schedule_coros th cs s = Ok (u, s') → R s s'.
Proof using R_refl R_trans R_log R_store R_update.
  induction cs as [|c cs IH]; intros s u s' Hc Hrun; simpl in Hrun.
  - by inversion Hrun; subst.
  - apply bind_inv_Ok in Hrun as (u1 & s1 & H1 & Hrun).
    eapply R_trans; [by eapply schedule_coro_kept|by eapply IH].
Qed.

Lemma awaitable_tuple_await_suspend_kept th css : ∀ s u s',
  allowed Central → awaitable_tuple_await_suspend th css s = Ok (u, s') → R s s'.
Proof using R_refl R_trans R_log R_store R_update.
  induction css as [|cs css IH]; intros s u s' Hc Hrun; simpl in Hrun.
  - by inversion Hrun; subst.
  - apply bind_inv_Ok in Hrun as (u1 & s1 & H1 & Hrun).
    eapply R_trans; [by eapply schedule_coros_kept|by eapply IH].
Qed.

Lemma coro_resume_kept th self body : ∀ s s' j,
  allowed Central →
  coro_resume th self body s = Ok (tt, s') →
  mem s !! self = Some j → m_done j = false → R s s'.
Proof using R_refl R_trans R_log R_store R_update.
  assert (∀ s s' j rest u,
            suspend self rest false s = Ok (u, s') → mem s !! self = Some j →
            m_done j = false → R s s') as Hsusp.
  { intros s s' j rest u Hu Hj Hd. unfold suspend in Hu. eapply update_kept; [done|].
    intros j0 Hj0 Hd0. rewrite Hj in Hj0. inversion Hj0; subst j0. congruence. }
  induction body as [v|child rest IH|k rest IH|child rest IH|children rest IH|children rest IH];
    intros s s' j Hc Hrun Hj Hd;
    [| | |simpl in Hrun; apply bind_inv_Ok in Hrun as (u & s1 & Hu & Hs);
          destruct (schedule_coro_frame _ _ _ _ _ self j Hu Hj) as (j1 & Hj1 & Hd1 & _);
          eapply R_trans; [by eapply schedule_coro_kept|];
          eapply (IH s1 s' j1); [done|done|done|congruence]
     |simpl in Hrun; destruct (awaitable_coro_vector_await_ready children);
          [by eapply IH|];
          apply bind_inv_Ok in Hrun as (u & s1 & Hu & Hs);
          eapply R_trans; [by eapply Hsusp|by eapply schedule_coros_kept]
     |simpl in Hrun; destruct (awaitable_tuple_await_ready _);
          [by eapply IH|];
          apply bind_inv_Ok in Hrun as (u & s1 & Hu & Hs);
          eapply R_trans; [by eapply Hsusp|by eapply awaitable_tuple_await_suspend_kept]].
  - simpl in Hrun. unfold return_value, suspend, final_awaiter_await_suspend in Hrun.
    apply bind_inv_Ok in Hrun as (u1 & s1 & Hu1 & Hrun).
    pose proof Hu1 as (j0 & Hj0 & ->)%update_inv.
    rewrite Hj in Hj0. inversion Hj0; subst j0.
    apply bind_inv_Ok in Hrun as (u2 & s2 & Hu2 & Hrun).
    apply bind_inv_Ok in Hrun as (j3 & s3 & (-> & Hj3)%deref_inv & Hrun).
    apply bind_inv_Ok in Hrun as (u4 & s4 & Hu4 & Hu5).
    eapply R_trans; [eapply update_kept; [exact Hu1|]|].
    { intros j1 Hj1 Hd1. rewrite Hj in Hj1. inversion Hj1; subst j1. congruence. }
    eapply R_trans; [eapply update_kept; [exact Hu2|]|].
    { intros j1 Hj1 Hd1. simpl in Hj1. rewrite lookup_insert_eq in Hj1.
      inversion Hj1; subst j1. simpl in Hd1. congruence. }
    eapply R_trans; (eapply update_kept; [done|]); by intros j0 _ Hd0.
  - simpl in Hrun. unfold suspend, awaitable_coro_await_suspend in Hrun.
    apply bind_inv_Ok in Hrun as (u & s1 & Hu & Hs).
    eapply R_trans; [|by eapply schedule_coro_kept].
    eapply update_kept; [done|].
    intros j0 Hj0 Hd0. rewrite Hj in Hj0. inversion Hj0; subst j0. congruence.
  - simpl in Hrun. destruct (awaitable_resume_on_await_ready th k); [by eapply IH|].
    unfold suspend, awaitable_resume_on_await_suspend in Hrun.
    apply bind_inv_Ok in Hrun as (u & s1 & Hu & Hs).
    eapply R_trans; [|eapply update_kept; [done|by intros j0 _ Hd0]].
    eapply update_kept; [done|].
    intros j0 Hj0 Hd0. rewrite Hj in Hj0. inversion Hj0; subst j0. congruence.
Qed.

Lemma Coro_promise_resume_kept th self s b s' :
  allowed Central → Coro_promise_resume th self s = Ok (b, s') → R s s'.
Proof using R_refl R_trans R_log R_store R_update.
  intros Hc. unfold Coro_promise_resume.
  intros (j & s1 & (-> & Hj)%deref_inv & H)%bind_inv_Ok.
  apply bind_inv_Ok in H as ([] & s2 & H & Hret). inversion Hret; subst s2.
  destruct (m_done j) eqn:Hd; [by inversion H; subst|].
  apply bind_inv_Ok in H as (u & s3 & Hu & H).
  pose proof Hu as (j0 & Hj0 & ->)%update_inv.
  rewrite Hj in Hj0. inversion Hj0; subst j0.
  eapply R_trans; [eapply update_kept; [exact Hu|by intros j0 _ Hd0]|].
  eapply (coro_resume_kept _ _ _ _ _ (set_children 1 j)); [done|done| |done].
  simpl. by rewrite lookup_insert_eq.
Qed.

Lemma protocol_kept fuel :
  allowed Central →
  (∀ th self s s', on_finished fuel th self s = Ok (tt, s') → R s s') ∧
  (∀ th self s s', child_finished fuel th self s = Ok (tt, s') → R s s').
Proof using R_refl R_trans R_log R_store R_update.
  intros Hc. induction fuel as [|fuel [IHo IHc]]; [by split|]. split.
  - intros th self s s'. simpl. unfold log, modify.
    unfold mbind at 1, M_bind.
    set (s0 := add_call (call_on_finished self) s).
    intros (j & s1 & (-> & Hj)%deref_inv & H)%bind_inv_Ok.
    assert (R s s0) as H0 by apply R_log.
    apply bind_inv_Ok in H as (u & s2 & Hmid & H).
    assert (R s0 s2) as H2.
    { destruct (m_continuation j) as [c|] eqn:Hcont; [|by inversion Hmid; subst].
      apply bind_inv_Ok in Hmid as (u1 & s3 & Hpar & Hsch).
      eapply R_trans; [|by eapply schedule_default_kept].
      destruct (m_parent j) as [p|] eqn:Hp; [|by inversion Hpar; subst].
      apply bind_inv_Ok in Hpar as (o & s4 & Hadd & Hupd).
      eapply R_trans; [by eapply fetch_add_kept|].
      eapply update_kept; [done|by intros j0 _ Hd0]. }
    apply bind_inv_Ok in H as (j' & s2' & (-> & Hj')%deref_inv & H).
    eapply R_trans; [done|]. eapply R_trans; [done|].
    destruct (m_parent j') as [p|]; [by eapply IHc|by inversion H; subst].
  - intros th p s s'. simpl. unfold log, modify.
    unfold mbind at 1, M_bind.
    intros (old & s1 & Hsub & H)%bind_inv_Ok.
    eapply R_trans; [apply R_log|]. eapply R_trans; [by eapply fetch_sub_kept|].
    case_bool_decide; [by eapply IHo|by inversion H; subst].
Qed.

Lemma Job_call_kept fuel th self s s' :
  allowed Central → Job_call fuel th self s = Ok (tt, s') → R s s'.
Proof using R_refl R_trans R_log R_store R_update.
  intros Hc. unfold Job_call. intros (u & s1 & Hu & H)%bind_inv_Ok.
  apply bind_inv_Ok in H as (b & s2 & Hres & H).
  apply bind_inv_Ok in H as (old & s3 & Hsub & H).
  eapply R_trans; [eapply update_kept; [exact Hu|by intros j0 _ Hd0]|].
  eapply R_trans; [by eapply Coro_promise_resume_kept|].
  eapply R_trans; [by eapply fetch_sub_kept|].
  case_bool_decide; [|by inversion H; subst].
  destruct (protocol_kept fuel Hc) as [Ho _]. by eapply Ho.
Qed.

Lemma Coro_resume_kept th h s b s' :
  allowed Central → Coro_resume th h s = Ok (b, s') → R s s'.
Proof using R_refl R_trans R_log R_store R_update.
  intros Hc. destruct h as [p|]; simpl; [|by intros H; inversion H; subst].
  intros (j & s1 & (-> & Hj)%deref_inv & H)%bind_inv_Ok.
  apply bind_inv_Ok in H as ([] & s2 & H & Hret). inversion Hret; subst s2.
  destruct (m_done j); [by inversion H; subst|].
  apply bind_inv_Ok in H as (b' & s3 & Hres & H). inversion H; subst.
  by eapply Coro_promise_resume_kept.
Qed.

Lemma thread_task_turn_kept fuel idx s r s' :
  allowed Central → allowed (Local (Z.to_nat idx)) →
  thread_task_turn fuel idx s = Ok (r, s') → R s s'.
Proof using R_refl R_trans R_log R_store R_update.
  intros Hc Hl. unfold thread_task_turn. intros (l & s1 & Hloc & H)%bind_inv_Ok.
  apply bind_inv_Ok in H as (job & s2 & Hjob & H).
  assert (R s s2) as H2.
  { eapply R_trans; [eapply pop_kept; [|exact Hloc]; done|].
    destruct l; [by inversion Hjob; subst|].
    eapply pop_kept; [|exact Hjob]. done. }
  destruct job as [j|]; [|by inversion H; subst].
  apply bind_inv_Ok in H as ([] & s3 & Hcall & H). inversion H; subst.
  eapply R_trans; [done|]. by eapply Job_call_kept.
Qed.

(** A turn of a worker whose local queue is empty writes no local
    queue. *)
Lemma thread_task_turn_kept_central fuel idx s r s' :
  allowed Central →
  (∀ i h, m_local_queues s !! i = Some h → h = None) →
  thread_task_turn fuel idx s = Ok (r, s') → R s s'.
Proof using R_refl R_trans R_log R_store R_update.
  intros Hc Hempty. unfold thread_task_turn. intros (l & s1 & Hloc & H)%bind_inv_Ok.
  apply (pop_local_empty _ _ _ _ _ Hempty) in Hloc as [-> ->].
  apply bind_inv_Ok in H as (job & s2 & Hjob & H).
  assert (R s s2) as H2 by (eapply pop_kept; [|exact Hjob]; done).
  destruct job as [j|]; [|by inversion H; subst].
  apply bind_inv_Ok in H as ([] & s3 & Hcall & H). inversion H; subst.
  eapply R_trans; [done|]. by eapply Job_call_kept.
Qed.

Hypothesis R_alloc : ∀ p j s,
  mem s !! p = None → R s (set_mem (<[p := j]> (mem s)) s).

Lemma step_kept s s' :
  (∀ q, allowed q) → step s s' → R s s' ∨ ∃ p, freed p s s'.
Proof using All.
  intros Hall Hstep. destruct Hstep as
    [p body s s' H|coro k s s' H|th coro s s' H|th job thd s s' H|th self b s s' H
    |fuel th self s s' H|fuel th self s s' H|fuel th self s s' H|q job s s' H
    |FIFO fuel q r s s' H|fuel idx r s s' H|self b s s' H|th h s s' H];
    [left..|right|].
  - unfold Coro_promise_new in H. destruct (mem s !! p) eqn:Hp; [done|].
    inversion H; subst. by apply R_alloc.
  - eapply update_kept; [exact H|by intros j0 _ Hd0].
  - by eapply schedule_coro_kept.
  - by eapply schedule_kept.
  - by eapply Coro_promise_resume_kept.
  - by eapply Job_call_kept.
  - destruct (protocol_kept fuel (Hall Central)) as [Ho _]. by eapply Ho.
  - destruct (protocol_kept fuel (Hall Central)) as [_ Hc]. by eapply Hc.
  - by eapply push_kept.
  - by eapply pop_kept.
  - by eapply thread_task_turn_kept.
  - exists self. by apply Coro_promise_deallocate_inv in H.
  - apply Coro_destructor_inv in H as [->|(p & _ & Hp & ->)]; [by left|].
    right. by exists p.
Qed.
End preserved.

(** ** The shape of the job system *)

Lemma store_head_shape q h s u s' : store_head q h s = Ok (u, s') → same_shape s s'.
Proof.
  destruct q as [|i]; simpl; [intros H; by inversion H; subst|].
  destruct (m_local_queues s !! i); [|done]. intros H. inversion H; subst.
  split; [done|]. simpl. by rewrite length_insert.
Qed.

Lemma step_same_shape s s' : step s s' → same_shape s s'.
Proof.
  intros Hstep.
  destruct (step_kept same_shape (λ _, True)) with (s := s) (s' := s')
    as [H|(p & _ & ->)]; try done.
  - intros s1 s2 s3 [H1 H2] [H3 H4]. split; congruence.
  - intros q h s0 u s0' _. apply store_head_shape.
Qed.

Lemma rtc_step_same_shape s s' : rtc step s s' → same_shape s s'.
Proof.
  intros Hrtc. eapply (rtc_ind_r (λ s', same_shape s s')); [| |exact Hrtc].
  - done.
  - intros s1 s2 _ Hstep [H1 H2]. destruct (step_same_shape _ _ Hstep) as [H3 H4].
    split; congruence.
Qed.

Lemma three_jobs_steps : rtc step (JobSystem_new 2 2) three_jobs.
Proof.
  eapply rtc_l; [by apply (step_create 1 (co_return 10))|].
  eapply rtc_l; [by apply (step_create 2 (co_return 20))|].
  eapply rtc_l; [by apply (step_create 3 (co_return 30))|].
  apply rtc_refl.
Qed.

Lemma pop_no_queue FIFO fuel i s :
  m_local_queues s !! i = None → pop FIFO fuel (Local i) s = UB.
Proof. intros Hi. unfold pop. unfold mbind, M_bind. simpl. by rewrite Hi. Qed.

(** X5.  The number of workers and the vector of local queues are fixed
    by the constructor of [JobSystem] ([threadCount], or
    [hardware_concurrency()] when [threadCount] is 0) and no operation
    changes them: in every state the job system reaches there is one
    local queue for each index below [m_thread_count] and none above, so
    a turn of [thread_task] with a larger index reads
    [m_local_queues] out of range. *)
Theorem local_queues_fixed (threadCount hardware_concurrency : nat) (s : State) :
  rtc step (JobSystem_new threadCount hardware_concurrency) s →
  let n := match threadCount with O => hardware_concurrency | _ => threadCount end in
  m_thread_count s = Z.of_nat n ∧
  length (m_local_queues s) = n ∧
  (∀ idx, 0 <= idx < Z.of_nat n → is_Some (head_of s (Local (Z.to_nat idx)))) ∧
  (∀ fuel idx, Z.of_nat n <= idx → thread_task_turn fuel idx s = UB).
Proof.
  intros Hrtc n. destruct (rtc_step_same_shape _ _ Hrtc) as [Hcnt Hlen].
  assert (length (m_local_queues s) = n) as Hn.
  { rewrite Hlen. unfold JobSystem_new. simpl. by rewrite length_replicate. }
  split; [by rewrite Hcnt|]. split; [done|]. split.
  - intros idx Hidx. simpl. apply lookup_lt_is_Some. lia.
  - intros fuel idx Hidx. unfold thread_task_turn.
    unfold mbind at 1, M_bind. rewrite pop_no_queue; [done|].
    apply lookup_ge_None_2. lia.
Qed.

Lemma local_queues_fixed_witness :
  length (m_local_queues three_jobs) = 2%nat ∧ thread_task_turn 5 2 three_jobs = UB.
Proof.
  destruct (local_queues_fixed 2 2 three_jobs three_jobs_steps) as (_ & Hlen & _ & Hub).
  split; [exact Hlen|]. apply Hub. simpl. lia.
Defined.

(** ** The result of a finished coroutine *)

Lemma step_results_kept s s' : step s s' → results_kept s s' ∨ ∃ p, freed p s s'.
Proof.
  apply (step_kept results_kept (λ _, True)); try done.
  - intros s0 p j Hj. by exists j.
  - intros s1 s2 s3 H12 H23 p j Hj.
    destruct (H12 p j Hj) as (j2 & Hj2 & Hd2).
    destruct (H23 p j2 Hj2) as (j3 & Hj3 & Hd3).
    exists j3. split; [done|]. intros Hd. destruct (Hd2 Hd) as [Hd2' Hv2].
    destruct (Hd3 Hd2') as [Hd3' Hv3]. split; [done|congruence].
  - intros c s0 p j Hj. by exists j.
  - intros q h s0 u s0' _ Hst%store_head_mem p j Hj. rewrite Hst. by exists j.
  - intros p f s0 j Hj Hf x jx Hx. simpl. rewrite lookup_insert.
    case_decide as Hpx; [|by exists jx]. subst x. rewrite Hj in Hx.
    inversion Hx; subst jx. by exists (f j).
  - intros p j s0 Hp x jx Hx. simpl. rewrite lookup_insert.
    case_decide as Hpx; [congruence|by exists jx].
Qed.

Lemma step_sparing_result p s s' j :
  step_sparing p s s' → mem s !! p = Some j → m_done j = true →
  ∃ j', mem s' !! p = Some j' ∧ m_done j' = true ∧ m_value j' = m_value j.
Proof.
  intros [Hstep Hkeep] Hj Hd.
  destruct (step_results_kept _ _ Hstep) as [Hres|(x & Hx & ->)].
  - destruct (Hres p j Hj) as (j' & Hj' & Hkept). exists j'. split; [done|]. by apply Hkept.
  - destruct Hkeep as [j' Hj']; [by eexists|]. simpl in Hj'.
    apply lookup_delete_Some in Hj' as [Hne Hj']. rewrite Hj in Hj'. inversion Hj'; subst j'.
    exists j. split; [|done]. simpl. by rewrite lookup_delete_ne.
Qed.

(** X6.  Only the destruction of its frame ([Coro_promise::deallocate],
    [~Coro]) removes a job object, and it removes that object alone.  As
    long as the frame of a coroutine that has reached its final
    suspension point is not destroyed, no operation changes its result:
    whatever runs afterwards, on any thread, the promise stays finished,
    [get] keeps returning the value that was returned, and [resume] does
    nothing. *)
Theorem result_is_final (s s' : State) (p : ptr) (j : Job) :
  (∀ s1 s2 x, step s1 s2 → is_Some (mem s1 !! x) → mem s2 !! x = None → freed x s1 s2) ∧
  (rtc (step_sparing p) s s' → mem s !! p = Some j → m_done j = true →
   (∃ j', mem s' !! p = Some j' ∧ m_done j' = true ∧ m_value j' = m_value j) ∧
   Coro_get p s' = Ok (m_value j, s') ∧
   (∀ th, Coro_promise_resume th p s' = Ok (true, s'))).
Proof.
  split.
  - intros s1 s2 x Hstep [jx Hx] Hgone.
    destruct (step_results_kept _ _ Hstep) as [Hres|(y & Hy & ->)].
    + destruct (Hres x jx Hx) as (j' & Hj' & _). congruence.
    + simpl in Hgone. destruct (decide (y = x)) as [->|Hne]; [done|].
      rewrite lookup_delete_ne in Hgone by done. congruence.
  - intros Hrtc Hj Hd.
    assert (∃ j', mem s' !! p = Some j' ∧ m_done j' = true ∧ m_value j' = m_value j)
      as (j' & Hj' & Hd' & Hv).
    { revert j Hj Hd. induction Hrtc as [s|s1 s2 s3 Hstep Hrtc IH]; intros j Hj Hd.
      - by exists j.
      - destruct (step_sparing_result _ _ _ _ Hstep Hj Hd) as (j2 & Hj2 & Hd2 & Hv2).
        destruct (IH j2 Hj2 Hd2) as (j3 & Hj3 & Hd3 & Hv3).
        exists j3. split; [done|]. split; [done|congruence]. }
    split; [by exists j'|]. split.
    + rewrite (Coro_get_Ok _ _ _ Hj'). by rewrite Hv.
    + intros th. by apply (Coro_promise_resume_done th p s' j').
Qed.

Lemma result_is_final_witness :
  let s := exec (Job_call 1 (mkThread 0 (Some 1%nat)) 1) one_created in
  let s' := exec (schedule_coro main_thread 1;; thread_task_turn 3 0) s in
  Coro_get 1 s' = Ok (10, s').
Proof.
  intros s s'.
  assert (rtc (step_sparing 1) s s') as Hrtc.
  { eapply rtc_l;
      [split; [by apply (step_schedule_coro main_thread 1); vm_compute|by vm_compute]|].
    eapply rtc_l;
      [split; [by eapply (step_thread_task 3 0); vm_compute|by vm_compute]|].
    vm_compute. apply rtc_refl. }
  destruct (result_is_final s s' 1%nat
              (mkJob None 0 None None (-1) None 10 (co_return 10) true))
    as (_ & Hfinal).
  destruct (Hfinal Hrtc) as (_ & Hget & _); [by vm_compute|done|]. exact Hget.
Defined.

Lemma pop_lifo_inv fuel s r s' :
  pop false fuel Central s = Ok (Some r, s') → m_central_queue s = Some r.
Proof.
  unfold pop. intros (h & s1 & Hh & Hpop)%bind_inv_Ok.
  simpl in Hh. inversion Hh; subst h s1.
  destruct (m_central_queue s) as [head|] eqn:Hc; [|by inversion Hpop].
  apply bind_inv_Ok in Hpop as (w & s2 & Hw & Hpop). inversion Hw; subst w s2.
  destruct fuel as [|fuel]; [done|]. simpl in Hpop.
  apply bind_inv_Ok in Hpop as (jh & s3 & (-> & Hjh)%deref_inv & Hpop).
  apply bind_inv_Ok in Hpop as (cur & s4 & Hcur & Hpop).
  simpl in Hcur. inversion Hcur; subst cur s4. rewrite Hc in Hpop.
  rewrite decide_True in Hpop by done.
  apply bind_inv_Ok in Hpop as (u & s5 & _ & Hret). by inversion Hret.
Qed.


(** ** A turn of a worker *)

Section turn_order.
Implicit Types (s : State) (l : list ptr).

Lemma pop_fifo_last_frame fuel q s l x :
  queue_holds s q (l ++ [x]) → (length l < fuel)%nat →
  ∃ s', pop true fuel q s = Ok (Some x, s') ∧ queue_holds s' q l ∧
        (∀ q', q' ≠ q → head_of s' q' = head_of s q') ∧
        calls s' = calls s ∧
        (∀ y, y ∉ l → mem s' !! y = mem s !! y).
Proof.
  intros Hq Hfuel.
  destruct (decide (l = [])) as [->|Hne].
  - destruct fuel as [|fuel]; [lia|].
    destruct Hq as (h & Hh & Hl). simpl in Hl. destruct Hl as (-> & j & Hj & Hn).
    assert (queue_holds s q [x]) as Hq by (exists (Some x); split; [done|]; simpl; eauto).
    destruct (cas_pop_head fuel q s x j Hh Hj)
      as (s' & Hcas & Hh' & Hmem & Hcalls & _ & Hoth).
    exists s'. split; [|split; [|split; [done|split; [done|]]]].
    + unfold pop. rewrite (bind_Ok _ _ _ _ _ (load_head_Ok _ _ _ Hh)).
      by rewrite (bind_Ok _ _ _ _ _ (fifo_walk_single fuel x s j Hj Hn)).
    + exists None. by rewrite Hh', Hn.
    + intros y _. by rewrite Hmem.
  - destruct (exists_last Hne) as (pre & pred & ->).
    rewrite <- app_assoc in Hq. simpl in Hq.
    destruct (pop_fifo_many fuel q s pre pred x Hq) as (jp & Hjp & _ & Hpop & Hq').
    { rewrite length_app in Hfuel. simpl in Hfuel. lia. }
    eexists. split; [exact Hpop|]. split; [done|]. split; [by destruct q'|].
    split; [done|]. intros y Hy. simpl. rewrite lookup_insert_ne; [done|].
    intros <-. apply Hy. apply elem_of_app. right. by left.
Qed.
End turn_order.

(** X8.  Which job a worker takes.  If its local queue holds jobs, the
    worker takes the one that was pushed first and executes it with
    [m_current_job] pointing to it; the central queue is not touched
    before the job runs.  If its local queue is empty, it takes the job
    that was pushed last onto the central queue. *)
Theorem thread_task_takes_local_first (fuel : nat) (idx : Z) (s : State) :
  (∀ l j,
     queue_holds s (Local (Z.to_nat idx)) (l ++ [j]) → (length l < fuel)%nat →
     ∃ s1, pop true fuel (Local (Z.to_nat idx)) s = Ok (Some j, s1) ∧
           queue_holds s1 (Local (Z.to_nat idx)) l ∧
           m_central_queue s1 = m_central_queue s ∧
           thread_task_turn fuel idx s =
             (Job_call fuel (mkThread idx (Some j)) j;; mret (Some j)) s1) ∧
  (∀ l j,
     queue_holds s (Local (Z.to_nat idx)) [] → queue_holds s Central (j :: l) →
     (0 < fuel)%nat →
     ∃ s1, pop false fuel Central s = Ok (Some j, s1) ∧
           queue_holds s1 Central l ∧ mem s1 = mem s ∧
           thread_task_turn fuel idx s =
             (Job_call fuel (mkThread idx (Some j)) j;; mret (Some j)) s1).
Proof.
  split.
  - intros l j Hq Hfuel.
    destruct (pop_fifo_last_frame fuel _ s l j Hq Hfuel) as (s1 & Hpop & Hq1 & Hoth & _).
    exists s1. split; [done|]. split; [done|]. split.
    + specialize (Hoth Central). simpl in Hoth. by injection (Hoth ltac:(done)).
    + unfold thread_task_turn. rewrite (bind_Ok _ _ _ _ _ Hpop).
      unfold mbind at 1, M_bind. unfold mret at 1, M_ret. done.
  - intros l j Hloc Hq Hfuel.
    destruct (JobQueue_lifo_pop_helper fuel s j l Hq Hfuel) as (s1 & Hpop & Hmem & Hq1).
    exists s1. split; [done|]. split; [done|]. split; [done|].
    unfold thread_task_turn.
    rewrite (bind_Ok _ _ _ _ _ (pop_empty true fuel _ s Hloc)).
    by rewrite (bind_Ok _ _ _ _ _ Hpop).
Qed.

Lemma thread_task_takes_local_first_witness :
  let s := exec (push_all (Local 0) [1; 2]%nat;; push Central 3%nat) three_jobs in
  ∃ s1, pop true 2 (Local 0) s = Ok (Some 1%nat, s1) ∧
        m_central_queue s1 = Some 3%nat ∧
        thread_task_turn 2 0 s = (Job_call 2 (mkThread 0 (Some 1%nat)) 1;; mret (Some 1%nat)) s1.
Proof.
  intros s.
  destruct (thread_task_takes_local_first 2 0 s) as [Hlocal _].
  destruct (Hlocal [2%nat] 1%nat) as (s1 & Hpop & _ & Hc & Hturn).
  - exists (Some 2%nat). vm_compute. solve_is_list.
  - simpl. lia.
  - exists s1. split; [exact Hpop|]. split; [by rewrite Hc|exact Hturn].
Defined.

(** ** The idle loop of a worker *)

Section idle.
Implicit Types (s : State).

Lemma thread_task_turn_idle fuel idx s :
  queue_holds s (Local (Z.to_nat idx)) [] → m_central_queue s = None →
  thread_task_turn fuel idx s = Ok (None, s).
Proof.
  intros Hloc Hc. unfold thread_task_turn.
  rewrite (bind_Ok _ _ _ _ _ (pop_empty true fuel _ s Hloc)).
  by rewrite (bind_Ok _ _ _ _ _ (pop_lifo_empty fuel s Hc)).
Qed.

Lemma thread_task_pass_idle fuel idx noop s :
  queue_holds s (Local (Z.to_nat idx)) [] → m_central_queue s = None →
  thread_task_pass fuel idx noop s =
    Ok (if bool_decide (UInt32.wrap (noop - 1) = 0) && bool_decide (0 < idx)
        then (NOOP, true) else (UInt32.wrap (noop - 1), false), s).
Proof.
  intros Hloc Hc. unfold thread_task_pass.
  rewrite (bind_Ok _ _ _ _ _ (thread_task_turn_idle fuel idx s Hloc Hc)).
  by destruct (_ && _).
Qed.

Lemma thread_task_passes_worker fuel idx s n : ∀ noop,
  queue_holds s (Local (Z.to_nat idx)) [] → m_central_queue s = None →
  0 < idx → 1 <= noop <= NOOP →
  thread_task_passes fuel idx noop n s =
    Ok ((NOOP - (NOOP - noop + Z.of_nat n) mod NOOP,
         Z.to_nat ((NOOP - noop + Z.of_nat n) / NOOP)), s).
Proof.
  unfold NOOP. induction n as [|n IH]; intros noop Hloc Hc Hidx Hnoop.
  - simpl. unfold mret, M_ret. do 2 f_equal. f_equal.
    + rewrite Z.add_0_r, Z.mod_small by lia. lia.
    + rewrite Z.add_0_r, Z.div_small by lia. done.
  - cbn [thread_task_passes].
    rewrite (bind_Ok _ _ _ _ _ (thread_task_pass_idle fuel idx noop s Hloc Hc)).
    rewrite (bool_decide_eq_true_2 (0 < idx)) by done. rewrite andb_true_r.
    unfold UInt32.wrap, NOOP. rewrite (Z.mod_small (noop - 1)) by lia.
    case_bool_decide as Hone.
    + rewrite (bind_Ok _ _ _ _ _ (IH 20 Hloc Hc Hidx ltac:(lia))).
      unfold mret, M_ret. do 2 f_equal. f_equal.
      * replace (20 - noop + Z.of_nat (S n)) with (Z.of_nat n + 1 * 20) by lia.
        rewrite Z.mod_add by lia. replace (20 - 20 + Z.of_nat n) with (Z.of_nat n) by lia.
        done.
      * replace (20 - noop + Z.of_nat (S n)) with (Z.of_nat n + 1 * 20) by lia.
        rewrite Z.div_add by lia. replace (20 - 20 + Z.of_nat n) with (Z.of_nat n) by lia.
        rewrite Z2Nat.inj_add; [|apply Z.div_pos; lia|lia]. simpl. lia.
    + rewrite (bind_Ok _ _ _ _ _ (IH (noop - 1) Hloc Hc Hidx ltac:(lia))).
      unfold mret, M_ret. do 2 f_equal.
      replace (20 - (noop - 1) + Z.of_nat n) with (20 - noop + Z.of_nat (S n)) by lia.
      done.
Qed.

Lemma thread_task_passes_main fuel s n : ∀ noop,
  queue_holds s (Local 0) [] → m_central_queue s = None →
  0 <= noop < 2 ^ 32 →
  thread_task_passes fuel 0 noop n s = Ok ((UInt32.wrap (noop - Z.of_nat n), 0%nat), s).
Proof.
  induction n as [|n IH]; intros noop Hloc Hc Hnoop.
  - simpl. unfold mret, M_ret, UInt32.wrap.
    rewrite Z.sub_0_r, Z.mod_small by done. done.
  - cbn [thread_task_passes].
    rewrite (bind_Ok _ _ _ _ _ (thread_task_pass_idle fuel 0 noop s Hloc Hc)).
    rewrite (bool_decide_eq_false_2 (0 < 0)) by lia. rewrite andb_false_r.
    rewrite (bind_Ok _ _ _ _ _ (IH (UInt32.wrap (noop - 1)) Hloc Hc
                                   (Z.mod_pos_bound (noop - 1) (2 ^ 32) ltac:(lia)))).
    unfold mret, M_ret, UInt32.wrap. rewrite Zminus_mod_idemp_l.
    replace (noop - 1 - Z.of_nat n) with (noop - Z.of_nat (S n)) by lia. done.
Qed.
End idle.

(** X9.  The idle loop of [thread_task], with both queues of the worker
    empty: every pass leaves the state as it is.  A worker with a
    positive index starts with [noop = NOOP = 20] and sleeps on every
    20th pass that finds no job; the worker with index 0 never sleeps,
    its counter runs through zero and wraps around. *)
Theorem thread_task_backoff (fuel : nat) (idx : Z) (s : State) (n : nat) :
  queue_holds s (Local (Z.to_nat idx)) [] → m_central_queue s = None →
  (0 < idx →
   thread_task_passes fuel idx NOOP n s =
     Ok ((NOOP - Z.of_nat n mod NOOP, (n / 20)%nat), s)) ∧
  (idx = 0 →
   thread_task_passes fuel idx NOOP n s =
     Ok ((UInt32.wrap (NOOP - Z.of_nat n), 0%nat), s)).
Proof.
  intros Hloc Hc. split.
  - intros Hidx.
    rewrite (thread_task_passes_worker fuel idx s n NOOP Hloc Hc Hidx); [|unfold NOOP; lia].
    replace (NOOP - NOOP + Z.of_nat n) with (Z.of_nat n) by lia.
    do 2 f_equal. f_equal.
    unfold NOOP. change 20 with (Z.of_nat 20). rewrite <- Nat2Z.inj_div.
    by rewrite Nat2Z.id.
  - intros ->. apply thread_task_passes_main; [done|done|]. unfold NOOP. lia.
Qed.

Lemma thread_task_backoff_witness :
  thread_task_passes 1 1 NOOP 45 three_jobs = Ok ((15, 2%nat), three_jobs) ∧
  thread_task_passes 1 0 NOOP 45 three_jobs = Ok ((4294967271, 0%nat), three_jobs).
Proof.
  split.
  - destruct (thread_task_backoff 1 1 three_jobs 45) as [Hworker _].
    + by exists None.
    + done.
    + rewrite Hworker by lia. reflexivity.
  - destruct (thread_task_backoff 1 0 three_jobs 45) as [_ Hmain].
    + by exists None.
    + done.
    + rewrite Hmain by done. reflexivity.
Defined.

(** ** [JobSystem::schedule], for every affinity *)

(** X10.  [JobSystem::schedule] for every affinity [thd].  Outside
    [[0, (int)m_thread_count)] the job becomes the head of the central
    queue and no local queue changes.  Inside, the job becomes the head
    of the local queue of the calling thread (index [m_thread_index] of
    that thread, not [thd]) and every other queue is unchanged; if the
    calling thread has no local queue the access is out of range.  In
    both cases the only object written is the job, whose [m_next] is the
    old head. *)
Theorem schedule_queue_choice (th : Thread) (job : ptr) (thd : Z) (s : State) (jp : Job) :
  mem s !! job = Some jp →
  (¬ (0 <= thd < Int32.wrap (m_thread_count s)) →
   ∃ s', schedule th job thd s = Ok (tt, s') ∧
         m_central_queue s' = Some job ∧
         m_local_queues s' = m_local_queues s ∧
         mem s' = <[job := set_next (m_central_queue s) jp]> (mem s)) ∧
  (0 <= thd < Int32.wrap (m_thread_count s) →
   (∀ h, m_local_queues s !! Z.to_nat (thread_index th) = Some h →
      ∃ s', schedule th job thd s = Ok (tt, s') ∧
            m_local_queues s' =
              <[Z.to_nat (thread_index th) := Some job]> (m_local_queues s) ∧
            m_central_queue s' = m_central_queue s ∧
            mem s' = <[job := set_next h jp]> (mem s)) ∧
   (m_local_queues s !! Z.to_nat (thread_index th) = None →
      schedule th job thd s = UB)).
Proof.
  intros Hjob. split; [|intros Hthd; split].
  - intros Hthd.
    destruct (schedule_central th job thd s jp Hthd Hjob)
      as (s' & Hs & Hmem & Hcq & Hlq & _).
    by exists s'.
  - intros h Hh.
    destruct (schedule_local th job thd s jp h Hthd Hh Hjob)
      as (s' & Hs & Hmem & Hhead & Hoth & _).
    exists s'. split; [done|]. split; [|split; [|done]].
    + apply list_eq. intros i. simpl in Hhead.
      destruct (decide (i = Z.to_nat (thread_index th))) as [->|Hne].
      * rewrite Hhead. rewrite list_lookup_insert_eq; [done|by eapply lookup_lt_Some].
      * rewrite list_lookup_insert_ne by done.
        apply (Hoth (Local i)). congruence.
    + specialize (Hoth Central). simpl in Hoth. by injection (Hoth ltac:(done)).
  - intros Hnone. unfold schedule, log, modify, gets.
    unfold mbind at 1, M_bind. unfold mbind at 1, M_bind.
    change (m_thread_count (add_call (call_schedule job thd) s)) with (m_thread_count s).
    rewrite !bool_decide_eq_true_2 by lia. cbn [andb].
    unfold push. unfold mbind at 1, M_bind. simpl. by rewrite Hnone.
Qed.

Lemma schedule_queue_choice_witness :
  (∃ s', schedule (mkThread 1 None) 3 0 three_jobs = Ok (tt, s') ∧
         m_local_queues s' = [None; Some 3%nat]) ∧
  (∃ s', schedule (mkThread 1 None) 3 2 three_jobs = Ok (tt, s') ∧
         m_central_queue s' = Some 3%nat ∧ m_local_queues s' = [None; None]) ∧
  schedule (mkThread 5 None) 3 0 three_jobs = UB.
Proof.
  assert (mem three_jobs !! 3%nat = Some (new_promise 3 (co_return 30))) as H3
    by (vm_compute; reflexivity).
  split; [|split].
  - destruct (schedule_queue_choice (mkThread 1 None) 3 0 three_jobs _ H3) as [_ Hin].
    destruct Hin as [Hlocal _]; [by vm_compute|].
    destruct (Hlocal None eq_refl) as (s' & Hs & Hlq & _).
    exists s'. split; [exact Hs|]. rewrite Hlq. reflexivity.
  - destruct (schedule_queue_choice (mkThread 1 None) 3 2 three_jobs _ H3) as [Hout _].
    destruct Hout as (s' & Hs & Hcq & Hlq & _); [vm_compute; intros [_ ?]; done|].
    exists s'. split; [exact Hs|]. split; [exact Hcq|]. rewrite Hlq. reflexivity.
  - destruct (schedule_queue_choice (mkThread 5 None) 3 0 three_jobs _ H3) as [_ Hin].
    destruct Hin as [_ Hub]; [by vm_compute|]. by apply Hub.
Defined.

(** ** What a turn does in the executions of [once_step] *)

Section turn_exec.
Implicit Types (s : State) (j : Job) (l : list ptr).

Lemma once_step_step s s' : once_step s s' → step s s'.
Proof.
  intros [p body s1 s2 _ _ Hnew|x s1 s2 _ _ Hrun|fuel idx r s1 s2 _ Hturn].
  - by eapply step_create.
  - by eapply step_schedule_coro.
  - by eapply step_thread_task.
Qed.

Lemma rtc_once_step_step s s' : rtc once_step s s' → rtc step s s'.
Proof.
  intros Hrtc. eapply (rtc_ind_r (λ s', rtc step s s')); [| |exact Hrtc].
  - apply rtc_refl.
  - intros s1 s2 _ Hstep IH. eapply rtc_r; [done|]. by apply once_step_step.
Qed.

Lemma turn_exec fuel idx s P L' jP :
  balanced s → is_list (mem s) (m_central_queue s) (P :: L') → mem s !! P = Some jP →
  is_Some (m_local_queues s !! Z.to_nat idx) →
  ∃ s', thread_task_turn (S (S (S fuel))) idx s = Ok (Some P, s') ∧
        m_local_queues s' = m_local_queues s ∧
        m_thread_count s' = m_thread_count s ∧
        turn_outcome idx s P jP s'.
Proof.
  intros Hbal Hl HjP [h Hh].
  assert (queue_holds s (Local (Z.to_nat idx)) []) as Hloc.
  { exists h. split; [done|]. simpl. by apply (bal_local s Hbal _ _ Hh). }
  destruct (turn_head_live s P jP L' Hbal Hl HjP) as (_ & HsP & HdP).
  destruct (turn_head_self s P jP L' Hbal Hl HjP) as (HcontP & HparP).
  set (s0 := set_central_queue (m_next jP) s).
  set (th := mkThread idx (Some P)).
  assert (mem s0 !! P = Some jP) as HjP0 by done.
  assert (∀ s', Job_call (S (S (S fuel))) th P s0 = Ok (tt, s') →
                thread_task_turn (S (S (S fuel))) idx s = Ok (Some P, s')) as Hturn.
  { intros s' Hcall. unfold thread_task_turn.
    rewrite (bind_Ok _ _ _ _ _ (pop_empty true _ _ s Hloc)).
    rewrite (bind_Ok _ _ _ _ _ (pop_lifo_head _ s P L' jP Hl HjP)).
    fold s0 th. by rewrite (bind_Ok _ _ _ _ _ Hcall). }
  unfold turn_outcome. fold th.
  pose proof (first_suspension_targets th (m_coro jP)) as Htg.
  destruct (first_suspension th (m_coro jP)) as [v|C rest|k rest|b] eqn:Hfs;
    [| | |by destruct (plain_first_suspension th _ b (bal_plain s Hbal P jP HjP))].
  - destruct (m_coro_parent jP) as [Q|] eqn:HPQ.
    + destruct (bal_parent s Hbal P jP Q (conj HjP (conj HsP HdP)) HPQ)
        as ((jQ & (HjQ & HsQ & HdQ) & HoneQ) & HnotinQ & _).
      assert (Q ≠ P) as HQP by (intros ->; apply (HnotinQ _ Hl); by left).
      pose proof (bal_promises s Hbal Q jQ HjQ) as HokQ. unfold promise_ok in HokQ.
      rewrite HdQ in HokQ. destruct HokQ as (HcontQ & HparQ & _).
      destruct (Job_call_return_child fuel th P s0 jP v Q jQ HjP0 HdP Hfs HPQ HQP HjQ HoneQ
                  HcontQ HparQ) as (s' & Hrun & Hmem & Hcq & Hlq & Hcalls).
      exists s'. split; [by apply Hturn|]. split; [done|].
      split; [by eapply (rtc_step_same_shape s s'), rtc_once, step_thread_task, Hturn|].
      by exists jQ.
    + eexists. split; [apply Hturn; by apply Job_call_return_orphan|]. done.
  - assert (C ∈ await_targets (m_coro jP)) as HCin by (rewrite Htg; by left).
    destruct (bal_targets s Hbal P jP C HjP HCin) as ([jC HjC] & HnsC & _).
    assert (C ≠ P) as HCP by (by intros ->).
    destruct (Job_call_await (S (S (S fuel))) idx P s0 jP C rest jC HjP0 HdP Hfs HCP HjC)
      as (s' & Hrun & Hmem & Hcq & Hlq & Hcalls).
    exists s'. split; [by apply Hturn|]. split; [done|].
    split; [by eapply (rtc_step_same_shape s s'), rtc_once, step_thread_task, Hturn|].
    exists jC. split; [done|]. split; [done|].
    split; [by eapply (bal_fresh s Hbal)|]. done.
  - destruct (Job_call_hop (S (S fuel)) th P s0 jP k rest HjP0 HdP Hfs HcontP HparP)
      as (s' & Hrun & Hmem & Hcq & Hlq & Hcalls).
    exists s'. split; [by apply Hturn|]. split; [done|].
    split; [by eapply (rtc_step_same_shape s s'), rtc_once, step_thread_task, Hturn|].
    done.
Qed.
End turn_exec.

Lemma once_reachable_shape n hw s :
  rtc once_step (JobSystem_new n hw) s →
  ∀ idx, 0 <= idx < m_thread_count s → is_Some (m_local_queues s !! Z.to_nat idx).
Proof.
  intros Hrtc idx Hidx.
  destruct (rtc_step_same_shape _ _ (rtc_once_step_step _ _ Hrtc)) as [Hcnt Hlen].
  apply lookup_lt_is_Some. rewrite Hlen. rewrite Hcnt in Hidx.
  unfold JobSystem_new in *. simpl in *. rewrite length_replicate. lia.
Qed.

Lemma parent_and_child_steps : rtc once_step (JobSystem_new 1 1) parent_and_child.
Proof.
  { eapply rtc_l; [apply (once_create 2 (co_return 20) (JobSystem_new 1 1))|].
    { done. }
    { constructor. }
    { by intros c Hc%elem_of_nil. }
    { done. }
    eapply rtc_l; [eapply (once_create 1 (co_await_coro 2 (co_return 10)))|].
    { done. }
    { apply NoDup_singleton. }
    { intros c ->%list_elem_of_singleton. split; [by vm_compute; eauto|]. split.
      - intros [thd H]. vm_compute in H. by apply elem_of_nil in H.
      - intros q (j & Hj & Hin). simpl in Hj. rewrite lookup_insert in Hj.
        case_decide; [|by rewrite lookup_empty in Hj].
        inversion Hj; subst j. simpl in Hin. by apply elem_of_nil in Hin. }
    { done. }
    eapply rtc_l; [eapply (once_submit 1)|].
    { intros [thd H]. vm_compute in H. by apply elem_of_nil in H. }
    { intros q (j & Hj & Hin). simpl in Hj. rewrite !lookup_insert in Hj.
      repeat case_decide; [..|by rewrite lookup_empty in Hj];
        inversion Hj; subst j; simpl in Hin.
      - apply list_elem_of_singleton in Hin. done.
      - by apply elem_of_nil in Hin. }
    { by vm_compute. }
    vm_compute. apply rtc_refl. }
Qed.



(** ** Work left *)

Section work.
Implicit Types (m : gmap ptr Job) (j : Job).

Lemma work_of_insert_new m p j :
  m !! p = None → work_of (<[p := j]> m) = (job_work j + work_of m)%nat.
Proof.
  intros Hp. unfold work_of. rewrite map_fold_insert_L; [done| |done].
  intros. lia.
Qed.

Lemma work_of_insert m p j j' :
  m !! p = Some j →
  (work_of (<[p := j']> m) + job_work j = work_of m + job_work j')%nat.
Proof.
  intros Hp.
  assert (work_of m = (job_work j + work_of (delete p m))%nat) as ->.
  { unfold work_of. rewrite (map_fold_delete_L _ _ p j m); [done| |done]. intros. lia. }
  rewrite <- insert_delete_eq.
  rewrite work_of_insert_new by apply lookup_delete_eq. lia.
Qed.

Lemma body_size_pos b : (0 < body_size b)%nat.
Proof. destruct b; simpl; lia. Qed.

Lemma first_suspension_size th body :
  match first_suspension th body with
  | susp_return _ => True
  | susp_await _ rest => (body_size rest < body_size body)%nat
  | susp_hop _ rest => (body_size rest < body_size body)%nat
  | susp_fork _ => True
  end.
Proof.
  induction body as [v|c rest IH|k rest IH|? ? _|? ? _|? ? _]; simpl; [done|lia| |done..].
  destruct (awaitable_resume_on_await_ready th k); [|lia].
  destruct (first_suspension th rest); [done|lia|lia|done].
Qed.

(** A turn that executes a coroutine takes at least one statement off
    the work left. *)
Lemma turn_outcome_work idx s P jP s' :
  mem s !! P = Some jP → m_done jP = false →
  turn_outcome idx s P jP s' → (work s' < work s)%nat.
Proof.
  intros HjP HdP. unfold turn_outcome, work.
  pose proof (first_suspension_size (mkThread idx (Some P)) (m_coro jP)) as Hsize.
  pose proof (body_size_pos (m_coro jP)) as Hpos.
  assert (job_work jP = body_size (m_coro jP)) as HwP by (unfold job_work; by rewrite HdP).
  destruct (first_suspension _ (m_coro jP)) as [v|C rest|k rest|b]; [| | |done].
  - destruct (m_coro_parent jP) as [Q|].
    + intros (jQ & HjQ & HQP & HdQ & -> & _).
      set (jP' := mkJob _ _ _ _ _ _ _ _ _).
      pose proof (work_of_insert (mem s) P jP jP' HjP) as H1.
      pose proof (work_of_insert (<[P := jP']> (mem s)) Q jQ
                    (set_next (m_next jP) (set_children 0 jQ))
                    ltac:(by rewrite lookup_insert_ne)) as H2.
      change (job_work (set_next (m_next jP) (set_children 0 jQ))) with (job_work jQ) in H2.
      change (job_work jP') with 0%nat in H1. lia.
    + intros (-> & _). set (jP' := mkJob _ _ _ _ _ _ _ _ _).
      pose proof (work_of_insert (mem s) P jP jP' HjP) as H1.
      change (job_work jP') with 0%nat in H1. lia.
  - intros (jC & HjC & HCP & HdC & _ & -> & _).
    set (jP' := mkJob _ _ _ _ _ _ _ _ _).
    set (jC' := set_next (m_next jP) (set_coro_parent (Some P) jC)).
    pose proof (work_of_insert (mem s) C jC jC' HjC) as H1.
    pose proof (work_of_insert (<[C := jC']> (mem s)) P jP jP'
                  ltac:(by rewrite lookup_insert_ne)) as H2.
    change (job_work jC') with (job_work jC) in H1.
    change (job_work jP') with (body_size rest) in H2. lia.
  - intros (-> & _). set (jP' := mkJob _ _ _ _ _ _ _ _ _).
    pose proof (work_of_insert (mem s) P jP jP' HjP) as H1.
    change (job_work jP') with (body_size rest) in H1. lia.
Qed.

(** A state with an unfinished coroutine has work left. *)
Lemma work_pos (s : State) p j :
  mem s !! p = Some j → m_done j = false → (0 < work s)%nat.
Proof.
  intros Hj Hd. unfold work.
  pose proof (work_of_insert (mem s) p j j Hj) as H.
  assert (work_of (mem s) = (job_work j + work_of (delete p (mem s)))%nat) as ->.
  { unfold work_of. rewrite (map_fold_delete_L _ _ p j (mem s)); [done| |done]. intros. lia. }
  unfold job_work. rewrite Hd. pose proof (body_size_pos (m_coro j)). lia.
Qed.
End work.

(** ** Waiting coroutines *)

Section settled.
Implicit Types (s : State) (j : Job) (l : list ptr).

Lemma in_queue_elim s l c :
  is_list (mem s) (m_central_queue s) l → in_queue s c → c ∈ l.
Proof. intros Hl (l' & Hl' & Hin). by rewrite (is_list_inj _ _ _ _ Hl Hl'). Qed.

Lemma live_inj s c j1 j2 : live s c j1 → live s c j2 → j1 = j2.
Proof. intros (H1 & _) (H2 & _). congruence. Qed.

Lemma settled_new n hw : settled (JobSystem_new n hw).
Proof.
  split; [apply balanced_new|]. split.
  - intros c jc (Hc & _). unfold JobSystem_new in Hc. simpl in Hc.
    by rewrite lookup_empty in Hc.
  - exists (λ _, 0%nat). intros c jc q (Hc & _). unfold JobSystem_new in Hc. simpl in Hc.
    by rewrite lookup_empty in Hc.
Qed.

Lemma settled_create p body s s' :
  settled s →
  plain body →
  NoDup (await_targets body) →
  (∀ c, c ∈ await_targets body →
     is_Some (mem s !! c) ∧ ¬ scheduled s c ∧ ∀ q, ¬ awaited_by s c q) →
  Coro_promise_new p body s = Ok (tt, s') → settled s'.
Proof.
  intros (Hbal & HW & HA) Hplain Hnd Htg Hnew.
  split; [by eapply balanced_create|].
  unfold Coro_promise_new in Hnew. destruct (mem s !! p) eqn:Hp; [done|].
  inversion Hnew; subst s'. clear Hnew.
  assert (¬ scheduled s p) as Hnp.
  { intros Hp'%(bal_scheduled s Hbal). rewrite Hp in Hp'. by destruct Hp'. }
  assert (∀ x jx, live (set_mem (<[p:=new_promise p body]> (mem s)) s) x jx ↔ live s x jx)
    as Hlive.
  { intros x jx. unfold live, scheduled. simpl. rewrite lookup_insert.
    case_decide as Hx; [subst x|done]. split; [intros (_ & ? & _); done|].
    intros (? & _); congruence. }
  assert (∀ c, in_queue s c → in_queue (set_mem (<[p:=new_promise p body]> (mem s)) s) c)
    as Hq.
  { intros c (l & Hl & Hin). exists l. split; [|done]. simpl. apply is_list_frame; [|done].
    intros Hpl. destruct (is_list_allocated _ _ _ _ Hl Hpl) as [? ?]. congruence. }
  split.
  - intros c jc Hc%Hlive. destruct (HW c jc Hc) as [Hin|(c' & jc' & Hc' & Hpar)].
    + left. by apply Hq.
    + right. exists c', jc'. split; [by apply Hlive|done].
  - destruct HA as [rank Hr]. exists rank. intros c jc q Hc%Hlive Hq'. by eapply Hr.
Qed.

Lemma settled_submit x s s' :
  settled s →
  ¬ scheduled s x → (∀ q, ¬ awaited_by s x q) →
  schedule_coro main_thread x s = Ok (tt, s') → settled s'.
Proof.
  intros (Hbal & HW & HA) Hns Hnoaw Hrun.
  split; [by eapply balanced_submit|].
  apply schedule_coro_main_inv in Hrun as (jx & Hjx & Hmem & Hcq & Hlq & Hcalls).
  destruct (bal_queue s Hbal) as (l & Hl & Hlive_l).
  assert (x ∉ l) as Hxl.
  { intros Hin. destruct (Hlive_l x Hin) as (j & _ & Hsx & _). done. }
  assert (∀ p, scheduled s' p ↔ scheduled s p ∨ p = x) as Hsch.
  { intros p. split.
    - intros [H|(thd & H)]%(scheduled_inv s s' _ p Hcalls); [by left|right].
      apply list_elem_of_singleton in H. by inversion H.
    - intros [H| ->]; [by eapply scheduled_mono|].
      exists (-1). rewrite Hcalls. apply elem_of_app. right.
      by apply list_elem_of_singleton. }
  assert (∀ c jc, c ≠ x → live s' c jc ↔ live s c jc) as Hlive.
  { intros c jc Hc. unfold live. rewrite Hmem, lookup_insert_ne by done.
    rewrite Hsch. split; intros (H1 & H2 & H3); (split; [done|split; [|done]]).
    - by destruct H2.
    - by left. }
  set (jx' := set_next (m_central_queue s) (set_coro_parent None jx)).
  assert (is_list (mem s') (m_central_queue s') (x :: l)) as Hl'.
  { rewrite Hcq, Hmem. split; [done|]. exists jx'. rewrite lookup_insert_eq.
    split; [done|]. simpl. by apply is_list_frame. }
  assert (∀ c jc, live s c jc → c ≠ x) as Hnx.
  { intros c jc (_ & Hs & _) ->. done. }
  split.
  - intros c jc Hc. destruct (decide (c = x)) as [->|Hcx].
    { left. exists (x :: l). split; [done|]. by left. }
    apply Hlive in Hc; [|done].
    destruct (HW c jc Hc) as [Hin|(c' & jc' & Hc' & Hpar)].
    + left. exists (x :: l). split; [done|]. right. by apply (in_queue_elim _ _ _ Hl).
    + right. exists c', jc'. split; [|done]. apply Hlive; [by eapply Hnx|done].
  - destruct HA as [rank Hr]. exists rank. intros c jc q Hc Hq.
    destruct (decide (c = x)) as [->|Hcx].
    + destruct Hc as (Hc & _). rewrite Hmem, lookup_insert_eq in Hc.
      inversion Hc; subst jc. done.
    + apply Hlive in Hc; [|done]. by eapply Hr.
Qed.
End settled.

(** A turn of a worker.  The coroutine [P] is at the head of the
    central queue of the settled state [s], in front of the jobs [L']. *)
Section settled_turn.
Variables (s : State) (P : ptr) (jP : Job) (L' : list ptr).
Hypothesis Hbal : balanced s.
Hypothesis HW : waits s.
Hypothesis HA : ranked s.
Hypothesis HL : is_list (mem s) (m_central_queue s) (P :: L').
Hypothesis HjP : mem s !! P = Some jP.

Lemma waits_return_orphan s' v :
  m_coro_parent jP = None →
  mem s' = <[P := mkJob (m_next jP) 0 None None (m_thread_index jP) None v
                        (co_return v) true]> (mem s) →
  m_central_queue s' = m_next jP →
  calls s' = calls s ++ [call_on_finished P] →
  waits s' ∧ ranked s'.
Proof using Hbal HW HA HL HjP.
  intros HPQ Hmem Hcq Hcalls.
  pose proof (turn_tail s P jP L' HL HjP) as Htail.
  pose proof (turn_head_not_in_tail s P L' HL) as HPL.
  pose proof (turn_head_live s P jP L' Hbal HL HjP) as HliveP.
  assert (∀ p, scheduled s' p ↔ scheduled s p) as Hsch.
  { intros p. split; [|by eapply scheduled_mono].
    intros [H|(thd & H)]%(scheduled_inv s s' _ p Hcalls); [done|].
    by apply list_elem_of_singleton in H. }
  assert (∀ c jc, c ≠ P → live s' c jc ↔ live s c jc) as Hlive.
  { intros c jc Hc. apply live_other; [by rewrite Hmem, lookup_insert_ne|apply Hsch]. }
  assert (∀ c jc, live s' c jc → c ≠ P) as HnP.
  { intros c jc (Hc & _ & Hd) ->. rewrite Hmem, lookup_insert_eq in Hc.
    inversion Hc; subst jc. done. }
  assert (is_list (mem s') (m_central_queue s') L') as Hl'.
  { rewrite Hcq, Hmem. by apply is_list_frame. }
  split.
  - intros c jc Hc. pose proof (HnP c jc Hc) as HcP. apply Hlive in Hc; [|done].
    destruct (HW c jc Hc) as [Hin|(c' & jc' & Hc' & Hpar)].
    + left. exists L'. split; [done|]. apply (in_queue_elim _ _ _ HL) in Hin.
      apply elem_of_cons in Hin as [->|Hin]; done.
    + right. assert (c' ≠ P) as Hc'P.
      { intros ->. rewrite (live_inj _ _ _ _ Hc' HliveP) in Hpar. congruence. }
      exists c', jc'. split; [by apply Hlive|done].
  - destruct HA as [rank Hr]. exists rank. intros c jc q Hc Hq.
    pose proof (HnP c jc Hc) as HcP. apply Hlive in Hc; [|done]. by eapply Hr.
Qed.

Lemma waits_hop s' k rest :
  mem s' = <[P := mkJob (m_next jP) 0 None (Some P) k (m_coro_parent jP) (m_value jP)
                        rest false]> (mem s) →
  m_central_queue s' = Some P →
  calls s' = calls s ++ [call_on_finished P; call_schedule P (-1)] →
  waits s' ∧ ranked s'.
Proof using Hbal HW HA HL HjP.
  intros Hmem Hcq Hcalls.
  pose proof (turn_tail s P jP L' HL HjP) as Htail.
  pose proof (turn_head_not_in_tail s P L' HL) as HPL.
  pose proof (turn_head_live s P jP L' Hbal HL HjP) as HliveP.
  set (jP' := mkJob (m_next jP) 0 None (Some P) k (m_coro_parent jP) (m_value jP) rest false)
    in *.
  assert (∀ p, scheduled s' p ↔ scheduled s p) as Hsch.
  { intros p. split; [|by eapply scheduled_mono].
    intros [H|(thd & H)]%(scheduled_inv s s' _ p Hcalls); [done|].
    apply elem_of_cons in H as [H|H]; [done|].
    apply list_elem_of_singleton in H. inversion H; subst p.
    by destruct HliveP as (_ & ? & _). }
  assert (∀ c jc, c ≠ P → live s' c jc ↔ live s c jc) as Hlive.
  { intros c jc Hc. apply live_other; [by rewrite Hmem, lookup_insert_ne|apply Hsch]. }
  assert (live s' P jP') as HliveP'.
  { split; [by rewrite Hmem, lookup_insert_eq|]. split; [|done].
    apply Hsch. by destruct HliveP as (_ & ? & _). }
  assert (∀ c jc, live s' c jc →
            ∃ jc0, live s c jc0 ∧ m_coro_parent jc0 = m_coro_parent jc) as Hback.
  { intros c jc Hc. destruct (decide (c = P)) as [->|Hne].
    - exists jP. split; [done|]. by rewrite (live_inj _ _ _ _ Hc HliveP').
    - exists jc. split; [by apply Hlive|done]. }
  assert (∀ c jc0, live s c jc0 →
            ∃ jc, live s' c jc ∧ m_coro_parent jc = m_coro_parent jc0) as Hfwd.
  { intros c jc0 Hc. destruct (decide (c = P)) as [->|Hne].
    - exists jP'. split; [done|]. by rewrite (live_inj _ _ _ _ Hc HliveP).
    - exists jc0. split; [by apply Hlive|done]. }
  assert (is_list (mem s') (m_central_queue s') (P :: L')) as Hl'.
  { rewrite Hcq, Hmem. split; [done|]. exists jP'. rewrite lookup_insert_eq.
    split; [done|]. simpl. by apply is_list_frame. }
  split.
  - intros c jc Hc. destruct (Hback c jc Hc) as (jc0 & Hc0 & _).
    destruct (HW c jc0 Hc0) as [Hin|(c' & jc' & Hc' & Hpar)].
    + left. exists (P :: L'). split; [done|]. by apply (in_queue_elim _ _ _ HL).
    + right. destruct (Hfwd c' jc' Hc') as (jc'' & Hc'' & Heq).
      exists c', jc''. split; [done|congruence].
  - destruct HA as [rank Hr]. exists rank. intros c jc q Hc Hq.
    destruct (Hback c jc Hc) as (jc0 & Hc0 & Heq). eapply Hr; [done|congruence].
Qed.

Lemma waits_return_child s' v Q jQ :
  m_coro_parent jP = Some Q → mem s !! Q = Some jQ →
  mem s' = <[Q := set_next (m_next jP) (set_children 0 jQ)]>
             (<[P := mkJob (m_next jP) 0 (Some Q) None (m_thread_index jP) (Some Q) v
                           (co_return v) true]> (mem s)) →
  m_central_queue s' = Some Q →
  calls s' = calls s ++ [call_on_finished P; call_child_finished Q;
                         call_on_finished Q; call_schedule Q (-1)] →
  waits s' ∧ ranked s'.
Proof using Hbal HW HA HL HjP.
  intros HPQ HjQ Hmem Hcq Hcalls.
  pose proof (turn_tail s P jP L' HL HjP) as Htail.
  pose proof (turn_head_not_in_tail s P L' HL) as HPL.
  pose proof (turn_head_live s P jP L' Hbal HL HjP) as HliveP.
  destruct (bal_parent s Hbal P jP Q HliveP HPQ) as ((jQ0 & HliveQ & HoneQ) & HnotinQ & HuniqQ).
  assert (jQ0 = jQ) as -> by (destruct HliveQ as (H & _); congruence).
  assert (Q ≠ P) as HQP by (intros ->; apply (HnotinQ _ HL); by left).
  assert (Q ∉ L') as HQL by (intros Hin; apply (HnotinQ _ HL); by right).
  set (jP' := mkJob (m_next jP) 0 (Some Q) None (m_thread_index jP) (Some Q) v
                    (co_return v) true) in *.
  set (jQ' := set_next (m_next jP) (set_children 0 jQ)) in *.
  assert (∀ p, scheduled s' p ↔ scheduled s p) as Hsch.
  { intros p. split; [|by eapply scheduled_mono].
    intros [H|(thd & H)]%(scheduled_inv s s' _ p Hcalls); [done|].
    repeat (apply elem_of_cons in H as [H|H]; [done|]).
    apply list_elem_of_singleton in H. inversion H; subst p.
    by destruct HliveQ as (_ & ? & _). }
  assert (∀ c jc, c ≠ P → c ≠ Q → live s' c jc ↔ live s c jc) as Hlive.
  { intros c jc Hc1 Hc2. apply live_other; [by rewrite Hmem, !lookup_insert_ne|apply Hsch]. }
  assert (live s' Q jQ') as HliveQ'.
  { split; [by rewrite Hmem, lookup_insert_eq|]. split.
    - apply Hsch. by destruct HliveQ as (_ & ? & _).
    - simpl. by destruct HliveQ as (_ & _ & ?). }
  assert (∀ c jc, live s' c jc →
            c ≠ P ∧ ∃ jc0, live s c jc0 ∧ m_coro_parent jc0 = m_coro_parent jc) as Hback.
  { intros c jc Hc. destruct (decide (c = P)) as [->|HcP].
    { destruct Hc as (Hc & _ & Hd).
      rewrite Hmem, lookup_insert_ne, lookup_insert_eq in Hc by done.
      inversion Hc; subst jc. done. }
    split; [done|]. destruct (decide (c = Q)) as [->|HcQ].
    - exists jQ. split; [done|]. by rewrite (live_inj _ _ _ _ Hc HliveQ').
    - exists jc. split; [by apply Hlive|done]. }
  assert (∀ c jc0, live s c jc0 → c ≠ P →
            ∃ jc, live s' c jc ∧ m_coro_parent jc = m_coro_parent jc0) as Hfwd.
  { intros c jc0 Hc HcP. destruct (decide (c = Q)) as [->|HcQ].
    - exists jQ'. split; [done|]. by rewrite (live_inj _ _ _ _ Hc HliveQ).
    - exists jc0. split; [by apply Hlive|done]. }
  assert (is_list (mem s') (m_central_queue s') (Q :: L')) as Hl'.
  { rewrite Hcq, Hmem. split; [done|]. exists jQ'. rewrite lookup_insert_eq.
    split; [done|]. simpl. by repeat (apply is_list_frame; [done|]). }
  split.
  - intros c jc Hc. destruct (decide (c = Q)) as [->|HcQ].
    { left. exists (Q :: L'). split; [done|]. by left. }
    destruct (Hback c jc Hc) as (HcP & jc0 & Hc0 & _).
    destruct (HW c jc0 Hc0) as [Hin|(c' & jc' & Hc' & Hpar)].
    + left. exists (Q :: L'). split; [done|]. apply (in_queue_elim _ _ _ HL) in Hin.
      apply elem_of_cons in Hin as [->|Hin]; [done|by right].
    + right. assert (c' ≠ P) as Hc'P.
      { intros ->. rewrite (live_inj _ _ _ _ Hc' HliveP) in Hpar. congruence. }
      destruct (Hfwd c' jc' Hc' Hc'P) as (jc'' & Hc'' & Heq).
      exists c', jc''. split; [done|congruence].
  - destruct HA as [rank Hr]. exists rank. intros c jc q Hc Hq.
    destruct (Hback c jc Hc) as (_ & jc0 & Hc0 & Heq). eapply Hr; [done|congruence].
Qed.

Lemma waits_await s' C jC rest :
  C ≠ P → mem s !! C = Some jC → m_done jC = false → ¬ scheduled s C →
  mem s' = <[P := mkJob (m_next jP) 1 (m_parent jP) (m_continuation jP) (m_thread_index jP)
                        (m_coro_parent jP) (m_value jP) rest false]>
             (<[C := set_next (m_next jP) (set_coro_parent (Some P) jC)]> (mem s)) →
  m_central_queue s' = Some C →
  calls s' = calls s ++ [call_schedule C (-1)] →
  waits s' ∧ ranked s'.
Proof using Hbal HW HA HL HjP.
  intros HCP HjC HdC HnsC Hmem Hcq Hcalls.
  pose proof (turn_tail s P jP L' HL HjP) as Htail.
  pose proof (turn_head_not_in_tail s P L' HL) as HPL.
  pose proof (turn_head_live s P jP L' Hbal HL HjP) as HliveP.
  assert (C ∉ L') as HCL.
  { intros Hin. destruct (turn_queue_live s P L' Hbal HL C) as (j & _ & ? & _);
      [by right|done]. }
  set (jP' := mkJob (m_next jP) 1 (m_parent jP) (m_continuation jP) (m_thread_index jP)
                    (m_coro_parent jP) (m_value jP) rest false) in *.
  set (jC' := set_next (m_next jP) (set_coro_parent (Some P) jC)) in *.
  assert (∀ p, scheduled s' p ↔ scheduled s p ∨ p = C) as Hsch.
  { intros p. split.
    - intros [H|(thd & H)]%(scheduled_inv s s' _ p Hcalls); [by left|right].
      apply list_elem_of_singleton in H. by inversion H.
    - intros [H| ->]; [by eapply scheduled_mono|].
      exists (-1). rewrite Hcalls. apply elem_of_app. right.
      by apply list_elem_of_singleton. }
  assert (∀ c jc, c ≠ P → c ≠ C → live s' c jc ↔ live s c jc) as Hlive.
  { intros c jc Hc1 Hc2. unfold live. rewrite Hmem, !lookup_insert_ne by done.
    rewrite Hsch. split; intros (H1 & H2 & H3); (split; [done|split; [|done]]).
    - by destruct H2.
    - by left. }
  assert (live s' P jP') as HliveP'.
  { split; [by rewrite Hmem, lookup_insert_eq|]. split; [|done].
    apply Hsch. left. by destruct HliveP as (_ & ? & _). }
  assert (live s' C jC') as HliveC'.
  { split; [by rewrite Hmem, lookup_insert_ne, lookup_insert_eq|]. split; [|done].
    apply Hsch. by right. }
  assert (∀ c jc, live s c jc → c ≠ C) as HnC.
  { intros c jc (_ & Hs & _) ->. done. }
  assert (∀ c jc, live s' c jc → c ≠ C →
            ∃ jc0, live s c jc0 ∧ m_coro_parent jc0 = m_coro_parent jc) as Hback.
  { intros c jc Hc HcC. destruct (decide (c = P)) as [->|HcP].
    - exists jP. split; [done|]. by rewrite (live_inj _ _ _ _ Hc HliveP').
    - exists jc. split; [by apply Hlive|done]. }
  assert (∀ c jc0, live s c jc0 →
            ∃ jc, live s' c jc ∧ m_coro_parent jc = m_coro_parent jc0) as Hfwd.
  { intros c jc0 Hc. pose proof (HnC c jc0 Hc) as HcC.
    destruct (decide (c = P)) as [->|HcP].
    - exists jP'. split; [done|]. by rewrite (live_inj _ _ _ _ Hc HliveP).
    - exists jc0. split; [by apply Hlive|done]. }
  assert (is_list (mem s') (m_central_queue s') (C :: L')) as Hl'.
  { rewrite Hcq, Hmem. split; [done|]. exists jC'.
    rewrite lookup_insert_ne, lookup_insert_eq by done.
    split; [done|]. simpl. by repeat (apply is_list_frame; [done|]). }
  split.
  - intros c jc Hc. destruct (decide (c = C)) as [->|HcC].
    { left. exists (C :: L'). split; [done|]. by left. }
    destruct (decide (c = P)) as [->|HcP].
    { right. by exists C, jC'. }
    destruct (Hback c jc Hc HcC) as (jc0 & Hc0 & _).
    destruct (HW c jc0 Hc0) as [Hin|(c' & jc' & Hc' & Hpar)].
    + left. exists (C :: L'). split; [done|]. apply (in_queue_elim _ _ _ HL) in Hin.
      apply elem_of_cons in Hin as [->|Hin]; [done|by right].
    + right. destruct (Hfwd c' jc' Hc') as (jc'' & Hc'' & Heq).
      exists c', jc''. split; [done|congruence].
  - destruct HA as [rank Hr].
    exists (λ x, if decide (x = C) then S (rank P) else rank x).
    intros c jc q Hc Hq. destruct (decide (c = C)) as [->|HcC].
    + rewrite (live_inj _ _ _ _ Hc HliveC') in Hq. simpl in Hq. inversion Hq; subst q.
      rewrite decide_False by done. lia.
    + destruct (Hback c jc Hc HcC) as (jc0 & Hc0 & Heq). rewrite <- Heq in Hq.
      assert (q ≠ C) as HqC.
      { intros ->. destruct (bal_parent s Hbal c jc0 C Hc0 Hq) as ((jq & (_ & Hs & _) & _) & _).
        done. }
      rewrite decide_False by done. by eapply Hr.
Qed.
End settled_turn.

Section settled_run.
Implicit Types (s : State) (j : Job) (l : list ptr).

Lemma thread_task_turn_Ok_queue fuel idx s r s' :
  thread_task_turn fuel idx s = Ok (r, s') →
  is_Some (m_local_queues s !! Z.to_nat idx).
Proof.
  unfold thread_task_turn, pop. intros (l & s1 & Hl & _)%bind_inv_Ok.
  apply bind_inv_Ok in Hl as (h & s2 & Hh & _). simpl in Hh.
  destruct (m_local_queues s !! Z.to_nat idx); [by eexists|done].
Qed.

Lemma settled_outcome idx s P L' jP s' :
  settled s → is_list (mem s) (m_central_queue s) (P :: L') → mem s !! P = Some jP →
  turn_outcome idx s P jP s' → waits s' ∧ ranked s'.
Proof.
  intros (Hbal & HW & HA) Hl HjP. unfold turn_outcome.
  destruct (first_suspension _ (m_coro jP)) as [v|C rest|k rest|b]; [| | |done].
  - destruct (m_coro_parent jP) as [Q|] eqn:HPQ.
    + intros (jQ & HjQ & _ & _ & Hmem & Hcq & Hcalls).
      by eapply (waits_return_child s P jP L').
    + intros (Hmem & Hcq & Hcalls). by eapply (waits_return_orphan s P jP L').
  - intros (jC & HjC & HCP & HdC & HnsC & Hmem & Hcq & Hcalls).
    by eapply (waits_await s P jP L').
  - intros (Hmem & Hcq & Hcalls). by eapply (waits_hop s P jP L').
Qed.

Lemma settled_turn fuel idx r s s' :
  settled s → (3 ≤ fuel)%nat →
  thread_task_turn fuel idx s = Ok (r, s') → settled s'.
Proof.
  intros Hset Hfuel Hturn. pose proof Hset as (Hbal & HW & HA).
  split; [by eapply balanced_turn|].
  pose proof (thread_task_turn_Ok_queue _ _ _ _ _ Hturn) as Hq.
  destruct (bal_queue s Hbal) as (l & Hl & Hlive). destruct l as [|P L'].
  - simpl in Hl. rewrite thread_task_turn_idle in Hturn; [|..|done].
    + by inversion Hturn; subst.
    + destruct Hq as [h Hh]. exists h. split; [done|]. simpl.
      by apply (bal_local s Hbal _ _ Hh).
  - destruct (Hlive P) as (jP & HjP & _); [by left|].
    destruct fuel as [|[|[|fuel]]]; [lia..|].
    destruct (turn_exec fuel idx s P L' jP Hbal Hl HjP Hq) as (s'' & Hturn' & _ & _ & Hout).
    rewrite Hturn' in Hturn. inversion Hturn; subst s''.
    by eapply settled_outcome.
Qed.

Lemma once_step_settled s s' : once_step s s' → settled s → settled s'.
Proof.
  intros [p body s1 s2 Hnd Htg Hnew|x s1 s2 Hns Hnoaw Hrun|fuel idx r s1 s2 Hfuel Hturn] Hset.
  - by eapply settled_create.
  - by eapply settled_submit.
  - by eapply settled_turn.
Qed.

Lemma once_reachable_settled n hw s :
  rtc once_step (JobSystem_new n hw) s → settled s.
Proof.
  intros Hrtc. eapply (rtc_ind_r (λ s, settled s)); [| |exact Hrtc].
  - apply settled_new.
  - intros s1 s2 _ Hstep IH. by eapply once_step_settled.
Qed.

(** With the central queue empty, no scheduled coroutine is left
    unfinished: one that was would wait for a child, which would wait
    for a child of its own, and so on without end. *)
Lemma settled_quiescent s :
  settled s → m_central_queue s = None → ∀ c jc, ¬ live s c jc.
Proof.
  intros (Hbal & HW & [rank Hr]) Hq.
  assert (∀ c jc, live s c jc → ∃ c' jc', live s c' jc' ∧ (rank c < rank c')%nat) as Hchild.
  { intros c jc Hc. destruct (HW c jc Hc) as [(l & Hl & Hin)|(c' & jc' & Hc' & Hp)].
    - rewrite Hq in Hl. destruct l as [|x l]; [by apply elem_of_nil in Hin|].
      simpl in Hl. by destruct Hl as [? _].
    - exists c', jc'. split; [done|]. by eapply Hr. }
  assert (∀ m : gmap ptr Job, ∃ N, ∀ p j, m !! p = Some j → (rank p ≤ N)%nat) as Hbound.
  { intros m. induction m as [|i x m Hi _ [N HN]] using map_first_key_ind.
    - exists 0%nat. intros p j Hp. by rewrite lookup_empty in Hp.
    - exists (N `max` rank i)%nat. intros p j. rewrite lookup_insert.
      case_decide as Hpi; [intros _; subst; lia|].
      intros Hp. specialize (HN p j Hp). lia. }
  destruct (Hbound (mem s)) as [N HN].
  assert (∀ k c jc, live s c jc → (N - rank c < k)%nat → False) as Hno.
  { induction k as [|k IH]; intros c jc Hc Hk; [lia|].
    destruct (Hchild c jc Hc) as (c' & jc' & Hc' & Hlt).
    apply (IH c' jc' Hc'). pose proof (HN c' jc' (proj1 Hc')). lia. }
  intros c jc Hc. apply (Hno (S (N - rank c)) c jc Hc). lia.
Qed.

Lemma thread_task_turns_idle fuel s : ∀ idxs,
  (∀ idx, idx ∈ idxs → queue_holds s (Local (Z.to_nat idx)) []) →
  m_central_queue s = None →
  thread_task_turns fuel idxs s = Ok (replicate (length idxs) None, s).
Proof.
  induction idxs as [|idx idxs IH]; intros Hloc Hc; [done|]. simpl.
  rewrite (bind_Ok _ _ _ _ _ (thread_task_turn_idle fuel idx s
                                 (Hloc idx ltac:(by left)) Hc)).
  rewrite (bind_Ok _ _ _ _ _ (IH ltac:(intros; apply Hloc; by right) Hc)). done.
Qed.

(** The call log only grows. *)
Lemma thread_task_turn_calls fuel idx s r s' :
  thread_task_turn fuel idx s = Ok (r, s') → ∃ cl, calls s' = calls s ++ cl.
Proof.
  apply (thread_task_turn_kept (λ s s', ∃ cl, calls s' = calls s ++ cl) (λ _, True));
    try done.
  - intros s0. exists []. by rewrite app_nil_r.
  - intros s1 s2 s3 [c1 H1] [c2 H2]. exists (c1 ++ c2). by rewrite H2, H1, app_assoc.
  - intros c s0. by exists [c].
  - intros q h s0 u s0' _ H%store_head_calls. exists []. by rewrite app_nil_r.
  - intros p f s0 j _ _. exists []. by rewrite app_nil_r.
Qed.

Lemma settled_run fuel : ∀ idxs s,
  settled s →
  (∀ idx, idx ∈ idxs → is_Some (m_local_queues s !! Z.to_nat idx)) →
  (work s ≤ length idxs)%nat →
  ∃ rs s', thread_task_turns (S (S (S fuel))) idxs s = Ok (rs, s') ∧
           settled s' ∧ m_central_queue s' = None ∧
           ∃ cl, calls s' = calls s ++ cl.
Proof.
  induction idxs as [|idx idxs IH]; intros s Hset Hq Hwork;
    pose proof Hset as (Hbal & _); destruct (bal_queue s Hbal) as (l & Hl & Hlive).
  - exists [], s. split; [done|]. split; [done|]. split; [|exists []; by rewrite app_nil_r].
    destruct l as [|P L']; [done|].
    destruct (Hlive P) as (jP & HjP & _ & HdP); [by left|].
    pose proof (work_pos s P jP HjP HdP). simpl in Hwork. lia.
  - destruct l as [|P L'].
    + simpl in Hl. eexists _, s. split; [|split; [done|split; [done|]]].
      * apply thread_task_turns_idle; [|done]. intros i Hi.
        destruct (Hq i Hi) as [h Hh]. exists h. split; [done|]. simpl.
        by apply (bal_local s Hbal _ _ Hh).
      * exists []. by rewrite app_nil_r.
    + destruct (Hlive P) as (jP & HjP & _ & HdP); [by left|].
      destruct (turn_exec fuel idx s P L' jP Hbal Hl HjP (Hq idx ltac:(by left)))
        as (s1 & Hturn & Hlq & _ & Hout).
      pose proof (turn_outcome_work idx s P jP s1 HjP HdP Hout) as Hless.
      destruct (thread_task_turn_calls _ _ _ _ _ Hturn) as [cl1 Hcl1].
      destruct (IH s1) as (rs & s' & Hrun & Hset' & Hc' & cl & Hcl).
      * eapply settled_turn; [done| |exact Hturn]. lia.
      * intros i Hi. rewrite Hlq. apply Hq. by right.
      * simpl in Hwork. lia.
      * exists (Some P :: rs), s'. split; [|split; [done|split; [done|]]].
        -- simpl. rewrite (bind_Ok _ _ _ _ _ Hturn). by rewrite (bind_Ok _ _ _ _ _ Hrun).
        -- exists (cl1 ++ cl). by rewrite Hcl, Hcl1, app_assoc.
Qed.

Lemma thread_task_turns_fuel fuel fuel' idxs s rs s' :
  thread_task_turns fuel idxs s = Ok (rs, s') → fuel = fuel' →
  thread_task_turns fuel' idxs s = Ok (rs, s').
Proof. by intros H <-. Qed.
End settled_run.

(** X13.  In the executions of [once_step] (coroutines are created
    with bodies that await one coroutine at a time, each awaited
    coroutine created before, never scheduled and awaited by no other
    body; the main thread submits coroutines that were never scheduled
    and that no body awaits; the workers take turns; nothing else
    happens: no coroutine is resumed by hand through [Coro<T>::resume],
    given an affinity or destroyed) every coroutine that was submitted
    finishes.  Let the workers take turns in any order: after as many
    turns as there are statements left to execute, the central queue is
    empty and every coroutine that has been scheduled, before or during
    these turns, is suspended at its final suspension point; none is
    left waiting for a child.  No turn fails on the way. *)
Theorem submitted_coroutines_finish (threadCount hardware_concurrency : nat) (s : State)
    (fuel : nat) (idxs : list Z) :
  rtc once_step (JobSystem_new threadCount hardware_concurrency) s →
  (∀ idx, idx ∈ idxs → 0 <= idx < m_thread_count s) →
  (3 ≤ fuel)%nat → (work s ≤ length idxs)%nat →
  ∃ rs s', thread_task_turns fuel idxs s = Ok (rs, s') ∧
           m_central_queue s' = None ∧
           (∀ p, scheduled s p → scheduled s' p) ∧
           (∀ p, scheduled s' p → ∃ j, mem s' !! p = Some j ∧ m_done j = true).
Proof.
  intros Hrtc Hidx Hfuel Hwork.
  destruct fuel as [|[|[|fuel]]]; [lia..|].
  destruct (settled_run fuel idxs s (once_reachable_settled _ _ _ Hrtc))
    as (rs & s' & Hrun & Hset' & Hc' & cl & Hcl); [|done|].
  { intros idx Hi. by eapply once_reachable_shape, Hidx. }
  exists rs, s'. split; [done|]. split; [done|]. split.
  - intros p Hp. by eapply scheduled_mono.
  - intros p Hp. pose proof Hset' as (Hbal' & _).
    destruct (bal_scheduled s' Hbal' p Hp) as [j Hj]. exists j. split; [done|].
    destruct (m_done j) eqn:Hd; [done|].
    destruct (settled_quiescent s' Hset' Hc' p j). by split.
Qed.

Lemma submitted_coroutines_finish_witness :
  ∃ rs s', thread_task_turns 3 [0; 0; 0; 0] parent_and_child = Ok (rs, s') ∧
           m_central_queue s' = None ∧
           ∃ j, mem s' !! 1%nat = Some j ∧ m_done j = true.
Proof.
  destruct (submitted_coroutines_finish 1 1 parent_and_child 3 [0; 0; 0; 0]
              parent_and_child_steps)
    as (rs & s' & Hrun & Hq & Hmono & Hdone).
  - intros idx Hi. repeat (apply elem_of_cons in Hi as [->|Hi]); [by vm_compute..|].
    by apply elem_of_nil in Hi.
  - lia.
  - vm_compute. lia.
  - exists rs, s'. split; [exact Hrun|]. split; [exact Hq|].
    apply Hdone, Hmono. exists (-1). vm_compute. by left.
Defined.

(** ** [Job::reset] *)

Section reset.
Implicit Types (s : State) (j : Job) (l : list ptr).

Lemma Job_reset_Ok p s j :
  mem s !! p = Some j →
  Job_reset p s =
    Ok (tt, set_mem (<[p := set_continuation None (set_parent None
                              (set_children 1 (set_next None j)))]> (mem s)) s).
Proof.
  intros Hj. unfold Job_reset.
  rewrite (bind_Ok _ _ _ _ _ (update_Ok _ _ _ _ Hj)).
  erewrite bind_Ok; [|apply update_Ok; by simpl; rewrite lookup_insert_eq].
  erewrite bind_Ok; [|apply update_Ok; by simpl; rewrite lookup_insert_eq].
  erewrite update_Ok; [|by simpl; rewrite lookup_insert_eq].
  unfold set_mem. simpl. by rewrite !insert_insert_eq.
Qed.

(** Cutting the chain behind one of its jobs. *)
Lemma is_list_cut m h l1 l2 p j' :
  is_list m h (l1 ++ p :: l2) → m_next j' = None →
  is_list (<[p := j']> m) h (l1 ++ [p]).
Proof.
  intros Hl Hn. pose proof (is_list_NoDup _ _ _ Hl) as Hnd.
  revert h Hl Hnd. induction l1 as [|y l1 IH]; intros h; simpl.
  - intros (-> & _) _. split; [done|]. exists j'. by rewrite lookup_insert_eq.
  - intros (-> & job & Hj & Hl) Hnd. split; [done|].
    apply NoDup_cons in Hnd as [Hy Hnd].
    exists job. split; [|by apply IH].
    rewrite lookup_insert_ne; [done|]. intros ->. apply Hy.
    apply elem_of_app. right. by left.
Qed.
End reset.

(** X14.  [Job::reset] on a job that is linked into a queue cuts the
    queue behind it: the jobs that were pushed before it are no longer
    reachable from the head.  The job keeps its place, with its counter
    at 1 and neither parent nor continuation. *)
Theorem reset_cuts_queue (q : queue_ref) (s : State) (l1 l2 : list ptr) (p : ptr) :
  queue_holds s q (l1 ++ p :: l2) →
  ∃ s' j', Job_reset p s = Ok (tt, s') ∧
           queue_holds s' q (l1 ++ [p]) ∧
           mem s' !! p = Some j' ∧
           m_next j' = None ∧ m_children j' = 1 ∧
           m_parent j' = None ∧ m_continuation j' = None ∧
           (∀ x, x ≠ p → mem s' !! x = mem s !! x).
Proof.
  intros (h & Hh & Hl).
  destruct (is_list_allocated _ _ _ p Hl) as [j Hj]; [apply elem_of_app; right; by left|].
  eexists _, _. split; [by apply Job_reset_Ok|]. split.
  - exists h. split; [by destruct q|]. simpl. by eapply is_list_cut.
  - simpl. rewrite lookup_insert_eq. split; [done|]. do 4 (split; [done|]).
    intros x Hx. by rewrite lookup_insert_ne.
Qed.

Lemma reset_cuts_queue_witness :
  ∃ s', Job_reset 2 (exec (push_all (Local 0) [1; 2; 3]%nat) three_jobs) = Ok (tt, s') ∧
        queue_holds s' (Local 0) [3; 2]%nat.
Proof.
  destruct (reset_cuts_queue (Local 0) (exec (push_all (Local 0) [1; 2; 3]%nat) three_jobs)
              [3%nat] [1%nat] 2%nat) as (s' & j' & Hreset & Hq & _).
  - exists (Some 3%nat). vm_compute. solve_is_list.
  - by exists s'.
Defined.

(** X15.  A coroutine that has finished and is executed once more.  Its
    body is not resumed, but [Job::operator()] takes its counter from 1
    to 0 and calls [on_finished], and the parent it recorded at its
    final suspension is notified again: [child_finished] decrements the
    counter of that parent a second time.  After [Job::reset] the
    coroutine has no parent, and executing it notifies nobody: only the
    coroutine itself changes, and its result stays. *)
Theorem finished_coroutine_run_again (fuel : nat) (th : Thread) (p : ptr) (s : State)
    (j : Job) :
  mem s !! p = Some j → m_done j = true → m_continuation j = None →
  (∀ q jq, m_parent j = Some q → q ≠ p → mem s !! q = Some jq → m_children jq ≠ 1 →
     ∃ s', Job_call (S (S fuel)) th p s = Ok (tt, s') ∧
           mem s' !! q = Some (set_children (Int32.wrap (m_children jq - 1)) jq) ∧
           calls s' = calls s ++ [call_on_finished p; call_child_finished q]) ∧
  (∃ s' j', (Job_reset p;; Job_call (S fuel) th p) s = Ok (tt, s') ∧
            calls s' = calls s ++ [call_on_finished p] ∧
            (∀ x, x ≠ p → mem s' !! x = mem s !! x) ∧
            mem s' !! p = Some j' ∧ m_done j' = true ∧ m_value j' = m_value j).
Proof.
  intros Hj Hd Hcont. split.
  - intros q jq Hpar Hqp Hjq Hne. unfold Job_call.
    rewrite (bind_Ok _ _ _ _ _ (update_Ok _ _ _ _ Hj)).
    set (s1 := set_mem _ s).
    assert (mem s1 !! p = Some (set_children 1 j)) as H1
      by (subst s1; simpl; by rewrite lookup_insert_eq).
    rewrite (bind_Ok _ _ _ _ _ (Coro_promise_resume_done th p s1 _ H1 Hd)).
    rewrite (bind_Ok _ _ _ _ _ (fetch_sub_Ok _ 1 _ _ H1)).
    change (m_children (set_children 1 j)) with 1.
    rewrite bool_decide_eq_true_2 by done.
    set (s2 := set_mem _ s1).
    assert (mem s2 !! p = Some (set_children (Int32.wrap (1 - 1)) (set_children 1 j))) as H2
      by (subst s2; simpl; by rewrite lookup_insert_eq).
    rewrite (on_finished_notify _ th p s2 _ q H2 Hcont Hpar).
    set (s3 := add_call _ s2).
    assert (mem s3 !! q = Some jq) as H3.
    { subst s3 s2 s1. simpl. by rewrite !lookup_insert_ne. }
    rewrite (child_finished_step _ th q s3 jq H3). cbv zeta.
    rewrite bool_decide_eq_false_2 by done.
    eexists. split; [done|]. simpl. split; [by rewrite lookup_insert_eq|].
    by rewrite <- app_assoc.
  - rewrite (bind_Ok _ _ _ _ _ (Job_reset_Ok p s j Hj)).
    set (j0 := set_continuation None (set_parent None (set_children 1 (set_next None j)))).
    set (s0 := set_mem _ s).
    assert (mem s0 !! p = Some j0) as H0 by (subst s0; simpl; by rewrite lookup_insert_eq).
    unfold Job_call.
    rewrite (bind_Ok _ _ _ _ _ (update_Ok _ _ _ _ H0)).
    set (s1 := set_mem _ s0).
    assert (mem s1 !! p = Some (set_children 1 j0)) as H1
      by (subst s1; simpl; by rewrite lookup_insert_eq).
    rewrite (bind_Ok _ _ _ _ _ (Coro_promise_resume_done th p s1 _ H1 Hd)).
    rewrite (bind_Ok _ _ _ _ _ (fetch_sub_Ok _ 1 _ _ H1)).
    change (m_children (set_children 1 j0)) with 1.
    rewrite bool_decide_eq_true_2 by done.
    set (s2 := set_mem _ s1).
    assert (mem s2 !! p = Some (set_children (Int32.wrap (1 - 1)) (set_children 1 j0))) as H2
      by (subst s2; simpl; by rewrite lookup_insert_eq).
    rewrite (on_finished_leaf _ th p s2 _ H2 eq_refl eq_refl).
    eexists _, _. split; [done|]. split; [done|]. split.
    + intros x Hx. simpl. by rewrite !lookup_insert_ne.
    + simpl. rewrite lookup_insert_eq. done.
Qed.

Lemma finished_coroutine_run_again_witness :
  let s := exec (thread_task_turns 3 [0; 0; 0]) parent_and_child in
  (∃ s', Job_call 2 (mkThread 0 (Some 2%nat)) 2 s = Ok (tt, s') ∧
         m_children <$> (mem s' !! 1%nat) = Some (-1)) ∧
  (∃ s', (Job_reset 2;; Job_call 1 (mkThread 0 (Some 2%nat)) 2) s = Ok (tt, s') ∧
         m_children <$> (mem s' !! 1%nat) = Some 0).
Proof.
  intros s.
  assert (mem s !! 2%nat = Some (mkJob None 0 (Some 1%nat) None (-1) (Some 1%nat) 20
                                       (co_return 20) true)) as H2
    by (vm_compute; reflexivity).
  assert (mem s !! 1%nat = Some (mkJob None 0 None None (-1) None 10
                                       (co_return 10) true)) as H1
    by (vm_compute; reflexivity).
  destruct (finished_coroutine_run_again 0 (mkThread 0 (Some 2%nat)) 2 s _ H2 eq_refl eq_refl)
    as [Hagain (s' & j' & Hrun & _ & Hoth & _)].
  split.
  - destruct (Hagain 1%nat (mkJob None 0 None None (-1) None 10 (co_return 10) true) eq_refl)
      as (s1 & Hrun1 & Hq & _); [done|exact H1|done|].
    exists s1. split; [exact Hrun1|]. unfold ptr in *. rewrite Hq. reflexivity.
  - exists s'. split; [exact Hrun|].
    pose proof (Hoth 1%nat ltac:(done)) as Ho.
    unfold ptr in *. rewrite Ho, H1. reflexivity.
Defined.

(** ** Completion along a chain of parents *)

Section chain.
Implicit Types (s : State) (j : Job) (l : list ptr).

Lemma finishing_chain_frame m l top p x :
  p ∉ l → finishing_chain m l top → finishing_chain (<[p := x]> m) l top.
Proof.
  induction l as [|y l IH]; intros Hp; simpl; [done|].
  apply not_elem_of_cons in Hp as [Hne Hp].
  intros (j & Hj & Hc & Hone & Hpar & Hl).
  exists j. rewrite lookup_insert_ne by done. repeat split; try done. by apply IH.
Qed.

(** One job of the chain: its counter goes to 0 and [on_finished]
    passes the notification on to its parent. *)
Lemma child_finished_link fuel th p s j q :
  mem s !! p = Some j → m_continuation j = None → m_children j = 1 →
  m_parent j = Some q →
  child_finished (S (S fuel)) th p s =
    child_finished fuel th q
      (add_call (call_on_finished p)
         (set_mem (<[p := set_children 0 j]> (mem s)) (add_call (call_child_finished p) s))).
Proof.
  intros Hj Hc Hone Hpar.
  rewrite (child_finished_step _ th p s j Hj). cbv zeta.
  rewrite Hone. rewrite bool_decide_eq_true_2 by done.
  change (Int32.wrap (1 - 1)) with 0.
  rewrite (on_finished_notify _ th p _ (set_children 0 j) q); [done| |done|done].
  simpl. by rewrite lookup_insert_eq.
Qed.

Lemma child_finished_root fuel th p s j :
  mem s !! p = Some j → m_continuation j = None → m_children j = 1 →
  m_parent j = None →
  child_finished (S (S fuel)) th p s =
    Ok (tt, add_call (call_on_finished p)
              (set_mem (<[p := set_children 0 j]> (mem s))
                       (add_call (call_child_finished p) s))).
Proof.
  intros Hj Hc Hone Hpar.
  rewrite (child_finished_step _ th p s j Hj). cbv zeta.
  rewrite Hone. rewrite bool_decide_eq_true_2 by done.
  change (Int32.wrap (1 - 1)) with 0.
  rewrite (on_finished_leaf _ th p _ (set_children 0 j)); [done| |done|done].
  simpl. by rewrite lookup_insert_eq.
Qed.

Lemma chain_to_root th : ∀ l p s,
  NoDup (p :: l) → finishing_chain (mem s) (p :: l) None →
  ∃ s', child_finished (2 * length (p :: l)) th p s = Ok (tt, s') ∧
        calls s' = calls s ++
          flat_map (λ x, [call_child_finished x; call_on_finished x]) (p :: l) ∧
        (∀ x, x ∈ p :: l → m_children <$> (mem s' !! x) = Some 0) ∧
        (∀ x, x ∉ p :: l → mem s' !! x = mem s !! x).
Proof.
  induction l as [|q l IH]; intros p s Hnd (j & Hj & Hc & Hone & Hpar & Hl).
  - eexists. split; [by apply (child_finished_root 0 th p s j)|].
    split; [by simpl; rewrite <- app_assoc|]. split.
    + intros x ->%list_elem_of_singleton. simpl. by rewrite lookup_insert_eq.
    + intros x Hx%not_elem_of_cons. simpl. rewrite lookup_insert_ne; [done|]. by destruct Hx.
  - apply NoDup_cons in Hnd as [Hp Hnd].
    replace (2 * length (p :: q :: l))%nat with (S (S (2 * length (q :: l)))) by (simpl; lia).
    rewrite (child_finished_link _ th p s j q Hj Hc Hone Hpar).
    set (s2 := add_call _ _).
    destruct (IH q s2 Hnd) as (s' & Hrun & Hcalls & Hzero & Hoth).
    { subst s2. simpl. by apply (finishing_chain_frame _ (q :: l)). }
    exists s'. split; [done|]. split; [|split].
    + rewrite Hcalls. subst s2. simpl. by rewrite <- !app_assoc.
    + intros x [->|Hx]%elem_of_cons; [|by apply Hzero].
      rewrite Hoth by done. subst s2. simpl. by rewrite lookup_insert_eq.
    + intros x Hx%not_elem_of_cons. destruct Hx as [Hxp Hx].
      rewrite Hoth by done. subst s2. simpl. by rewrite lookup_insert_ne.
Qed.

Lemma chain_to_busy th top jt : ∀ l p s,
  NoDup (p :: l) → top ∉ p :: l →
  finishing_chain (mem s) (p :: l) (Some top) →
  mem s !! top = Some jt → m_children jt ≠ 1 →
  ∃ s', child_finished (2 * length (p :: l) + 1) th p s = Ok (tt, s') ∧
        calls s' = calls s ++
          flat_map (λ x, [call_child_finished x; call_on_finished x]) (p :: l) ++
          [call_child_finished top] ∧
        (∀ x, x ∈ p :: l → m_children <$> (mem s' !! x) = Some 0) ∧
        mem s' !! top = Some (set_children (Int32.wrap (m_children jt - 1)) jt) ∧
        (∀ x, x ∉ p :: l → x ≠ top → mem s' !! x = mem s !! x).
Proof.
  induction l as [|q l IH]; intros p s Hnd Htop (j & Hj & Hc & Hone & Hpar & Hl) Hjt Hne.
  - apply not_elem_of_cons in Htop as [Htp _].
    replace (2 * length [p] + 1)%nat with 3%nat by done.
    rewrite (child_finished_link _ th p s j top Hj Hc Hone Hpar).
    set (s2 := add_call _ _).
    assert (mem s2 !! top = Some jt) as Hjt2 by (subst s2; simpl; by rewrite lookup_insert_ne).
    rewrite (child_finished_step _ th top s2 jt Hjt2). cbv zeta.
    rewrite bool_decide_eq_false_2 by done.
    eexists. split; [done|]. split; [by subst s2; simpl; rewrite <- !app_assoc|].
    split; [|split].
    + intros x ->%list_elem_of_singleton. subst s2. simpl.
      rewrite lookup_insert_ne by done. by rewrite lookup_insert_eq.
    + simpl. by rewrite lookup_insert_eq.
    + intros x Hx%not_elem_of_cons Hxt. destruct Hx as [Hxp _]. subst s2. simpl.
      by rewrite !lookup_insert_ne.
  - apply NoDup_cons in Hnd as [Hp Hnd].
    apply not_elem_of_cons in Htop as [Htp Htop].
    replace (2 * length (p :: q :: l) + 1)%nat with (S (S (2 * length (q :: l) + 1)))
      by (simpl; lia).
    rewrite (child_finished_link _ th p s j q Hj Hc Hone Hpar).
    set (s2 := add_call _ _).
    destruct (IH q s2 Hnd Htop) as (s' & Hrun & Hcalls & Hzero & Htop' & Hoth).
    { subst s2. simpl. by apply (finishing_chain_frame _ (q :: l)). }
    { subst s2. simpl. by rewrite lookup_insert_ne. }
    { done. }
    exists s'. split; [done|]. split; [|split; [|split; [done|]]].
    + rewrite Hcalls. subst s2. simpl. by rewrite <- !app_assoc.
    + intros x [->|Hx]%elem_of_cons; [|by apply Hzero].
      rewrite Hoth by done. subst s2. simpl. by rewrite lookup_insert_eq.
    + intros x Hx%not_elem_of_cons Hxt. destruct Hx as [Hxp Hx].
      rewrite Hoth by done. subst s2. simpl. by rewrite lookup_insert_ne.
Qed.
End chain.

(** X16.  Completion climbs the chain of parents.  When the last child
    of a job finishes, [child_finished] takes the counter of the job to
    0 and [on_finished] notifies its parent, whose counter goes to 0 in
    turn, and so on: along a chain of jobs that each wait for this one
    notification only, every job finishes, in order, within two nested
    calls per job.  The climb ends at a job without parent, or at the
    first ancestor that still waits for something else: its counter is
    decremented and it does not finish. *)
Theorem completion_climbs_parents (th : Thread) (p : ptr) (l : list ptr) (s : State)
    (top : option ptr) :
  NoDup (p :: l) → finishing_chain (mem s) (p :: l) top →
  (top = None →
   ∃ s', child_finished (2 * length (p :: l)) th p s = Ok (tt, s') ∧
         calls s' = calls s ++
           flat_map (λ x, [call_child_finished x; call_on_finished x]) (p :: l) ∧
         (∀ x, x ∈ p :: l → m_children <$> (mem s' !! x) = Some 0) ∧
         (∀ x, x ∉ p :: l → mem s' !! x = mem s !! x)) ∧
  (∀ q jq, top = Some q → q ∉ p :: l → mem s !! q = Some jq → m_children jq ≠ 1 →
   ∃ s', child_finished (2 * length (p :: l) + 1) th p s = Ok (tt, s') ∧
         calls s' = calls s ++
           flat_map (λ x, [call_child_finished x; call_on_finished x]) (p :: l) ++
           [call_child_finished q] ∧
         (∀ x, x ∈ p :: l → m_children <$> (mem s' !! x) = Some 0) ∧
         mem s' !! q = Some (set_children (Int32.wrap (m_children jq - 1)) jq) ∧
         (∀ x, x ∉ p :: l → x ≠ q → mem s' !! x = mem s !! x)).
Proof.
  intros Hnd Hchain. split.
  - intros ->. by apply chain_to_root.
  - intros q jq -> Hq Hjq Hne. by apply (chain_to_busy th q jq).
Qed.

Lemma completion_climbs_parents_witness :
  (∃ s', child_finished 5 (mkThread 0 None) 1 chain_busy = Ok (tt, s') ∧
         m_children <$> (mem s' !! 2%nat) = Some 0 ∧
         m_children <$> (mem s' !! 3%nat) = Some 1) ∧
  (∃ s', child_finished 6 (mkThread 0 None) 1 chain_free = Ok (tt, s') ∧
         m_children <$> (mem s' !! 3%nat) = Some 0).
Proof.
  split.
  - destruct (completion_climbs_parents (mkThread 0 None) 1 [2%nat] chain_busy (Some 3%nat))
      as [_ Hbusy].
    + compute_done.
    + vm_compute. solve_is_list.
    + destruct (Hbusy 3%nat (set_children 2 (set_continuation None (new_promise 3 (co_return 30))))
                  eq_refl)
        as (s' & Hrun & _ & Hzero & Htop & _); [compute_done|by vm_compute|done|].
      exists s'. split; [exact Hrun|]. split.
      * apply Hzero. right. by left.
      * unfold ptr in *. rewrite Htop. reflexivity.
  - destruct (completion_climbs_parents (mkThread 0 None) 1 [2; 3]%nat chain_free None)
      as [Hroot _].
    + compute_done.
    + vm_compute. solve_is_list.
    + destruct (Hroot eq_refl) as (s' & Hrun & _ & Hzero & _).
      exists s'. split; [exact Hrun|]. apply Hzero. right. right. by left.
Defined.

(** ** Allocation of the coroutine frame *)

Section alloc.

Lemma land_clear_low (x k : Z) :
  0 <= k < 64 → 0 <= x < 2 ^ 64 →
  Z.land x (Alloc.wrap (Z.lnot (Alloc.wrap (2 ^ k - 1)))) = x - x mod 2 ^ k.
Proof.
  intros Hk Hx. unfold Alloc.wrap.
  assert (0 < 2 ^ k <= 2 ^ 63) as Hpow.
  { split; [apply Z.pow_pos_nonneg; lia|apply Z.pow_le_mono_r; lia]. }
  rewrite (Z.mod_small (2 ^ k - 1)) by lia.
  replace (2 ^ k - 1) with (Z.ones k) by (rewrite Z.ones_equiv; lia).
  rewrite <- (Z.land_ones _ 64) by lia.
  rewrite (Z.land_comm (Z.lnot (Z.ones k)) (Z.ones 64)), Z.land_assoc.
  rewrite (Z.land_ones x 64) by lia.
  rewrite (Z.mod_small x) by lia.
  rewrite <- Z.ldiff_land, Z.ldiff_ones_r by lia.
  rewrite Z.shiftr_div_pow2, Z.shiftl_mul_pow2 by lia.
  pose proof (Z.div_mod x (2 ^ k) ltac:(lia)). lia.
Qed.

Lemma allocatorOffset_eq (k sz : Z) :
  0 <= k < 64 → 0 <= sz → sz + 2 ^ k - 1 < 2 ^ 64 →
  Alloc.allocatorOffset (2 ^ k) sz = (sz + 2 ^ k - 1) - (sz + 2 ^ k - 1) mod 2 ^ k.
Proof.
  intros Hk Hsz Hmax. unfold Alloc.allocatorOffset.
  assert (0 < 2 ^ k) as Hpow by (apply Z.pow_pos_nonneg; lia).
  unfold Alloc.wrap at 1. rewrite (Z.mod_small (sz + 2 ^ k - 1)) by lia.
  apply land_clear_low; lia.
Qed.
End alloc.

(** X17.  The offset at which [operator new] of the promise stores the
    pointer to the memory resource.  When the alignment of a pointer is
    a power of two and the sum does not overflow [std::size_t], the mask
    [(sz + a - 1) & ~(a - 1)] is the least multiple of the alignment
    that is not below the size of the frame: the pointer is stored
    behind the frame, aligned, with fewer than [a] bytes of padding, and
    with no padding if the size is a multiple of the alignment. *)
Theorem allocatorOffset_rounds_up (k sz : Z) :
  0 <= k < 64 → 0 <= sz → sz + 2 ^ k - 1 < 2 ^ 64 →
  sz <= Alloc.allocatorOffset (2 ^ k) sz < sz + 2 ^ k ∧
  Alloc.allocatorOffset (2 ^ k) sz mod 2 ^ k = 0 ∧
  (∀ off, sz <= off → off mod 2 ^ k = 0 → Alloc.allocatorOffset (2 ^ k) sz <= off).
Proof.
  intros Hk Hsz Hmax. rewrite (allocatorOffset_eq k sz Hk Hsz Hmax).
  assert (0 < 2 ^ k) as Hpow by (apply Z.pow_pos_nonneg; lia).
  pose proof (Z.mod_pos_bound (sz + 2 ^ k - 1) (2 ^ k) Hpow) as Hr.
  pose proof (Z.div_mod (sz + 2 ^ k - 1) (2 ^ k) ltac:(lia)) as Hdm.
  split; [lia|]. split.
  - replace (sz + 2 ^ k - 1 - (sz + 2 ^ k - 1) mod 2 ^ k)
      with ((sz + 2 ^ k - 1) / 2 ^ k * 2 ^ k) by lia.
    apply Z_mod_mult.
  - intros off Hoff Hmod.
    pose proof (Z.div_mod off (2 ^ k) ltac:(lia)) as Hoffdm. rewrite Hmod in Hoffdm.
    set (a := 2 ^ k) in *. set (q := (sz + a - 1) / a) in *. set (q' := off / a) in *.
    assert (q <= q') as Hq; [|nia].
    destruct (Z_lt_le_dec q' q) as [Hlt|Hle]; [|done]. exfalso. nia.
Qed.

Lemma allocatorOffset_rounds_up_witness :
  Alloc.allocatorOffset 8 100 = 104 ∧ Alloc.allocatorOffset 8 104 = 104.
Proof.
  destruct (allocatorOffset_rounds_up 3 100) as (Hrange & Hmod & Hleast); [lia..|].
  destruct (allocatorOffset_rounds_up 3 104) as (Hrange' & Hmod' & Hleast'); [lia..|].
  change (2 ^ 3) with 8 in *. split.
  - specialize (Hleast 104 ltac:(lia) eq_refl).
    set (off := Alloc.allocatorOffset 8 100) in *.
    pose proof (Z.div_mod off 8 ltac:(lia)). lia.
  - specialize (Hleast' 104 ltac:(lia) eq_refl). lia.
Defined.

(** X18.  [operator delete] of the promise undoes [operator new]: it
    finds, behind the frame, the memory resource that [operator new]
    stored there and returns the block to that resource, at the address
    and with the number of bytes of the allocation.  A frame allocated
    in between does not disturb this as long as its pointer is stored in
    a slot that does not overlap the first one. *)
Theorem operator_delete_after_new (alignof sizeof : Z)
    (do_allocate : list Alloc.event → nat → Z → option Z)
    (sz : Z) (mr : nat) (m m' : Alloc.Raw) (ptr : Z) :
  0 < sizeof →
  Alloc.operator_new alignof sizeof do_allocate sz mr m = Alloc.Returned ptr m' →
  ∃ bytes,
    do_allocate (Alloc.events m) mr bytes = Some ptr ∧
    bytes = Alloc.wrap (Alloc.allocatorOffset alignof sz + sizeof) ∧
    Alloc.events m' = Alloc.events m ++ [Alloc.ev_allocate mr bytes ptr] ∧
    Alloc.operator_delete alignof sizeof ptr sz m' =
      Alloc.Returned tt
        (Alloc.mkRaw (Alloc.stored m')
                     (Alloc.events m' ++ [Alloc.ev_deallocate mr ptr bytes])) ∧
    (∀ sz2 mr2 ptr2 m2,
       Alloc.operator_new alignof sizeof do_allocate sz2 mr2 m' = Alloc.Returned ptr2 m2 →
       ptr2 + Alloc.allocatorOffset alignof sz2 + sizeof <= ptr + Alloc.allocatorOffset alignof sz ∨
       ptr + Alloc.allocatorOffset alignof sz + sizeof <= ptr2 + Alloc.allocatorOffset alignof sz2 →
       Alloc.operator_delete alignof sizeof ptr sz m2 =
         Alloc.Returned tt
           (Alloc.mkRaw (Alloc.stored m2)
                        (Alloc.events m2 ++ [Alloc.ev_deallocate mr ptr bytes]))).
Proof.
  intros Hsize. unfold Alloc.operator_new. cbv zeta.
  destruct (do_allocate _ _ _) as [p|] eqn:Halloc; [|done].
  intros [= -> <-].
  eexists. split; [exact Halloc|]. split; [done|]. split; [done|]. split.
  - unfold Alloc.operator_delete. cbv zeta. simpl. by rewrite lookup_insert_eq.
  - clear Halloc. intros sz2 mr2 ptr2 m2. simpl.
    destruct (do_allocate _ _ _) as [p2|]; [|done].
    intros [= -> <-] Hne.
    unfold Alloc.operator_delete. cbv zeta. simpl.
    rewrite lookup_insert_ne by lia. by rewrite lookup_insert_eq.
Qed.

Lemma operator_delete_after_new_witness :
  ∃ m' m'',
    Alloc.operator_new 8 8 (λ _ _ _, Some 4096) 100 7 (Alloc.mkRaw ∅ []) =
      Alloc.Returned 4096 m' ∧
    Alloc.operator_delete 8 8 4096 100 m' = Alloc.Returned tt m'' ∧
    Alloc.events m'' = [Alloc.ev_allocate 7 112 4096; Alloc.ev_deallocate 7 4096 112].
Proof.
  destruct (operator_delete_after_new 8 8 (λ _ _ _, Some 4096) 100 7 (Alloc.mkRaw ∅ [])
              (Alloc.mkRaw (<[4200 := 7%nat]> ∅) [Alloc.ev_allocate 7 112 4096]) 4096
              ltac:(lia) eq_refl)
    as (bytes & _ & -> & Hev & Hdel & _).
  eexists _, _. split; [reflexivity|]. split; [exact Hdel|]. reflexivity.
Defined.

(** ** [awaitable_tuple] *)

Section tuple.

Lemma fold_sizes (sizes : list Z) : ∀ acc,
  0 <= acc → Forall (λ z, 0 <= z) sizes → acc + foldr Z.add 0 sizes < 2 ^ 64 →
  fold_left (λ num size, (num + size) mod 2 ^ 64) sizes acc = acc + foldr Z.add 0 sizes.
Proof.
  induction sizes as [|z sizes IH]; intros acc Hacc Hall Hsum; simpl in *; [lia|].
  apply Forall_cons in Hall as [Hz Hall].
  assert (0 <= foldr Z.add 0 sizes) as Hrest.
  { clear -Hall. induction Hall; simpl; lia. }
  rewrite (Z.mod_small (acc + z)) by lia. rewrite IH; [lia|lia|done|lia].
Qed.
End tuple.

(** X19.  [co_await] on a tuple of vectors does not suspend exactly
    when all the vectors are empty: [await_ready] adds up their sizes
    and compares the sum with zero.  (The sum is taken in
    [std::size_t]; it is the true sum as long as that fits.) *)
Theorem awaitable_tuple_ready_iff_empty (sizes : list Z) :
  Forall (λ z, 0 <= z) sizes → foldr Z.add 0 sizes < 2 ^ 64 →
  awaitable_tuple_await_ready sizes = true ↔ Forall (λ z, z = 0) sizes.
Proof.
  intros Hall Hsum. unfold awaitable_tuple_await_ready. cbv zeta.
  rewrite fold_sizes by (done || lia). rewrite Z.add_0_l.
  rewrite bool_decide_eq_true. clear Hsum.
  induction Hall as [|z sizes Hz Hall IH]; simpl; [done|].
  assert (0 <= foldr Z.add 0 sizes) as Hrest.
  { clear -Hall. induction Hall; simpl; lia. }
  rewrite Forall_cons. split.
  - intros H. split; [lia|]. apply IH. lia.
  - intros [-> H]. apply IH in H. lia.
Qed.

Lemma awaitable_tuple_ready_iff_empty_witness :
  awaitable_tuple_await_ready [0; 0; 0] = true ∧
  awaitable_tuple_await_ready [0; 2; 0] = false.
Proof.
  split.
  - apply (awaitable_tuple_ready_iff_empty [0; 0; 0]).
    + repeat constructor; lia.
    + simpl. lia.
    + by repeat constructor.
  - apply not_true_is_false. intros H.
    apply (awaitable_tuple_ready_iff_empty [0; 2; 0]) in H.
    + apply Forall_cons in H as [_ H]. apply Forall_cons in H as [H _]. done.
    + repeat constructor; lia.
    + simpl. lia.
Defined.

(** ** [Coro<T>::resume] outside the job system *)

(** X20.  A coroutine that is resumed by hand through [Coro<T>::resume],
    on a thread that is running no job, and that then awaits a child
    coroutine: the child is submitted to the central queue without a
    parent, and the awaiting coroutine stays suspended with its counter
    at 1.  When the child is then executed and reaches its [co_return],
    the only protocol call is [on_finished] on the child: nothing is
    pushed onto a queue and the awaiting coroutine is left as it was
    suspended, so it does not run again unless it is resumed by hand. *)
Theorem resume_by_hand_is_not_resumed (th : Thread) (P C : ptr) (s : State)
    (jP jC : Job) (rest : coro_body) :
  current_job th = None →
  mem s !! P = Some jP → m_done jP = false →
  first_suspension th (m_coro jP) = susp_await C rest →
  C ≠ P → mem s !! C = Some jC → m_done jC = false →
  ∃ s' jP' jC',
    Coro_resume th (Some P) s = Ok (true, s') ∧
    mem s' !! P = Some jP' ∧ m_coro jP' = rest ∧ m_done jP' = false ∧
    m_children jP' = 1 ∧
    mem s' !! C = Some jC' ∧ m_coro_parent jC' = None ∧
    m_central_queue s' = Some C ∧
    calls s' = calls s ++ [call_schedule C (-1)] ∧
    ∀ fuel th' w, first_suspension th' (m_coro jC) = susp_return w →
      ∃ s'', Job_call (S fuel) th' C s' = Ok (tt, s'') ∧
             calls s'' = calls s' ++ [call_on_finished C] ∧
             m_central_queue s'' = m_central_queue s' ∧
             m_local_queues s'' = m_local_queues s' ∧
             mem s'' !! P = Some jP'.
Proof.
  intros Hcur HP HdP Hfs HCP HC HdC.
  set (s1 := set_mem (<[P := set_children 1 jP]> (mem s)) s).
  set (s2 := set_mem (<[P := set_frame rest false (set_children 1 jP)]> (mem s1)) s1).
  assert (mem s1 !! P = Some (set_children 1 jP)) as HP1
    by (subst s1; simpl; by rewrite lookup_insert_eq).
  assert (mem s2 !! P = Some (set_frame rest false (set_children 1 jP))) as HP2
    by (subst s2; simpl; by rewrite lookup_insert_eq).
  assert (mem s2 !! C = Some jC) as HC2
    by (subst s2 s1; simpl; by rewrite !lookup_insert_ne).
  destruct (schedule_coro_Ok th C s2 jC HC2) as (s' & Hsched & Hq & _ & Hcalls & Hmem & _).
  { intros p. by rewrite Hcur. }
  destruct (Hmem P _ HP2)
    as (jP' & HP' & HchP & _ & _ & _ & _ & _ & _ & HcoP & HdP').
  destruct (Hmem C _ HC2)
    as (jC' & HC' & _ & HcpC & _ & _ & _ & _ & _ & HcoC & HdC').
  rewrite Hcur in HchP, HcpC. rewrite decide_False in HchP by done.
  rewrite decide_True in HcpC by done.
  exists s', jP', jC'. split; [|split_and!; try done].
  - unfold Coro_resume.
    rewrite (bind_Ok _ _ _ _ _ (deref_Ok _ _ _ HP)). rewrite HdP.
    unfold Coro_promise_resume.
    unfold mbind at 1, M_bind. unfold mbind at 1, M_bind.
    rewrite (bind_Ok _ _ _ _ _ (deref_Ok _ _ _ HP)). rewrite HdP.
    unfold mbind at 1, M_bind. unfold mbind at 1, M_bind.
    rewrite (update_Ok _ _ _ _ HP). fold s1.
    rewrite (coro_resume_await th P (m_coro jP) C rest s1 Hfs).
    unfold suspend. unfold mbind at 1, M_bind.
    rewrite (update_Ok _ _ _ _ HP1). fold s2. by rewrite Hsched.
  - intros fuel th' w Hret.
    rewrite (Job_call_return_orphan fuel th' C s' jC' w HC');
      [|by rewrite HdC'|by rewrite HcoC|done].
    eexists. split; [done|]. split; [done|]. split; [done|]. split; [done|].
    simpl. by rewrite lookup_insert_ne.
Qed.

Lemma resume_by_hand_is_not_resumed_witness :
  ∃ s' s'',
    Coro_resume (mkThread 0 None) (Some 1%nat) created_pair = Ok (true, s') ∧
    Job_call 1 (mkThread 0 (Some 2%nat)) 2 s' = Ok (tt, s'') ∧
    calls s'' = calls created_pair ++ [call_schedule 2 (-1); call_on_finished 2].
Proof.
  destruct (resume_by_hand_is_not_resumed (mkThread 0 None) 1 2 created_pair
              (new_promise 1 (co_await_coro 2 (co_return 10))) (new_promise 2 (co_return 20))
              (co_return 10))
    as (s' & jP' & jC' & Hrun & _ & _ & _ & _ & _ & _ & _ & Hcalls & Hchild);
    [done|by vm_compute|done|done|done|by vm_compute|done|].
  destruct (Hchild 0%nat (mkThread 0 (Some 2%nat)) 20 eq_refl) as (s'' & Hcall & Hcalls' & _).
  exists s', s''. split; [exact Hrun|]. split; [exact Hcall|].
  rewrite Hcalls', Hcalls. by rewrite <- app_assoc.
Defined.

(** ** Executions with single submission, in general: the invariant *)

(** *** The watch only stops runs *)

Section watched.
Implicit Types (s : State) (th : Thread).

Lemma watched_fetch_sub_inv p s old s' :
  watched_fetch_sub p s = Ok (old, s') → fetch_sub p 1 s = Ok (old, s') ∧ 1 <= old.
Proof.
  unfold watched_fetch_sub. intros (o & s1 & Hsub & H)%bind_inv_Ok.
  case_bool_decide as Hlow; [done|]. inversion H; subst. split; [done|lia].
Qed.

Lemma watched_fetch_sub_Ok p s j :
  mem s !! p = Some j → 1 <= m_children j <= Int32.max_signed →
  watched_fetch_sub p s =
    Ok (m_children j, set_mem (<[p := set_children (m_children j - 1) j]> (mem s)) s).
Proof.
  intros Hj Hone. unfold watched_fetch_sub.
  rewrite (bind_Ok _ _ _ _ _ (fetch_sub_Ok _ 1 _ _ Hj)).
  assert (Int32.wrap (m_children j - 1) = m_children j - 1) as ->.
  { apply wrap_small. unfold Int32.in_range, Int32.min_signed, Int32.max_signed in *. lia. }
  by rewrite bool_decide_eq_false_2 by lia.
Qed.

Lemma watched_fetch_add_inv p s old s' :
  watched_fetch_add p s = Ok (old, s') → fetch_add p 1 s = Ok (old, s').
Proof.
  unfold watched_fetch_add. intros (o & s1 & Hadd & H)%bind_inv_Ok.
  case_bool_decide as Hlow; [done|]. by inversion H; subst.
Qed.

Lemma watched_fetch_add_Ok p s j :
  mem s !! p = Some j → 0 <= m_children j < Int32.max_signed →
  watched_fetch_add p s =
    Ok (m_children j, set_mem (<[p := set_children (m_children j + 1) j]> (mem s)) s).
Proof.
  intros Hj Hone. unfold watched_fetch_add.
  rewrite (bind_Ok _ _ _ _ _ (fetch_add_Ok _ 1 _ _ Hj)).
  assert (Int32.wrap (m_children j + 1) = m_children j + 1) as ->.
  { apply wrap_succ; [|lia]. unfold Int32.in_range, Int32.min_signed, Int32.max_signed in *. lia. }
  by rewrite bool_decide_eq_false_2 by lia.
Qed.

(** A run that completes under watch is a run of the code. *)
Lemma watched_schedule_coro_run th c s r :
  watched_schedule_coro th c s = Ok r → schedule_coro th c s = Ok r.
Proof.
  destruct r as [[] s']. unfold watched_schedule_coro, schedule_coro.
  intros (u1 & s1 & H1 & H)%bind_inv_Ok.
  assert (match current_job th with
          | Some p => fetch_add p 1;; mret tt
          | None => mret tt
          end s = Ok (u1, s1)) as H1'.
  { destruct (current_job th); [|done].
    apply bind_inv_Ok in H1 as (o & s0 & H0%watched_fetch_add_inv & H1).
    by rewrite (bind_Ok _ _ _ _ _ H0). }
  by rewrite (bind_Ok _ _ _ _ _ H1').
Qed.

Lemma watched_schedule_coros_run th cs : ∀ s r,
  watched_schedule_coros th cs s = Ok r → schedule_coros th cs s = Ok r.
Proof.
  induction cs as [|c cs IH]; intros s [[] s']; simpl; [done|].
  intros (u1 & s1 & H1%watched_schedule_coro_run & H)%bind_inv_Ok.
  rewrite (bind_Ok _ _ _ _ _ H1). by apply IH.
Qed.

Lemma watched_tuple_await_suspend_run th css : ∀ s r,
  watched_tuple_await_suspend th css s = Ok r → awaitable_tuple_await_suspend th css s = Ok r.
Proof.
  induction css as [|cs css IH]; intros s [[] s']; simpl; [done|].
  intros (u1 & s1 & H1%watched_schedule_coros_run & H)%bind_inv_Ok.
  rewrite (bind_Ok _ _ _ _ _ H1). by apply IH.
Qed.

Lemma watched_coro_resume_run th self body : ∀ s r,
  watched_coro_resume th self body s = Ok r → coro_resume th self body s = Ok r.
Proof.
  induction body as [v|c rest IH|k rest IH|c rest IH|cs rest IH|css rest IH];
    intros s [[] s']; simpl.
  - done.
  - intros (u1 & s1 & H1 & H)%bind_inv_Ok. rewrite (bind_Ok _ _ _ _ _ H1).
    by apply watched_schedule_coro_run.
  - destruct (awaitable_resume_on_await_ready th k); [by apply IH|done].
  - intros (u1 & s1 & H1%watched_schedule_coro_run & H)%bind_inv_Ok.
    rewrite (bind_Ok _ _ _ _ _ H1). by apply IH.
  - destruct (awaitable_coro_vector_await_ready cs); [by apply IH|].
    intros (u1 & s1 & H1 & H)%bind_inv_Ok. rewrite (bind_Ok _ _ _ _ _ H1).
    by apply watched_schedule_coros_run.
  - destruct (awaitable_tuple_await_ready _); [by apply IH|].
    intros (u1 & s1 & H1 & H)%bind_inv_Ok. rewrite (bind_Ok _ _ _ _ _ H1).
    by apply watched_tuple_await_suspend_run.
Qed.

Lemma watched_Coro_promise_resume_run th self s r :
  watched_Coro_promise_resume th self s = Ok r → Coro_promise_resume th self s = Ok r.
Proof.
  destruct r as [b s']. unfold watched_Coro_promise_resume, Coro_promise_resume.
  intros (j & s1 & H1 & H)%bind_inv_Ok. rewrite (bind_Ok _ _ _ _ _ H1).
  apply bind_inv_Ok in H as (u2 & s2 & H2 & H).
  assert ((if m_done j then mret tt
           else update self (set_children 1);; coro_resume th self (m_coro j)) s1
          = Ok (u2, s2)) as H2'.
  { destruct (m_done j); [done|].
    apply bind_inv_Ok in H2 as (u3 & s3 & H3 & H2). rewrite (bind_Ok _ _ _ _ _ H3).
    by apply watched_coro_resume_run. }
  by rewrite (bind_Ok _ _ _ _ _ H2').
Qed.

Lemma watched_protocol fuel :
  (∀ th self s r, watched_on_finished fuel th self s = Ok r →
                  on_finished fuel th self s = Ok r) ∧
  (∀ th self s r, watched_child_finished fuel th self s = Ok r →
                  child_finished fuel th self s = Ok r).
Proof.
  induction fuel as [|fuel [IHo IHc]]; [by split|]. split.
  - intros th self s [u s']. simpl.
    intros (u1 & s1 & H1 & H)%bind_inv_Ok. rewrite (bind_Ok _ _ _ _ _ H1).
    apply bind_inv_Ok in H as (j & s2 & H2 & H). rewrite (bind_Ok _ _ _ _ _ H2).
    apply bind_inv_Ok in H as (u3 & s3 & H3 & H).
    assert (match m_continuation j with
            | Some c =>
                match m_parent j with
                | Some p => fetch_add p 1;; update c (set_parent (Some p))
                | None => mret tt
                end;; schedule th c (-1)
            | None => mret tt
            end s2 = Ok (u3, s3)) as H3'.
    { destruct (m_continuation j) as [c|]; [|done].
      apply bind_inv_Ok in H3 as (u4 & s4 & H4 & H3).
      assert (match m_parent j with
              | Some p => fetch_add p 1;; update c (set_parent (Some p))
              | None => mret tt
              end s2 = Ok (u4, s4)) as H4'.
      { destruct (m_parent j) as [p|]; [|done].
        apply bind_inv_Ok in H4 as (o & s5 & H5%watched_fetch_add_inv & H4).
        by rewrite (bind_Ok _ _ _ _ _ H5). }
      by rewrite (bind_Ok _ _ _ _ _ H4'). }
    rewrite (bind_Ok _ _ _ _ _ H3').
    apply bind_inv_Ok in H as (j' & s4 & H4 & H). rewrite (bind_Ok _ _ _ _ _ H4).
    destruct (m_parent j'); [by apply IHc|done].
  - intros th self s [u s']. simpl.
    intros (u1 & s1 & H1 & H)%bind_inv_Ok. rewrite (bind_Ok _ _ _ _ _ H1).
    apply bind_inv_Ok in H as (old & s2 & [H2 _]%watched_fetch_sub_inv & H).
    rewrite (bind_Ok _ _ _ _ _ H2).
    case_bool_decide; [by apply IHo|done].
Qed.

Lemma watched_Job_call_run fuel th self s r :
  watched_Job_call fuel th self s = Ok r → Job_call fuel th self s = Ok r.
Proof.
  destruct r as [[] s']. unfold watched_Job_call, Job_call.
  intros (u1 & s1 & H1 & H)%bind_inv_Ok. rewrite (bind_Ok _ _ _ _ _ H1).
  apply bind_inv_Ok in H as (b & s2 & H2%watched_Coro_promise_resume_run & H).
  rewrite (bind_Ok _ _ _ _ _ H2).
  apply bind_inv_Ok in H as (old & s3 & [H3 _]%watched_fetch_sub_inv & H).
  rewrite (bind_Ok _ _ _ _ _ H3).
  case_bool_decide; [|done]. by apply (watched_protocol fuel).
Qed.

Lemma watched_thread_task_turn_run fuel idx s r :
  watched_thread_task_turn fuel idx s = Ok r → thread_task_turn fuel idx s = Ok r.
Proof.
  destruct r as [r s']. unfold watched_thread_task_turn, thread_task_turn.
  intros (l & s1 & H1 & H)%bind_inv_Ok. rewrite (bind_Ok _ _ _ _ _ H1).
  apply bind_inv_Ok in H as (job & s2 & H2 & H). rewrite (bind_Ok _ _ _ _ _ H2).
  destruct job as [j|]; [|done].
  apply bind_inv_Ok in H as ([] & s3 & H3%watched_Job_call_run & H).
  by rewrite (bind_Ok _ _ _ _ _ H3).
Qed.
End watched.

(** *** Who notifies whom *)

Section kids.
Implicit Types (s : State) (L : gset ptr).

Lemma elem_of_kids s L q x : x ∈ kids s L q ↔ target s x = Some q ∧ x ∈ L.
Proof. unfold kids. by rewrite elem_of_filter. Qed.

Lemma kids_same s s' L q :
  (∀ x, x ∈ L → target s' x = target s x) → kids s' L q = kids s L q.
Proof.
  intros Hsame. apply set_eq. intros x. rewrite !elem_of_kids.
  split; intros [Ht Hx]; (split; [|done]); [rewrite <- Hsame|rewrite Hsame]; done.
Qed.

(** A coroutine that joins [L] with the target [t]. *)
Lemma kids_join s s' L c t q :
  c ∉ L → target s' c = t → (∀ x, x ∈ L → target s' x = target s x) →
  kids s' ({[c]} ∪ L) q = if decide (t = Some q) then {[c]} ∪ kids s L q else kids s L q.
Proof.
  intros Hc Ht Hsame. apply set_eq. intros x. case_decide as Htq.
  - rewrite elem_of_union, !elem_of_kids, elem_of_union, elem_of_singleton. split.
    + intros [Hx [->|HL]]; [by left|right]. split; [|done]. by rewrite <- Hsame.
    + intros [->|[Hx HL]]; [split; [congruence|by left]|].
      split; [|by right]. by rewrite Hsame.
  - rewrite !elem_of_kids, elem_of_union, elem_of_singleton. split.
    + intros [Hx [->|HL]]; [congruence|]. split; [|done]. by rewrite <- Hsame.
    + intros [Hx HL]. split; [|by right]. by rewrite Hsame.
Qed.

Lemma size_kids_join s L c q :
  c ∉ L → size ({[c]} ∪ kids s L q) = S (size (kids s L q)).
Proof.
  intros Hc. rewrite size_union, size_singleton; [done|].
  apply disjoint_singleton_l. rewrite elem_of_kids. tauto.
Qed.

(** A coroutine that leaves [L]. *)
Lemma kids_leave s L x q :
  kids s (L ∖ {[x]}) q = kids s L q ∖ {[x]}.
Proof.
  apply set_eq. intros y.
  rewrite elem_of_difference, !elem_of_kids, elem_of_difference. tauto.
Qed.

Lemma size_kids_leave s L x q :
  x ∈ L → target s x = Some q →
  size (kids s L q) = S (size (kids s (L ∖ {[x]}) q)).
Proof.
  intros Hx Ht. rewrite kids_leave.
  assert (x ∈ kids s L q) as Hin by (by rewrite elem_of_kids).
  assert (kids s L q = {[x]} ∪ (kids s L q ∖ {[x]})) as Heq.
  { apply set_eq. intros y. rewrite elem_of_union, elem_of_difference, elem_of_singleton.
    destruct (decide (y = x)) as [->|]; tauto. }
  rewrite Heq at 1. rewrite size_union, size_singleton; [done|].
  apply disjoint_singleton_l. rewrite elem_of_difference, elem_of_singleton. tauto.
Qed.

Lemma kids_leave_other s L x q :
  target s x ≠ Some q → kids s (L ∖ {[x]}) q = kids s L q.
Proof.
  intros Ht. apply set_eq. intros y.
  rewrite !elem_of_kids, elem_of_difference, elem_of_singleton.
  split; [tauto|]. intros [Hy HL]. split; [done|]. split; [done|]. by intros ->.
Qed.

Lemma kids_empty_size s L q : size (kids s L q) = 0%nat ↔ kids s L q = ∅.
Proof. rewrite size_empty_iff. apply leibniz_equiv_iff. Qed.

Lemma kids_subseteq s L q : kids s L q ⊆ L.
Proof. intros x. rewrite elem_of_kids. tauto. Qed.
End kids.

(** *** Lists of jobs after a write *)

Lemma is_list_ext (m m' : gmap ptr Job) l : ∀ h,
  (∀ x, x ∈ l → ∃ j j', m !! x = Some j ∧ m' !! x = Some j' ∧ m_next j' = m_next j) →
  is_list m h l → is_list m' h l.
Proof.
  induction l as [|p l IH]; intros h Hext Hl; [done|].
  destruct Hl as (-> & j & Hj & Hl). split; [done|].
  destruct (Hext p) as (j0 & j' & Hj0 & Hj' & Hn); [by left|].
  rewrite Hj in Hj0. inversion Hj0; subst j0.
  exists j'. split; [done|]. rewrite Hn. apply IH; [|done].
  intros x Hx. apply Hext. by right.
Qed.

(** *** The invariant: what it gives *)

Section counted.
Implicit Types (s : State) (L : gset ptr) (l : list ptr) (j : Job) (ph : phase).

Lemma scheduled_dec s p : scheduled s p ∨ ¬ scheduled s p.
Proof.
  unfold scheduled. induction (calls s) as [|c cs IH].
  - right. intros [thd H]. by apply elem_of_nil in H.
  - destruct IH as [[thd H]|IH]; [left; exists thd; by right|].
    destruct c as [job thd|job|job].
    + destruct (decide (job = p)) as [->|Hne]; [left; exists thd; by left|].
      right. intros [thd' [H|H]%elem_of_cons]; [congruence|]. apply IH. by exists thd'.
    + right. intros [thd' [H|H]%elem_of_cons]; [done|]. apply IH. by exists thd'.
    + right. intros [thd' [H|H]%elem_of_cons]; [done|]. apply IH. by exists thd'.
Qed.

Lemma counted_new n hw : counted ∅ [] idle (JobSystem_new n hw).
Proof.
  assert (mem (JobSystem_new n hw) = ∅) as Hmem by done.
  split; try (intros p j; rewrite Hmem, lookup_empty; done).
  - done.
  - intros i h [-> _]%lookup_replicate. done.
  - rewrite Hmem, map_size_empty. done.
  - intros p Hp. set_solver.
  - intros p [thd Hin]. simpl in Hin. by apply elem_of_nil in Hin.
  - done.
  - intros x q Hx. set_solver.
Qed.

Lemma counted_allocated L l ph s p : counted L l ph s → p ∈ L → is_Some (mem s !! p).
Proof. intros Hc Hp. by apply (cnt_scheduled _ _ _ _ Hc), (cnt_live _ _ _ _ Hc). Qed.

Lemma counted_size L l ph s : counted L l ph s → (size L ≤ size (mem s))%nat.
Proof.
  intros Hc. rewrite <- size_dom. apply subseteq_size.
  intros p Hp. apply elem_of_dom. by apply (counted_allocated L l ph).
Qed.

Lemma counted_queue L l ph s p : counted L l ph s → p ∈ l → p ∈ L.
Proof.
  intros Hc Hp.
  destruct (is_list_allocated _ _ _ _ (cnt_queue _ _ _ _ Hc) Hp) as [j Hj].
  by destruct (cnt_queued _ _ _ _ Hc p j Hj Hp).
Qed.

Lemma counted_kids_size L l ph s q :
  counted L l ph s → q ∈ L → (size (kids s L q) < size (mem s))%nat.
Proof.
  intros Hc Hq. apply Nat.lt_le_trans with (size L); [|by apply (counted_size L l ph)].
  apply subset_size. split; [apply kids_subseteq|].
  intros Hsub. specialize (Hsub q Hq). apply elem_of_kids in Hsub as [Ht _].
  by destruct (cnt_target _ _ _ _ Hc q q Hq Ht).
Qed.

(** The counters in a state of the invariant. *)
Lemma counted_nonneg L l ph s p j :
  counted L l ph s → mem s !! p = Some j → 0 <= m_children j.
Proof.
  intros Hc Hj.
  destruct (decide (p ∈ l)) as [Hl|Hl].
  { destruct (cnt_queued _ _ _ _ Hc p j Hj Hl) as (_ & _ & [->| ->] & _); lia. }
  destruct (decide (p ∈ L)) as [HL|HL].
  { rewrite (cnt_waiting _ _ _ _ Hc p j Hj HL Hl). case_decide; lia. }
  destruct (scheduled_dec s p) as [Hs|Hs].
  - rewrite (cnt_complete _ _ _ _ Hc p j Hj Hs HL). lia.
  - destruct (cnt_fresh _ _ _ _ Hc p j Hj Hs) as [_ ->]. lia.
Qed.
End counted.

(** *** The invariant: the writes that keep it *)

Section counted_writes.
Implicit Types (s : State) (L : gset ptr) (l : list ptr) (j : Job) (ph : phase).

Lemma target_insert s s' p j j' x :
  mem s' = <[p := j']> (mem s) → mem s !! p = Some j →
  m_coro_parent j' = m_coro_parent j → target s' x = target s x.
Proof.
  intros Hmem Hj Hcp. unfold target. rewrite Hmem, lookup_insert.
  case_decide; [subst x; rewrite Hj; simpl; congruence|done].
Qed.

Lemma insert_inv (m : gmap ptr Job) p j j' x jx' :
  <[p := j']> m !! x = Some jx' → m !! p = Some j →
  (x = p ∧ jx' = j' ∧ m !! x = Some j) ∨ (x ≠ p ∧ m !! x = Some jx').
Proof.
  intros H Hj. revert H. rewrite lookup_insert. case_decide; [subst x|].
  - intros [= <-]. by left.
  - intros H'. by right.
Qed.

(** A write to the object at [p] that changes neither its link, nor its
    counter, nor the job it will notify. *)
Lemma counted_frame L l ph s p j j' :
  counted L l ph s → mem s !! p = Some j →
  m_next j' = m_next j → m_children j' = m_children j →
  m_coro_parent j' = m_coro_parent j →
  promise_ok p j' →
  (m_done j' = true → m_done j = true ∨ ph = running p) →
  (p ∈ L → m_done j' = true → m_parent j' = m_coro_parent j') →
  counted L l ph (set_mem (<[p := j']> (mem s)) s).
Proof.
  intros Hc Hj Hn Hch Hcp Hok Hd Hpar.
  set (s' := set_mem (<[p := j']> (mem s)) s).
  assert (∀ x, target s' x = target s x) as Ht
    by (intros x; by apply (target_insert s s' p j j')).
  assert (∀ q, kids s' L q = kids s L q) as Hk
    by (intros q; apply kids_same; auto).
  assert (m_done j' = true → m_done j = true ∨ (p ∈ L ∧ p ∉ l)) as Hd'.
  { intros [?|Hr]%Hd; [by left|right]. by apply (cnt_phase _ _ _ _ Hc). }
  assert (∀ x jx, mem s' !! x = Some jx →
            (x = p ∧ jx = j') ∨ (x ≠ p ∧ mem s !! x = Some jx)) as Hinv.
  { intros x jx [(-> & -> & _)|?]%(insert_inv _ _ j); [by left|by right|done]. }
  split.
  - apply is_list_ext with (m := mem s); [|by apply Hc].
    intros x Hx. destruct (is_list_allocated _ _ _ _ (cnt_queue _ _ _ _ Hc) Hx) as [jx Hjx].
    simpl. rewrite lookup_insert. case_decide; simplify_eq; eauto.
  - by apply Hc.
  - intros x jx [[-> ->]|[_ Hx]]%Hinv; [done|].
    by apply (cnt_promises _ _ _ _ Hc).
  - simpl. rewrite map_size_insert_Some by eauto. by apply Hc.
  - by apply Hc.
  - intros x Hx%(cnt_scheduled _ _ _ _ Hc). simpl. rewrite lookup_insert.
    case_decide; [by eexists|done].
  - by apply Hc.
  - intros x q Hx. rewrite Ht. by apply Hc.
  - intros x jx [[-> ->]|[_ Hx]]%Hinv Hs;
      [|by apply (cnt_fresh _ _ _ _ Hc x)].
    destruct (cnt_fresh _ _ _ _ Hc p j Hj Hs) as [Hdj Hcj]. split; [|congruence].
    destruct (m_done j') eqn:Hdj'; [|done].
    destruct Hd' as [?|[HL _]]; [done|congruence|].
    destruct Hs. by apply (cnt_live _ _ _ _ Hc).
  - intros x jx [[-> ->]|[_ Hx]]%Hinv Hs HL;
      [|by apply (cnt_complete _ _ _ _ Hc x)].
    rewrite Hch. by apply (cnt_complete _ _ _ _ Hc p).
  - intros x jx [[-> ->]|[_ Hx]]%Hinv Hl; rewrite Hk;
      [|by apply (cnt_queued _ _ _ _ Hc x)].
    destruct (cnt_queued _ _ _ _ Hc p j Hj Hl) as (HL & Hdj & Hcj & Hkj).
    split; [done|]. split; [|by rewrite Hch].
    destruct (m_done j') eqn:Hdj'; [|done].
    destruct Hd' as [?|[_ ?]]; [done|congruence|done].
  - intros x jx [[-> ->]|[_ Hx]]%Hinv HL Hl; rewrite Hk;
      [|by apply (cnt_waiting _ _ _ _ Hc x)].
    rewrite Hch. by apply (cnt_waiting _ _ _ _ Hc p).
  - intros x jx [[-> ->]|[_ Hx]]%Hinv HL Hdx;
      [by apply Hpar|by apply (cnt_done _ _ _ _ Hc x)].
Qed.

(** Only the memory, the queues and the scheduled jobs enter the
    invariant. *)
Lemma counted_ext L l ph s s' :
  mem s' = mem s → m_central_queue s' = m_central_queue s →
  m_local_queues s' = m_local_queues s →
  (∀ p, scheduled s' p ↔ scheduled s p) →
  counted L l ph s → counted L l ph s'.
Proof.
  intros Hmem Hcq Hlq Hsch Hc.
  assert (∀ q, kids s' L q = kids s L q) as Hk.
  { intros q. apply kids_same. intros x _. unfold target. by rewrite Hmem. }
  assert (∀ x, target s' x = target s x) as Ht
    by (intros x; unfold target; by rewrite Hmem).
  split; unfold promises_ok; try setoid_rewrite Hsch; try setoid_rewrite Hk;
    try setoid_rewrite Ht; rewrite ?Hmem, ?Hcq, ?Hlq; by apply Hc.
Qed.

(** The head [P] of the queue is taken and its counter is set to 1: [P]
    runs. *)
Lemma counted_pop L l s P jP :
  counted L (P :: l) idle s → mem s !! P = Some jP →
  counted L l (running P)
    (set_mem (<[P := set_children 1 jP]> (mem s)) (set_central_queue (m_next jP) s)).
Proof.
  intros Hc Hj.
  set (s' := set_mem _ _).
  destruct (cnt_queue _ _ _ _ Hc) as (Hhead & j0 & Hj0 & Hl).
  rewrite Hj in Hj0. inversion Hj0; subst j0. clear Hj0.
  assert (P ∉ l) as HPl.
  { apply (is_list_not_in (mem s)). rewrite <- Hhead. apply Hc. }
  destruct (cnt_queued _ _ _ _ Hc P jP Hj) as (HPL & HPd & HPc & HPk); [by left|].
  assert (∀ x, target s' x = target s x) as Ht
    by (intros x; by apply (target_insert s s' P jP (set_children 1 jP))).
  assert (∀ q, kids s' L q = kids s L q) as Hk
    by (intros q; apply kids_same; auto).
  assert (∀ x jx, mem s' !! x = Some jx →
            (x = P ∧ jx = set_children 1 jP) ∨ (x ≠ P ∧ mem s !! x = Some jx)) as Hinv.
  { intros x jx [(-> & -> & _)|?]%(insert_inv _ _ jP); [by left|by right|done]. }
  split.
  - by apply is_list_frame.
  - by apply Hc.
  - intros x jx [[-> ->]|[_ Hx]]%Hinv; [|by apply (cnt_promises _ _ _ _ Hc)].
    by apply (cnt_promises _ _ _ _ Hc P jP).
  - simpl. rewrite map_size_insert_Some by eauto. by apply Hc.
  - by apply Hc.
  - intros x Hx%(cnt_scheduled _ _ _ _ Hc). simpl. rewrite lookup_insert.
    case_decide; [by eexists|done].
  - by intros p [= <-].
  - intros x q Hx. rewrite Ht. by apply Hc.
  - intros x jx [[-> ->]|[_ Hx]]%Hinv Hs; [|by apply (cnt_fresh _ _ _ _ Hc x)].
    destruct Hs. by apply (cnt_live _ _ _ _ Hc).
  - intros x jx [[-> ->]|[_ Hx]]%Hinv Hs HL; [done|].
    by apply (cnt_complete _ _ _ _ Hc x).
  - intros x jx [[-> ->]|[_ Hx]]%Hinv Hxl; [done|]. rewrite Hk.
    apply (cnt_queued _ _ _ _ Hc x); [done|by right].
  - intros x jx [[-> ->]|[Hne Hx]]%Hinv HL Hxl; rewrite Hk.
    + rewrite HPk, size_empty. by rewrite decide_True.
    + rewrite decide_False by congruence.
      rewrite (cnt_waiting _ _ _ _ Hc x jx Hx HL).
      * by rewrite decide_False.
      * by intros [?|?]%elem_of_cons.
  - intros x jx [[-> ->]|[_ Hx]]%Hinv HL Hdx; [simpl in Hdx; congruence|].
    by apply (cnt_done _ _ _ _ Hc x).
Qed.

(** The counter of the job [q] whose execution is under way is
    decremented: the execution of [q] is over. *)
Lemma counted_decrement L l s q jq :
  counted L l (running q) s → mem s !! q = Some jq →
  counted L l idle (set_mem (<[q := set_children (m_children jq - 1) jq]> (mem s)) s).
Proof.
  intros Hc Hj.
  set (j' := set_children (m_children jq - 1) jq). set (s' := set_mem _ _).
  destruct (cnt_phase _ _ _ _ Hc q eq_refl) as [HqL Hql].
  assert (∀ x, target s' x = target s x) as Ht
    by (intros x; by apply (target_insert s s' q jq j')).
  assert (∀ p, kids s' L p = kids s L p) as Hk
    by (intros p; apply kids_same; auto).
  assert (∀ x jx, mem s' !! x = Some jx →
            (x = q ∧ jx = j') ∨ (x ≠ q ∧ mem s !! x = Some jx)) as Hinv.
  { intros x jx [(-> & -> & _)|?]%(insert_inv _ _ jq); [by left|by right|done]. }
  split.
  - by apply is_list_frame, Hc.
  - by apply Hc.
  - intros x jx [[-> ->]|[_ Hx]]%Hinv; [|by apply (cnt_promises _ _ _ _ Hc)].
    by apply (cnt_promises _ _ _ _ Hc q jq).
  - simpl. rewrite map_size_insert_Some by eauto. by apply Hc.
  - by apply Hc.
  - intros x Hx%(cnt_scheduled _ _ _ _ Hc). simpl. rewrite lookup_insert.
    case_decide; [by eexists|done].
  - done.
  - intros x p Hx. rewrite Ht. by apply Hc.
  - intros x jx [[-> ->]|[_ Hx]]%Hinv Hs; [|by apply (cnt_fresh _ _ _ _ Hc x)].
    destruct Hs. by apply (cnt_live _ _ _ _ Hc).
  - intros x jx [[-> ->]|[_ Hx]]%Hinv Hs HL; [done|].
    by apply (cnt_complete _ _ _ _ Hc x).
  - intros x jx [[-> ->]|[_ Hx]]%Hinv Hxl; [done|]. rewrite Hk.
    by apply (cnt_queued _ _ _ _ Hc x).
  - intros x jx [[-> ->]|[Hne Hx]]%Hinv HL Hxl; rewrite Hk.
    + simpl. rewrite (cnt_waiting _ _ _ _ Hc q jq Hj HL Hxl).
      rewrite decide_True by done. lia.
    + rewrite (cnt_waiting _ _ _ _ Hc x jx Hx HL Hxl).
      by rewrite decide_False by congruence.
  - intros x jx [[-> ->]|[_ Hx]]%Hinv HL Hdx; [|by apply (cnt_done _ _ _ _ Hc x)].
    by apply (cnt_done _ _ _ _ Hc q jq).
Qed.

Lemma scheduled_again s s' cl :
  calls s' = calls s ++ cl →
  (∀ p thd, call_schedule p thd ∈ cl → scheduled s p) →
  ∀ p, scheduled s' p ↔ scheduled s p.
Proof.
  intros Hcalls Hcl p. split.
  - intros [H|[thd H]]%(scheduled_inv s s' cl); [done| |done]. by apply (Hcl p thd).
  - by apply scheduled_mono with cl.
Qed.

(** A coroutine of [L] that is not queued, whose counter is at 0 and
    which has not finished is put back on the queue. *)
Lemma counted_again L l s s' x jx :
  counted L l idle s → x ∈ L → x ∉ l →
  mem s !! x = Some jx → m_children jx = 0 → m_done jx = false →
  mem s' = <[x := set_next (m_central_queue s) jx]> (mem s) →
  m_central_queue s' = Some x →
  m_local_queues s' = m_local_queues s →
  calls s' = calls s ++ [call_on_finished x; call_schedule x (-1)] →
  counted L (x :: l) idle s'.
Proof.
  intros Hc HxL Hxl Hj Hch Hd Hmem Hcq Hlq Hcalls.
  set (j' := set_next (m_central_queue s) jx).
  assert (∀ p, scheduled s' p ↔ scheduled s p) as Hsch.
  { apply (scheduled_again s s' _ Hcalls). intros p thd Hin.
    apply elem_of_cons in Hin as [?|Hin]; [done|].
    apply list_elem_of_singleton in Hin. inversion Hin; subst.
    by apply (cnt_live _ _ _ _ Hc). }
  assert (∀ y, target s' y = target s y) as Ht
    by (intros y; by apply (target_insert s s' x jx j')).
  assert (∀ p, kids s' L p = kids s L p) as Hk
    by (intros p; apply kids_same; auto).
  assert (∀ y jy, mem s' !! y = Some jy →
            (y = x ∧ jy = j') ∨ (y ≠ x ∧ mem s !! y = Some jy)) as Hinv.
  { intros y jy. rewrite Hmem.
    intros [(-> & -> & _)|?]%(insert_inv _ _ jx); [by left|by right|done]. }
  assert (kids s L x = ∅) as Hkx.
  { apply kids_empty_size.
    pose proof (cnt_waiting _ _ _ _ Hc x jx Hj HxL Hxl) as Hw.
    rewrite decide_False in Hw by done. lia. }
  split.
  - rewrite Hcq. split; [done|]. exists j'. rewrite Hmem, lookup_insert_eq.
    split; [done|]. by apply is_list_frame, Hc.
  - rewrite Hlq. by apply Hc.
  - intros y jy [[-> ->]|[_ Hy]]%Hinv; [|by apply (cnt_promises _ _ _ _ Hc)].
    by apply (cnt_promises _ _ _ _ Hc x jx).
  - rewrite Hmem, map_size_insert_Some by eauto. by apply Hc.
  - intros p Hp. apply Hsch. by apply Hc.
  - intros p Hp%Hsch%(cnt_scheduled _ _ _ _ Hc). rewrite Hmem, lookup_insert.
    case_decide; [by eexists|done].
  - done.
  - intros y q Hy. rewrite Ht. by apply Hc.
  - intros y jy [[-> ->]|[_ Hy]]%Hinv Hs; [|apply (cnt_fresh _ _ _ _ Hc y); [done|by rewrite <- Hsch]].
    destruct Hs. by apply Hsch, (cnt_live _ _ _ _ Hc).
  - intros y jy [[-> ->]|[_ Hy]]%Hinv Hs HL; [done|].
    apply (cnt_complete _ _ _ _ Hc y); [done|by apply Hsch|done].
  - intros y jy [[-> ->]|[Hne Hy]]%Hinv Hyl; rewrite Hk.
    + split; [done|]. split; [done|]. split; [by left|done].
    + apply (cnt_queued _ _ _ _ Hc y); [done|].
      by apply elem_of_cons in Hyl as [?|?].
  - intros y jy [[-> ->]|[Hne Hy]]%Hinv HL Hyl; rewrite Hk.
    + destruct Hyl. by left.
    + apply (cnt_waiting _ _ _ _ Hc y); [done..|].
      intros ?. apply Hyl. by right.
  - intros y jy [[-> ->]|[_ Hy]]%Hinv HL Hdy; [simpl in Hdy; congruence|].
    by apply (cnt_done _ _ _ _ Hc y).
Qed.

(** A coroutine of [L] that is not queued and whose counter is at 0
    leaves [L]: it is about to notify the job it records, if any. *)
Lemma counted_leave L l s x jx :
  counted L l idle s → x ∈ L → x ∉ l →
  mem s !! x = Some jx → m_children jx = 0 →
  counted (L ∖ {[x]}) l
    (match m_coro_parent jx with Some q => running q | None => idle end)
    (add_call (call_on_finished x) s).
Proof.
  intros Hc HxL Hxl Hj Hch.
  set (s' := add_call _ s).
  assert (∀ p, scheduled s' p ↔ scheduled s p) as Hsch.
  { apply (scheduled_again s s' [call_on_finished x]); [done|].
    intros p thd Hin. apply list_elem_of_singleton in Hin. done. }
  assert (target s x = m_coro_parent jx) as Htx by (unfold target; by rewrite Hj).
  assert (kids s L x = ∅) as Hkx.
  { apply kids_empty_size.
    pose proof (cnt_waiting _ _ _ _ Hc x jx Hj HxL Hxl) as Hw.
    rewrite decide_False in Hw by done. lia. }
  assert (∀ q, kids s' (L ∖ {[x]}) q = kids s (L ∖ {[x]}) q) as Hk.
  { intros q. by apply kids_same. }
  split.
  - by apply Hc.
  - by apply Hc.
  - by apply Hc.
  - by apply Hc.
  - intros p [Hp _]%elem_of_difference. apply Hsch. by apply Hc.
  - intros p Hp%Hsch. by apply (cnt_scheduled _ _ _ _ Hc).
  - intros q Hq. destruct (m_coro_parent jx) as [q'|] eqn:Hcp; [|done].
    inversion Hq; subst q'.
    destruct (cnt_target _ _ _ _ Hc x q HxL Htx) as [HqL Hne].
    split; [apply elem_of_difference; split; [done|]; by intros ?%elem_of_singleton|].
    intros Hql.
    destruct (counted_allocated _ _ _ _ q Hc HqL) as [jq Hjq].
    destruct (cnt_queued _ _ _ _ Hc q jq Hjq Hql) as (_ & _ & _ & Hkq).
    assert (x ∈ kids s L q) as Hin by (by apply elem_of_kids).
    rewrite Hkq in Hin. by apply elem_of_empty in Hin.
  - intros y q [Hy Hyx]%elem_of_difference Hty.
    change (target s' y) with (target s y) in Hty.
    destruct (cnt_target _ _ _ _ Hc y q Hy Hty) as [HqL Hne].
    split; [|done]. apply elem_of_difference. split; [done|].
    intros ->%elem_of_singleton.
    assert (y ∈ kids s L x) as Hin by (by apply elem_of_kids).
    rewrite Hkx in Hin. by apply elem_of_empty in Hin.
  - intros p j Hp Hs. apply (cnt_fresh _ _ _ _ Hc p); [done|by rewrite <- Hsch].
  - intros p j Hp Hs%Hsch HL.
    destruct (decide (p = x)) as [->|Hne].
    + change (mem s' !! x) with (mem s !! x) in Hp. congruence.
    + apply (cnt_complete _ _ _ _ Hc p); [done..|].
      intros HpL. apply HL. apply elem_of_difference. split; [done|].
      by intros ?%elem_of_singleton.
  - intros p j Hp Hpl.
    destruct (cnt_queued _ _ _ _ Hc p j Hp Hpl) as (HL & Hd & Hcj & Hkp).
    split; [|split; [done|split; [done|]]].
    + apply elem_of_difference. split; [done|]. intros ->%elem_of_singleton. done.
    + rewrite Hk, kids_leave, Hkp. apply set_eq. intros y.
      rewrite elem_of_difference, elem_of_empty. tauto.
  - intros p j Hp [HpL Hpx]%elem_of_difference Hpl. rewrite Hk.
    rewrite (cnt_waiting _ _ _ _ Hc p j Hp HpL Hpl).
    rewrite (decide_False (P := idle = running p)) by done.
    destruct (decide (m_coro_parent jx = Some p)) as [Hcp|Hcp].
    + rewrite Hcp. rewrite decide_True by done.
      rewrite (size_kids_leave s L x p); [lia|done|congruence].
    + rewrite kids_leave_other by congruence.
      rewrite decide_False; [done|]. destruct (m_coro_parent jx); congruence.
  - intros p j Hp [HpL _]%elem_of_difference Hd. by apply (cnt_done _ _ _ _ Hc p).
Qed.

(** A coroutine is created. *)
Lemma counted_create L l ph s p body :
  counted L l ph s → mem s !! p = None →
  Z.of_nat (size (mem s)) < 2 ^ 31 - 2 →
  counted L l ph (set_mem (<[p := new_promise p body]> (mem s)) s).
Proof.
  intros Hc Hp Hsize.
  set (s' := set_mem _ s).
  assert (¬ scheduled s p) as Hns.
  { intros [? H]%(cnt_scheduled _ _ _ _ Hc). congruence. }
  assert (p ∉ L) as HpL by (intros ?%(cnt_live _ _ _ _ Hc); done).
  assert (∀ x, x ≠ p → target s' x = target s x) as Ht.
  { intros x Hne. unfold target. simpl. by rewrite lookup_insert_ne. }
  assert (∀ q, kids s' L q = kids s L q) as Hk.
  { intros q. apply kids_same. intros x Hx. apply Ht. by intros ->. }
  assert (∀ x jx, mem s' !! x = Some jx →
            (x = p ∧ jx = new_promise p body) ∨ (x ≠ p ∧ mem s !! x = Some jx)) as Hinv.
  { intros x jx. simpl. rewrite lookup_insert. case_decide; [subst x|].
    - intros [= <-]. by left.
    - by right. }
  split.
  - apply is_list_frame; [|by apply Hc].
    intros [? H]%(is_list_allocated _ _ _ _ (cnt_queue _ _ _ _ Hc)). congruence.
  - by apply Hc.
  - intros x jx [[-> ->]|[_ Hx]]%Hinv; [done|]. by apply (cnt_promises _ _ _ _ Hc).
  - simpl. rewrite map_size_insert_None by done. lia.
  - by apply Hc.
  - intros x Hx%(cnt_scheduled _ _ _ _ Hc). simpl. rewrite lookup_insert.
    case_decide; [by eexists|done].
  - by apply Hc.
  - intros x q Hx. rewrite Ht by (by intros ->). by apply Hc.
  - intros x jx [[-> ->]|[_ Hx]]%Hinv Hs; [done|]. by apply (cnt_fresh _ _ _ _ Hc x).
  - intros x jx [[-> ->]|[_ Hx]]%Hinv Hs HL; [done|].
    by apply (cnt_complete _ _ _ _ Hc x).
  - intros x jx [[-> ->]|[_ Hx]]%Hinv Hxl; rewrite Hk.
    + destruct HpL. by apply (counted_queue L l ph s).
    + by apply (cnt_queued _ _ _ _ Hc x).
  - intros x jx [[-> ->]|[_ Hx]]%Hinv HL Hxl; rewrite Hk; [done|].
    by apply (cnt_waiting _ _ _ _ Hc x).
  - intros x jx [[-> ->]|[_ Hx]]%Hinv HL Hdx; [done|].
    by apply (cnt_done _ _ _ _ Hc x).
Qed.

(** A coroutine that was never scheduled is submitted: it joins [L] and
    the queue, with the job [t] that submits it, if there is one, as the
    job to notify; [t] is the job whose execution is under way, and its
    counter goes up by one. *)
Lemma counted_submit L l ph s s' c jc t :
  counted L l ph s → mem s !! c = Some jc → ¬ scheduled s c →
  (∀ P, t = Some P → ph = running P) →
  (∀ x, mem s' !! x =
        if decide (x = c)
        then Some (set_next (m_central_queue s) (set_coro_parent t jc))
        else (λ j, if decide (t = Some x) then set_children (m_children j + 1) j else j)
               <$> mem s !! x) →
  m_central_queue s' = Some c → m_local_queues s' = m_local_queues s →
  calls s' = calls s ++ [call_schedule c (-1)] →
  counted ({[c]} ∪ L) (c :: l) ph s'.
Proof.
  intros Hc Hjc Hns Hrun Hmem Hcq Hlq Hcalls.
  set (jc' := set_next (m_central_queue s) (set_coro_parent t jc)) in *.
  set (bump := λ (x : ptr) (j : Job),
         if decide (t = Some x) then set_children (m_children j + 1) j else j) in *.
  assert (c ∉ L) as HcL by (intros ?%(cnt_live _ _ _ _ Hc); done).
  assert (c ∉ l) as Hcl by (intros ?%(counted_queue L l ph s); done).
  assert (∀ p, scheduled s' p ↔ scheduled s p ∨ p = c) as Hsch.
  { intros p. split.
    - intros [H|[thd H]]%(scheduled_inv s s' [call_schedule c (-1)]); [by left| |done].
      apply list_elem_of_singleton in H. inversion H. by right.
    - intros [H| ->]; [by apply (scheduled_mono s s' [call_schedule c (-1)])|].
      exists (-1). rewrite Hcalls. apply elem_of_app. right. by left. }
  assert (∀ P, t = Some P → P ∈ L ∧ (P ∉ l) ∧ P ≠ c) as HtP.
  { intros P HP. destruct (cnt_phase _ _ _ _ Hc P (Hrun P HP)) as [HL Hl].
    split; [done|]. split; [done|]. by intros ->. }
  assert (∀ x j, m_next (bump x j) = m_next j ∧ m_parent (bump x j) = m_parent j ∧
                 m_continuation (bump x j) = m_continuation j ∧
                 m_coro_parent (bump x j) = m_coro_parent j ∧
                 m_value (bump x j) = m_value j ∧ m_done (bump x j) = m_done j ∧
                 m_children (bump x j) =
                   m_children j + (if decide (t = Some x) then 1 else 0)) as Hbump.
  { intros x j. unfold bump. case_decide; simpl; repeat split; lia. }
  assert (∀ x jx', mem s' !! x = Some jx' →
            (x = c ∧ jx' = jc') ∨
            (x ≠ c ∧ ∃ jx, mem s !! x = Some jx ∧ jx' = bump x jx)) as Hinv.
  { intros x jx'. rewrite Hmem. case_decide; [subst x|].
    - intros [= <-]. by left.
    - intros (jx & Hx & ->)%fmap_Some. right. eauto. }
  assert (∀ x jx, mem s !! x = Some jx → x ≠ c → mem s' !! x = Some (bump x jx)) as Hfwd.
  { intros x jx Hx Hne. rewrite Hmem, decide_False by done. by rewrite Hx. }
  assert (mem s' !! c = Some jc') as Hc' by (by rewrite Hmem, decide_True).
  assert (target s' c = t) as Htc by (unfold target; by rewrite Hc').
  assert (∀ x, x ≠ c → target s' x = target s x) as Ht.
  { intros x Hne. unfold target. rewrite Hmem, decide_False by done.
    destruct (mem s !! x) as [jx|]; [|done]. simpl. apply Hbump. }
  assert (∀ q, kids s' ({[c]} ∪ L) q =
               if decide (t = Some q) then {[c]} ∪ kids s L q else kids s L q) as Hk.
  { intros q. apply kids_join; [done..|]. intros x Hx. apply Ht. by intros ->. }
  assert (size (mem s') = size (mem s)) as Hsize.
  { rewrite <- !size_dom. f_equal. apply set_eq. intros x. rewrite !elem_of_dom, Hmem.
    case_decide; [subst x; rewrite Hjc; split; eauto|by rewrite fmap_is_Some]. }
  split.
  - rewrite Hcq. split; [done|]. exists jc'. split; [done|]. simpl.
    apply is_list_ext with (m := mem s); [|by apply Hc].
    intros x Hx.
    destruct (is_list_allocated _ _ _ _ (cnt_queue _ _ _ _ Hc) Hx) as [jx Hjx].
    exists jx, (bump x jx). split; [done|]. split; [|by apply Hbump].
    apply Hfwd; [done|]. by intros ->.
  - rewrite Hlq. by apply Hc.
  - intros x jx' [[-> ->]|(Hne & jx & Hx & ->)]%Hinv.
    + by apply (cnt_promises _ _ _ _ Hc c jc).
    + pose proof (cnt_promises _ _ _ _ Hc x jx Hx) as Hok.
      destruct (Hbump x jx) as (_ & Hp & Hco & _ & Hv & Hd & _).
      unfold promise_ok in *. by rewrite Hp, Hco, Hv, Hd.
  - rewrite Hsize. by apply Hc.
  - intros p [->%elem_of_singleton|Hp]%elem_of_union; apply Hsch; [by right|left].
    by apply Hc.
  - intros p [Hp| ->]%Hsch; [|by eexists].
    destruct (cnt_scheduled _ _ _ _ Hc p Hp) as [jp Hjp].
    destruct (decide (p = c)) as [->|Hne]; [by eexists|].
    rewrite (Hfwd p jp Hjp Hne). by eexists.
  - intros p Hp. destruct (cnt_phase _ _ _ _ Hc p Hp) as [HL Hl].
    split; [apply elem_of_union; by right|].
    intros [->|?]%elem_of_cons; done.
  - intros x q [->%elem_of_singleton|Hx]%elem_of_union.
    + rewrite Htc. intros HP. destruct (HtP q HP) as (HL & _ & Hne).
      split; [apply elem_of_union; by right|done].
    + rewrite Ht by (by intros ->). intros Hq.
      destruct (cnt_target _ _ _ _ Hc x q Hx Hq) as [HL Hne].
      split; [apply elem_of_union; by right|done].
  - intros x jx' [[-> ->]|(Hne & jx & Hx & ->)]%Hinv Hs.
    { destruct Hs. apply Hsch. by right. }
    assert (¬ scheduled s x) as Hs' by (intros ?; apply Hs, Hsch; by left).
    destruct (Hbump x jx) as (_ & _ & _ & _ & _ & Hd & Hch).
    rewrite Hd, Hch. rewrite decide_False.
    + rewrite Z.add_0_r. by apply (cnt_fresh _ _ _ _ Hc x).
    + intros (HL & _)%HtP. by apply Hs', (cnt_live _ _ _ _ Hc).
  - intros x jx' [[-> ->]|(Hne & jx & Hx & ->)]%Hinv Hs HL.
    { destruct HL. apply elem_of_union. left. by apply elem_of_singleton. }
    apply Hsch in Hs as [Hs|?]; [|done].
    assert (x ∉ L) as HL' by (intros ?; apply HL, elem_of_union; by right).
    destruct (Hbump x jx) as (_ & _ & _ & _ & _ & _ & Hch).
    rewrite Hch. rewrite decide_False by (by intros (? & _)%HtP).
    rewrite Z.add_0_r. by apply (cnt_complete _ _ _ _ Hc x).
  - intros x jx' [[-> ->]|(Hne & jx & Hx & ->)]%Hinv Hxl.
    + split; [apply elem_of_union; left; by apply elem_of_singleton|].
      destruct (cnt_fresh _ _ _ _ Hc c jc Hjc Hns) as [Hd Hch].
      split; [done|]. split; [by right|].
      rewrite Hk. rewrite decide_False by (by intros (? & _)%HtP).
      apply set_eq. intros y. rewrite elem_of_kids, elem_of_empty.
      split; [|done]. intros [Hy HyL].
      by destruct (cnt_target _ _ _ _ Hc y c HyL Hy).
    + apply elem_of_cons in Hxl as [?|Hxl]; [done|].
      destruct (cnt_queued _ _ _ _ Hc x jx Hx Hxl) as (HL & Hd & Hch & Hkx).
      assert (t ≠ Some x) as Htx by (by intros (_ & ? & _)%HtP).
      destruct (Hbump x jx) as (_ & _ & _ & _ & _ & Hd' & Hch').
      split; [apply elem_of_union; by right|].
      rewrite Hd', Hch', Hk. rewrite !decide_False by done.
      rewrite Z.add_0_r. done.
  - intros x jx' [[-> ->]|(Hne & jx & Hx & ->)]%Hinv HL Hxl.
    { destruct Hxl. by left. }
    apply elem_of_union in HL as [?%elem_of_singleton|HL]; [done|].
    assert (x ∉ l) as Hxl' by (intros ?; apply Hxl; by right).
    destruct (Hbump x jx) as (_ & _ & _ & _ & _ & _ & Hch).
    rewrite Hch, Hk. rewrite (cnt_waiting _ _ _ _ Hc x jx Hx HL Hxl').
    case_decide as Htx; [|lia].
    rewrite size_kids_join by done. lia.
  - intros x jx' [[-> ->]|(Hne & jx & Hx & ->)]%Hinv HL Hd.
    + destruct (cnt_fresh _ _ _ _ Hc c jc Hjc Hns) as [Hd' _]. simpl in Hd. congruence.
    + apply elem_of_union in HL as [?%elem_of_singleton|HL]; [done|].
      destruct (Hbump x jx) as (_ & Hp & _ & Hcp & _ & Hd' & _).
      rewrite Hp, Hcp. apply (cnt_done _ _ _ _ Hc x); [done..|]. by rewrite <- Hd'.
Qed.
End counted_writes.

(** *** Submission *)

Section submission.
Implicit Types (s : State) (L : gset ptr) (l : list ptr) (j : Job) (ph : phase).

Lemma schedule_exact th c s jc :
  mem s !! c = Some jc → schedule th c (-1) s = Ok (tt, enqueued c jc s).
Proof.
  intros Hjc.
  destruct (schedule_central th c (-1) s jc) as (s' & Hs & Hmem & Hcq & Hlq & Hcalls & Hn);
    [lia|done|].
  rewrite Hs. unfold enqueued. destruct s'. simpl in *. by subst.
Qed.

Lemma submitted_refl s : submitted [] s s.
Proof.
  split; [done|]. split; [|by eauto].
  intros x. split; [by left|]. by intros [?|?%elem_of_nil].
Qed.

Lemma submitted_trans cs1 cs2 s1 s2 s3 :
  submitted cs1 s1 s2 → submitted cs2 s2 s3 → submitted (cs1 ++ cs2) s1 s3.
Proof.
  intros (Hz1 & Hs1 & Hd1) (Hz2 & Hs2 & Hd2). split; [congruence|]. split.
  - intros x. rewrite Hs2, Hs1, elem_of_app. tauto.
  - intros x jx Hx. destruct (Hd1 x jx Hx) as (j2 & H2 & Heq).
    destruct (Hd2 x j2 H2) as (j3 & H3 & Heq'). exists j3. split; [done|congruence].
Qed.

(** A write to one frame that leaves [m_done] as it is. *)
Lemma submitted_write s p j j' :
  mem s !! p = Some j → m_done j' = m_done j →
  submitted [] s (set_mem (<[p := j']> (mem s)) s).
Proof.
  intros Hj Hd. split; [simpl; by rewrite map_size_insert_Some by eauto|]. split.
  - intros x. split; [by left|]. by intros [?|?%elem_of_nil].
  - intros x jx Hx. simpl. rewrite lookup_insert. case_decide; [subst x|by eauto].
    exists j'. split; [done|congruence].
Qed.

Lemma fresh_children_submitted cs cs' s s' :
  submitted cs' s s' → (∀ c, c ∈ cs → c ∉ cs') →
  fresh_children s cs → fresh_children s' cs.
Proof.
  intros (_ & Hsch & Hd) Hdisj [Hnd Hfresh]. split; [done|].
  intros c Hc. destruct (Hfresh c Hc) as [[jc Hjc] Hns]. split.
  - destruct (Hd c jc Hjc) as (jc' & Hjc' & _). by eexists.
  - intros [?|?]%Hsch; [done|]. by apply (Hdisj c).
Qed.

(** [schedule] on a coroutine that was never scheduled, by a thread
    that runs no job or by the job whose execution is under way: under
    watch it completes, and the invariant holds with the coroutine
    submitted. *)
Lemma watched_schedule_coro_Ok th c s L l ph jc :
  counted L l ph s → mem s !! c = Some jc → ¬ scheduled s c →
  (∀ P, current_job th = Some P → ph = running P) →
  ∃ s', watched_schedule_coro th c s = Ok (tt, s') ∧
        counted ({[c]} ∪ L) (c :: l) ph s' ∧ submitted [c] s s'.
Proof.
  intros Hc Hjc Hns Hrun.
  assert (∀ s', (∀ x, mem s' !! x =
        if decide (x = c)
        then Some (set_next (m_central_queue s) (set_coro_parent (current_job th) jc))
        else (λ j, if decide (current_job th = Some x)
                   then set_children (m_children j + 1) j else j) <$> mem s !! x) →
      calls s' = calls s ++ [call_schedule c (-1)] → submitted [c] s s') as Hsub.
  { intros s' Hmem Hcalls. split; [|split].
    - rewrite <- !size_dom. f_equal. apply set_eq. intros x. rewrite !elem_of_dom, Hmem.
      case_decide; [subst x; rewrite Hjc; split; eauto|by rewrite fmap_is_Some].
    - intros x. rewrite list_elem_of_singleton. split.
      + intros [H|[thd H]]%(scheduled_inv s s' [call_schedule c (-1)]); [by left| |done].
        apply list_elem_of_singleton in H. inversion H. by right.
      + intros [H| ->]; [by apply (scheduled_mono s s' [call_schedule c (-1)])|].
        exists (-1). rewrite Hcalls. apply elem_of_app. right. by left.
    - intros x jx Hx. rewrite Hmem. case_decide; [subst x|].
      + eexists. split; [done|]. simpl. congruence.
      + rewrite Hx. simpl. eexists. split; [done|]. by case_decide. }
  unfold watched_schedule_coro.
  destruct (current_job th) as [P|] eqn:Hcur.
  - destruct (cnt_phase _ _ _ _ Hc P (Hrun P eq_refl)) as [HPL HPl].
    destruct (counted_allocated _ _ _ _ P Hc HPL) as [jP HjP].
    assert (P ≠ c) as Hne by (intros ->; by apply Hns, (cnt_live _ _ _ _ Hc)).
    assert (0 <= m_children jP < Int32.max_signed) as Hrange.
    { rewrite (cnt_waiting _ _ _ _ Hc P jP HjP HPL HPl).
      rewrite decide_True by (by rewrite (Hrun P eq_refl)).
      pose proof (counted_kids_size _ _ _ _ P Hc HPL).
      pose proof (cnt_bound _ _ _ _ Hc). unfold Int32.max_signed. lia. }
    unfold mbind at 1, M_bind. unfold mbind at 1, M_bind.
    rewrite (watched_fetch_add_Ok _ _ _ HjP Hrange). simpl.
    set (s1 := set_mem _ s).
    assert (mem s1 !! c = Some jc) as Hc1 by (subst s1; simpl; by rewrite lookup_insert_ne).
    rewrite (bind_Ok _ _ _ _ _ (update_Ok _ _ _ _ Hc1)).
    set (s2 := set_mem _ s1).
    assert (mem s2 !! c = Some (set_coro_parent (Some P) jc)) as Hc2
      by (subst s2; simpl; by rewrite lookup_insert_eq).
    rewrite (schedule_exact _ _ _ _ Hc2).
    set (s' := enqueued _ _ _).
    assert (∀ x, mem s' !! x =
        if decide (x = c)
        then Some (set_next (m_central_queue s) (set_coro_parent (Some P) jc))
        else (λ j, if decide (Some P = Some x)
                   then set_children (m_children j + 1) j else j) <$> mem s !! x) as Hmem.
    { intros x. subst s' s2 s1. simpl. rewrite insert_insert_eq, !lookup_insert.
      destruct (decide (x = c)) as [->|Hxc]; [by rewrite decide_True|].
      rewrite decide_False by done.
      destruct (decide (P = x)) as [->|HPx].
      - rewrite HjP. simpl. by rewrite decide_True.
      - destruct (mem s !! x); [|done]. simpl. by rewrite decide_False by congruence. }
    exists s'. split; [done|]. split; [|by apply Hsub].
    by apply (counted_submit L l ph s s' c jc (Some P)).
  - unfold mbind at 1, M_bind. unfold mbind at 1, M_bind. simpl.
    rewrite (update_Ok _ _ _ _ Hjc).
    set (s2 := set_mem _ s).
    assert (mem s2 !! c = Some (set_coro_parent None jc)) as Hc2
      by (subst s2; simpl; by rewrite lookup_insert_eq).
    rewrite (schedule_exact _ _ _ _ Hc2).
    set (s' := enqueued _ _ _).
    assert (∀ x, mem s' !! x =
        if decide (x = c)
        then Some (set_next (m_central_queue s) (set_coro_parent None jc))
        else (λ j, if decide (None = Some x)
                   then set_children (m_children j + 1) j else j) <$> mem s !! x) as Hmem.
    { intros x. subst s' s2. simpl. rewrite insert_insert_eq, !lookup_insert.
      destruct (decide (x = c)) as [->|Hxc]; [by rewrite decide_True|].
      rewrite decide_False by done.
      by destruct (mem s !! x). }
    exists s'. split; [done|]. split; [|by apply Hsub].
    by apply (counted_submit L l ph s s' c jc None).
Qed.

Lemma watched_schedule_coros_Ok th cs : ∀ s L l ph,
  counted L l ph s → fresh_children s cs →
  (∀ P, current_job th = Some P → ph = running P) →
  ∃ s' L' l', watched_schedule_coros th cs s = Ok (tt, s') ∧
              counted L' l' ph s' ∧ submitted cs s s'.
Proof.
  induction cs as [|c cs IH]; intros s L l ph Hc Hfresh Hrun; simpl.
  { exists s, L, l. split; [done|]. split; [done|]. apply submitted_refl. }
  destruct Hfresh as [Hnd Hfresh]. apply NoDup_cons in Hnd as [Hccs Hnd].
  destruct (Hfresh c) as [[jc Hjc] Hns]; [by left|].
  destruct (watched_schedule_coro_Ok th c s L l ph jc Hc Hjc Hns Hrun)
    as (s1 & Hrun1 & Hc1 & Hsub1).
  rewrite (bind_Ok _ _ _ _ _ Hrun1).
  destruct (IH s1 _ _ ph Hc1) as (s' & L' & l' & Hrun' & Hc' & Hsub'); [|done|].
  { apply (fresh_children_submitted cs [c] s s1 Hsub1).
    - intros x Hx ->%list_elem_of_singleton. done.
    - split; [done|]. intros x Hx. apply Hfresh. by right. }
  exists s', L', l'. split; [done|]. split; [done|].
  by apply (submitted_trans [c] cs s s1 s').
Qed.

Lemma watched_tuple_await_suspend_Ok th css : ∀ s L l ph,
  counted L l ph s → fresh_children s (concat css) →
  (∀ P, current_job th = Some P → ph = running P) →
  ∃ s' L' l', watched_tuple_await_suspend th css s = Ok (tt, s') ∧
              counted L' l' ph s' ∧ submitted (concat css) s s'.
Proof.
  induction css as [|cs css IH]; intros s L l ph Hc Hfresh Hrun; simpl.
  { exists s, L, l. split; [done|]. split; [done|]. apply submitted_refl. }
  simpl in Hfresh. destruct Hfresh as [Hnd Hfresh].
  apply NoDup_app in Hnd as (Hnd1 & Hdisj & Hnd2).
  destruct (watched_schedule_coros_Ok th cs s L l ph Hc) as (s1 & L1 & l1 & Hrun1 & Hc1 & Hsub1);
    [|done|].
  { split; [done|]. intros x Hx. apply Hfresh, elem_of_app. by left. }
  rewrite (bind_Ok _ _ _ _ _ Hrun1).
  destruct (IH s1 _ _ ph Hc1) as (s' & L' & l' & Hrun' & Hc' & Hsub'); [|done|].
  { apply (fresh_children_submitted (concat css) cs s s1 Hsub1).
    - intros x Hx Hx'. by apply (Hdisj x).
    - split; [done|]. intros x Hx. apply Hfresh, elem_of_app. by right. }
  exists s', L', l'. split; [done|]. split; [done|].
  by apply (submitted_trans cs (concat css) s s1 s').
Qed.
End submission.

(** *** A run of the body *)

Section segment.
Implicit Types (s : State) (L : gset ptr) (l : list ptr) (j : Job).

(** The coroutine suspends: its frame keeps the rest of the body. *)
Lemma counted_suspend L l s P j rest :
  counted L l (running P) s → mem s !! P = Some j → m_done j = false →
  counted L l (running P) (set_mem (<[P := set_frame rest false j]> (mem s)) s) ∧
  submitted [] s (set_mem (<[P := set_frame rest false j]> (mem s)) s).
Proof.
  intros Hc Hj Hd. split; [|by apply (submitted_write s P j)].
  apply counted_frame with (j := j); try done.
  pose proof (cnt_promises _ _ _ _ Hc P j Hj) as Hok.
  unfold promise_ok in *. simpl. by rewrite Hd in Hok.
Qed.

(** The body of the job [P] that a worker executes runs to its next
    suspension point, or to its [co_return], submitting coroutines that
    were never scheduled: under watch the run completes, and the
    invariant holds after it. *)
Lemma watched_coro_resume_Ok idx P body : ∀ s L l j,
  counted L l (running P) s → mem s !! P = Some j → m_done j = false →
  fresh_children s (segment_children (mkThread idx (Some P)) body) →
  ∃ s' L' l', watched_coro_resume (mkThread idx (Some P)) P body s = Ok (tt, s') ∧
              counted L' l' (running P) s' ∧ size (mem s') = size (mem s).
Proof.
  set (th := mkThread idx (Some P)).
  assert (∀ P', current_job th = Some P' → running P = running P') as Hrun
    by (by intros P' [= <-]).
  induction body as [v|c rest IH|k rest IH|c rest IH|cs rest IH|css rest IH];
    intros s L l j Hc Hj Hd Hfresh.
  - change (watched_coro_resume th P (co_return v)) with (coro_resume th P (co_return v)).
    rewrite (coro_resume_returns th P (co_return v) v s j eq_refl Hj).
    eexists _, L, l. split; [done|]. split.
    + apply counted_frame with (j := j); try done. by right.
    + simpl. by rewrite map_size_insert_Some by eauto.
  - simpl in *. unfold suspend.
    rewrite (bind_Ok _ _ _ _ _ (update_Ok _ _ _ _ Hj)).
    destruct (counted_suspend L l s P j rest Hc Hj Hd) as [Hc0 Hsub0].
    set (s0 := set_mem _ s) in *.
    pose proof (fresh_children_submitted [c] [] s s0 Hsub0) as Hfresh0.
    destruct Hfresh0 as [_ Hfresh0]; [by intros ? _ ?%elem_of_nil|done|].
    destruct (Hfresh0 c) as [[jc Hjc] Hns]; [by left|].
    destruct (watched_schedule_coro_Ok th c s0 L l (running P) jc Hc0 Hjc Hns Hrun)
      as (s' & Hrun' & Hc' & Hsub').
    eexists s', _, _. split; [done|]. split; [done|].
    destruct Hsub0 as [<- _]. by destruct Hsub' as [-> _].
  - simpl in *. destruct (awaitable_resume_on_await_ready th k) eqn:Hready.
    { by apply (IH s L l j). }
    unfold suspend, awaitable_resume_on_await_suspend.
    rewrite (update_twice _ _ _ _ _ Hj).
    eexists _, L, l. split; [done|]. split.
    + apply counted_frame with (j := j); try done.
      pose proof (cnt_promises _ _ _ _ Hc P j Hj) as Hok.
      unfold promise_ok in *. simpl. by rewrite Hd in Hok.
    + simpl. by rewrite map_size_insert_Some by eauto.
  - simpl in *. destruct Hfresh as [Hnd Hfresh].
    destruct (Hfresh c) as [[jc Hjc] Hns]; [by left|].
    destruct (watched_schedule_coro_Ok th c s L l (running P) jc Hc Hjc Hns Hrun)
      as (s1 & Hrun1 & Hc1 & Hsub1).
    rewrite (bind_Ok _ _ _ _ _ Hrun1).
    apply NoDup_cons in Hnd as [Hcn Hnd].
    destruct Hsub1 as (Hz1 & Hs1 & Hd1).
    destruct (Hd1 P j Hj) as (j1 & Hj1 & Hdj1).
    destruct (IH s1 _ _ j1 Hc1 Hj1) as (s' & L' & l' & Hrun' & Hc' & Hz'); [congruence| |].
    { apply (fresh_children_submitted _ [c] s s1); [done| |].
      - intros x Hx ->%list_elem_of_singleton. done.
      - split; [done|]. intros x Hx. apply Hfresh. by right. }
    exists s', L', l'. split; [done|]. split; [done|]. congruence.
  - simpl in *. destruct (awaitable_coro_vector_await_ready cs) eqn:Hready.
    { by apply (IH s L l j). }
    unfold suspend, awaitable_coro_vector_await_suspend.
    rewrite (bind_Ok _ _ _ _ _ (update_Ok _ _ _ _ Hj)).
    destruct (counted_suspend L l s P j rest Hc Hj Hd) as [Hc0 Hsub0].
    set (s0 := set_mem _ s) in *.
    destruct (watched_schedule_coros_Ok th cs s0 L l (running P) Hc0)
      as (s' & L' & l' & Hrun' & Hc' & Hsub'); [|done|].
    { apply (fresh_children_submitted cs [] s s0 Hsub0); [|done].
      by intros ? _ ?%elem_of_nil. }
    exists s', L', l'. split; [done|]. split; [done|].
    destruct Hsub0 as [<- _]. by destruct Hsub' as [-> _].
  - simpl in *. destruct (awaitable_tuple_await_ready _) eqn:Hready.
    { by apply (IH s L l j). }
    unfold suspend.
    rewrite (bind_Ok _ _ _ _ _ (update_Ok _ _ _ _ Hj)).
    destruct (counted_suspend L l s P j rest Hc Hj Hd) as [Hc0 Hsub0].
    set (s0 := set_mem _ s) in *.
    destruct (watched_tuple_await_suspend_Ok th css s0 L l (running P) Hc0)
      as (s' & L' & l' & Hrun' & Hc' & Hsub'); [|done|].
    { apply (fresh_children_submitted (concat css) [] s s0 Hsub0); [|done].
      by intros ? _ ?%elem_of_nil. }
    exists s', L', l'. split; [done|]. split; [done|].
    destruct Hsub0 as [<- _]. by destruct Hsub' as [-> _].
Qed.
End segment.

(** *** Completion *)

Section completion_watched.
Implicit Types (s : State) (L : gset ptr) (l : list ptr) (j : Job) (th : Thread).

(** [on_finished] on a promise that has not finished: it puts itself
    back on the queue. *)
Lemma watched_on_finished_again fuel th x s j :
  mem s !! x = Some j → m_continuation j = Some x → m_parent j = None →
  ∃ s', watched_on_finished (S fuel) th x s = Ok (tt, s') ∧
        mem s' = <[x := set_next (m_central_queue s) j]> (mem s) ∧
        m_central_queue s' = Some x ∧
        m_local_queues s' = m_local_queues s ∧
        calls s' = calls s ++ [call_on_finished x; call_schedule x (-1)].
Proof.
  intros Hj Hc Hp.
  set (s0 := add_call (call_on_finished x) s).
  destruct (schedule_central th x (-1) s0 j)
    as (s2 & Hs & Hmem & Hcq & Hlq & Hcalls & _); [lia|done|].
  exists s2. split; [|split; [done|split; [done|split; [done|]]]].
  - simpl. unfold log, modify. unfold mbind at 1, M_bind. fold s0.
    assert (mem s0 !! x = Some j) as Hj0 by done.
    rewrite (bind_Ok _ _ _ _ _ (deref_Ok _ _ _ Hj0)). rewrite Hc, Hp.
    unfold mbind at 1, M_bind. unfold mbind at 1, M_bind. simpl. rewrite Hs.
    assert (mem s2 !! x = Some (set_next (m_central_queue s) j)) as Hj2.
    { rewrite Hmem. simpl. by rewrite lookup_insert_eq. }
    rewrite (bind_Ok _ _ _ _ _ (deref_Ok _ _ _ Hj2)). simpl. by rewrite Hp.
  - rewrite Hcalls. subst s0. simpl. by rewrite <- app_assoc.
Qed.

Lemma watched_on_finished_leaf fuel th x s j :
  mem s !! x = Some j → m_continuation j = None → m_parent j = None →
  watched_on_finished (S fuel) th x s = Ok (tt, add_call (call_on_finished x) s).
Proof.
  intros Hj Hc Hp. simpl. unfold log, modify.
  unfold mbind at 1, M_bind.
  assert (mem (add_call (call_on_finished x) s) !! x = Some j) as Hj' by done.
  rewrite (bind_Ok _ _ _ _ _ (deref_Ok _ _ _ Hj')). rewrite Hc.
  unfold mbind at 1, M_bind. simpl.
  rewrite (bind_Ok _ _ _ _ _ (deref_Ok _ _ _ Hj')). by rewrite Hp.
Qed.

Lemma watched_on_finished_notify fuel th x s j p :
  mem s !! x = Some j → m_continuation j = None → m_parent j = Some p →
  watched_on_finished (S fuel) th x s =
    watched_child_finished fuel th p (add_call (call_on_finished x) s).
Proof.
  intros Hj Hc Hp. simpl. unfold log, modify. unfold mbind at 1, M_bind.
  assert (mem (add_call (call_on_finished x) s) !! x = Some j) as Hj0 by done.
  rewrite (bind_Ok _ _ _ _ _ (deref_Ok _ _ _ Hj0)). rewrite Hc.
  unfold mbind at 1, M_bind. simpl.
  rewrite (bind_Ok _ _ _ _ _ (deref_Ok _ _ _ Hj0)). by rewrite Hp.
Qed.

(** The counter of the job whose execution is under way is at least 1
    and within the range of [int]. *)
Lemma counted_running_counter L l s q j :
  counted L l (running q) s → mem s !! q = Some j →
  1 <= m_children j <= Int32.max_signed.
Proof.
  intros Hc Hj. destruct (cnt_phase _ _ _ _ Hc q eq_refl) as [HL Hl].
  rewrite (cnt_waiting _ _ _ _ Hc q j Hj HL Hl), decide_True by done.
  pose proof (counted_kids_size _ _ _ _ q Hc HL).
  pose proof (cnt_bound _ _ _ _ Hc). unfold Int32.max_signed. lia.
Qed.

(** The completion of a job climbs through the jobs it notifies: under
    watch it runs to its end, every decrement finding a counter of 1 or
    more, and the invariant holds after it. *)
Lemma watched_completion fuel :
  (∀ th x s L l j,
     counted L l idle s → x ∈ L → x ∉ l → mem s !! x = Some j → m_children j = 0 →
     (2 * size L ≤ S fuel)%nat →
     ∃ s' L' l', watched_on_finished fuel th x s = Ok (tt, s') ∧ counted L' l' idle s') ∧
  (∀ th q s L l,
     counted L l (running q) s → (2 * size L ≤ fuel)%nat →
     ∃ s' L' l', watched_child_finished fuel th q s = Ok (tt, s') ∧ counted L' l' idle s').
Proof.
  induction fuel as [|fuel [IHo IHc]].
  { split.
    - intros th x s L l j Hc HxL _ _ _ Hfuel.
      assert (size L = 0%nat) as HL%size_empty_inv by lia.
      apply HL in HxL. by apply elem_of_empty in HxL.
    - intros th q s L l Hc Hfuel.
      destruct (cnt_phase _ _ _ _ Hc q eq_refl) as [HqL _].
      assert (size L = 0%nat) as HL%size_empty_inv by lia.
      apply HL in HqL. by apply elem_of_empty in HqL. }
  split.
  - intros th x s L l j Hc HxL Hxl Hj Hch Hfuel.
    pose proof (cnt_promises _ _ _ _ Hc x j Hj) as Hok. unfold promise_ok in Hok.
    destruct (m_done j) eqn:Hd.
    + pose proof (cnt_done _ _ _ _ Hc x j Hj HxL Hd) as Hpar.
      pose proof (counted_leave L l s x j Hc HxL Hxl Hj Hch) as Hc'.
      destruct (m_coro_parent j) as [q|] eqn:Hcp.
      * rewrite (watched_on_finished_notify fuel th x s j q Hj Hok Hpar).
        apply (IHc th q _ _ _ Hc').
        rewrite size_difference by (by apply singleton_subseteq_l).
        rewrite size_singleton. lia.
      * rewrite (watched_on_finished_leaf fuel th x s j Hj Hok Hpar). eauto.
    + destruct Hok as (Hcont & Hpar & _).
      destruct (watched_on_finished_again fuel th x s j Hj Hcont Hpar)
        as (s' & Hrun & Hmem & Hcq & Hlq & Hcalls).
      exists s', L, (x :: l). split; [done|].
      by apply (counted_again L l s s' x j).
  - intros th q s L l Hc Hfuel.
    destruct (cnt_phase _ _ _ _ Hc q eq_refl) as [HqL Hql].
    destruct (counted_allocated _ _ _ _ q Hc HqL) as [jq Hjq].
    set (s0 := add_call (call_child_finished q) s).
    assert (counted L l (running q) s0) as Hc0.
    { apply (counted_ext L l (running q) s s0); try done.
      apply (scheduled_again s s0 [call_child_finished q]); [done|].
      intros p thd Hin. apply list_elem_of_singleton in Hin. done. }
    assert (mem s0 !! q = Some jq) as Hjq0 by done.
    pose proof (counted_running_counter L l s0 q jq Hc0 Hjq0) as Hrange.
    simpl. unfold log, modify. unfold mbind at 1, M_bind. fold s0.
    rewrite (bind_Ok _ _ _ _ _ (watched_fetch_sub_Ok _ _ _ Hjq0 Hrange)).
    pose proof (counted_decrement L l s0 q jq Hc0 Hjq0) as Hc1.
    set (s1 := set_mem _ s0) in *.
    case_bool_decide as Hone; [|by eauto].
    apply (IHo th q s1 L l (set_children (m_children jq - 1) jq)); try done.
    + subst s1. simpl. by rewrite lookup_insert_eq.
    + simpl. lia.
Qed.
End completion_watched.

(** *** A turn of a worker *)

Section turn.
Implicit Types (s : State) (L : gset ptr) (l : list ptr) (j : Job).

(** The execution of the head [P] of the queue, after it was taken
    from the queue. *)
Lemma watched_Job_call_Ok fuel idx s L l P jP :
  counted L (P :: l) idle s → mem s !! P = Some jP →
  (2 * size (mem s) ≤ S fuel)%nat →
  fresh_children s (segment_children (mkThread idx (Some P)) (m_coro jP)) →
  ∃ s' L' l',
    watched_Job_call fuel (mkThread idx (Some P)) P (set_central_queue (m_next jP) s)
      = Ok (tt, s') ∧
    counted L' l' idle s'.
Proof.
  intros Hc HjP Hfuel Hfresh.
  destruct (cnt_queued _ _ _ _ Hc P jP HjP) as (HPL & HPd & _); [by left|].
  set (th := mkThread idx (Some P)).
  set (s0 := set_central_queue (m_next jP) s).
  assert (mem s0 !! P = Some jP) as HjP0 by done.
  unfold watched_Job_call.
  rewrite (bind_Ok _ _ _ _ _ (update_Ok _ _ _ _ HjP0)).
  pose proof (counted_pop L l s P jP Hc HjP) as Hc2. fold s0 in Hc2.
  set (s2 := set_mem _ s0) in *.
  assert (mem s2 !! P = Some (set_children 1 jP)) as HjP2
    by (subst s2; simpl; by rewrite lookup_insert_eq).
  assert (counted L l (running P)
            (set_mem (<[P := set_children 1 (set_children 1 jP)]> (mem s2)) s2)) as Hc3.
  { apply counted_frame with (j := set_children 1 jP); try done.
    - by apply (cnt_promises _ _ _ _ Hc2 P).
    - simpl. intros. congruence.
    - simpl. intros. congruence. }
  set (s3 := set_mem _ s2) in Hc3.
  assert (mem s3 !! P = Some (set_children 1 (set_children 1 jP))) as HjP3
    by (subst s3; simpl; by rewrite lookup_insert_eq).
  assert (submitted [] s s3) as Hsub.
  { apply (submitted_trans [] [] s s2 s3).
    - by apply (submitted_write s0 P jP).
    - by apply (submitted_write s2 P (set_children 1 jP)). }
  destruct (watched_coro_resume_Ok idx P (m_coro jP) s3 L l _ Hc3 HjP3 HPd)
    as (s4 & L' & l' & Hrun4 & Hc4 & Hz4).
  { by apply (fresh_children_submitted _ [] s s3 Hsub); [intros ? _ ?%elem_of_nil|]. }
  fold th in Hrun4.
  assert (watched_Coro_promise_resume th P s2 = Ok (true, s4)) as Hresume.
  { unfold watched_Coro_promise_resume.
    rewrite (bind_Ok _ _ _ _ _ (deref_Ok _ _ _ HjP2)). simpl m_done. rewrite HPd.
    unfold mbind at 1, M_bind. unfold mbind at 1, M_bind.
    rewrite (update_Ok _ _ _ _ HjP2). fold s3. simpl m_coro. by rewrite Hrun4. }
  rewrite (bind_Ok _ _ _ _ _ Hresume).
  destruct (cnt_phase _ _ _ _ Hc4 P eq_refl) as [HPL' HPl'].
  destruct (counted_allocated _ _ _ _ P Hc4 HPL') as [j4 Hj4].
  pose proof (counted_running_counter L' l' s4 P j4 Hc4 Hj4) as Hrange.
  rewrite (bind_Ok _ _ _ _ _ (watched_fetch_sub_Ok _ _ _ Hj4 Hrange)).
  pose proof (counted_decrement L' l' s4 P j4 Hc4 Hj4) as Hc5.
  set (s5 := set_mem _ s4) in *.
  case_bool_decide as Hone; [|by exists s5, L', l'].
  apply (proj1 (watched_completion fuel) th P s5 L' l'
           (set_children (m_children j4 - 1) j4) Hc5 HPL' HPl').
  - subst s5. simpl. by rewrite lookup_insert_eq.
  - simpl. lia.
  - pose proof (counted_size _ _ _ _ Hc5) as Hsize.
    assert (size (mem s5) = size (mem s)) as Hz5.
    { subst s5. simpl. rewrite map_size_insert_Some by eauto.
      rewrite Hz4. by destruct Hsub as [-> _]. }
    lia.
Qed.

(** A turn of a worker that exists, in a state of the invariant, with
    the job at the head of the queue submitting only coroutines that
    were never scheduled: under watch the turn completes, it executes
    the head of the queue, and the invariant holds after it. *)
Lemma watched_thread_task_turn_Ok fuel idx s L l :
  counted L l idle s →
  is_Some (m_local_queues s !! Z.to_nat idx) →
  (2 * size (mem s) + 2 ≤ fuel)%nat →
  (∀ P jP, m_central_queue s = Some P → mem s !! P = Some jP →
     fresh_children s (segment_children (mkThread idx (Some P)) (m_coro jP))) →
  ∃ s' L' l', watched_thread_task_turn fuel idx s = Ok (m_central_queue s, s') ∧
              counted L' l' idle s'.
Proof.
  intros Hc [h Hh] Hfuel Hdisc.
  assert (queue_holds s (Local (Z.to_nat idx)) []) as Hloc.
  { exists h. split; [done|]. simpl. by apply (cnt_local _ _ _ _ Hc _ _ Hh). }
  unfold watched_thread_task_turn.
  rewrite (bind_Ok _ _ _ _ _ (pop_empty true _ _ s Hloc)).
  destruct l as [|P l].
  { pose proof (cnt_queue _ _ _ _ Hc) as Hq. simpl in Hq.
    rewrite (bind_Ok _ _ _ _ _ (pop_lifo_empty fuel s Hq)). rewrite Hq.
    by exists s, L, []. }
  pose proof (cnt_queue _ _ _ _ Hc) as Hq.
  destruct (Hq) as (Hhead & jP & HjP & _).
  destruct fuel as [|fuel]; [lia|].
  rewrite (bind_Ok _ _ _ _ _ (pop_lifo_head fuel s P l jP Hq HjP)).
  destruct (watched_Job_call_Ok (S fuel) idx s L l P jP Hc HjP)
    as (s' & L' & l' & Hrun & Hc'); [lia|by apply Hdisc|].
  rewrite (bind_Ok _ _ _ _ _ Hrun). rewrite Hhead.
  by exists s', L', l'.
Qed.
End turn.

(** *** The executions *)

Section executions.
Implicit Types (s : State) (L : gset ptr) (l : list ptr) (j : Job).

Lemma single_step_step s s' : single_step s s' → step s s'.
Proof.
  intros [p body s1 s2 _ H|coro k s1 s2 H|th coro s1 s2 _ _ H|fuel idx r s1 s2 _ _ H].
  - by apply (step_create p body).
  - by apply (step_affinity coro k).
  - by apply (step_schedule_coro th coro).
  - by apply (step_thread_task fuel idx r).
Qed.

Lemma rtc_single_step_step s s' : rtc single_step s s' → rtc step s s'.
Proof.
  induction 1 as [|s1 s2 s3 H _ IH]; [done|].
  eapply rtc_l; [by apply single_step_step|done].
Qed.

(** A turn that completes was taken by a worker that exists. *)
Lemma thread_task_turn_worker fuel idx s r s' :
  thread_task_turn fuel idx s = Ok (r, s') →
  is_Some (m_local_queues s !! Z.to_nat idx).
Proof.
  unfold thread_task_turn, pop. intros (local & s1 & H & _)%bind_inv_Ok.
  apply bind_inv_Ok in H as (h & s2 & H & _). simpl in H.
  destruct (m_local_queues s !! Z.to_nat idx); [by eexists|done].
Qed.

(** A turn in a state of the invariant is the turn under watch. *)
Lemma turn_is_watched fuel idx s L l r s' :
  counted L l idle s →
  (2 * size (mem s) + 2 ≤ fuel)%nat →
  (∀ P jP, m_central_queue s = Some P → mem s !! P = Some jP →
     fresh_children s (segment_children (mkThread idx (Some P)) (m_coro jP))) →
  thread_task_turn fuel idx s = Ok (r, s') →
  watched_thread_task_turn fuel idx s = Ok (r, s') ∧ ∃ L' l', counted L' l' idle s'.
Proof.
  intros Hc Hfuel Hdisc Hturn.
  pose proof (thread_task_turn_worker _ _ _ _ _ Hturn) as Hworker.
  destruct (watched_thread_task_turn_Ok fuel idx s L l Hc Hworker Hfuel Hdisc)
    as (s1 & L' & l' & Hrun & Hc').
  pose proof (watched_thread_task_turn_run _ _ _ _ Hrun) as Hplain.
  rewrite Hturn in Hplain. inversion Hplain; subst r s1. eauto.
Qed.

Lemma single_step_counted s s' :
  single_step s s' → (∃ L l, counted L l idle s) → ∃ L l, counted L l idle s'.
Proof.
  intros Hstep (L & l & Hc).
  destruct Hstep as [p body s s' Hsize H|coro k s s' H|th coro s s' Hcur Hns H
                    |fuel idx r s s' Hfuel Hdisc H].
  - unfold Coro_promise_new in H.
    destruct (mem s !! p) eqn:Hp; [done|]. inversion H; subst s'.
    exists L, l. by apply counted_create.
  - unfold Coro_call in H. apply update_inv in H as (j & Hj & ->).
    exists L, l. apply counted_frame with (j := j); try done.
    + by apply (cnt_promises _ _ _ _ Hc coro j).
    + intros ?. by left.
    + simpl. intros HL Hd. by apply (cnt_done _ _ _ _ Hc coro).
  - destruct (schedule_coro_allocated _ _ _ _ _ H) as [[jc Hjc] _].
    destruct (watched_schedule_coro_Ok th coro s L l idle jc Hc Hjc Hns)
      as (s1 & Hrun & Hc1 & _).
    { intros P HP. congruence. }
    apply watched_schedule_coro_run in Hrun. rewrite H in Hrun.
    inversion Hrun; subst s1. eauto.
  - by destruct (turn_is_watched fuel idx s L l r s' Hc Hfuel Hdisc H).
Qed.

Lemma rtc_single_step_counted n hw s :
  rtc single_step (JobSystem_new n hw) s → ∃ L l, counted L l idle s.
Proof.
  intros Hrtc.
  eapply (rtc_ind_r (λ s, ∃ L l, counted L l idle s)); [| |exact Hrtc].
  - exists ∅, []. apply counted_new.
  - intros s1 s2 _ Hstep IH. by apply (single_step_counted s1 s2).
Qed.
End executions.


(** The run of [parent_of_two] up to the first turn of the worker is
    such an execution: three coroutines are created, the main thread
    submits coroutine 1, and the worker executes it, which submits the
    coroutines 2 and 3. *)
Lemma parent_of_two_run :
  rtc single_step (JobSystem_new 1 1) (exec (thread_task_turn 8 0) parent_of_two).
Proof.
  set (s1 := exec (Coro_promise_new 3 (co_return 30)) (JobSystem_new 1 1)).
  set (s2 := exec (Coro_promise_new 2 (co_return 20)) s1).
  set (s3 := exec (Coro_promise_new 1 (co_await_coros [2; 3]%nat (co_return 10))) s2).
  assert (∀ s p, calls s = [] → ¬ scheduled s p) as Hnone.
  { intros s p Hc [thd H]. rewrite Hc in H. by apply elem_of_nil in H. }
  eapply rtc_l; [apply (single_create 3 (co_return 30) _ s1); by vm_compute|].
  eapply rtc_l; [apply (single_create 2 (co_return 20) _ s2); by vm_compute|].
  eapply rtc_l;
    [apply (single_create 1 (co_await_coros [2; 3]%nat (co_return 10)) _ s3); by vm_compute|].
  eapply rtc_l; [apply (single_submit main_thread 1 _ parent_of_two)|].
  { done. }
  { by apply Hnone. }
  { by vm_compute. }
  eapply rtc_l; [|apply rtc_refl].
  apply (single_turn 8 0 (Some 1%nat)).
  - vm_compute. lia.
  - intros P jP HP HjP. vm_compute in HP. inversion HP; subst P.
    vm_compute in HjP. inversion HjP; subst jP.
    assert (calls parent_of_two = [call_schedule 1 (-1)]) as Hcalls by done.
    split.
    + apply NoDup_cons. split; [by intros ?%list_elem_of_singleton|apply NoDup_singleton].
    + intros c Hc. simpl in Hc.
      repeat (apply elem_of_cons in Hc as [->|Hc]); [..|by apply elem_of_nil in Hc];
        (split; [by vm_compute; eauto|]);
        intros [thd H]; rewrite Hcalls in H; by apply list_elem_of_singleton in H.
  - by vm_compute.
Qed.


(** X11.  In the executions of [single_step] (every coroutine submitted
    at most once, coroutines run by the turns of the workers only, no
    frame destroyed, fewer than [2 ^ 31 - 2] frames) a turn of a worker
    that exists always completes, when the job at the head of the
    central queue submits only coroutines that exist and were never
    scheduled: every pointer the turn follows is allocated, and the
    completion climbs through at most as many jobs as there are frames.
    The turn executes the job at the head of the central queue, if
    there is one. *)
Theorem worker_turn_completes (threadCount hardware_concurrency : nat) (s : State)
    (fuel : nat) (idx : Z) :
  rtc single_step (JobSystem_new threadCount hardware_concurrency) s →
  0 <= idx < m_thread_count s →
  (2 * size (mem s) + 2 ≤ fuel)%nat →
  (∀ P jP, m_central_queue s = Some P → mem s !! P = Some jP →
     fresh_children s (segment_children (mkThread idx (Some P)) (m_coro jP))) →
  ∃ s', thread_task_turn fuel idx s = Ok (m_central_queue s, s').
Proof.
  intros Hrtc Hidx Hfuel Hdisc.
  destruct (rtc_single_step_counted _ _ _ Hrtc) as (L & l & Hc).
  assert (is_Some (m_local_queues s !! Z.to_nat idx)) as Hworker.
  { destruct (rtc_step_same_shape _ _ (rtc_single_step_step _ _ Hrtc)) as [Hcnt Hlen].
    apply lookup_lt_is_Some. rewrite Hlen. rewrite Hcnt in Hidx.
    unfold JobSystem_new in *. simpl in *. rewrite length_replicate. lia. }
  destruct (watched_thread_task_turn_Ok fuel idx s L l Hc Hworker Hfuel Hdisc)
    as (s' & _ & _ & Hrun & _).
  exists s'. by apply watched_thread_task_turn_run.
Qed.

Lemma worker_turn_completes_witness :
  ∃ s', thread_task_turn 8 0 (exec (thread_task_turn 8 0) parent_of_two)
        = Ok (Some 3%nat, s').
Proof.
  destruct (worker_turn_completes 1 1 _ 8 0 parent_of_two_run) as [s' Hturn].
  - by vm_compute.
  - vm_compute. lia.
  - intros P jP HP HjP. vm_compute in HP. inversion HP; subst P.
    vm_compute in HjP. inversion HjP; subst jP.
    split; [constructor|]. intros c Hc. by apply elem_of_nil in Hc.
  - by exists s'.
Defined.

(** X7.  A coroutine that is resumed by hand while it waits for its
    children.  In the run [resumed_by_hand] every coroutine is submitted
    once, and every operation completes.  [Coro<T>::resume] sets the
    counter of coroutine 1, which stood at 2 for its two children, to 1
    and runs the coroutine to its [co_return]; the first child that
    finishes takes the counter to 0 and finishes coroutine 1, the second
    takes it to [-1]. *)
Example resume_by_hand_unbalances :
  ∃ s j, resumed_by_hand parent_of_two = Ok (Some 2%nat, s) ∧
         calls s = [call_schedule 1 (-1); call_schedule 2 (-1); call_schedule 3 (-1);
                    call_on_finished 3; call_child_finished 1; call_on_finished 1;
                    call_on_finished 2; call_child_finished 1] ∧
         mem s !! 1%nat = Some j ∧ m_done j = true ∧ m_children j = -1.
Proof.
  eexists _, _. split; [vm_compute; reflexivity|]. split; [reflexivity|].
  split; [vm_compute; reflexivity|]. done.
Qed.

(** X21.  A frame that is destroyed, through [Coro_promise::deallocate],
    while its children are pending.  In the run [destroyed_and_reused]
    every operation completes.  The
    children of the destroyed coroutine 1 keep its address in
    [m_coro_parent]; the first child that finishes calls
    [child_finished] on the coroutine that now lives at that address,
    takes its counter from 1 to 0 and so schedules it, though nobody
    submitted it; the second child takes the counter to [-1]. *)
Example destroyed_parent_unbalances :
  ∃ s j, destroyed_and_reused parent_of_two = Ok (Some 2%nat, s) ∧
         calls s = [call_schedule 1 (-1); call_schedule 2 (-1); call_schedule 3 (-1);
                    call_on_finished 3; call_child_finished 1; call_on_finished 1;
                    call_schedule 1 (-1); call_on_finished 1;
                    call_on_finished 2; call_child_finished 1] ∧
         mem s !! 1%nat = Some j ∧ m_value j = 5 ∧ m_children j = -1.
Proof.
  eexists _, _. split; [vm_compute; reflexivity|]. split; [reflexivity|].
  split; [vm_compute; reflexivity|]. done.
Qed.
